(** * libdmtx encoding core (dmtxencodescheme.c): scheme rules

    A shallow embedding of the scheme encoders of [dmtxencodescheme.c]
    and the properties of the encoding core that are checked against it.

    Conventions of the embedding.

    - [DmtxByte] ([unsigned char]) is [Byte.byte]; the implicit
      conversions between [DmtxByte] and [int] are written out as
      [Z_of_byte] and [byte_of_Z] (reduction modulo 256).
    - [int] is [Z].  Every [int] of this file is a length, a count, a
      position or a symbol size index, bounded by the buffer capacities,
      so no [int] overflow is modelled.  [/] and [%] are [Z.quot] and
      [Z.rem] (C truncates towards zero).
    - A [DmtxByteList] is the C struct: a length, a capacity and a pointer
      [b] into the memory [Mem], which maps allocated arrays to their
      cells.  Two byte lists with the same [b] alias.
    - A function taking [DmtxEncodeStream *stream] is a computation over
      the state made of the memory and the pointed stream struct.  [None]
      is abnormal termination: a failed [assert], an access outside an
      array, or a loop that ran out of fuel. *)

From Stdlib Require Import ZArith Lia.
From Stdlib.Strings Require Import Byte.
From stdpp Require Import base option gmap list.

Local Open Scope Z_scope.

(** ** Bytes *)

Definition Z_of_byte (x : byte) : Z := Z.of_N (Byte.to_N x).

Definition byte_of_Z (z : Z) : byte :=
  match Byte.of_N (Z.to_N (z mod 256)) with
  | Some x => x
  | None => x00
  end.

(** ** Constants of dmtx.h *)

(** Modelled from the spec: the constants and enumerations of dmtx.h,
    which the encoder file includes.  The codeword constants are those of
    the table of wire-visible constants; the schemes and the statuses are
    the ones the data model lists; [DmtxUndefined] is the [int] that
    stands for "no value". *)
Definition DmtxUndefined : Z := -1.

Inductive DmtxPassFail := DmtxFail | DmtxPass.

Inductive DmtxStatus :=
  | DmtxStatusEncoding
  | DmtxStatusComplete
  | DmtxStatusInvalid
  | DmtxStatusFatal.

Inductive DmtxScheme :=
  | DmtxSchemeAscii
  | DmtxSchemeC40
  | DmtxSchemeText
  | DmtxSchemeX12
  | DmtxSchemeEdifact
  | DmtxSchemeBase256.

Inductive DmtxUnlatch := DmtxUnlatchExplicit | DmtxUnlatchImplicit.

Global Instance DmtxStatus_eq_dec : EqDecision DmtxStatus.
Proof. solve_decision. Defined.

Global Instance DmtxScheme_eq_dec : EqDecision DmtxScheme.
Proof. solve_decision. Defined.

Global Instance DmtxUnlatch_eq_dec : EqDecision DmtxUnlatch.
Proof. solve_decision. Defined.

Global Instance DmtxPassFail_eq_dec : EqDecision DmtxPassFail.
Proof. solve_decision. Defined.

Definition DmtxValueAsciiPad : Z := 129.
Definition DmtxValueAsciiUpperShift : Z := 235.
Definition DmtxValueC40Latch : Z := 230.
Definition DmtxValueTextLatch : Z := 239.
Definition DmtxValueX12Latch : Z := 238.
Definition DmtxValueEdifactLatch : Z := 240.
Definition DmtxValueBase256Latch : Z := 231.
Definition DmtxValueCTXUnlatch : Z := 254.
Definition DmtxValueEdifactUnlatch : Z := 31.
Definition DmtxValueCTXShift1 : Z := 0.
Definition DmtxValueCTXShift2 : Z := 1.
Definition DmtxValueCTXShift3 : Z := 2.

(** Modelled from the spec: the reason tag [DmtxChannelUnsupportedChar]
    is declared outside this file; only its being a diagnostic tag
    matters, its value is taken to be 1. *)
Definition DmtxChannelUnsupportedChar : Z := 1.

(** Modelled from the spec: the macro [ISDIGIT] of dmtxstatic.h, the test
    for a decimal digit character ['0'..'9']. *)
Definition ISDIGIT (n : Z) : bool := (47 <? n) && (n <? 58).

(** ** Memory and byte lists *)

Definition loc := nat.

Abbreviation Mem := (gmap loc (list byte)).

Record DmtxByteList := mkByteList {
  length : Z;
  capacity : Z;
  b : loc
}.

Definition load (m : Mem) (p : loc) (i : Z) : option byte :=
  if i <? 0 then None
  else match m !! p with
       | Some cells => cells !! Z.to_nat i
       | None => None
       end.

Definition store (m : Mem) (p : loc) (i : Z) (v : byte) : option Mem :=
  if i <? 0 then None
  else match m !! p with
       | Some cells =>
           if decide (Z.to_nat i < List.length cells)%nat
           then Some (<[p := <[Z.to_nat i := v]> cells]> m)
           else None
       | None => None
       end.

(** The bytes a list holds: the first [length] cells of its array. *)
Definition bytes_of (m : Mem) (l : DmtxByteList) : list byte :=
  take (Z.to_nat (length l)) (default [] (m !! b l)).

(** Modelled from the spec: [dmtxByteListBuild] and
    [dmtxByteListHasCapacity] of dmtxbytelist.c.  A list built over a
    storage array is empty and bounded by the capacity given; it has
    capacity while it holds fewer bytes than that. *)
Definition dmtxByteListBuild (storage : loc) (capacity : Z) : DmtxByteList :=
  {| length := 0; capacity := capacity; b := storage |}.

Definition dmtxByteListHasCapacity (l : DmtxByteList) : bool :=
  length l <? capacity l.

(** Modelled from the spec: [dmtxByteListPush] of dmtxbytelist.c, which
    appends one value to a bounded list.  The spec does not define a push
    on a full list; it is abnormal termination here. *)
Definition dmtxByteListPush (l : DmtxByteList) (value : byte) (m : Mem)
  : option (DmtxByteList * Mem) :=
  if dmtxByteListHasCapacity l then
    match store m (b l) (length l) value with
    | Some m' =>
        Some ({| length := length l + 1; capacity := capacity l; b := b l |}, m')
    | None => None
    end
  else None.

(** ** The encode stream *)

Record DmtxEncodeStream := mkStream {
  currentScheme : DmtxScheme;
  inputNext : Z;
  outputChainValueCount : Z;
  outputChainWordCount : Z;
  reason : Z;
  sizeIdx : Z;
  status : DmtxStatus;
  input : DmtxByteList;
  output : DmtxByteList
}.

Definition set_currentScheme (v : DmtxScheme) (s : DmtxEncodeStream) :=
  mkStream v (inputNext s) (outputChainValueCount s) (outputChainWordCount s)
    (reason s) (sizeIdx s) (status s) (input s) (output s).
Definition set_inputNext (v : Z) (s : DmtxEncodeStream) :=
  mkStream (currentScheme s) v (outputChainValueCount s)
    (outputChainWordCount s) (reason s) (sizeIdx s) (status s) (input s)
    (output s).
Definition set_outputChainValueCount (v : Z) (s : DmtxEncodeStream) :=
  mkStream (currentScheme s) (inputNext s) v (outputChainWordCount s)
    (reason s) (sizeIdx s) (status s) (input s) (output s).
Definition set_outputChainWordCount (v : Z) (s : DmtxEncodeStream) :=
  mkStream (currentScheme s) (inputNext s) (outputChainValueCount s) v
    (reason s) (sizeIdx s) (status s) (input s) (output s).
Definition set_reason (v : Z) (s : DmtxEncodeStream) :=
  mkStream (currentScheme s) (inputNext s) (outputChainValueCount s)
    (outputChainWordCount s) v (sizeIdx s) (status s) (input s) (output s).
Definition set_sizeIdx (v : Z) (s : DmtxEncodeStream) :=
  mkStream (currentScheme s) (inputNext s) (outputChainValueCount s)
    (outputChainWordCount s) (reason s) v (status s) (input s) (output s).
Definition set_status (v : DmtxStatus) (s : DmtxEncodeStream) :=
  mkStream (currentScheme s) (inputNext s) (outputChainValueCount s)
    (outputChainWordCount s) (reason s) (sizeIdx s) v (input s) (output s).
Definition set_output (v : DmtxByteList) (s : DmtxEncodeStream) :=
  mkStream (currentScheme s) (inputNext s) (outputChainValueCount s)
    (outputChainWordCount s) (reason s) (sizeIdx s) (status s) (input s) v.

(** The machine state a stream function runs in: the memory and the
    struct its [stream] argument points to. *)
Record State := mkState {
  mem : Mem;
  stream : DmtxEncodeStream
}.

(** The codewords written so far. *)
Definition output_bytes (σ : State) : list byte :=
  bytes_of (mem σ) (output (stream σ)).

(** ** The monad of stream functions *)

Definition M (A : Type) : Type := State → option (A * State).

Global Instance M_ret : MRet M := λ A a σ, Some (a, σ).

Global Instance M_bind : MBind M := λ A B k m σ,
  match m σ with
  | Some (a, σ') => k a σ'
  | None => None
  end.

Definition abort {A} : M A := λ _, None.

Definition gets {A} (f : DmtxEncodeStream → A) : M A :=
  λ σ, Some (f (stream σ), σ).

Definition modify (f : DmtxEncodeStream → DmtxEncodeStream) : M unit :=
  λ σ, Some (tt, mkState (mem σ) (f (stream σ))).

(** [CHKERR]: return from the enclosing function unless the stream is
    still encoding. *)
Definition chkerr {A} (r : A) (k : M A) : M A :=
  λ σ, if decide (status (stream σ) = DmtxStatusEncoding) then k σ
       else Some (r, σ).

Notation "'CHKERR;' k" := (chkerr tt k)
  (at level 100, k at level 200, only parsing, right associativity).

(** ** Stream primitives (dmtxencodestream.c) *)

(** Modelled from the spec: [StreamMarkComplete], [StreamMarkInvalid] and
    [StreamMarkFatal].  The stream leaves [Encoding] exactly once for
    [Complete], recording the resolved size; [Invalid] and [Fatal] are set
    with their diagnostic tag. *)
Definition StreamMarkComplete (sizeIdx : Z) : M unit :=
  modify (λ s, if decide (status s = DmtxStatusEncoding)
               then set_status DmtxStatusComplete (set_sizeIdx sizeIdx s)
               else s).

Definition StreamMarkInvalid (reasonIdx : Z) : M unit :=
  modify (λ s, set_reason reasonIdx (set_status DmtxStatusInvalid s)).

Definition StreamMarkFatal (reasonIdx : Z) : M unit :=
  modify (λ s, set_reason reasonIdx (set_status DmtxStatusFatal s)).

(** [CHKSCHEME]: a wrong current scheme is fatal. *)
Definition chkscheme (sch : DmtxScheme) (k : M unit) : M unit :=
  λ σ, if decide (currentScheme (stream σ) = sch) then k σ
       else StreamMarkFatal 1 σ.

Notation "'CHKSCHEME' s ';' k" := (chkscheme s k)
  (at level 100, s at level 9, k at level 200, only parsing,
   right associativity).

(** Modelled from the spec: [StreamInputHasNext], [StreamInputPeekNext]
    and [StreamInputAdvanceNext], the cursor over the immutable input.
    Peeking past the end is a contract violation (Fatal); the cursor only
    moves while the stream is encoding. *)
Definition StreamInputHasNext (s : DmtxEncodeStream) : bool :=
  inputNext s <? length (input s).

Definition StreamInputPeekNext : M byte :=
  λ σ, if StreamInputHasNext (stream σ) then
         match load (mem σ) (b (input (stream σ))) (inputNext (stream σ)) with
         | Some v => Some (v, σ)
         | None => None
         end
       else (StreamMarkFatal 1;; mret x00) σ.

Definition StreamInputAdvanceNext : M byte :=
  value ← StreamInputPeekNext;
  st ← gets status;
  (if decide (st = DmtxStatusEncoding)
   then modify (λ s, set_inputNext (inputNext s + 1) s)
   else mret tt);;
  mret value.

(** Modelled from the spec: [StreamOutputChainAppend], which appends one
    codeword to the output and advances [outputChainWordCount].  The
    output is bounded, and an encoder that runs out of room stops with a
    stream error (the scratch re-encode tells "clean finish" from "ran
    out of room" by the status).  Which error status that is the spec
    does not say; Fatal here is a choice of the model, and what is stated
    below of a whole encode that reaches a full output is only that the
    stream has stopped in an error status. *)
Definition StreamOutputChainAppend (value : byte) : M unit :=
  λ σ, let s := stream σ in
       if dmtxByteListHasCapacity (output s) then
         match dmtxByteListPush (output s) value (mem σ) with
         | Some (out, m) =>
             Some (tt, mkState m
                         (set_outputChainWordCount (outputChainWordCount s + 1)
                            (set_output out s)))
         | None => None
         end
       else StreamMarkFatal 1 σ.

(** Modelled from the spec: [StreamOutputChainRemoveLast], which removes
    and returns the last codeword of the current chain; an empty chain is
    a stream error. *)
Definition StreamOutputChainRemoveLast : M byte :=
  λ σ, let s := stream σ in
       if 0 <? outputChainWordCount s then
         match load (mem σ) (b (output s)) (length (output s) - 1) with
         | Some v =>
             Some (v, mkState (mem σ)
                        (set_outputChainWordCount (outputChainWordCount s - 1)
                           (set_output
                              (mkByteList (length (output s) - 1)
                                 (capacity (output s)) (b (output s))) s)))
         | None => None
         end
       else (StreamMarkFatal 1;; mret x00) σ.

(** Modelled from the spec: [StreamOutputSet], which overwrites the output
    codeword at an index inside the output. *)
Definition StreamOutputSet (index : Z) (value : byte) : M unit :=
  λ σ, let s := stream σ in
       if (index <? 0) || (length (output s) <=? index) then StreamMarkFatal 1 σ
       else match store (mem σ) (b (output s)) index value with
            | Some m => Some (tt, mkState m s)
            | None => None
            end.

(** Modelled from the spec: [StreamOutputChainInsertFirst] and
    [StreamOutputChainRemoveFirst], the front insertion and removal used
    for the Base256 header only.  The source marks both as stubs; the spec
    asks that they shift the current chain by one position.  The inserted
    first byte is a zero placeholder. *)
Definition StreamOutputChainInsertFirst : M unit :=
  λ σ, let s := stream σ in
       let out := output s in
       if dmtxByteListHasCapacity out then
         let chainStart := Z.to_nat (length out - outputChainWordCount s) in
         match mem σ !! b out with
         | Some cells =>
             if decide (0 <= length out - outputChainWordCount s
                        ∧ (Z.to_nat (length out) < List.length cells)%nat)
             then
               let cells' :=
                 take chainStart cells ++ x00 ::
                 take (Z.to_nat (length out) - chainStart)
                      (drop chainStart cells) ++
                 drop (Z.to_nat (length out) + 1) cells in
               Some (tt, mkState (<[b out := cells']> (mem σ))
                           (set_outputChainWordCount
                              (outputChainWordCount s + 1)
                              (set_output
                                 (mkByteList (length out + 1) (capacity out)
                                    (b out)) s)))
             else None
         | None => None
         end
       else StreamMarkFatal 1 σ.

Definition StreamOutputChainRemoveFirst : M unit :=
  λ σ, let s := stream σ in
       let out := output s in
       if 0 <? outputChainWordCount s then
         let chainStart := Z.to_nat (length out - outputChainWordCount s) in
         match mem σ !! b out with
         | Some cells =>
             if decide (0 <= length out - outputChainWordCount s
                        ∧ (Z.to_nat (length out) <= List.length cells)%nat)
             then
               let cells' :=
                 take chainStart cells ++
                 take (Z.to_nat (length out) - 1 - chainStart)
                      (drop (chainStart + 1) cells) ++
                 drop (Z.to_nat (length out) - 1) cells in
               Some (tt, mkState (<[b out := cells']> (mem σ))
                           (set_outputChainWordCount
                              (outputChainWordCount s - 1)
                              (set_output
                                 (mkByteList (length out - 1) (capacity out)
                                    (b out)) s)))
             else None
         | None => None
         end
       else StreamMarkFatal 1 σ.

(** Reading a cell of a byte list, pushing to a byte list that is a local
    of the running function, and the life time of a local array. *)
Definition read (l : DmtxByteList) (i : Z) : M byte :=
  λ σ, match load (mem σ) (b l) i with
       | Some v => Some (v, σ)
       | None => None
       end.

Definition push (l : DmtxByteList) (value : Z) : M DmtxByteList :=
  λ σ, match dmtxByteListPush l (byte_of_Z value) (mem σ) with
       | Some (l', m) => Some (l', mkState m (stream σ))
       | None => None
       end.

Definition with_array {A} (n : nat) (body : loc → M A) : M A :=
  λ σ, let p := fresh (dom (mem σ)) in
       match body p (mkState (<[p := replicate n x00]> (mem σ)) (stream σ)) with
       | Some (a, σ') => Some (a, mkState (delete p (mem σ')) (stream σ'))
       | None => None
       end.

(** ** Randomization *)

(** The encoder calls the two randomizers at positions of its output.  Its
    counters and lengths are mathematical integers here, and so is the
    position in the three definitions that follow: they are the functions
    of the code wherever [149 * position] fits an [int], that is up to
    position 14412641 ([Randomize253State2_int_small] and
    [Randomize255State2_int_small] below).  What the functions do on the
    whole of [int] is [Randomize253State2_int] and
    [Randomize255State2_int]. *)

(** The [int] that [Randomize253State2] holds in [tmp] when it reaches its
    assertion. *)
Definition Randomize253State2_tmp (cwValue : byte) (cwPosition : Z) : Z :=
  let pseudoRandom := Z.rem (149 * cwPosition) 253 + 1 in
  let tmp := Z_of_byte cwValue + pseudoRandom in
  if 254 <? tmp then tmp - 254 else tmp.

Definition Randomize253State2 (cwValue : byte) (cwPosition : Z)
  : option byte :=
  let tmp := Randomize253State2_tmp cwValue cwPosition in
  if (0 <=? tmp) && (tmp <? 256) then Some (byte_of_Z tmp) else None.

Definition Randomize255State2 (value : byte) (position : Z) : byte :=
  let pseudoRandom := Z.rem (149 * position) 255 + 1 in
  let tmp := Z_of_byte value + pseudoRandom in
  byte_of_Z (if tmp <=? 255 then tmp else tmp - 256).

(** *** The randomizers on [int]

    [cwPosition] and [position] are of the C type [int], and so are the
    products [149 * cwPosition] and [149 * position]: a product beyond
    [INT_MAX] wraps around in 32 bits, two's complement, and [%] on the
    negative [int] it leaves gives a remainder that is negative or zero. *)

Definition INT_MAX : Z := 2147483647.

Definition int_wrap (z : Z) : Z :=
  (z + 2147483648) mod 4294967296 - 2147483648.

Definition Randomize253State2_int_tmp (cwValue : byte) (cwPosition : Z) : Z :=
  let pseudoRandom := Z.rem (int_wrap (149 * cwPosition)) 253 + 1 in
  let tmp := Z_of_byte cwValue + pseudoRandom in
  if 254 <? tmp then tmp - 254 else tmp.

(** The assertion [tmp >= 0 && tmp < 256] that fails is abnormal
    termination. *)
Definition Randomize253State2_int (cwValue : byte) (cwPosition : Z)
  : option byte :=
  let tmp := Randomize253State2_int_tmp cwValue cwPosition in
  if (0 <=? tmp) && (tmp <? 256) then Some (byte_of_Z tmp) else None.

Definition Randomize255State2_int (value : byte) (position : Z) : byte :=
  let pseudoRandom := Z.rem (int_wrap (149 * position)) 255 + 1 in
  let tmp := Z_of_byte value + pseudoRandom in
  byte_of_Z (if tmp <=? 255 then tmp else tmp - 256).

(** ** ASCII *)

Definition EncodeValueAscii (value : byte) : M unit :=
  CHKSCHEME DmtxSchemeAscii;
  StreamOutputChainAppend value;; CHKERR;
  modify (λ s, set_outputChainValueCount (outputChainValueCount s + 1) s).

(** The part of [EncodeNextChunkAscii] after [v0], [v1] and [v1set] are
    read. *)
Definition EncodeNextChunkAscii_values (v0 v1 : Z) (v1set : bool) : M unit :=
  if ISDIGIT v0 && v1set && ISDIGIT v1 then
    StreamInputAdvanceNext;; CHKERR;
    EncodeValueAscii (byte_of_Z (10 * (v0 - 48) + (v1 - 48) + 130));; CHKERR;
    mret tt
  else if v0 <? 128 then
    EncodeValueAscii (byte_of_Z (v0 + 1));; CHKERR;
    mret tt
  else
    EncodeValueAscii (byte_of_Z DmtxValueAsciiUpperShift);; CHKERR;
    EncodeValueAscii (byte_of_Z (v0 - 127));; CHKERR;
    mret tt.

Definition EncodeNextChunkAscii : M unit :=
  hasNext ← gets StreamInputHasNext;
  if hasNext : bool then
    v0 ← StreamInputAdvanceNext; CHKERR;
    hasNext ← gets StreamInputHasNext;
    if hasNext : bool then
      v1 ← StreamInputPeekNext; CHKERR;
      EncodeNextChunkAscii_values (Z_of_byte v0) (Z_of_byte v1) true
    else
      EncodeNextChunkAscii_values (Z_of_byte v0) 0 false
  else mret tt.

(** ** C40 / Text / X12 *)

Definition EncodeValuesCTX (valueList : DmtxByteList) : M unit :=
  sch ← gets currentScheme;
  if decide (sch ≠ DmtxSchemeC40 ∧ sch ≠ DmtxSchemeText ∧ sch ≠ DmtxSchemeX12)
  then StreamMarkFatal 1
  else if decide (length valueList ≠ 3) then StreamMarkFatal 1
  else
    b0 ← read valueList 0;
    b1 ← read valueList 1;
    b2 ← read valueList 2;
    let pairValue :=
      1600 * Z_of_byte b0 + 40 * Z_of_byte b1 + Z_of_byte b2 + 1 in
    let cw0 := byte_of_Z (Z.quot pairValue 256) in
    let cw1 := byte_of_Z (Z.rem pairValue 256) in
    StreamOutputChainAppend cw0;; CHKERR;
    StreamOutputChainAppend cw1;; CHKERR;
    modify (λ s, set_outputChainValueCount (outputChainValueCount s + 3) s).

Definition EncodeUnlatchCTX : M unit :=
  sch ← gets currentScheme;
  if decide (sch ≠ DmtxSchemeC40 ∧ sch ≠ DmtxSchemeText ∧ sch ≠ DmtxSchemeX12)
  then StreamMarkFatal 1
  else
    count ← gets outputChainValueCount;
    if decide (Z.rem count 3 ≠ 0) then StreamMarkInvalid 1
    else
      StreamOutputChainAppend (byte_of_Z DmtxValueCTXUnlatch);; CHKERR;
      modify (λ s, set_outputChainValueCount (outputChainValueCount s + 1) s).

Definition push2 (l : DmtxByteList) (v w : Z) : M DmtxByteList :=
  l ← push l v; push l w.

(** [PushCTXValues] for X12, after the extended ASCII test. *)
Definition PushCTXValues_X12 (valueList : DmtxByteList) (inputValue : Z)
  : M DmtxByteList :=
  if inputValue =? 13 then push valueList 0
  else if inputValue =? 42 then push valueList 1
  else if inputValue =? 62 then push valueList 2
  else if inputValue =? 32 then push valueList 3
  else if (48 <=? inputValue) && (inputValue <=? 57)
  then push valueList (inputValue - 44)
  else if (65 <=? inputValue) && (inputValue <=? 90)
  then push valueList (inputValue - 51)
  else mret valueList.

(** [PushCTXValues] for C40 and Text, after the extended ASCII test. *)
Definition PushCTXValues_C40Text (valueList : DmtxByteList) (inputValue : Z)
    (targetScheme : DmtxScheme) : M DmtxByteList :=
  if inputValue <=? 31
  then push2 valueList DmtxValueCTXShift1 inputValue
  else if inputValue =? 32
  then push valueList 3
  else if inputValue <=? 47
  then push2 valueList DmtxValueCTXShift2 (inputValue - 33)
  else if inputValue <=? 57
  then push valueList (inputValue - 44)
  else if inputValue <=? 64
  then push2 valueList DmtxValueCTXShift2 (inputValue - 43)
  else if (inputValue <=? 90) && bool_decide (targetScheme = DmtxSchemeC40)
  then push valueList (inputValue - 51)
  else if (inputValue <=? 90) && bool_decide (targetScheme = DmtxSchemeText)
  then push2 valueList DmtxValueCTXShift3 (inputValue - 64)
  else if inputValue <=? 95
  then push2 valueList DmtxValueCTXShift2 (inputValue - 69)
  else if (inputValue =? 96) && bool_decide (targetScheme = DmtxSchemeText)
  then push2 valueList DmtxValueCTXShift3 0
  else if (inputValue <=? 122) && bool_decide (targetScheme = DmtxSchemeText)
  then push valueList (inputValue - 83)
  else if inputValue <=? 127
  then push2 valueList DmtxValueCTXShift3 (inputValue - 96)
  else mret valueList.

(** [PushCTXValues] returns its pass/fail together with the value list it
    was given by pointer. *)
Definition PushCTXValues (valueList : DmtxByteList) (inputValue : Z)
    (targetScheme : DmtxScheme) : M (DmtxPassFail * DmtxByteList) :=
  if (127 <? inputValue) && bool_decide (targetScheme = DmtxSchemeX12)
  then mret (DmtxFail, valueList)
  else
    '(valueList, inputValue) ←
      (if 127 <? inputValue
       then l ← push2 valueList DmtxValueCTXShift2 30;
            mret (l, inputValue - 128)
       else mret (valueList, inputValue));
    valueList ←
      (if bool_decide (targetScheme = DmtxSchemeX12)
       then PushCTXValues_X12 valueList inputValue
       else PushCTXValues_C40Text valueList inputValue targetScheme);
    mret (DmtxPass, valueList).

(** ** EDIFACT *)

Definition EncodeValueEdifact (value : byte) : M unit :=
  CHKSCHEME DmtxSchemeEdifact;
  if (Z_of_byte value <? 31) || (94 <? Z_of_byte value)
  then StreamMarkInvalid DmtxChannelUnsupportedChar
  else
    let edifactValue :=
      Z_of_byte (byte_of_Z (Z.shiftl (Z.land (Z_of_byte value) 63) 2)) in
    count ← gets outputChainValueCount;
    let bump :=
      modify (λ s, set_outputChainValueCount (outputChainValueCount s + 1) s) in
    if Z.rem count 4 =? 0 then
      StreamOutputChainAppend (byte_of_Z edifactValue);; CHKERR;
      bump
    else if Z.rem count 4 =? 1 then
      previousOutput ← StreamOutputChainRemoveLast; CHKERR;
      StreamOutputChainAppend
        (byte_of_Z (Z.lor (Z_of_byte previousOutput)
                          (Z.shiftr edifactValue 6)));; CHKERR;
      StreamOutputChainAppend (byte_of_Z (Z.shiftl edifactValue 2));; CHKERR;
      bump
    else if Z.rem count 4 =? 2 then
      previousOutput ← StreamOutputChainRemoveLast; CHKERR;
      StreamOutputChainAppend
        (byte_of_Z (Z.lor (Z_of_byte previousOutput)
                          (Z.shiftr edifactValue 4)));; CHKERR;
      StreamOutputChainAppend (byte_of_Z (Z.shiftl edifactValue 4));; CHKERR;
      bump
    else if Z.rem count 4 =? 3 then
      previousOutput ← StreamOutputChainRemoveLast; CHKERR;
      StreamOutputChainAppend
        (byte_of_Z (Z.lor (Z_of_byte previousOutput)
                          (Z.shiftr edifactValue 2)));; CHKERR;
      bump
    else bump.

Definition EncodeNextChunkEdifact : M unit :=
  hasNext ← gets StreamInputHasNext;
  if hasNext : bool then
    value ← StreamInputAdvanceNext; CHKERR;
    EncodeValueEdifact value;; CHKERR;
    mret tt
  else mret tt.

(** ** The scratch ASCII re-encode *)

(** The [while] loop of [EncodeTmpRemainingInAscii].  Every round that
    starts while encoding appends a codeword, so [capacity] rounds of fuel
    are never used up. *)
Fixpoint EncodeTmpRemainingInAscii_loop (fuel : nat) : M unit :=
  out ← gets output;
  if dmtxByteListHasCapacity out then
    hasNext ← gets StreamInputHasNext;
    if hasNext : bool then
      match fuel with
      | O => abort
      | S fuel =>
          EncodeNextChunkAscii;;
          EncodeTmpRemainingInAscii_loop fuel
      end
    else mret tt
  else mret tt.

(** The local [streamAscii] is a copy of [*stream] that writes to
    [storage]; the function runs the ASCII encoder on the copy and hands
    back the copy's output list.  [*stream] itself is only read. *)
Definition streamAscii_of (s : DmtxEncodeStream) (storage : loc)
    (capacity : Z) : DmtxEncodeStream :=
  set_output (dmtxByteListBuild storage capacity)
    (set_status DmtxStatusEncoding
       (set_sizeIdx DmtxUndefined
          (set_reason DmtxUndefined
             (set_outputChainWordCount 0
                (set_outputChainValueCount 0
                   (set_currentScheme DmtxSchemeAscii s)))))).

Definition EncodeTmpRemainingInAscii (storage : loc) (capacity : Z)
  : M (DmtxByteList * DmtxPassFail) :=
  λ σ, let streamAscii := streamAscii_of (stream σ) storage capacity in
       match EncodeTmpRemainingInAscii_loop (Z.to_nat capacity)
               (mkState (mem σ) streamAscii) with
       | Some (_, τ) =>
           let passFail :=
             if decide (status (stream τ) = DmtxStatusEncoding)
             then DmtxPass else DmtxFail in
           Some ((output (stream τ), passFail), mkState (mem τ) (stream σ))
       | None => None
       end.

(** [CHKSIZE]: no symbol holds the data, the input is invalid. *)
Definition chksize (sizeIdx : Z) (k : M unit) : M unit :=
  if decide (sizeIdx = DmtxUndefined) then StreamMarkInvalid 1 else k.

Notation "'CHKSIZE' s ';' k" := (chksize s k)
  (at level 100, s at level 9, k at level 200, only parsing,
   right associativity).

Inductive DmtxSymAttribute := DmtxSymAttribSymbolDataWords.

(** ** The encoders that consult the symbol size table

    [FindSymbolSize] and [dmtxGetSymbolAttribute] belong to the symbol
    size table of the library (dmtxsymbol.c); the encoders are
    parameterised by them. *)
Section Collaborators.

Variable FindSymbolSize : Z → Z → Z.
Variable dmtxGetSymbolAttribute : DmtxSymAttribute → Z → Z.

Definition GetRemainingSymbolCapacity (outputLength sizeIdx : Z) : Z :=
  if decide (sizeIdx = DmtxUndefined) then DmtxUndefined
  else
    let capacity :=
      dmtxGetSymbolAttribute DmtxSymAttribSymbolDataWords sizeIdx in
    capacity - outputLength.

(** The second [while] loop of [PadRemainingInAscii]; [symbolRemaining]
    counts down to zero. *)
Fixpoint PadRemainingInAscii_loop (symbolRemaining : nat) : M unit :=
  match symbolRemaining with
  | O => mret tt
  | S symbolRemaining =>
      len ← gets (λ s, length (output s));
      match Randomize253State2 (byte_of_Z DmtxValueAsciiPad) (len + 1) with
      | Some padValue =>
          StreamOutputChainAppend padValue;; CHKERR;
          PadRemainingInAscii_loop symbolRemaining
      | None => abort
      end
  end.

Definition PadRemainingInAscii (sizeIdx : Z) : M unit :=
  CHKSCHEME DmtxSchemeAscii;
  CHKSIZE sizeIdx;
  len ← gets (λ s, length (output s));
  let symbolRemaining := GetRemainingSymbolCapacity len sizeIdx in
  if 0 <? symbolRemaining then
    StreamOutputChainAppend (byte_of_Z DmtxValueAsciiPad);; CHKERR;
    PadRemainingInAscii_loop (Z.to_nat (symbolRemaining - 1))
  else PadRemainingInAscii_loop (Z.to_nat symbolRemaining).

Definition CompleteIfDoneAscii (requestedSizeIdx : Z) : M unit :=
  hasNext ← gets StreamInputHasNext;
  if negb hasNext then
    len ← gets (λ s, length (output s));
    let sizeIdx := FindSymbolSize len requestedSizeIdx in
    CHKSIZE sizeIdx;
    PadRemainingInAscii sizeIdx;; CHKERR;
    StreamMarkComplete sizeIdx
  else mret tt.

(** *** Base256 header *)

(** The second half of [UpdateBase256ChainHeader], which writes the header
    byte(s) once [headerByteCount] is settled. *)
Definition UpdateBase256ChainHeader_encode (headerIndex outputLength
    headerByteCount perfectSizeIdx : Z) : M unit :=
  if (headerByteCount =? 1) && negb (perfectSizeIdx =? DmtxUndefined) then
    let headerValue0 := Randomize255State2 (byte_of_Z 0) (headerIndex + 1) in
    let symbolDataWords :=
      dmtxGetSymbolAttribute DmtxSymAttribSymbolDataWords perfectSizeIdx in
    len ← gets (λ s, length (output s));
    if decide (symbolDataWords ≠ len) then StreamMarkFatal 1
    else
      StreamOutputSet headerIndex headerValue0;; CHKERR;
      mret tt
  else if (headerByteCount =? 1) && (perfectSizeIdx =? DmtxUndefined) then
    let headerValue0 :=
      Randomize255State2 (byte_of_Z outputLength) (headerIndex + 1) in
    StreamOutputSet headerIndex headerValue0;; CHKERR;
    mret tt
  else if (headerByteCount =? 2) && (perfectSizeIdx =? DmtxUndefined) then
    let headerValue0 :=
      Randomize255State2 (byte_of_Z (Z.quot outputLength 250 + 249))
        (headerIndex + 1) in
    StreamOutputSet headerIndex headerValue0;; CHKERR;
    let headerValue1 :=
      Randomize255State2 (byte_of_Z (Z.rem outputLength 250))
        (headerIndex + 2) in
    StreamOutputSet (headerIndex + 1) headerValue1;; CHKERR;
    mret tt
  else StreamMarkFatal 1.

Definition UpdateBase256ChainHeader (perfectSizeIdx : Z) : M unit :=
  s ← gets id;
  let headerIndex := length (output s) - outputChainWordCount s in
  let outputLength := outputChainValueCount s in
  let headerByteCount := outputChainWordCount s - outputChainValueCount s in
  if (headerByteCount =? 0) && (outputChainWordCount s =? 0) then
    StreamOutputChainAppend (byte_of_Z 0);; CHKERR;
    UpdateBase256ChainHeader_encode headerIndex outputLength
      (headerByteCount + 1) perfectSizeIdx
  else if (headerByteCount =? 1) && (249 <? outputLength) then
    StreamOutputChainInsertFirst;; CHKERR;
    UpdateBase256ChainHeader_encode headerIndex outputLength
      (headerByteCount + 1) perfectSizeIdx
  else if (headerByteCount =? 2) && negb (perfectSizeIdx =? DmtxUndefined) then
    StreamOutputChainRemoveFirst;; CHKERR;
    UpdateBase256ChainHeader_encode headerIndex outputLength
      (headerByteCount - 1) perfectSizeIdx
  else
    UpdateBase256ChainHeader_encode headerIndex outputLength headerByteCount
      perfectSizeIdx.

(** *** Scheme change *)

Definition EncodeChangeScheme_unlatch (unlatchType : DmtxUnlatch)
    (k : M unit) : M unit :=
  sch ← gets currentScheme;
  match sch with
  | DmtxSchemeC40 | DmtxSchemeText | DmtxSchemeX12 =>
      if decide (unlatchType = DmtxUnlatchExplicit)
      then EncodeUnlatchCTX;; CHKERR; k
      else k
  | DmtxSchemeEdifact =>
      if decide (unlatchType = DmtxUnlatchExplicit)
      then EncodeValueEdifact (byte_of_Z DmtxValueEdifactUnlatch);; CHKERR; k
      else k
  | DmtxSchemeAscii | DmtxSchemeBase256 => k
  end.

Definition EncodeChangeScheme_latch (targetScheme : DmtxScheme)
    (k : M unit) : M unit :=
  match targetScheme with
  | DmtxSchemeC40 =>
      EncodeValueAscii (byte_of_Z DmtxValueC40Latch);; CHKERR; k
  | DmtxSchemeText =>
      EncodeValueAscii (byte_of_Z DmtxValueTextLatch);; CHKERR; k
  | DmtxSchemeX12 =>
      EncodeValueAscii (byte_of_Z DmtxValueX12Latch);; CHKERR; k
  | DmtxSchemeEdifact =>
      EncodeValueAscii (byte_of_Z DmtxValueEdifactLatch);; CHKERR; k
  | DmtxSchemeBase256 =>
      EncodeValueAscii (byte_of_Z DmtxValueBase256Latch);; CHKERR; k
  | DmtxSchemeAscii =>
      CHKSCHEME DmtxSchemeAscii; k
  end.

Definition EncodeChangeScheme (targetScheme : DmtxScheme)
    (unlatchType : DmtxUnlatch) : M unit :=
  sch ← gets currentScheme;
  if decide (sch = targetScheme) then mret tt
  else
    EncodeChangeScheme_unlatch unlatchType (
      modify (set_currentScheme DmtxSchemeAscii);;
      EncodeChangeScheme_latch targetScheme (
        modify (set_currentScheme targetScheme);;
        modify (set_outputChainWordCount 0);;
        modify (set_outputChainValueCount 0);;
        if decide (targetScheme = DmtxSchemeBase256)
        then UpdateBase256ChainHeader DmtxUndefined;; CHKERR; mret tt
        else mret tt)).

(** *** C40 / Text / X12 chunks *)

Definition CompleteIfDonePartialCTX (valueList : DmtxByteList)
    (requestedSizeIdx : Z) : M unit :=
  sch ← gets currentScheme;
  if decide (sch ≠ DmtxSchemeC40 ∧ sch ≠ DmtxSchemeText ∧ sch ≠ DmtxSchemeX12)
  then StreamMarkFatal 1
  else if negb ((length valueList =? 1) || (length valueList =? 2))
  then abort
  else
    len ← gets (λ s, length (output s));
    let sizeIdx := FindSymbolSize len requestedSizeIdx in
    CHKSIZE sizeIdx;
    let symbolRemaining := GetRemainingSymbolCapacity len sizeIdx in
    if (length valueList =? 2) && (symbolRemaining =? 2) then
      valueList ← push valueList DmtxValueCTXShift1;
      EncodeValuesCTX valueList;; CHKERR;
      StreamMarkComplete sizeIdx
    else mret tt.

(** How a loop of [EncodeNextChunkCTX] ends: by falling out of the loop
    with the value list, or by returning from the function. *)
Inductive loop_exit :=
  | Fallthrough (valueList : DmtxByteList)
  | Returned.

(** The inner [while(valueList.length >= 3)] loop.  Nothing in it removes
    the encoded triplet from [valueList], so it ends only by [CHKERR]; a
    round that keeps encoding appends two codewords. *)
Fixpoint EncodeNextChunkCTX_flush (fuel : nat) (valueList : DmtxByteList)
  : M loop_exit :=
  if 3 <=? length valueList then
    match fuel with
    | O => abort
    | S fuel =>
        EncodeValuesCTX valueList;;
        chkerr Returned (EncodeNextChunkCTX_flush fuel valueList)
    end
  else mret (Fallthrough valueList).

(** The outer [while(StreamInputHasNext(stream))] loop; a round that keeps
    encoding consumes one input byte. *)
Fixpoint EncodeNextChunkCTX_loop (fuel : nat) (valueList : DmtxByteList)
  : M loop_exit :=
  hasNext ← gets StreamInputHasNext;
  if hasNext : bool then
    match fuel with
    | O => abort
    | S fuel =>
        inputValue ← StreamInputAdvanceNext;
        chkerr Returned (
          sch ← gets currentScheme;
          '(passFail, valueList) ←
            PushCTXValues valueList (Z_of_byte inputValue) sch;
          cap ← gets (λ s, capacity (output s));
          r ← EncodeNextChunkCTX_flush (Z.to_nat cap + 1) valueList;
          match r with
          | Returned => mret Returned
          | Fallthrough valueList =>
              if length valueList =? 0 then mret (Fallthrough valueList)
              else EncodeNextChunkCTX_loop fuel valueList
          end)
    end
  else mret (Fallthrough valueList).

Definition EncodeNextChunkCTX (requestedSizeIdx : Z) : M unit :=
  with_array 4 (λ valueListStorage,
    let valueList := dmtxByteListBuild valueListStorage 4 in
    s ← gets id;
    r ← EncodeNextChunkCTX_loop
          (Z.to_nat (length (input s) - inputNext s)) valueList;
    match r with
    | Returned => mret tt
    | Fallthrough valueList =>
        hasNext ← gets StreamInputHasNext;
        if negb hasNext && (0 <? length valueList) then
          CompleteIfDonePartialCTX valueList requestedSizeIdx;; CHKERR;
          mret tt
        else mret tt
    end).

Definition CompleteIfDoneCTX (requestedSizeIdx : Z) : M unit :=
  len ← gets (λ s, length (output s));
  let sizeIdx := FindSymbolSize len requestedSizeIdx in
  CHKSIZE sizeIdx;
  let symbolRemaining := GetRemainingSymbolCapacity len sizeIdx in
  hasNext ← gets StreamInputHasNext;
  if negb hasNext then
    if symbolRemaining =? 0 then StreamMarkComplete sizeIdx
    else
      EncodeChangeScheme DmtxSchemeAscii DmtxUnlatchExplicit;; CHKERR;
      mret tt
  else mret tt.

(** *** EDIFACT completion *)

(** The [for] loop of [CompleteIfDoneEdifact] over the scratch codewords,
    followed by the rest [k] of the branch. *)
Fixpoint CompleteIfDoneEdifact_copy (n : nat) (i : Z)
    (outputTmp : DmtxByteList) (k : M unit) : M unit :=
  match n with
  | O => k
  | S n =>
      v ← read outputTmp i;
      EncodeValueAscii v;; CHKERR;
      CompleteIfDoneEdifact_copy n (i + 1) outputTmp k
  end.

Definition CompleteIfDoneEdifact (requestedSizeIdx : Z) : M unit :=
  with_array 3 (λ outputTmpStorage,
    count ← gets outputChainValueCount;
    let cleanBoundary := Z.rem count 4 =? 0 in
    len ← gets (λ s, length (output s));
    let sizeIdx := FindSymbolSize len requestedSizeIdx in
    CHKSIZE sizeIdx;
    let symbolRemaining := GetRemainingSymbolCapacity len sizeIdx in
    CHKERR;
    hasNext ← gets StreamInputHasNext;
    if negb hasNext then
      if negb cleanBoundary || (0 <? symbolRemaining) then
        EncodeChangeScheme DmtxSchemeAscii DmtxUnlatchExplicit;; CHKERR;
        len ← gets (λ s, length (output s));
        let sizeIdx := FindSymbolSize len requestedSizeIdx in
        CHKSIZE sizeIdx;
        PadRemainingInAscii sizeIdx;; CHKERR;
        StreamMarkComplete sizeIdx
      else StreamMarkComplete sizeIdx
    else
      '(outputTmp, passFail) ← EncodeTmpRemainingInAscii outputTmpStorage 3;
      if bool_decide (passFail = DmtxFail) || (symbolRemaining <? length outputTmp)
      then mret tt
      else if cleanBoundary &&
              ((length outputTmp =? 1) || (length outputTmp =? 2)) then
        EncodeChangeScheme DmtxSchemeAscii DmtxUnlatchImplicit;; CHKERR;
        CompleteIfDoneEdifact_copy (Z.to_nat (length outputTmp)) 0 outputTmp (
          modify (λ s, set_inputNext (length (input s)) s);;
          PadRemainingInAscii sizeIdx;; CHKERR;
          StreamMarkComplete sizeIdx)
      else mret tt).

(** *** Base256 *)

Definition EncodeValueBase256 (value : byte) : M unit :=
  CHKSCHEME DmtxSchemeBase256;
  len ← gets (λ s, length (output s));
  StreamOutputChainAppend (Randomize255State2 value (len + 1));; CHKERR;
  modify (λ s, set_outputChainValueCount (outputChainValueCount s + 1) s);;
  UpdateBase256ChainHeader DmtxUndefined;; CHKERR;
  mret tt.

Definition EncodeNextChunkBase256 : M unit :=
  hasNext ← gets StreamInputHasNext;
  if hasNext : bool then
    value ← StreamInputAdvanceNext; CHKERR;
    EncodeValueBase256 value;; CHKERR;
    mret tt
  else mret tt.

(** The normal case of [CompleteIfDoneBase256]. *)
Definition CompleteIfDoneBase256_normal (requestedSizeIdx : Z) : M unit :=
  len ← gets (λ s, length (output s));
  let sizeIdx := FindSymbolSize len requestedSizeIdx in
  CHKSIZE sizeIdx;
  EncodeChangeScheme DmtxSchemeAscii DmtxUnlatchImplicit;;
  PadRemainingInAscii sizeIdx;;
  StreamMarkComplete sizeIdx.

Definition CompleteIfDoneBase256 (requestedSizeIdx : Z) : M unit :=
  hasNext ← gets StreamInputHasNext;
  if negb hasNext then
    s ← gets id;
    let headerByteCount := outputChainWordCount s - outputChainValueCount s in
    if negb ((headerByteCount =? 1) || (headerByteCount =? 2)) then abort
    else if headerByteCount =? 2 then
      let outputLength := length (output s) - 1 in
      let sizeIdx := FindSymbolSize outputLength requestedSizeIdx in
      if decide (sizeIdx ≠ DmtxUndefined) then
        let symbolRemaining :=
          GetRemainingSymbolCapacity outputLength sizeIdx in
        if symbolRemaining =? 0 then
          UpdateBase256ChainHeader sizeIdx;; CHKERR;
          StreamMarkComplete sizeIdx
        else CompleteIfDoneBase256_normal requestedSizeIdx
      else CompleteIfDoneBase256_normal requestedSizeIdx
    else CompleteIfDoneBase256_normal requestedSizeIdx
  else mret tt.

(** *** Dispatcher *)

Definition EncodeNextChunk_dispatch (requestedSizeIdx : Z) : M unit :=
  sch ← gets currentScheme;
  match sch with
  | DmtxSchemeAscii =>
      EncodeNextChunkAscii;; CHKERR;
      CompleteIfDoneAscii requestedSizeIdx;; CHKERR;
      mret tt
  | DmtxSchemeC40 | DmtxSchemeText | DmtxSchemeX12 =>
      EncodeNextChunkCTX requestedSizeIdx;; CHKERR;
      CompleteIfDoneCTX requestedSizeIdx;; CHKERR;
      mret tt
  | DmtxSchemeEdifact =>
      EncodeNextChunkEdifact;; CHKERR;
      CompleteIfDoneEdifact requestedSizeIdx;; CHKERR;
      mret tt
  | DmtxSchemeBase256 =>
      EncodeNextChunkBase256;; CHKERR;
      CompleteIfDoneBase256 requestedSizeIdx;; CHKERR;
      mret tt
  end.

Definition EncodeNextChunk (targetScheme : DmtxScheme) (requestedSizeIdx : Z)
  : M unit :=
  sch ← gets currentScheme;
  if decide (sch ≠ targetScheme) then
    EncodeChangeScheme targetScheme DmtxUnlatchExplicit;; CHKERR;
    CHKSCHEME targetScheme;
    EncodeNextChunk_dispatch requestedSizeIdx
  else EncodeNextChunk_dispatch requestedSizeIdx.

(** The [while(stream->status == DmtxStatusEncoding)] loop of
    [EncodeSingleScheme2]. *)
Fixpoint EncodeSingleScheme2_loop (fuel : nat) (targetScheme : DmtxScheme)
    (requestedSizeIdx : Z) : M unit :=
  st ← gets status;
  if decide (st = DmtxStatusEncoding) then
    match fuel with
    | O => abort
    | S fuel =>
        EncodeNextChunk targetScheme requestedSizeIdx;;
        EncodeSingleScheme2_loop fuel targetScheme requestedSizeIdx
    end
  else mret tt.

Definition EncodeSingleScheme2 (fuel : nat) (targetScheme : DmtxScheme)
    (requestedSizeIdx : Z) : M DmtxPassFail :=
  sch ← gets currentScheme;
  if decide (sch ≠ DmtxSchemeAscii) then
    StreamMarkFatal 1;; mret DmtxFail
  else
    EncodeSingleScheme2_loop fuel targetScheme requestedSizeIdx;;
    s ← gets id;
    if bool_decide (status s ≠ DmtxStatusComplete) || StreamInputHasNext s
    then mret DmtxFail
    else mret DmtxPass.

End Collaborators.

(** Modelled from the spec: [StreamInit], the stream the dispatcher entry
    point is given: the input bound, the cursor at its start, an empty
    output, scheme Ascii, status Encoding. *)
Definition StreamInit (input output : DmtxByteList) : DmtxEncodeStream :=
  {| currentScheme := DmtxSchemeAscii;
     inputNext := 0;
     outputChainValueCount := 0;
     outputChainWordCount := 0;
     reason := DmtxUndefined;
     sizeIdx := DmtxUndefined;
     status := DmtxStatusEncoding;
     input := input;
     output := output |}.

(** ** An instance of the symbol size table *)

(** Modelled from the spec: the collaborator interface of the symbol size
    table, which is not part of the encoder file.  [SymbolDataWords] is
    the table lookup, here over the data word capacities of the square
    ECC 200 symbols of ISO/IEC 16022 (10x10 holds 3 data words, 12x12
    holds 5, ...); [FindSymbolSizeAuto] returns the smallest symbol able
    to hold the data words under an automatic hint (a negative request),
    the requested symbol if it can hold them, and [DmtxUndefined]
    otherwise. *)
Definition symbolDataWords : list Z :=
  [3; 5; 8; 12; 18; 22; 30; 36; 44; 62; 86; 114; 144; 174; 204; 280; 368;
   456; 576; 696; 816; 1050; 1304; 1558].

Definition SymbolDataWords (attribute : DmtxSymAttribute) (sizeIdx : Z) : Z :=
  if sizeIdx <? 0 then DmtxUndefined
  else default DmtxUndefined (symbolDataWords !! Z.to_nat sizeIdx).

Fixpoint FindSymbolSize_from (dataWords sizeIdx : Z) (table : list Z) : Z :=
  match table with
  | [] => DmtxUndefined
  | words :: table =>
      if dataWords <=? words then sizeIdx
      else FindSymbolSize_from dataWords (sizeIdx + 1) table
  end.

Definition DmtxSymbolSquareAuto : Z := -2.

Definition FindSymbolSizeAuto (dataWords sizeIdxRequest : Z) : Z :=
  if sizeIdxRequest <? 0 then FindSymbolSize_from dataWords 0 symbolDataWords
  else if dataWords <=? SymbolDataWords DmtxSymAttribSymbolDataWords sizeIdxRequest
       then sizeIdxRequest
       else DmtxUndefined.

(** A stream over a given input, with an output array of [cap] cells: the
    input lives at location 0 and the output at location 1. *)
Definition state_of_input (bytes : list byte) (cap : nat) : State :=
  mkState (<[0%nat := bytes]> (<[1%nat := replicate cap x00]> ∅))
    (StreamInit
       (mkByteList (Z.of_nat (List.length bytes))
          (Z.of_nat (List.length bytes)) 0%nat)
       (dmtxByteListBuild 1%nat (Z.of_nat cap))).

(** The formula the specification gives for the 253-state randomization,
    word for word. *)
Definition randomize_253_spec (v pos : Z) : Z :=
  ((v + ((149 * pos) mod 253) + 1) - 1) mod 254.

(** ** Observations on states *)

(** A byte list is valid in a memory when its length is within its
    capacity and its array has at least [capacity] cells. *)
Definition valid_list (m : Mem) (l : DmtxByteList) : Prop :=
  0 <= length l <= capacity l ∧
  capacity l <= Z.of_nat (List.length (default [] (m !! b l))).

Global Instance valid_list_dec m l : Decision (valid_list m l).
Proof. unfold valid_list. apply _. Defined.

(** The codewords of the output, as numbers. *)
Definition codewords (σ : State) : list Z := Z_of_byte <$> output_bytes σ.

(** The input bytes not consumed yet. *)
Definition unconsumed (σ : State) : list byte :=
  drop (Z.to_nat (inputNext (stream σ)))
       (bytes_of (mem σ) (input (stream σ))).

(** Whether the first two of a run of input bytes are both decimal
    digits. *)
Definition digit_pair (bytes : list byte) : bool :=
  match bytes with
  | v0 :: v1 :: _ => ISDIGIT (Z_of_byte v0) && ISDIGIT (Z_of_byte v1)
  | _ => false
  end.

(** The state after one codeword is appended to the output, after the
    input cursor moved by one, and after [outputChainValueCount] grew. *)
Definition append_st (v : byte) (σ : State) : State :=
  let s := stream σ in
  mkState
    (<[b (output s) :=
         <[Z.to_nat (length (output s)) := v]>
           (default [] (mem σ !! b (output s)))]> (mem σ))
    (set_outputChainWordCount (outputChainWordCount s + 1)
       (set_output
          (mkByteList (length (output s) + 1) (capacity (output s))
             (b (output s))) s)).

(** The state after the last codeword is removed from the output. *)
Definition remove_st (σ : State) : State :=
  let s := stream σ in
  mkState (mem σ)
    (set_outputChainWordCount (outputChainWordCount s - 1)
       (set_output
          (mkByteList (length (output s) - 1) (capacity (output s))
             (b (output s))) s)).

Definition advance_st (σ : State) : State :=
  mkState (mem σ) (set_inputNext (inputNext (stream σ) + 1) (stream σ)).

Definition count_st (n : Z) (σ : State) : State :=
  mkState (mem σ)
    (set_outputChainValueCount (outputChainValueCount (stream σ) + n)
       (stream σ)).

(** ** Reasoning about computations *)

(** [wp m Q σ]: if [m] returns from [σ], its result and final state
    satisfy [Q]. *)
Definition wp {A} (m : M A) (Q : A → State → Prop) (σ : State) : Prop :=
  match m σ with
  | Some (a, σ') => Q a σ'
  | None => True
  end.

(** [steps σ σ']: from [σ] to [σ'] the stream was not completed, and was
    not put back to encoding. *)
Definition steps (σ σ' : State) : Prop :=
  (status (stream σ) ≠ DmtxStatusComplete →
   status (stream σ') ≠ DmtxStatusComplete) ∧
  (status (stream σ') = DmtxStatusEncoding →
   status (stream σ) = DmtxStatusEncoding).

(** [grows n σ σ']: moreover, if the stream is still encoding, the output
    is [n] codewords longer. *)
Definition grows (n : Z) (σ σ' : State) : Prop :=
  steps σ σ' ∧
  (status (stream σ') = DmtxStatusEncoding →
   length (output (stream σ')) = length (output (stream σ)) + n).

(** [fills_symbol σ]: a completed stream holds exactly the data words of
    the symbol it recorded. *)
Definition fills_symbol (dmtxGetSymbolAttribute : DmtxSymAttribute → Z → Z)
    (σ : State) : Prop :=
  status (stream σ) = DmtxStatusComplete →
  length (output (stream σ)) =
    dmtxGetSymbolAttribute DmtxSymAttribSymbolDataWords (sizeIdx (stream σ)).


(** [wpt m Q σ]: [m] returns from [σ], and its result and final state
    satisfy [Q]. *)
Definition wpt {A} (m : M A) (Q : A → State → Prop) (σ : State) : Prop :=
  match m σ with
  | Some (a, σ') => Q a σ'
  | None => False
  end.

(** [ready σ]: the input and output lists of the stream are valid and the
    cursor is not negative. *)
Definition ready (σ : State) : Prop :=
  valid_list (mem σ) (input (stream σ)) ∧
  valid_list (mem σ) (output (stream σ)) ∧
  0 <= inputNext (stream σ).

(** [writes_output σ σ']: from [σ] to [σ'] the stream kept its scheme,
    its input list and its output array, only the output array was
    written to, and no array changed size. *)
Definition writes_output (σ σ' : State) : Prop :=
  b (output (stream σ')) = b (output (stream σ)) ∧
  capacity (output (stream σ')) = capacity (output (stream σ)) ∧
  input (stream σ') = input (stream σ) ∧
  currentScheme (stream σ') = currentScheme (stream σ) ∧
  (∀ p, p ≠ b (output (stream σ)) → mem σ' !! p = mem σ !! p) ∧
  (∀ p, List.length (default [] (mem σ' !! p))
        = List.length (default [] (mem σ !! p))).

(** The progress of one ASCII chunk on the scratch stream: at least one
    codeword is appended, and the stream is left encoding or full. *)
Definition scratch_progress (σ σ' : State) : Prop :=
  writes_output σ σ' ∧ ready σ' ∧
  length (output (stream σ)) + 1 <= length (output (stream σ')) ∧
  (status (stream σ') = DmtxStatusEncoding
   ∨ capacity (output (stream σ)) <= length (output (stream σ'))).

(** [appended bytes σ σ']: from [σ] to [σ'] the codewords [bytes] were
    appended to the output, and the stream is otherwise as it was, its
    chain counters apart. *)
Definition appended (bytes : list byte) (σ σ' : State) : Prop :=
  output_bytes σ' = output_bytes σ ++ bytes ∧
  length (output (stream σ'))
    = length (output (stream σ)) + Z.of_nat (List.length bytes) ∧
  valid_list (mem σ') (output (stream σ')) ∧
  capacity (output (stream σ')) = capacity (output (stream σ)) ∧
  input (stream σ') = input (stream σ) ∧
  inputNext (stream σ') = inputNext (stream σ) ∧
  status (stream σ') = status (stream σ) ∧
  currentScheme (stream σ') = currentScheme (stream σ).

(** [ascii_ready σ]: a stream in scheme Ascii that is encoding, with valid
    lists, whose input and output arrays are distinct. *)
Definition ascii_ready (σ : State) : Prop :=
  ready σ ∧
  currentScheme (stream σ) = DmtxSchemeAscii ∧
  status (stream σ) = DmtxStatusEncoding ∧
  b (input (stream σ)) ≠ b (output (stream σ)).

(** The state after the ASCII encoder consumed two digits and appended
    their codeword. *)
Definition pair_st (cw : byte) (σ : State) : State :=
  count_st 1 (append_st cw (advance_st (advance_st σ))).

(** ** Further observations *)

(** The state after a latch codeword is appended in scheme Ascii and the
    stream enters the scheme latched to, on a new, empty chain. *)
Definition latch_st (targetScheme : DmtxScheme) (cw : byte) (σ : State)
  : State :=
  mkState (mem (append_st cw σ))
    (set_outputChainValueCount 0
       (set_outputChainWordCount 0
          (set_currentScheme targetScheme (stream (append_st cw σ))))).

(** [gathering l cells σ]: the state of the outer loop of
    [EncodeNextChunkCTX] between two rounds.  The stream is encoding in
    C40, Text or X12; the value list [l] is the local array of four
    bytes, which holds [cells] and is neither the input nor the output
    array. *)
Definition gathering (l : DmtxByteList) (cells : list byte) (σ : State)
  : Prop :=
  (currentScheme (stream σ) = DmtxSchemeC40
   ∨ currentScheme (stream σ) = DmtxSchemeText
   ∨ currentScheme (stream σ) = DmtxSchemeX12) ∧
  status (stream σ) = DmtxStatusEncoding ∧
  0 <= inputNext (stream σ) ∧
  valid_list (mem σ) (output (stream σ)) ∧
  mem σ !! b l = Some cells ∧
  List.length cells = 4%nat ∧
  capacity l = 4 ∧
  0 <= length l ∧
  b l ≠ b (input (stream σ)) ∧
  b l ≠ b (output (stream σ)).

(** [pushed values l σ l' σ']: from the byte list [l] in [σ] to [l'] in
    [σ'] the bytes [values] were pushed, and nothing but the array of the
    list was written. *)
Definition pushed (values : list byte) (l : DmtxByteList) (σ : State)
    (l' : DmtxByteList) (σ' : State) : Prop :=
  stream σ' = stream σ ∧
  b l' = b l ∧
  capacity l' = capacity l ∧
  length l' = length l + Z.of_nat (List.length values) ∧
  bytes_of (mem σ') l' = bytes_of (mem σ) l ++ values ∧
  valid_list (mem σ') l' ∧
  (∀ p, p ≠ b l → mem σ' !! p = mem σ !! p).

(** The ASCII rules as a function from the input to its codewords: two
    adjacent digits make one codeword, any other byte below 128 one, and
    a byte from 128 on the upper shift and one more.  The encoder is
    proved to compute it. *)
Fixpoint ascii_codewords (bytes : list byte) : list byte :=
  match bytes with
  | [] => []
  | v0 :: rest =>
      let single :=
        if Z_of_byte v0 <? 128 then [byte_of_Z (Z_of_byte v0 + 1)]
        else [byte_of_Z DmtxValueAsciiUpperShift;
              byte_of_Z (Z_of_byte v0 - 127)] in
      match rest with
      | v1 :: rest' =>
          if ISDIGIT (Z_of_byte v0) && ISDIGIT (Z_of_byte v1)
          then byte_of_Z (10 * (Z_of_byte v0 - 48)
                          + (Z_of_byte v1 - 48) + 130)
               :: ascii_codewords rest'
          else single ++ ascii_codewords rest
      | [] => single
      end
  end.

(** [keeps σ σ']: from [σ] to [σ'] the stream kept its input list and its
    output array; the input cursor did not move back, nor past the end of
    the input; the output length stayed within the capacity. *)
Definition keeps (σ σ' : State) : Prop :=
  input (stream σ') = input (stream σ) ∧
  inputNext (stream σ) <= inputNext (stream σ') ∧
  (inputNext (stream σ) <= length (input (stream σ)) →
   inputNext (stream σ') <= length (input (stream σ))) ∧
  b (output (stream σ')) = b (output (stream σ)) ∧
  capacity (output (stream σ')) = capacity (output (stream σ)) ∧
  (0 <= length (output (stream σ)) <= capacity (output (stream σ)) →
   0 <= length (output (stream σ')) <= capacity (output (stream σ))).

(** [frame W σ σ']: every array outside the set [W] is in [σ'] as it was
    in [σ]: not written, not freed, not allocated. *)
Definition frame (W : loc → Prop) (σ σ' : State) : Prop :=
  ∀ p, ¬ W p → mem σ' !! p = mem σ !! p.

Definition safe (W : loc → Prop) (σ σ' : State) : Prop :=
  keeps σ σ' ∧ frame W σ σ'.

(** The state after the output codeword at an index is overwritten. *)
Definition set_st (index : Z) (v : byte) (σ : State) : State :=
  mkState
    (<[b (output (stream σ)) :=
         <[Z.to_nat index := v]>
           (default [] (mem σ !! b (output (stream σ))))]> (mem σ))
    (stream σ).

(** The payload of a Base256 chain as a function of the input: each byte
    randomized at its own position in the output, counted from 1. *)
Fixpoint base256_payload (position : Z) (bytes : list byte) : list byte :=
  match bytes with
  | [] => []
  | v :: rest =>
      Randomize255State2 v position :: base256_payload (position + 1) rest
  end.

(** [base256_chain s out0 payload σ]: the stream is encoding a Base256
    chain that was latched to when the output held the [s] codewords
    [out0]; the output now holds them, the latch, a one-byte header for
    the length of [payload], and [payload]. *)
Definition base256_chain (s : Z) (out0 payload : list byte) (σ : State)
  : Prop :=
  let k := Z.of_nat (List.length payload) in
  ready σ ∧
  b (input (stream σ)) ≠ b (output (stream σ)) ∧
  currentScheme (stream σ) = DmtxSchemeBase256 ∧
  status (stream σ) = DmtxStatusEncoding ∧
  Z.of_nat (List.length out0) = s ∧
  outputChainValueCount (stream σ) = k ∧
  outputChainWordCount (stream σ) = k + 1 ∧
  length (output (stream σ)) = s + 2 + k ∧
  output_bytes σ =
    out0 ++ [byte_of_Z DmtxValueBase256Latch;
             Randomize255State2 (byte_of_Z k) (s + 2)] ++ payload.

(** * Properties *)

(** ** Bytes *)

Lemma Z_of_byte_range (x : byte) : 0 <= Z_of_byte x <= 255.
Proof.
  unfold Z_of_byte. pose proof (Byte.to_N_bounded x). lia.
Qed.

Lemma Z_of_byte_of_Z (z : Z) : Z_of_byte (byte_of_Z z) = z mod 256.
Proof.
  unfold Z_of_byte, byte_of_Z.
  pose proof (Z.mod_pos_bound z 256 ltac:(lia)) as Hb.
  destruct (Byte.of_N (Z.to_N (z mod 256))) as [y|] eqn:E.
  - apply Byte.to_of_N in E. rewrite E. lia.
  - apply Byte.of_N_None_iff in E. lia.
Qed.

Lemma Z_of_byte_of_Z_small (z : Z) :
  0 <= z < 256 → Z_of_byte (byte_of_Z z) = z.
Proof. intros H. rewrite Z_of_byte_of_Z. apply Z.mod_small. lia. Qed.

Lemma byte_of_Z_of_byte (x : byte) : byte_of_Z (Z_of_byte x) = x.
Proof.
  unfold byte_of_Z. pose proof (Z_of_byte_range x) as Hr.
  rewrite Z.mod_small by lia. unfold Z_of_byte. rewrite N2Z.id.
  by rewrite Byte.of_to_N.
Qed.

Lemma Z_of_byte_inj (x y : byte) : Z_of_byte x = Z_of_byte y → x = y.
Proof.
  intros H. rewrite <- (byte_of_Z_of_byte x), <- (byte_of_Z_of_byte y).
  by rewrite H.
Qed.

(** ** Randomization *)

Lemma Randomize253State2_tmp_bounds (cwValue : byte) (cwPosition : Z) :
  1 <= cwPosition → 1 <= Randomize253State2_tmp cwValue cwPosition <= 254.
Proof.
  intros Hpos. unfold Randomize253State2_tmp.
  pose proof (Z_of_byte_range cwValue) as Hv.
  pose proof (Z.rem_bound_pos (149 * cwPosition) 253 ltac:(lia) ltac:(lia)).
  destruct (254 <? _) eqn:E; [apply Z.ltb_lt in E | apply Z.ltb_ge in E]; lia.
Qed.

Lemma Randomize253State2_defined (cwValue : byte) (cwPosition : Z) :
  1 <= cwPosition →
  Randomize253State2 cwValue cwPosition
    = Some (byte_of_Z (Randomize253State2_tmp cwValue cwPosition)).
Proof.
  intros Hpos.
  pose proof (Randomize253State2_tmp_bounds cwValue cwPosition Hpos) as Hb.
  unfold Randomize253State2.
  replace (0 <=? _) with true by (symmetry; apply Z.leb_le; lia).
  by replace (_ <? 256) with true by (symmetry; apply Z.ltb_lt; lia).
Qed.

Lemma int_wrap_small (z : Z) :
  -2147483648 <= z <= INT_MAX → int_wrap z = z.
Proof.
  unfold INT_MAX, int_wrap. intros H. rewrite Z.mod_small by lia. lia.
Qed.

(** Up to position 14412641 the product [149 * position] fits an [int],
    and the randomizers on mathematical integers are those of the code. *)
Lemma Randomize253State2_int_tmp_small (cwValue : byte) (cwPosition : Z) :
  0 <= cwPosition <= 14412641 →
  Randomize253State2_int_tmp cwValue cwPosition
  = Randomize253State2_tmp cwValue cwPosition.
Proof.
  intros H. unfold Randomize253State2_int_tmp, Randomize253State2_tmp.
  by rewrite int_wrap_small by (unfold INT_MAX; lia).
Qed.

Lemma Randomize253State2_int_small (cwValue : byte) (cwPosition : Z) :
  0 <= cwPosition <= 14412641 →
  Randomize253State2_int cwValue cwPosition
  = Randomize253State2 cwValue cwPosition.
Proof.
  intros H. unfold Randomize253State2_int, Randomize253State2.
  by rewrite Randomize253State2_int_tmp_small.
Qed.

Lemma Randomize255State2_int_small (value : byte) (position : Z) :
  0 <= position <= 14412641 →
  Randomize255State2_int value position = Randomize255State2 value position.
Proof.
  intros H. unfold Randomize255State2_int, Randomize255State2.
  by rewrite int_wrap_small by (unfold INT_MAX; lia).
Qed.




(** C7, as stated, fails: at value 129 and position 1 the code returns 25
    where the formula of the specification gives 24, and at value 104 and
    position 1 the code returns 254, outside [0,253].  At value 129 and
    position 14412775, where [149 * pos] no longer fits an [int], the code
    returns 56 where the formula gives 136. *)
Lemma Randomize253State2_spec_formula_counterexample :
  Z_of_byte <$> Randomize253State2_int x81 1 = Some 25 ∧
  randomize_253_spec 129 1 = 24 ∧
  Z_of_byte <$> Randomize253State2_int x68 1 = Some 254 ∧
  Z_of_byte <$> Randomize253State2_int x81 14412775 = Some 56 ∧
  randomize_253_spec 129 14412775 = 136.
Proof. by vm_compute. Qed.

(** C7, amended.  For every byte [v] and position [1 <= pos <= 14412641],
    the positions at which [149 * pos] fits an [int],
    [Randomize253State2 v pos] is
    [((v + ((149 * pos) mod 253) + 1 - 1) mod 254) + 1] and lies in
    [1,254]. *)
Theorem Randomize253State2_value (cwValue : byte) (cwPosition : Z) :
  1 <= cwPosition <= 14412641 →
  ∃ r, Randomize253State2_int cwValue cwPosition = Some r ∧
       Z_of_byte r =
         (Z_of_byte cwValue + ((149 * cwPosition) mod 253) + 1 - 1) mod 254 + 1 ∧
       1 <= Z_of_byte r <= 254.
Proof.
  intros Hpos. rewrite Randomize253State2_int_small by lia.
  pose proof (Randomize253State2_tmp_bounds cwValue cwPosition ltac:(lia))
    as Hb.
  exists (byte_of_Z (Randomize253State2_tmp cwValue cwPosition)).
  split; [apply Randomize253State2_defined; lia |].
  rewrite Z_of_byte_of_Z_small by lia.
  split; [| lia].
  clear Hb. unfold Randomize253State2_tmp.
  pose proof (Z_of_byte_range cwValue) as Hv.
  rewrite Z.rem_mod_nonneg by lia.
  pose proof (Z.mod_pos_bound (149 * cwPosition) 253 ltac:(lia)) as Hm.
  set (r := (149 * cwPosition) mod 253) in *.
  destruct (254 <? _) eqn:E; [apply Z.ltb_lt in E | apply Z.ltb_ge in E].
  - replace (Z_of_byte cwValue + r + 1 - 1)
      with (Z_of_byte cwValue + r - 254 + 1 * 254) by lia.
    rewrite Z.mod_add by lia. rewrite Z.mod_small by lia. lia.
  - rewrite Z.mod_small by lia. lia.
Qed.

Lemma Randomize253State2_value_witness :
  ∃ r, Randomize253State2_int x81 1 = Some r ∧
       Z_of_byte r = (Z_of_byte x81 + ((149 * 1) mod 253) + 1 - 1) mod 254 + 1 ∧
       1 <= Z_of_byte r <= 254.
Proof. apply (Randomize253State2_value x81 1). lia. Defined.

(** ** The monad *)

Lemma bind_Some {A B} (m : M A) (k : A → M B) σ a σ' :
  m σ = Some (a, σ') → (m ≫= k) σ = k a σ'.
Proof. intros H. unfold mbind, M_bind. by rewrite H. Qed.

Lemma bind_None {A B} (m : M A) (k : A → M B) σ :
  m σ = None → (m ≫= k) σ = None.
Proof. intros H. unfold mbind, M_bind. by rewrite H. Qed.

Lemma bind_inv {A B} (m : M A) (k : A → M B) σ r :
  (m ≫= k) σ = Some r → ∃ a σ', m σ = Some (a, σ') ∧ k a σ' = Some r.
Proof.
  unfold mbind, M_bind. destruct (m σ) as [[a σ']|]; [eauto | done].
Qed.

Lemma gets_eq {A} (f : DmtxEncodeStream → A) σ :
  gets f σ = Some (f (stream σ), σ).
Proof. done. Qed.

Lemma chkerr_encoding {A} (r : A) (k : M A) σ :
  status (stream σ) = DmtxStatusEncoding → chkerr r k σ = k σ.
Proof. intros H. unfold chkerr. by rewrite decide_True. Qed.

Lemma chkerr_stopped {A} (r : A) (k : M A) σ :
  status (stream σ) ≠ DmtxStatusEncoding → chkerr r k σ = Some (r, σ).
Proof. intros H. unfold chkerr. by rewrite decide_False. Qed.

Lemma chkscheme_ok (sch : DmtxScheme) (k : M unit) σ :
  currentScheme (stream σ) = sch → chkscheme sch k σ = k σ.
Proof. intros H. unfold chkscheme. by rewrite decide_True. Qed.

(** ** Stream primitives *)

Lemma StreamOutputChainAppend_ok v σ :
  valid_list (mem σ) (output (stream σ)) →
  length (output (stream σ)) < capacity (output (stream σ)) →
  StreamOutputChainAppend v σ = Some (tt, append_st v σ).
Proof.
  intros [Hl Hc] Hroom.
  unfold StreamOutputChainAppend, dmtxByteListPush, dmtxByteListHasCapacity,
    store.
  apply Z.ltb_lt in Hroom as Hroom'. rewrite Hroom'.
  replace (length (output (stream σ)) <? 0) with false
    by (symmetry; apply Z.ltb_ge; lia).
  destruct (mem σ !! b (output (stream σ))) as [cells|] eqn:E; simpl in *.
  - rewrite decide_True by lia. unfold append_st. by rewrite E.
  - lia.
Qed.

Lemma StreamOutputChainAppend_full v σ :
  capacity (output (stream σ)) <= length (output (stream σ)) →
  StreamOutputChainAppend v σ =
    Some (tt, mkState (mem σ)
                (set_reason 1 (set_status DmtxStatusFatal (stream σ)))).
Proof.
  intros Hfull. unfold StreamOutputChainAppend, dmtxByteListHasCapacity.
  apply Z.ltb_ge in Hfull. by rewrite Hfull.
Qed.

Lemma output_bytes_append v σ :
  valid_list (mem σ) (output (stream σ)) →
  length (output (stream σ)) < capacity (output (stream σ)) →
  output_bytes (append_st v σ) = output_bytes σ ++ [v].
Proof.
  intros [Hl Hc] Hroom. unfold output_bytes, bytes_of, append_st. simpl.
  rewrite lookup_insert_eq. simpl.
  set (cells := default [] _) in *. set (n := length _) in *.
  replace (Z.to_nat (n + 1)) with (S (Z.to_nat n)) by lia.
  assert (Hn : (Z.to_nat n < List.length cells)%nat) by lia.
  rewrite (take_S_r _ _ v) by (by apply list_lookup_insert_eq).
  by rewrite take_insert_ge by lia.
Qed.

Lemma valid_append v σ :
  valid_list (mem σ) (output (stream σ)) →
  length (output (stream σ)) < capacity (output (stream σ)) →
  valid_list (mem (append_st v σ)) (output (stream (append_st v σ))).
Proof.
  intros [Hl Hc] Hroom. unfold valid_list, append_st. simpl.
  rewrite lookup_insert_eq. simpl. rewrite length_insert. lia.
Qed.

Lemma codewords_append v σ :
  valid_list (mem σ) (output (stream σ)) →
  length (output (stream σ)) < capacity (output (stream σ)) →
  codewords (append_st v σ) = codewords σ ++ [Z_of_byte v].
Proof.
  intros Hv Hroom. unfold codewords.
  by rewrite output_bytes_append, fmap_app.
Qed.

Lemma unconsumed_cons σ v rest :
  0 <= inputNext (stream σ) →
  unconsumed σ = v :: rest →
  StreamInputHasNext (stream σ) = true ∧
  load (mem σ) (b (input (stream σ))) (inputNext (stream σ)) = Some v.
Proof.
  intros Hn Hu. unfold unconsumed, bytes_of in Hu.
  assert (Hl : drop (Z.to_nat (inputNext (stream σ)))
                 (take (Z.to_nat (length (input (stream σ))))
                    (default [] (mem σ !! b (input (stream σ))))) !! 0%nat
               = Some v) by (by rewrite Hu).
  rewrite lookup_drop, Nat.add_0_r in Hl.
  apply lookup_take_Some in Hl as [Hl Hlt].
  split.
  - unfold StreamInputHasNext. apply Z.ltb_lt. lia.
  - unfold load.
    replace (_ <? 0) with false by (symmetry; apply Z.ltb_ge; lia).
    destruct (mem σ !! _); simpl in *; [done | by rewrite lookup_nil in Hl].
Qed.

Lemma unconsumed_nil σ :
  0 <= inputNext (stream σ) →
  0 <= length (input (stream σ)) →
  (Z.to_nat (length (input (stream σ)))
   <= List.length (default [] (mem σ !! b (input (stream σ)))))%nat →
  unconsumed σ = [] →
  StreamInputHasNext (stream σ) = false.
Proof.
  intros Hn Hl Hc Hu. unfold unconsumed, bytes_of in Hu.
  apply (f_equal List.length) in Hu.
  rewrite length_drop, length_take in Hu. simpl in Hu.
  unfold StreamInputHasNext. apply Z.ltb_ge. lia.
Qed.

Lemma unconsumed_advance σ v rest :
  0 <= inputNext (stream σ) →
  unconsumed σ = v :: rest → unconsumed (advance_st σ) = rest.
Proof.
  unfold unconsumed, advance_st. simpl. intros Hn Hu.
  replace (Z.to_nat (inputNext (stream σ) + 1))
    with (Z.to_nat (inputNext (stream σ)) + 1)%nat by lia.
  by rewrite <- drop_drop, Hu.
Qed.

Lemma StreamInputPeekNext_ok σ v rest :
  0 <= inputNext (stream σ) →
  unconsumed σ = v :: rest →
  StreamInputPeekNext σ = Some (v, σ).
Proof.
  intros Hn Hu. destruct (unconsumed_cons _ _ _ Hn Hu) as [Hnext Hload].
  unfold StreamInputPeekNext. by rewrite Hnext, Hload.
Qed.

Lemma StreamInputAdvanceNext_ok σ v rest :
  status (stream σ) = DmtxStatusEncoding →
  0 <= inputNext (stream σ) →
  unconsumed σ = v :: rest →
  StreamInputAdvanceNext σ = Some (v, advance_st σ).
Proof.
  intros Hst Hn Hu. unfold StreamInputAdvanceNext.
  rewrite (bind_Some _ _ _ _ _ (StreamInputPeekNext_ok _ _ _ Hn Hu)).
  rewrite (bind_Some _ _ _ _ _ (gets_eq _ _)).
  by rewrite decide_True.
Qed.

Lemma EncodeValueAscii_ok v σ :
  currentScheme (stream σ) = DmtxSchemeAscii →
  status (stream σ) = DmtxStatusEncoding →
  valid_list (mem σ) (output (stream σ)) →
  length (output (stream σ)) < capacity (output (stream σ)) →
  EncodeValueAscii v σ = Some (tt, count_st 1 (append_st v σ)).
Proof.
  intros Hsch Hst Hv Hroom. unfold EncodeValueAscii.
  rewrite chkscheme_ok by done.
  rewrite (bind_Some _ _ _ _ _ (StreamOutputChainAppend_ok _ _ Hv Hroom)).
  by rewrite chkerr_encoding.
Qed.

(** ** ASCII *)

Lemma ISDIGIT_true n : ISDIGIT n = true ↔ 48 <= n <= 57.
Proof.
  unfold ISDIGIT. rewrite andb_true_iff, !Z.ltb_lt. lia.
Qed.

Lemma codewords_count_st n σ : codewords (count_st n σ) = codewords σ.
Proof. done. Qed.

Lemma codewords_advance_st σ : codewords (advance_st σ) = codewords σ.
Proof. done. Qed.

Lemma EncodeNextChunkAscii_values_pair σ v0 v1 rest :
  currentScheme (stream σ) = DmtxSchemeAscii →
  status (stream σ) = DmtxStatusEncoding →
  0 <= inputNext (stream σ) →
  valid_list (mem σ) (output (stream σ)) →
  length (output (stream σ)) < capacity (output (stream σ)) →
  unconsumed σ = v1 :: rest →
  ISDIGIT (Z_of_byte v0) && ISDIGIT (Z_of_byte v1) = true →
  EncodeNextChunkAscii_values (Z_of_byte v0) (Z_of_byte v1) true σ =
    Some (tt, count_st 1
                (append_st
                   (byte_of_Z (10 * (Z_of_byte v0 - 48)
                               + (Z_of_byte v1 - 48) + 130))
                   (advance_st σ))).
Proof.
  intros Hsch Hst Hn Hvo Hroom Hu Hd. unfold EncodeNextChunkAscii_values.
  rewrite andb_true_r, Hd.
  rewrite (bind_Some _ _ _ _ _ (StreamInputAdvanceNext_ok _ _ _ Hst Hn Hu)).
  rewrite chkerr_encoding by done.
  erewrite bind_Some by (by apply EncodeValueAscii_ok).
  by rewrite chkerr_encoding.
Qed.

Lemma EncodeNextChunkAscii_values_low σ v0 v1 v1set :
  currentScheme (stream σ) = DmtxSchemeAscii →
  status (stream σ) = DmtxStatusEncoding →
  valid_list (mem σ) (output (stream σ)) →
  length (output (stream σ)) < capacity (output (stream σ)) →
  ISDIGIT v0 && v1set && ISDIGIT v1 = false →
  v0 < 128 →
  EncodeNextChunkAscii_values v0 v1 v1set σ =
    Some (tt, count_st 1 (append_st (byte_of_Z (v0 + 1)) σ)).
Proof.
  intros Hsch Hst Hvo Hroom Hd Hlt. unfold EncodeNextChunkAscii_values.
  rewrite Hd. apply Z.ltb_lt in Hlt. rewrite Hlt.
  erewrite bind_Some by (by apply EncodeValueAscii_ok).
  by rewrite chkerr_encoding.
Qed.

Lemma EncodeNextChunkAscii_values_high σ v0 v1 v1set :
  currentScheme (stream σ) = DmtxSchemeAscii →
  status (stream σ) = DmtxStatusEncoding →
  valid_list (mem σ) (output (stream σ)) →
  length (output (stream σ)) + 2 <= capacity (output (stream σ)) →
  ISDIGIT v0 && v1set && ISDIGIT v1 = false →
  128 <= v0 →
  EncodeNextChunkAscii_values v0 v1 v1set σ =
    Some (tt, count_st 1
                (append_st (byte_of_Z (v0 - 127))
                   (count_st 1
                      (append_st (byte_of_Z DmtxValueAsciiUpperShift) σ)))).
Proof.
  intros Hsch Hst Hvo Hroom Hd Hge. unfold EncodeNextChunkAscii_values.
  rewrite Hd. apply Z.ltb_ge in Hge. rewrite Hge.
  erewrite bind_Some by (apply EncodeValueAscii_ok; [done..|lia]).
  rewrite chkerr_encoding by done.
  erewrite bind_Some.
  2:{ apply EncodeValueAscii_ok; [done | done | | simpl; lia].
      apply (valid_append _ σ); [done | lia]. }
  by rewrite chkerr_encoding.
Qed.

(** C1.  One step of the ASCII encoder, on a stream in scheme Ascii that
    is encoding, has input left and room in its output for the codewords
    of the step.  If the next two input bytes are digits, the single
    codeword [10*d1 + d2 + 130] is appended and both bytes are consumed;
    otherwise a next byte [v <= 127] appends the single codeword [v + 1],
    and a next byte [v >= 128] appends 235 followed by [v - 127]; one
    byte is consumed in both. *)
Theorem EncodeNextChunkAscii_codewords (σ : State) (v0 : byte)
    (rest : list byte) :
  currentScheme (stream σ) = DmtxSchemeAscii →
  status (stream σ) = DmtxStatusEncoding →
  0 <= inputNext (stream σ) →
  valid_list (mem σ) (input (stream σ)) →
  valid_list (mem σ) (output (stream σ)) →
  unconsumed σ = v0 :: rest →
  length (output (stream σ))
    + (if digit_pair (v0 :: rest) || (Z_of_byte v0 <? 128) then 1 else 2)
    <= capacity (output (stream σ)) →
  ∃ σ', EncodeNextChunkAscii σ = Some (tt, σ') ∧
        status (stream σ') = DmtxStatusEncoding ∧
        (∀ v1 rest', rest = v1 :: rest' →
           ISDIGIT (Z_of_byte v0) = true → ISDIGIT (Z_of_byte v1) = true →
           codewords σ' =
             codewords σ ++
               [10 * (Z_of_byte v0 - 48) + (Z_of_byte v1 - 48) + 130] ∧
           inputNext (stream σ') = inputNext (stream σ) + 2) ∧
        (digit_pair (v0 :: rest) = false → Z_of_byte v0 <= 127 →
           codewords σ' = codewords σ ++ [Z_of_byte v0 + 1] ∧
           inputNext (stream σ') = inputNext (stream σ) + 1) ∧
        (digit_pair (v0 :: rest) = false → 128 <= Z_of_byte v0 →
           codewords σ' = codewords σ ++ [235; Z_of_byte v0 - 127] ∧
           inputNext (stream σ') = inputNext (stream σ) + 1).
Proof.
  intros Hsch Hst Hn Hvi Hvo Hu Hroom.
  pose proof (Z_of_byte_range v0) as Hr0.
  unfold EncodeNextChunkAscii.
  destruct (unconsumed_cons _ _ _ Hn Hu) as [Hnext _].
  rewrite (bind_Some _ _ _ _ _ (gets_eq _ _)), Hnext.
  rewrite (bind_Some _ _ _ _ _ (StreamInputAdvanceNext_ok _ _ _ Hst Hn Hu)).
  rewrite chkerr_encoding by done.
  rewrite (bind_Some _ _ _ _ _ (gets_eq _ _)).
  pose proof (unconsumed_advance _ _ _ Hn Hu) as Hu1.
  assert (Hn1 : 0 <= inputNext (stream (advance_st σ))) by (simpl; lia).
  assert (Hone : length (output (stream σ)) < capacity (output (stream σ)))
    by (destruct (_ || _) in Hroom; lia).
  destruct rest as [|v1 rest'].
  - (* the last input byte *)
    assert (Hlast : StreamInputHasNext (stream (advance_st σ)) = false).
    { apply unconsumed_nil; [done | | | done]; destruct Hvi; simpl; lia. }
    rewrite Hlast.
    assert (Hd : ISDIGIT (Z_of_byte v0) && false && ISDIGIT 0 = false)
      by (by rewrite andb_false_r).
    destruct (Z_lt_le_dec (Z_of_byte v0) 128) as [Hlt|Hge].
    + rewrite EncodeNextChunkAscii_values_low by done.
      eexists. split; [done |]. split; [done |].
      split; [done |]. split; [| intros; lia].
      intros _ _. rewrite codewords_count_st, codewords_append by done.
      rewrite Z_of_byte_of_Z_small by lia. done.
    + assert (Hb : (Z_of_byte v0 <? 128) = false) by (apply Z.ltb_ge; lia).
      simpl in Hroom. rewrite Hb in Hroom. simpl in Hroom.
      rewrite EncodeNextChunkAscii_values_high by done.
      eexists. split; [done |]. split; [done |].
      split; [done |]. split; [intros; lia |].
      intros _ _. rewrite codewords_count_st, codewords_append.
      * rewrite codewords_count_st, codewords_append by done.
        rewrite !Z_of_byte_of_Z_small by (unfold DmtxValueAsciiUpperShift; lia).
        rewrite <- app_assoc. done.
      * apply (valid_append _ (advance_st σ)); [done | simpl; lia].
      * simpl. lia.
  - (* a second byte follows *)
    destruct (unconsumed_cons _ _ _ Hn1 Hu1) as [Hnext1 _].
    rewrite Hnext1.
    rewrite (bind_Some _ _ _ _ _ (StreamInputPeekNext_ok _ _ _ Hn1 Hu1)).
    rewrite chkerr_encoding by done.
    pose proof (Z_of_byte_range v1) as Hr1.
    destruct (ISDIGIT (Z_of_byte v0) && ISDIGIT (Z_of_byte v1)) eqn:Hd.
    + rewrite (EncodeNextChunkAscii_values_pair _ _ _ rest') by done.
      apply andb_true_iff in Hd as [Hd0 Hd1].
      eexists. split; [done |]. split; [done |].
      split; [| split; simpl; rewrite Hd0, Hd1; done].
      intros v1' rest'' [= <- <-] _ _.
      rewrite codewords_count_st, codewords_append by done.
      apply ISDIGIT_true in Hd0, Hd1.
      rewrite Z_of_byte_of_Z_small by lia. split; [done | simpl; lia].
    + assert (Hd' : ISDIGIT (Z_of_byte v0) && true && ISDIGIT (Z_of_byte v1)
                    = false) by (by rewrite andb_true_r).
      assert (Hnp : ∀ v1' rest'', v1 :: rest' = v1' :: rest'' →
                ISDIGIT (Z_of_byte v0) = true →
                ISDIGIT (Z_of_byte v1') = true → False).
      { intros v1' rest'' [= <- <-] H0 H1. by rewrite H0, H1 in Hd. }
      destruct (Z_lt_le_dec (Z_of_byte v0) 128) as [Hlt|Hge].
      * rewrite EncodeNextChunkAscii_values_low by done.
        eexists. split; [done |]. split; [done |].
        split; [intros; exfalso; eauto |]. split; [| intros; lia].
        intros _ _. rewrite codewords_count_st, codewords_append by done.
        rewrite Z_of_byte_of_Z_small by lia. done.
      * assert (Hb : (Z_of_byte v0 <? 128) = false) by (apply Z.ltb_ge; lia).
        simpl in Hroom. rewrite Hd, Hb in Hroom. simpl in Hroom.
        rewrite EncodeNextChunkAscii_values_high by done.
        eexists. split; [done |]. split; [done |].
        split; [intros; exfalso; eauto |]. split; [intros; lia |].
        intros _ _. rewrite codewords_count_st, codewords_append.
        -- rewrite codewords_count_st, codewords_append by done.
           rewrite !Z_of_byte_of_Z_small
             by (unfold DmtxValueAsciiUpperShift; lia).
           rewrite <- app_assoc. done.
        -- apply (valid_append _ (advance_st σ)); [done | simpl; lia].
        -- simpl. lia.
Qed.

Lemma EncodeNextChunkAscii_codewords_witness :
  ∃ σ', EncodeNextChunkAscii (state_of_input [x31; x32; x80] 8) = Some (tt, σ') ∧
        status (stream σ') = DmtxStatusEncoding ∧
        codewords σ' = [142] ∧ inputNext (stream σ') = 2.
Proof.
  destruct (EncodeNextChunkAscii_codewords
              (state_of_input [x31; x32; x80] 8) x31 [x32; x80])
    as (σ' & Hrun & Hst & Hpair & _).
  - reflexivity.
  - reflexivity.
  - simpl. lia.
  - compute_done.
  - compute_done.
  - reflexivity.
  - simpl. lia.
  - exists σ'. split; [exact Hrun |]. split; [exact Hst |].
    apply (Hpair x32 [x80]); reflexivity.
Defined.

(** ** C40 / Text / X12 triplets *)

(** C3.  Flushing a triplet of CTX values [v0 v1 v2] (each in 0..39) from
    a stream in scheme C40, Text or X12 that is encoding and has room for
    two codewords appends exactly the two codewords [P / 256] and
    [P mod 256] for [P = 1600*v0 + 40*v1 + v2 + 1], and grows
    [outputChainValueCount] by exactly 3. *)
Theorem EncodeValuesCTX_packs_triplet (σ : State) (valueList : DmtxByteList)
    (v0 v1 v2 : byte) :
  currentScheme (stream σ) = DmtxSchemeC40
  ∨ currentScheme (stream σ) = DmtxSchemeText
  ∨ currentScheme (stream σ) = DmtxSchemeX12 →
  status (stream σ) = DmtxStatusEncoding →
  valid_list (mem σ) (output (stream σ)) →
  length (output (stream σ)) + 2 <= capacity (output (stream σ)) →
  length valueList = 3 →
  bytes_of (mem σ) valueList = [v0; v1; v2] →
  Z_of_byte v0 <= 39 → Z_of_byte v1 <= 39 → Z_of_byte v2 <= 39 →
  let P := 1600 * Z_of_byte v0 + 40 * Z_of_byte v1 + Z_of_byte v2 + 1 in
  ∃ σ', EncodeValuesCTX valueList σ = Some (tt, σ') ∧
        codewords σ' = codewords σ ++ [P / 256; P mod 256] ∧
        outputChainValueCount (stream σ') =
          outputChainValueCount (stream σ) + 3 ∧
        status (stream σ') = DmtxStatusEncoding.
Proof.
  intros Hsch Hst Hvo Hroom Hlen Hvals H0 H1 H2 P.
  pose proof (Z_of_byte_range v0). pose proof (Z_of_byte_range v1).
  pose proof (Z_of_byte_range v2).
  assert (∃ cells, mem σ !! b valueList = Some cells ∧
                   take 3 cells = [v0; v1; v2]) as (cells & Hcells & Htake).
  { unfold bytes_of in Hvals. rewrite Hlen in Hvals.
    destruct (mem σ !! b valueList) as [cells|] eqn:E; simpl in Hvals.
    - by exists cells.
    - done. }
  assert (Hread : ∀ i v, [v0; v1; v2] !! i = Some v →
            read valueList (Z.of_nat i) σ = Some (v, σ)).
  { intros i v Hi. unfold read, load. rewrite Hcells.
    replace (_ <? 0) with false by (symmetry; apply Z.ltb_ge; lia).
    rewrite Nat2Z.id. rewrite <- Htake in Hi.
    apply lookup_take_Some in Hi as [-> _]. done. }
  unfold EncodeValuesCTX.
  rewrite (bind_Some _ _ _ _ _ (gets_eq _ _)).
  rewrite decide_False by (intros (? & ? & ?); destruct Hsch as [?|[?|?]]; done).
  rewrite decide_False by (intros ?; done).
  rewrite (bind_Some _ _ _ _ _ (Hread 0%nat v0 eq_refl)).
  rewrite (bind_Some _ _ _ _ _ (Hread 1%nat v1 eq_refl)).
  rewrite (bind_Some _ _ _ _ _ (Hread 2%nat v2 eq_refl)).
  fold P.
  erewrite bind_Some by (apply StreamOutputChainAppend_ok; [done | lia]).
  rewrite chkerr_encoding by done.
  erewrite bind_Some.
  2:{ apply StreamOutputChainAppend_ok; [| simpl; lia].
      apply (valid_append _ σ); [done | lia]. }
  rewrite chkerr_encoding by done.
  eexists. split; [done |]. split; [| done].
  change (codewords (count_st 3
            (append_st (byte_of_Z (P `rem` 256))
               (append_st (byte_of_Z (P `quot` 256)) σ)))
          = codewords σ ++ [P / 256; P mod 256]).
  rewrite codewords_count_st, codewords_append.
  - rewrite codewords_append by (done || lia).
    rewrite Z.quot_div_nonneg, Z.rem_mod_nonneg by (unfold P; lia).
    assert (0 <= P / 256 < 256).
    { split; [apply Z.div_pos; unfold P; lia |].
      apply Z.div_lt_upper_bound; unfold P; lia. }
    rewrite Z_of_byte_of_Z_small by done.
    rewrite Z_of_byte_of_Z_small by (apply Z.mod_pos_bound; lia).
    by rewrite <- app_assoc.
  - apply (valid_append _ σ); [done | lia].
  - simpl. lia.
Qed.

Lemma EncodeValuesCTX_packs_triplet_witness :
  let σ :=
    mkState (<[2%nat := [x0e; x16; x1a; x00]]>
               (mem (state_of_input [x41; x49; x4d] 8)))
      (set_currentScheme DmtxSchemeC40
         (stream (state_of_input [x41; x49; x4d] 8))) in
  ∃ σ', EncodeValuesCTX (mkByteList 3 4 2%nat) σ = Some (tt, σ') ∧
        codewords σ' = [91; 11] ∧
        outputChainValueCount (stream σ') = 3 ∧
        status (stream σ') = DmtxStatusEncoding.
Proof.
  intros σ.
  apply (EncodeValuesCTX_packs_triplet σ (mkByteList 3 4 2%nat) x0e x16 x1a).
  - left. reflexivity.
  - reflexivity.
  - compute_done.
  - simpl. lia.
  - reflexivity.
  - reflexivity.
  - vm_compute. discriminate.
  - vm_compute. discriminate.
  - vm_compute. discriminate.
Defined.

(** ** EDIFACT *)

Lemma output_bytes_last σ :
  valid_list (mem σ) (output (stream σ)) →
  0 < length (output (stream σ)) →
  ∃ last,
    load (mem σ) (b (output (stream σ))) (length (output (stream σ)) - 1)
      = Some last ∧
    output_bytes σ = output_bytes (remove_st σ) ++ [last].
Proof.
  intros [Hl Hc] Hpos. unfold output_bytes, bytes_of, load, remove_st. simpl.
  replace (_ <? 0) with false by (symmetry; apply Z.ltb_ge; lia).
  destruct (mem σ !! b (output (stream σ))) as [cells|] eqn:E; simpl in *;
    [| lia].
  destruct (lookup_lt_is_Some_2 cells
              (Z.to_nat (length (output (stream σ)) - 1))) as [last Hlast];
    [lia |].
  exists last. split; [done |].
  replace (Z.to_nat (length (output (stream σ))))
    with (S (Z.to_nat (length (output (stream σ)) - 1))) by lia.
  by apply take_S_r.
Qed.

Lemma StreamOutputChainRemoveLast_ok σ last :
  0 < outputChainWordCount (stream σ) →
  load (mem σ) (b (output (stream σ))) (length (output (stream σ)) - 1)
    = Some last →
  StreamOutputChainRemoveLast σ = Some (last, remove_st σ).
Proof.
  intros Hwc Hload. unfold StreamOutputChainRemoveLast.
  apply Z.ltb_lt in Hwc. by rewrite Hwc, Hload.
Qed.

Lemma valid_remove σ :
  valid_list (mem σ) (output (stream σ)) →
  0 < length (output (stream σ)) →
  valid_list (mem (remove_st σ)) (output (stream (remove_st σ))).
Proof. intros [Hl Hc] Hpos. unfold valid_list, remove_st. simpl. lia. Qed.

Lemma Z_lor_byte_bound a c : 0 <= a < 256 → 0 <= c < 256 → 0 <= Z.lor a c < 256.
Proof.
  intros Ha Hc. split; [apply Z.lor_nonneg; lia |].
  destruct (Z.eq_dec (Z.lor a c) 0) as [->|Hne]; [lia |].
  apply (Z.log2_lt_pow2 _ 8); [pose proof (Z.lor_nonneg a c); lia |].
  rewrite Z.log2_lor by lia.
  apply Z.max_lub_lt.
  - destruct (Z.eq_dec a 0) as [->|?]; [done |].
    apply Z.log2_lt_pow2; lia.
  - destruct (Z.eq_dec c 0) as [->|?]; [done |].
    apply Z.log2_lt_pow2; lia.
Qed.

Lemma edifact_value_bounds v :
  0 <= v → 0 <= Z.shiftl (Z.land v 63) 2 <= 252.
Proof.
  intros Hv. change 63 with (Z.ones 6). rewrite Z.land_ones by lia.
  rewrite Z.shiftl_mul_pow2 by lia.
  pose proof (Z.mod_pos_bound v (2 ^ 6) ltac:(lia)). lia.
Qed.

(** C4.  Appending an EDIFACT value [v] in [31,94] to a stream in scheme
    Edifact that is encoding, when [outputChainValueCount mod 4 = k] and
    [ev = (v & 0x3F) << 2]: in phase 0 the byte [ev] is appended; in phase
    1 the last output byte is OR-ed with [ev >> 6] and the byte [ev << 2]
    is appended; in phase 2 the last byte is OR-ed with [ev >> 4] and the
    byte [ev << 4] is appended; in phase 3 the last byte is OR-ed with
    [ev >> 2] and nothing is appended.  [outputChainValueCount] grows by
    one, and the output length by one in phases 0, 1, 2 and by zero in
    phase 3.  Appended bytes are truncated to 8 bits, as [DmtxByte] is;
    phases 0, 1, 2 need room for one codeword and phases 1, 2, 3 a
    codeword of the current chain to OR into. *)
Theorem EncodeValueEdifact_phases (σ : State) (value : byte) :
  currentScheme (stream σ) = DmtxSchemeEdifact →
  status (stream σ) = DmtxStatusEncoding →
  valid_list (mem σ) (output (stream σ)) →
  31 <= Z_of_byte value <= 94 →
  0 <= outputChainValueCount (stream σ) →
  let k := outputChainValueCount (stream σ) mod 4 in
  let ev := Z.shiftl (Z.land (Z_of_byte value) 63) 2 in
  (k ≠ 3 → length (output (stream σ)) < capacity (output (stream σ))) →
  (k ≠ 0 → 0 < outputChainWordCount (stream σ)
           ∧ 0 < length (output (stream σ))) →
  ∃ σ', EncodeValueEdifact value σ = Some (tt, σ') ∧
        status (stream σ') = DmtxStatusEncoding ∧
        outputChainValueCount (stream σ') =
          outputChainValueCount (stream σ) + 1 ∧
        length (output (stream σ')) =
          length (output (stream σ)) + (if k =? 3 then 0 else 1) ∧
        (k = 0 → codewords σ' = codewords σ ++ [ev]) ∧
        (∀ init last, codewords σ = init ++ [last] →
           (k = 1 → codewords σ' =
                      init ++ [Z.lor last (Z.shiftr ev 6);
                               Z.shiftl ev 2 mod 256]) ∧
           (k = 2 → codewords σ' =
                      init ++ [Z.lor last (Z.shiftr ev 4);
                               Z.shiftl ev 4 mod 256]) ∧
           (k = 3 → codewords σ' = init ++ [Z.lor last (Z.shiftr ev 2)])).
Proof.
  intros Hsch Hst Hvo Hv Hcount k ev Hroom Hlast.
  pose proof (edifact_value_bounds (Z_of_byte value) ltac:(lia)) as Hev.
  fold ev in Hev.
  assert (Hk : 0 <= k < 4) by (apply Z.mod_pos_bound; lia).
  unfold EncodeValueEdifact. rewrite chkscheme_ok by done.
  replace (Z_of_byte value <? 31) with false by (symmetry; apply Z.ltb_ge; lia).
  replace (94 <? Z_of_byte value) with false by (symmetry; apply Z.ltb_ge; lia).
  change (false || false) with false. cbv iota. fold ev.
  rewrite (Z_of_byte_of_Z_small ev) by lia.
  rewrite (bind_Some _ _ _ _ _ (gets_eq _ _)).
  rewrite Z.rem_mod_nonneg by lia. fold k.
  assert (Hshr : ∀ n, 0 <= n → 0 <= Z.shiftr ev n < 256).
  { intros n Hn. rewrite Z.shiftr_div_pow2 by lia.
    assert (0 < 2 ^ n) by (apply Z.pow_pos_nonneg; lia).
    split; [apply Z.div_pos; lia |].
    apply Z.div_lt_upper_bound; [lia |]. nia. }
  assert (Hphase : ∀ n x, 0 <= n → k ≠ 0 →
            ∃ last,
              StreamOutputChainRemoveLast σ = Some (last, remove_st σ) ∧
              StreamOutputChainAppend
                (byte_of_Z (Z.lor (Z_of_byte last) (Z.shiftr ev n)))
                (remove_st σ)
              = Some (tt, append_st
                            (byte_of_Z (Z.lor (Z_of_byte last) (Z.shiftr ev n)))
                            (remove_st σ)) ∧
              codewords (append_st
                           (byte_of_Z (Z.lor (Z_of_byte last) (Z.shiftr ev n)))
                           (remove_st σ))
              = codewords (remove_st σ)
                  ++ [Z.lor (Z_of_byte last) (Z.shiftr ev n)] ∧
              codewords σ = codewords (remove_st σ) ++ [Z_of_byte last] ∧
              (k ≠ 3 →
               codewords (append_st x (append_st
                           (byte_of_Z (Z.lor (Z_of_byte last) (Z.shiftr ev n)))
                           (remove_st σ)))
               = codewords (remove_st σ)
                   ++ [Z.lor (Z_of_byte last) (Z.shiftr ev n); Z_of_byte x] ∧
               StreamOutputChainAppend x
                 (append_st
                    (byte_of_Z (Z.lor (Z_of_byte last) (Z.shiftr ev n)))
                    (remove_st σ))
               = Some (tt, append_st x (append_st
                           (byte_of_Z (Z.lor (Z_of_byte last) (Z.shiftr ev n)))
                           (remove_st σ))))).
  { intros n x Hn Hk0. destruct (Hlast Hk0) as [Hwc Hlen].
    destruct (output_bytes_last σ Hvo Hlen) as (last & Hload & Hbytes).
    pose proof (valid_remove σ Hvo Hlen) as Hvr.
    assert (Hrr : length (output (stream (remove_st σ)))
                  < capacity (output (stream (remove_st σ))))
      by (destruct Hvo; simpl; lia).
    pose proof (Z_lor_byte_bound (Z_of_byte last) (Z.shiftr ev n)
                  ltac:(pose proof (Z_of_byte_range last); lia)
                  (Hshr n Hn)) as Hlor.
    exists last. split; [by apply StreamOutputChainRemoveLast_ok |].
    split; [by apply StreamOutputChainAppend_ok |].
    split; [by rewrite codewords_append, Z_of_byte_of_Z_small |].
    split; [unfold codewords; by rewrite Hbytes, fmap_app |].
    intros Hk3. specialize (Hroom Hk3).
    split.
    - rewrite codewords_append.
      + rewrite codewords_append, Z_of_byte_of_Z_small by done.
        by rewrite <- app_assoc.
      + by apply valid_append.
      + simpl. lia.
    - apply StreamOutputChainAppend_ok; [by apply valid_append | simpl; lia]. }
  assert (Hinj : ∀ (i1 i2 : list Z) l1 l2,
            i1 ++ [l1] = i2 ++ [l2] → i1 = i2 ∧ l1 = l2).
  { intros i1 i2 l1 l2 H. apply app_inj_tail in H. done. }
  destruct (decide (k = 0)) as [Hk0|Hk0].
  { (* phase 0 *)
    replace (k =? 0) with true by (symmetry; apply Z.eqb_eq; lia).
    erewrite bind_Some
      by (apply StreamOutputChainAppend_ok; [done | apply Hroom; lia]).
    rewrite chkerr_encoding by done.
    eexists. split; [done |]. split; [done |]. split; [done |].
    split; [simpl; destruct (Z.eqb_spec k 3); lia |]. split.
    - intros _. change (codewords (count_st 1 (append_st (byte_of_Z ev) σ))
                        = codewords σ ++ [ev]).
      rewrite codewords_count_st, codewords_append, Z_of_byte_of_Z_small;
        [done | lia | done | apply Hroom; lia].
    - intros init last _. repeat split; intros; lia. }
  replace (k =? 0) with false by (symmetry; apply Z.eqb_neq; lia).
  destruct (decide (k = 1)) as [Hk1|Hk1].
  { (* phase 1 *)
    replace (k =? 1) with true by (symmetry; apply Z.eqb_eq; lia).
    destruct (Hphase 6 (byte_of_Z (Z.shiftl ev 2)) ltac:(lia) Hk0)
      as (last & Hrm & Hap & _ & Hcw & Hap2).
    destruct (Hap2 ltac:(lia)) as [Hcw2 Hap2'].
    rewrite (bind_Some _ _ _ _ _ Hrm). rewrite chkerr_encoding by done.
    rewrite (bind_Some _ _ _ _ _ Hap). rewrite chkerr_encoding by done.
    rewrite (bind_Some _ _ _ _ _ Hap2'). rewrite chkerr_encoding by done.
    eexists. split; [done |]. split; [done |]. split; [done |].
    split; [simpl; destruct (Z.eqb_spec k 3); lia |]. split; [intros; lia |].
    intros init last' Hdec. rewrite Hcw in Hdec.
    apply Hinj in Hdec as [<- <-].
    split; [| split; intros; lia]. intros _.
    rewrite <- Z_of_byte_of_Z. exact Hcw2. }
  destruct (decide (k = 2)) as [Hk2|Hk2].
  { (* phase 2 *)
    replace (k =? 1) with false by (symmetry; apply Z.eqb_neq; lia).
    replace (k =? 2) with true by (symmetry; apply Z.eqb_eq; lia).
    destruct (Hphase 4 (byte_of_Z (Z.shiftl ev 4)) ltac:(lia) Hk0)
      as (last & Hrm & Hap & _ & Hcw & Hap2).
    destruct (Hap2 ltac:(lia)) as [Hcw2 Hap2'].
    rewrite (bind_Some _ _ _ _ _ Hrm). rewrite chkerr_encoding by done.
    rewrite (bind_Some _ _ _ _ _ Hap). rewrite chkerr_encoding by done.
    rewrite (bind_Some _ _ _ _ _ Hap2'). rewrite chkerr_encoding by done.
    eexists. split; [done |]. split; [done |]. split; [done |].
    split; [simpl; destruct (Z.eqb_spec k 3); lia |]. split; [intros; lia |].
    intros init last' Hdec. rewrite Hcw in Hdec.
    apply Hinj in Hdec as [<- <-].
    split; [intros; lia |]. split; [| intros; lia]. intros _.
    rewrite <- Z_of_byte_of_Z. exact Hcw2. }
  (* phase 3 *)
  assert (Hk3 : k = 3) by lia.
  replace (k =? 1) with false by (symmetry; apply Z.eqb_neq; lia).
  replace (k =? 2) with false by (symmetry; apply Z.eqb_neq; lia).
  replace (k =? 3) with true by (symmetry; apply Z.eqb_eq; lia).
  destruct (Hphase 2 x00 ltac:(lia) Hk0) as (last & Hrm & Hap & Hcw1 & Hcw & _).
  rewrite (bind_Some _ _ _ _ _ Hrm). rewrite chkerr_encoding by done.
  rewrite (bind_Some _ _ _ _ _ Hap). rewrite chkerr_encoding by done.
  eexists. split; [done |]. split; [done |]. split; [done |].
  split; [simpl; destruct (Z.eqb_spec k 3); lia |]. split; [intros; lia |].
  intros init last' Hdec. rewrite Hcw in Hdec.
  apply Hinj in Hdec as [<- <-].
  split; [intros; lia |]. split; [intros; lia |]. intros _.
  exact Hcw1.
Qed.

Lemma EncodeValueEdifact_phases_witness :
  let σ :=
    mkState (<[1%nat := [x04; x00; x00; x00]]> ∅)
      (mkStream DmtxSchemeEdifact 1 1 1 (-1) (-1) DmtxStatusEncoding
         (mkByteList 1 1 0%nat) (mkByteList 1 4 1%nat)) in
  ∃ σ', EncodeValueEdifact x42 σ = Some (tt, σ') ∧
        outputChainValueCount (stream σ') = 2 ∧
        length (output (stream σ')) = 2 ∧
        codewords σ' = [4; 32].
Proof.
  intros σ.
  destruct (EncodeValueEdifact_phases σ x42)
    as (σ' & Hrun & _ & Hcount & Hlen & _ & Hphase).
  - reflexivity.
  - reflexivity.
  - compute_done.
  - vm_compute. split; discriminate.
  - simpl. lia.
  - intros _. simpl. lia.
  - intros _. simpl. lia.
  - exists σ'. split; [exact Hrun |]. split; [exact Hcount |].
    split; [exact Hlen |].
    destruct (Hphase [] 4 eq_refl) as (H1 & _ & _). apply H1. reflexivity.
Defined.

(** ** Weakest preconditions *)

Lemma wp_intro {A} (m : M A) (Q : A → State → Prop) σ :
  (∀ a σ', m σ = Some (a, σ') → Q a σ') → wp m Q σ.
Proof. unfold wp. destruct (m σ) as [[a σ']|]; auto. Qed.

Lemma wp_elim {A} (m : M A) (Q : A → State → Prop) σ a σ' :
  wp m Q σ → m σ = Some (a, σ') → Q a σ'.
Proof. unfold wp. intros H E. by rewrite E in H. Qed.

Lemma wp_mono {A} (m : M A) (Q Q' : A → State → Prop) σ :
  wp m Q σ → (∀ a σ', Q a σ' → Q' a σ') → wp m Q' σ.
Proof. unfold wp. destruct (m σ) as [[a σ']|]; auto. Qed.

Lemma wp_ret {A} (a : A) (Q : A → State → Prop) σ : Q a σ → wp (mret a) Q σ.
Proof. done. Qed.

Lemma wp_bind {A B} (m : M A) (k : A → M B) (Q : B → State → Prop) σ :
  wp m (λ a σ', wp (k a) Q σ') σ → wp (m ≫= k) Q σ.
Proof.
  unfold wp at 1 3. unfold mbind, M_bind. by destruct (m σ) as [[a σ']|].
Qed.

Lemma wp_gets {A} (f : DmtxEncodeStream → A) (Q : A → State → Prop) σ :
  Q (f (stream σ)) σ → wp (gets f) Q σ.
Proof. done. Qed.

Lemma wp_modify f (Q : unit → State → Prop) σ :
  Q tt (mkState (mem σ) (f (stream σ))) → wp (modify f) Q σ.
Proof. done. Qed.

Lemma wp_abort {A} (Q : A → State → Prop) σ : wp abort Q σ.
Proof. done. Qed.

Lemma wp_chkerr {A} (r : A) (k : M A) (Q : A → State → Prop) σ :
  (status (stream σ) = DmtxStatusEncoding → wp k Q σ) →
  (status (stream σ) ≠ DmtxStatusEncoding → Q r σ) →
  wp (chkerr r k) Q σ.
Proof.
  intros Hk Hr. unfold wp, chkerr. case_decide; [by apply Hk | by apply Hr].
Qed.

Lemma wp_chkscheme sch (k : M unit) (Q : unit → State → Prop) σ :
  (currentScheme (stream σ) = sch → wp k Q σ) →
  (currentScheme (stream σ) ≠ sch →
   Q tt (mkState (mem σ)
           (set_reason 1 (set_status DmtxStatusFatal (stream σ))))) →
  wp (chkscheme sch k) Q σ.
Proof.
  intros Hk Hr. unfold wp, chkscheme. case_decide; [by apply Hk | by apply Hr].
Qed.

Lemma wp_chksize sizeIdx (k : M unit) (Q : unit → State → Prop) σ :
  (sizeIdx ≠ DmtxUndefined → wp k Q σ) →
  (sizeIdx = DmtxUndefined →
   Q tt (mkState (mem σ)
           (set_reason 1 (set_status DmtxStatusInvalid (stream σ))))) →
  wp (chksize sizeIdx k) Q σ.
Proof.
  intros Hk Hr. unfold wp, chksize. case_decide; [by apply Hr | by apply Hk].
Qed.

Lemma wp_with_array {A} n (body : loc → M A) (Q : A → State → Prop) σ :
  (∀ p, wp (body p)
          (λ a σ', Q a (mkState (delete p (mem σ')) (stream σ')))
          (mkState (<[p := replicate n x00]> (mem σ)) (stream σ))) →
  wp (with_array n body) Q σ.
Proof.
  intros H. unfold wp, with_array. specialize (H (fresh (dom (mem σ)))).
  unfold wp in H. by destruct (body _ _) as [[a σ']|].
Qed.

(** ** The stream is completed only by [StreamMarkComplete] *)

Lemma steps_refl σ : steps σ σ.
Proof. by split. Qed.

Lemma steps_trans σ1 σ2 σ3 : steps σ1 σ2 → steps σ2 σ3 → steps σ1 σ3.
Proof. intros [H1 H2] [H3 H4]. split; auto. Qed.

Lemma grows_steps n σ σ' : grows n σ σ' → steps σ σ'.
Proof. by intros [H _]. Qed.

Lemma steps_grows_0 σ σ' :
  steps σ σ' → output (stream σ') = output (stream σ) → grows 0 σ σ'.
Proof. intros H E. split; [done |]. intros _. rewrite E. lia. Qed.

Lemma grows_trans n m σ1 σ2 σ3 :
  grows n σ1 σ2 → grows m σ2 σ3 → grows (n + m) σ1 σ3.
Proof.
  intros [H1 H2] [H3 H4]. split; [by eapply steps_trans |].
  intros H. rewrite H4, H2; [lia | by apply H3 | done].
Qed.

Lemma steps_stopped σ σ' :
  status (stream σ') ≠ DmtxStatusEncoding →
  status (stream σ') ≠ DmtxStatusComplete →
  steps σ σ'.
Proof. intros H1 H2. by split. Qed.

Lemma grows_stopped n σ σ' :
  status (stream σ') ≠ DmtxStatusEncoding →
  status (stream σ') ≠ DmtxStatusComplete →
  grows n σ σ'.
Proof. intros H1 H2. split; [by apply steps_stopped | done]. Qed.

Lemma steps_fatal σ r :
  steps σ (mkState (mem σ)
             (set_reason r (set_status DmtxStatusFatal (stream σ)))).
Proof. by apply steps_stopped. Qed.

Lemma steps_invalid σ r :
  steps σ (mkState (mem σ)
             (set_reason r (set_status DmtxStatusInvalid (stream σ)))).
Proof. by apply steps_stopped. Qed.

Lemma wp_StreamMarkFatal r (Q : unit → State → Prop) σ :
  Q tt (mkState (mem σ)
          (set_reason r (set_status DmtxStatusFatal (stream σ)))) →
  wp (StreamMarkFatal r) Q σ.
Proof. done. Qed.

Lemma wp_StreamMarkInvalid r (Q : unit → State → Prop) σ :
  Q tt (mkState (mem σ)
          (set_reason r (set_status DmtxStatusInvalid (stream σ)))) →
  wp (StreamMarkInvalid r) Q σ.
Proof. done. Qed.

Lemma StreamOutputChainAppend_grows v σ :
  wp (StreamOutputChainAppend v) (λ _ σ', grows 1 σ σ') σ.
Proof.
  unfold wp, StreamOutputChainAppend.
  destruct (dmtxByteListHasCapacity _).
  - unfold dmtxByteListPush. destruct (dmtxByteListHasCapacity _); [| done].
    destruct (store _ _ _ _); [| done]. by split.
  - by apply grows_stopped.
Qed.

Lemma StreamOutputChainRemoveLast_grows σ :
  wp StreamOutputChainRemoveLast (λ _ σ', grows (-1) σ σ') σ.
Proof.
  unfold wp, StreamOutputChainRemoveLast.
  destruct (0 <? _).
  - destruct (load _ _ _); [| done]. split; [done |]. simpl. lia.
  - by apply grows_stopped.
Qed.

Lemma StreamOutputSet_grows i v σ :
  wp (StreamOutputSet i v) (λ _ σ', grows 0 σ σ') σ.
Proof.
  unfold wp, StreamOutputSet.
  destruct (_ || _).
  - by apply grows_stopped.
  - destruct (store _ _ _ _); [| done]. split; [done |]. simpl. lia.
Qed.

Lemma StreamOutputChainInsertFirst_grows σ :
  wp StreamOutputChainInsertFirst (λ _ σ', grows 1 σ σ') σ.
Proof.
  unfold wp, StreamOutputChainInsertFirst.
  destruct (dmtxByteListHasCapacity _).
  - destruct (mem σ !! _); [| done]. case_decide; [| done]. by split.
  - by apply grows_stopped.
Qed.

Lemma StreamOutputChainRemoveFirst_grows σ :
  wp StreamOutputChainRemoveFirst (λ _ σ', grows (-1) σ σ') σ.
Proof.
  unfold wp, StreamOutputChainRemoveFirst.
  destruct (0 <? _).
  - destruct (mem σ !! _); [| done]. case_decide; [| done].
    split; [done |]. simpl. lia.
  - by apply grows_stopped.
Qed.

Lemma StreamInputPeekNext_steps σ :
  wp StreamInputPeekNext
    (λ _ σ', steps σ σ' ∧ output (stream σ') = output (stream σ)) σ.
Proof.
  unfold wp, StreamInputPeekNext.
  destruct (StreamInputHasNext _).
  - destruct (load _ _ _); [| done]. by split; [apply steps_refl |].
  - by split; [apply steps_stopped |].
Qed.

Lemma StreamInputAdvanceNext_steps σ :
  wp StreamInputAdvanceNext
    (λ _ σ', steps σ σ' ∧ output (stream σ') = output (stream σ)) σ.
Proof.
  unfold StreamInputAdvanceNext. apply wp_bind.
  eapply wp_mono; [apply StreamInputPeekNext_steps |].
  intros v σ1 [H1 E1]. apply wp_bind, wp_gets. apply wp_bind.
  case_decide.
  - apply wp_modify, wp_ret. simpl. split; [| done].
    eapply steps_trans; [exact H1 |]. by split.
  - apply wp_ret, wp_ret. by split.
Qed.

Ltac wp_call lem :=
  apply wp_bind; eapply wp_mono; [apply lem | cbv beta; intros ? ? ?].

Tactic Notation "wp_apply" constr(lem) "as" simple_intropattern(a)
    simple_intropattern(s) simple_intropattern(H) :=
  apply wp_bind; eapply wp_mono; [apply lem | cbv beta; intros a s H].

Ltac steps_solve :=
  unfold grows, steps in *; simpl in *;
  intuition (try congruence; try lia).

Lemma EncodeValueAscii_grows v σ :
  wp (EncodeValueAscii v) (λ _ σ', grows 1 σ σ') σ.
Proof.
  unfold EncodeValueAscii. apply wp_chkscheme; intros Hsch.
  - wp_call StreamOutputChainAppend_grows.
    apply wp_chkerr; intros Hst; [apply wp_modify |]; steps_solve.
  - by apply grows_stopped.
Qed.

Lemma EncodeNextChunkAscii_values_steps v0 v1 v1set σ :
  wp (EncodeNextChunkAscii_values v0 v1 v1set) (λ _ σ', steps σ σ') σ.
Proof.
  unfold EncodeNextChunkAscii_values.
  destruct (_ && _).
  - wp_call StreamInputAdvanceNext_steps.
    apply wp_chkerr; intros Hst; [| steps_solve].
    wp_call EncodeValueAscii_grows.
    apply wp_chkerr; intros Hst'; [apply wp_ret |]; steps_solve.
  - destruct (_ <? _).
    + wp_call EncodeValueAscii_grows.
      apply wp_chkerr; intros Hst'; [apply wp_ret |]; steps_solve.
    + wp_call EncodeValueAscii_grows.
      apply wp_chkerr; intros Hst; [| steps_solve].
      wp_call EncodeValueAscii_grows.
      apply wp_chkerr; intros Hst'; [apply wp_ret |]; steps_solve.
Qed.

Lemma EncodeNextChunkAscii_steps σ :
  wp EncodeNextChunkAscii (λ _ σ', steps σ σ') σ.
Proof.
  unfold EncodeNextChunkAscii. apply wp_bind, wp_gets.
  destruct (StreamInputHasNext _); [| apply wp_ret, steps_refl].
  wp_call StreamInputAdvanceNext_steps.
  apply wp_chkerr; intros Hst; [| steps_solve].
  apply wp_bind, wp_gets.
  destruct (StreamInputHasNext _).
  - wp_call StreamInputPeekNext_steps.
    apply wp_chkerr; intros Hst'; [| steps_solve].
    eapply wp_mono; [apply EncodeNextChunkAscii_values_steps |].
    intros; steps_solve.
  - eapply wp_mono; [apply EncodeNextChunkAscii_values_steps |].
    intros; steps_solve.
Qed.

Lemma read_stream l i σ :
  wp (read l i) (λ _ σ', σ' = σ) σ.
Proof. unfold wp, read. by destruct (load _ _ _). Qed.

Lemma push_stream l v σ :
  wp (push l v) (λ _ σ', stream σ' = stream σ) σ.
Proof. unfold wp, push. by destruct (dmtxByteListPush _ _ _) as [[? ?]|]. Qed.

Lemma push2_stream l v w σ :
  wp (push2 l v w) (λ _ σ', stream σ' = stream σ) σ.
Proof.
  unfold push2. wp_call push_stream.
  eapply wp_mono; [apply push_stream |]. cbv beta. intros. congruence.
Qed.

Lemma EncodeValuesCTX_steps valueList σ :
  wp (EncodeValuesCTX valueList) (λ _ σ', grows 2 σ σ') σ.
Proof.
  unfold EncodeValuesCTX. apply wp_bind, wp_gets.
  case_decide; [by apply grows_stopped |].
  case_decide; [by apply grows_stopped |].
  wp_call read_stream. subst. wp_call read_stream. subst.
  wp_call read_stream. subst.
  wp_call StreamOutputChainAppend_grows.
  apply wp_chkerr; intros Hst; [| steps_solve].
  wp_call StreamOutputChainAppend_grows.
  apply wp_chkerr; intros Hst'; [apply wp_modify |]; steps_solve.
Qed.

Lemma EncodeUnlatchCTX_steps σ :
  wp EncodeUnlatchCTX (λ _ σ', steps σ σ') σ.
Proof.
  unfold EncodeUnlatchCTX. apply wp_bind, wp_gets.
  case_decide; [by apply steps_stopped |].
  apply wp_bind, wp_gets.
  case_decide; [by apply steps_stopped |].
  wp_call StreamOutputChainAppend_grows.
  apply wp_chkerr; intros Hst'; [apply wp_modify |]; steps_solve.
Qed.

Lemma EncodeValueEdifact_steps v σ :
  wp (EncodeValueEdifact v) (λ _ σ', steps σ σ') σ.
Proof.
  unfold EncodeValueEdifact. apply wp_chkscheme; intros Hsch;
    [| by apply steps_stopped].
  destruct (_ || _); [by apply steps_stopped |].
  apply wp_bind, wp_gets.
  assert (Hbump : ∀ τ, steps σ τ →
            wp (modify (λ s, set_outputChainValueCount
                               (outputChainValueCount s + 1) s))
              (λ _ σ', steps σ σ') τ).
  { intros τ Hτ. apply wp_modify. steps_solve. }
  assert (Hor : ∀ x (k : M unit),
            (∀ τ, steps σ τ → wp k (λ _ σ', steps σ σ') τ) →
            wp (previousOutput ← StreamOutputChainRemoveLast; CHKERR;
                StreamOutputChainAppend (x previousOutput);; CHKERR; k)
              (λ _ σ', steps σ σ') σ).
  { intros x k Hk. wp_call StreamOutputChainRemoveLast_grows.
    apply wp_chkerr; intros ?; [| steps_solve].
    wp_call StreamOutputChainAppend_grows.
    apply wp_chkerr; intros ?; [| steps_solve].
    apply Hk. steps_solve. }
  assert (Hap : ∀ x τ, steps σ τ →
            wp (StreamOutputChainAppend x;; CHKERR;
                modify (λ s, set_outputChainValueCount
                               (outputChainValueCount s + 1) s))
              (λ _ σ', steps σ σ') τ).
  { intros x τ Hτ. wp_call StreamOutputChainAppend_grows.
    apply wp_chkerr; intros ?; [| steps_solve].
    apply Hbump. steps_solve. }
  destruct (_ =? 0); [apply Hap, steps_refl |].
  destruct (_ =? 1); [apply Hor; intros; by apply Hap |].
  destruct (_ =? 2); [apply Hor; intros; by apply Hap |].
  destruct (_ =? 3); [apply Hor; intros; by apply Hbump |].
  apply Hbump, steps_refl.
Qed.

Lemma EncodeNextChunkEdifact_steps σ :
  wp EncodeNextChunkEdifact (λ _ σ', steps σ σ') σ.
Proof.
  unfold EncodeNextChunkEdifact. apply wp_bind, wp_gets.
  destruct (StreamInputHasNext _); [| apply wp_ret, steps_refl].
  wp_call StreamInputAdvanceNext_steps.
  apply wp_chkerr; intros Hst; [| steps_solve].
  wp_call EncodeValueEdifact_steps.
  apply wp_chkerr; intros Hst'; [apply wp_ret |]; steps_solve.
Qed.

Lemma PushCTXValues_stream valueList inputValue targetScheme σ :
  wp (PushCTXValues valueList inputValue targetScheme)
    (λ _ σ', stream σ' = stream σ) σ.
Proof.
  unfold PushCTXValues. destruct (_ && _); [by apply wp_ret |].
  apply wp_bind.
  assert (Hx12 : ∀ l v τ, stream τ = stream σ →
            wp (PushCTXValues_X12 l v) (λ _ σ', stream σ' = stream σ) τ).
  { intros l v τ E. unfold PushCTXValues_X12.
    repeat match goal with
           | |- context [if ?c then _ else _] => destruct c
           end;
      try (apply wp_ret; done);
      (eapply wp_mono; [apply push_stream |]; cbv beta; intros; congruence). }
  assert (Hc40 : ∀ l v τ, stream τ = stream σ →
            wp (PushCTXValues_C40Text l v targetScheme)
              (λ _ σ', stream σ' = stream σ) τ).
  { intros l v τ E. unfold PushCTXValues_C40Text.
    repeat match goal with
           | |- context [if ?c then _ else _] => destruct c
           end;
      try (apply wp_ret; done);
      try (eapply wp_mono; [apply push_stream |];
           cbv beta; intros; congruence);
      (eapply wp_mono; [apply push2_stream |]; cbv beta; intros; congruence). }
  assert (Hrest : ∀ l v τ, stream τ = stream σ →
            wp ((if bool_decide (targetScheme = DmtxSchemeX12)
                 then PushCTXValues_X12 l v
                 else PushCTXValues_C40Text l v targetScheme)
                ≫= λ valueList, mret (DmtxPass, valueList))
              (λ _ σ', stream σ' = stream σ) τ).
  { intros l v τ E. apply wp_bind.
    destruct (bool_decide _);
      (eapply wp_mono; [by (apply Hx12 || apply Hc40) |]);
      cbv beta; intros; by apply wp_ret. }
  destruct (_ <? _).
  - wp_call push2_stream. apply wp_ret. by apply Hrest.
  - apply wp_ret. by apply Hrest.
Qed.

Lemma EncodeTmpRemainingInAscii_stream storage capacity σ :
  wp (EncodeTmpRemainingInAscii storage capacity)
    (λ _ σ', stream σ' = stream σ) σ.
Proof.
  unfold wp, EncodeTmpRemainingInAscii.
  by destruct (EncodeTmpRemainingInAscii_loop _ _) as [[? ?]|].
Qed.

(** ** Completion *)

Section Completion.

Variable FindSymbolSize : Z → Z → Z.
Variable dmtxGetSymbolAttribute : DmtxSymAttribute → Z → Z.

Local Abbreviation dataWords :=
  (dmtxGetSymbolAttribute DmtxSymAttribSymbolDataWords).
Local Abbreviation fills := (fills_symbol dmtxGetSymbolAttribute).

(** The contract of the collaborator: a symbol that [FindSymbolSize]
    returns is able to hold the data words it was asked for. *)
Hypothesis FindSymbolSize_holds : ∀ words request,
  FindSymbolSize words request ≠ DmtxUndefined →
  words <= dataWords (FindSymbolSize words request).

Lemma GetRemainingSymbolCapacity_defined len sizeIdx :
  sizeIdx ≠ DmtxUndefined →
  GetRemainingSymbolCapacity dmtxGetSymbolAttribute len sizeIdx
    = dataWords sizeIdx - len.
Proof. intros H. unfold GetRemainingSymbolCapacity. by rewrite decide_False. Qed.

Lemma PadRemainingInAscii_loop_grows n σ :
  wp (PadRemainingInAscii_loop n) (λ _ σ', grows (Z.of_nat n) σ σ') σ.
Proof.
  revert σ. induction n as [|n IH]; intros σ.
  - apply wp_ret. apply steps_grows_0; [apply steps_refl | done].
  - simpl PadRemainingInAscii_loop. apply wp_bind, wp_gets.
    destruct (Randomize253State2 _ _); [| apply wp_abort].
    wp_call StreamOutputChainAppend_grows.
    apply wp_chkerr; intros Hst.
    + eapply wp_mono; [apply IH |]. cbv beta. intros _ σ2 H2.
      replace (Z.of_nat (S n)) with (1 + Z.of_nat n) by lia.
      by eapply grows_trans.
    + steps_solve.
Qed.

Lemma PadRemainingInAscii_fills sizeIdx σ :
  wp (PadRemainingInAscii dmtxGetSymbolAttribute sizeIdx)
    (λ _ σ', steps σ σ' ∧
             (status (stream σ') = DmtxStatusEncoding →
              length (output (stream σ)) <= dataWords sizeIdx →
              length (output (stream σ')) = dataWords sizeIdx)) σ.
Proof.
  unfold PadRemainingInAscii.
  apply wp_chkscheme; intros Hsch; [| by split; [apply steps_stopped |]].
  apply wp_chksize; intros Hsize; [| by split; [apply steps_stopped |]].
  apply wp_bind, wp_gets.
  rewrite GetRemainingSymbolCapacity_defined by done.
  destruct (Z.ltb_spec 0 (dataWords sizeIdx - length (output (stream σ))))
    as [Hrem|Hrem].
  - wp_call StreamOutputChainAppend_grows.
    apply wp_chkerr; intros Hst; [| steps_solve].
    eapply wp_mono; [apply PadRemainingInAscii_loop_grows |].
    cbv beta. intros _ σ2 H2. steps_solve.
  - eapply wp_mono; [apply PadRemainingInAscii_loop_grows |].
    cbv beta. intros _ σ2 H2. steps_solve.
Qed.

Lemma StreamMarkComplete_fills sizeIdx τ σ :
  steps τ σ →
  (status (stream σ) = DmtxStatusEncoding →
   length (output (stream σ)) = dataWords sizeIdx) →
  wp (StreamMarkComplete sizeIdx)
    (λ _ σ', status (stream τ) ≠ DmtxStatusComplete → fills σ') σ.
Proof.
  intros Hsteps Hlen. apply wp_modify. intros Hτ.
  unfold fills_symbol. simpl. case_decide; simpl.
  - intros _. by apply Hlen.
  - intros Hc. exfalso. by apply (proj1 Hsteps).
Qed.

Lemma steps_fills τ σ :
  steps τ σ → status (stream τ) ≠ DmtxStatusComplete → fills σ.
Proof. intros [H _] Hτ Hc. exfalso. by apply H. Qed.

Lemma CompleteIfDoneAscii_fills requestedSizeIdx σ :
  wp (CompleteIfDoneAscii FindSymbolSize dmtxGetSymbolAttribute
        requestedSizeIdx)
    (λ _ σ', status (stream σ) ≠ DmtxStatusComplete → fills σ') σ.
Proof.
  unfold CompleteIfDoneAscii. apply wp_bind, wp_gets.
  destruct (negb _); [| apply wp_ret; by apply steps_fills, steps_refl].
  apply wp_bind, wp_gets.
  apply wp_chksize; intros Hsize; [| by apply steps_fills, steps_stopped].
  wp_call PadRemainingInAscii_fills.
  destruct H as [Hsteps Hlen].
  apply wp_chkerr; intros Hst; [| by apply steps_fills].
  apply StreamMarkComplete_fills; [done |].
  intros _. apply Hlen; [done |]. by apply FindSymbolSize_holds.
Qed.

Lemma UpdateBase256ChainHeader_encode_fits hi len hbc p σ :
  wp (UpdateBase256ChainHeader_encode dmtxGetSymbolAttribute hi len hbc p)
    (λ _ σ', steps σ σ' ∧
             (p ≠ DmtxUndefined → status (stream σ') = DmtxStatusEncoding →
              length (output (stream σ')) = dataWords p ∧
              length (output (stream σ')) = length (output (stream σ)))) σ.
Proof.
  unfold UpdateBase256ChainHeader_encode.
  destruct (Z.eqb_spec p DmtxUndefined) as [Hp|Hp].
  - rewrite !andb_false_r, !andb_true_r.
    destruct (_ =? 1).
    + wp_call StreamOutputSet_grows.
      apply wp_chkerr; intros ?; [apply wp_ret |]; steps_solve.
    + destruct (_ =? 2); [| by split; [apply steps_stopped |]].
      wp_call StreamOutputSet_grows.
      apply wp_chkerr; intros ?; [| steps_solve].
      wp_call StreamOutputSet_grows.
      apply wp_chkerr; intros ?; [apply wp_ret |]; steps_solve.
  - rewrite !andb_false_r, !andb_true_r.
    destruct (_ =? 1).
    + apply wp_bind, wp_gets.
      case_decide as Hdw; [by split; [apply steps_stopped |] |].
      wp_call StreamOutputSet_grows.
      apply wp_chkerr; intros ?; [apply wp_ret |]; steps_solve.
    + by split; [apply steps_stopped |].
Qed.

Lemma UpdateBase256ChainHeader_fits p σ :
  wp (UpdateBase256ChainHeader dmtxGetSymbolAttribute p)
    (λ _ σ', steps σ σ' ∧
             (p ≠ DmtxUndefined → status (stream σ') = DmtxStatusEncoding →
              length (output (stream σ')) = dataWords p)) σ.
Proof.
  unfold UpdateBase256ChainHeader. apply wp_bind, wp_gets. unfold id.
  assert (Hk : ∀ hi len hbc τ, steps σ τ →
            wp (UpdateBase256ChainHeader_encode dmtxGetSymbolAttribute
                  hi len hbc p)
              (λ _ σ', steps σ σ' ∧
                 (p ≠ DmtxUndefined →
                  status (stream σ') = DmtxStatusEncoding →
                  length (output (stream σ')) = dataWords p)) τ).
  { intros hi len hbc τ Hτ.
    eapply wp_mono; [apply UpdateBase256ChainHeader_encode_fits |].
    cbv beta. intros _ σ' [H1 H2].
    split; [by eapply steps_trans |]. intros Hp Hst. by apply H2. }
  destruct (_ && _).
  { wp_call StreamOutputChainAppend_grows.
    apply wp_chkerr; intros ?; [apply Hk |]; steps_solve. }
  destruct (_ && _).
  { wp_call StreamOutputChainInsertFirst_grows.
    apply wp_chkerr; intros ?; [apply Hk |]; steps_solve. }
  destruct (_ && _).
  { wp_call StreamOutputChainRemoveFirst_grows.
    apply wp_chkerr; intros ?; [apply Hk |]; steps_solve. }
  apply Hk, steps_refl.
Qed.

Lemma EncodeChangeScheme_steps targetScheme unlatchType σ :
  wp (EncodeChangeScheme dmtxGetSymbolAttribute targetScheme unlatchType)
    (λ _ σ', steps σ σ' ∧
             (targetScheme = DmtxSchemeAscii →
              unlatchType = DmtxUnlatchImplicit →
              output (stream σ') = output (stream σ))) σ.
Proof.
  unfold EncodeChangeScheme. apply wp_bind, wp_gets.
  case_decide; [apply wp_ret; by split; [apply steps_refl |] |].
  assert (Htail : ∀ τ, steps σ τ →
            (targetScheme = DmtxSchemeAscii →
             unlatchType = DmtxUnlatchImplicit →
             output (stream τ) = output (stream σ)) →
            wp (modify (set_currentScheme targetScheme);;
                modify (set_outputChainWordCount 0);;
                modify (set_outputChainValueCount 0);;
                if decide (targetScheme = DmtxSchemeBase256)
                then UpdateBase256ChainHeader dmtxGetSymbolAttribute
                       DmtxUndefined;; CHKERR; mret tt
                else mret tt)
              (λ _ σ', steps σ σ' ∧
                 (targetScheme = DmtxSchemeAscii →
                  unlatchType = DmtxUnlatchImplicit →
                  output (stream σ') = output (stream σ))) τ).
  { intros τ Hτ Hout. apply wp_bind, wp_modify, wp_bind, wp_modify,
      wp_bind, wp_modify.
    case_decide as Hb.
    - wp_call UpdateBase256ChainHeader_fits. destruct H0 as [H0 _].
      apply wp_chkerr; intros ?; [apply wp_ret |];
        (split; [steps_solve | intros; congruence]).
    - apply wp_ret. split; [steps_solve | done]. }
  assert (Hlatch : ∀ τ, steps σ τ →
            (targetScheme = DmtxSchemeAscii →
             unlatchType = DmtxUnlatchImplicit →
             output (stream τ) = output (stream σ)) →
            wp (modify (set_currentScheme DmtxSchemeAscii);;
                EncodeChangeScheme_latch targetScheme
                  (modify (set_currentScheme targetScheme);;
                   modify (set_outputChainWordCount 0);;
                   modify (set_outputChainValueCount 0);;
                   if decide (targetScheme = DmtxSchemeBase256)
                   then UpdateBase256ChainHeader dmtxGetSymbolAttribute
                          DmtxUndefined;; CHKERR; mret tt
                   else mret tt))
              (λ _ σ', steps σ σ' ∧
                 (targetScheme = DmtxSchemeAscii →
                  unlatchType = DmtxUnlatchImplicit →
                  output (stream σ') = output (stream σ))) τ).
  { intros τ Hτ Hout. apply wp_bind, wp_modify.
    unfold EncodeChangeScheme_latch.
    destruct targetScheme;
      try (wp_call EncodeValueAscii_grows;
           apply wp_chkerr; intros ?;
           [apply Htail; [steps_solve | done]
           | split; [steps_solve | done]]).
    apply wp_chkscheme; intros ?.
    - apply Htail; [steps_solve | done].
    - split; [steps_solve | done]. }
  unfold EncodeChangeScheme_unlatch. apply wp_bind, wp_gets.
  destruct (decide (unlatchType = DmtxUnlatchExplicit)) as [Hu|Hu].
  - destruct (currentScheme (stream σ));
      try (apply Hlatch; [apply steps_refl | done]);
      [ wp_call EncodeUnlatchCTX_steps
      | wp_call EncodeUnlatchCTX_steps
      | wp_call EncodeUnlatchCTX_steps
      | wp_call EncodeValueEdifact_steps ];
      (apply wp_chkerr; intros ?;
       [apply Hlatch; [done | intros; congruence]
       | split; [done | intros; congruence]]).
  - destruct (currentScheme (stream σ));
      apply Hlatch; (apply steps_refl || done).
Qed.

Ltac stopped_fills :=
  try apply wp_StreamMarkFatal; try apply wp_StreamMarkInvalid;
  unfold fills_symbol; simpl; intros; discriminate.

Lemma CompleteIfDonePartialCTX_fills valueList requestedSizeIdx σ :
  wp (CompleteIfDonePartialCTX FindSymbolSize dmtxGetSymbolAttribute
        valueList requestedSizeIdx)
    (λ _ σ', status (stream σ) ≠ DmtxStatusComplete → fills σ') σ.
Proof.
  unfold CompleteIfDonePartialCTX. apply wp_bind, wp_gets.
  case_decide; [stopped_fills |].
  destruct (negb _); [apply wp_abort |].
  apply wp_bind, wp_gets.
  apply wp_chksize; intros Hsize; [| by apply steps_fills, steps_stopped].
  rewrite GetRemainingSymbolCapacity_defined by done.
  destruct (length valueList =? 2); simpl;
    [| apply wp_ret; by apply steps_fills, steps_refl].
  destruct (Z.eqb_spec
              (dataWords (FindSymbolSize (length (output (stream σ)))
                            requestedSizeIdx)
               - length (output (stream σ))) 2) as [Hrem|Hrem];
    [| apply wp_ret; by apply steps_fills, steps_refl].
  wp_apply push_stream as vl σ1 E1.
  wp_apply EncodeValuesCTX_steps as ? σ2 H2.
  apply wp_chkerr; intros Hst.
  - apply StreamMarkComplete_fills.
    + destruct H2 as [H2 _]. unfold steps in *. rewrite E1 in H2. done.
    + intros _. destruct H2 as [_ H2]. rewrite H2 by done. rewrite E1. lia.
  - intros Hσ. apply (steps_fills σ2); [apply steps_refl |].
    destruct H2 as [[H2 _] _]. apply H2. by rewrite E1.
Qed.

Lemma EncodeNextChunkCTX_flush_steps fuel valueList σ :
  wp (EncodeNextChunkCTX_flush fuel valueList) (λ _ σ', steps σ σ') σ.
Proof.
  revert σ. induction fuel as [|fuel IH]; intros σ; simpl.
  - destruct (3 <=? _); [apply wp_abort | apply wp_ret, steps_refl].
  - destruct (3 <=? _); [| apply wp_ret, steps_refl].
    wp_call EncodeValuesCTX_steps.
    apply wp_chkerr; intros Hst; [| steps_solve].
    eapply wp_mono; [apply IH |]. cbv beta. intros. steps_solve.
Qed.

Lemma EncodeNextChunkCTX_loop_steps fuel valueList σ :
  wp (EncodeNextChunkCTX_loop fuel valueList) (λ _ σ', steps σ σ') σ.
Proof.
  revert valueList σ. induction fuel as [|fuel IH]; intros valueList σ; simpl.
  - apply wp_bind, wp_gets.
    destruct (StreamInputHasNext _); [apply wp_abort | apply wp_ret, steps_refl].
  - apply wp_bind, wp_gets.
    destruct (StreamInputHasNext _); [| apply wp_ret, steps_refl].
    wp_apply StreamInputAdvanceNext_steps as v σ1 [H1 _].
    apply wp_chkerr; intros Hst; [| done].
    apply wp_bind, wp_gets.
    wp_apply PushCTXValues_stream as [passFail valueList'] σ2 E2.
    apply wp_bind, wp_gets.
    wp_apply EncodeNextChunkCTX_flush_steps as r σ3 H3.
    assert (Hs : steps σ σ3).
    { eapply steps_trans; [exact H1 |]. unfold steps in *. rewrite <- E2.
      done. }
    destruct r as [valueList''|]; [| by apply wp_ret].
    destruct (_ =? 0); [by apply wp_ret |].
    eapply wp_mono; [apply IH |]. cbv beta. intros.
    by eapply steps_trans.
Qed.

Lemma EncodeNextChunkCTX_fills requestedSizeIdx σ :
  wp (EncodeNextChunkCTX FindSymbolSize dmtxGetSymbolAttribute
        requestedSizeIdx)
    (λ _ σ', status (stream σ) ≠ DmtxStatusComplete → fills σ') σ.
Proof.
  unfold EncodeNextChunkCTX. apply wp_with_array. intros p.
  apply wp_bind, wp_gets.
  wp_apply EncodeNextChunkCTX_loop_steps as r σ1 H1.
  destruct r as [valueList|];
    [| apply wp_ret; intros Hσ; by apply (steps_fills _ _ H1)].
  apply wp_bind, wp_gets.
  destruct (_ && _);
    [| apply wp_ret; intros Hσ; by apply (steps_fills _ _ H1)].
  wp_apply CompleteIfDonePartialCTX_fills as ? σ2 H2.
  assert (Hf : status (stream σ) ≠ DmtxStatusComplete → fills σ2).
  { intros Hσ. apply H2. by apply (proj1 H1). }
  apply wp_chkerr; intros Hst; [by apply wp_ret | done].
Qed.

Lemma CompleteIfDoneCTX_fills requestedSizeIdx σ :
  wp (CompleteIfDoneCTX FindSymbolSize dmtxGetSymbolAttribute
        requestedSizeIdx)
    (λ _ σ', status (stream σ) ≠ DmtxStatusComplete → fills σ') σ.
Proof.
  unfold CompleteIfDoneCTX. apply wp_bind, wp_gets.
  apply wp_chksize; intros Hsize; [| by apply steps_fills, steps_stopped].
  rewrite GetRemainingSymbolCapacity_defined by done.
  apply wp_bind, wp_gets.
  destruct (negb _); [| apply wp_ret; by apply steps_fills, steps_refl].
  destruct (Z.eqb_spec
              (dataWords (FindSymbolSize (length (output (stream σ)))
                            requestedSizeIdx)
               - length (output (stream σ))) 0) as [Hrem|Hrem].
  - apply StreamMarkComplete_fills; [apply steps_refl |]. intros _. lia.
  - wp_apply EncodeChangeScheme_steps as ? σ1 [H1 _].
    apply wp_chkerr; intros Hst; [apply wp_ret |]; by apply steps_fills.
Qed.

Lemma CompleteIfDoneEdifact_copy_fills n (k : M unit) τ m :
  ∀ i outputTmp σ,
    grows m τ σ →
    (∀ σ1, grows (m + Z.of_nat n) τ σ1 →
           wp k (λ _ σ', status (stream τ) ≠ DmtxStatusComplete → fills σ') σ1) →
    wp (CompleteIfDoneEdifact_copy n i outputTmp k)
      (λ _ σ', status (stream τ) ≠ DmtxStatusComplete → fills σ') σ.
Proof.
  revert m. induction n as [|n IH]; intros m i outputTmp σ Hσ Hk; simpl.
  - apply Hk. by rewrite Z.add_0_r.
  - wp_apply read_stream as v σ1 ->.
    wp_apply EncodeValueAscii_grows as ? σ2 H2.
    pose proof (grows_trans _ _ _ _ _ Hσ H2) as H3.
    apply wp_chkerr; intros Hst.
    + apply (IH (m + 1)); [done |]. intros σ4 H4. apply Hk.
      by replace (m + Z.of_nat (S n)) with (m + 1 + Z.of_nat n) by lia.
    + by apply steps_fills, (grows_steps _ _ _ H3).
Qed.

Lemma CompleteIfDoneEdifact_fills requestedSizeIdx σ :
  wp (CompleteIfDoneEdifact FindSymbolSize dmtxGetSymbolAttribute
        requestedSizeIdx)
    (λ _ σ', status (stream σ) ≠ DmtxStatusComplete → fills σ') σ.
Proof.
  unfold CompleteIfDoneEdifact. apply wp_with_array. intros p.
  apply wp_bind, wp_gets. apply wp_bind, wp_gets.
  set (τ := mkState _ (stream σ)).
  change (stream σ) with (stream τ). clearbody τ. clear σ.
  apply (wp_mono _ (λ _ σ', status (stream τ) ≠ DmtxStatusComplete →
                            fills σ'));
    [| intros ? ? Hf; exact Hf].
  set (len := length (output (stream τ))).
  set (sizeIdx := FindSymbolSize len requestedSizeIdx).
  apply wp_chksize; intros Hsize; [| stopped_fills].
  rewrite GetRemainingSymbolCapacity_defined by done.
  pose proof (FindSymbolSize_holds len requestedSizeIdx Hsize) as Hfit.
  fold sizeIdx in Hfit.
  apply wp_chkerr; intros Hst0; [| by apply steps_fills, steps_refl].
  apply wp_bind, wp_gets.
  destruct (negb _).
  - (* input exhausted *)
    destruct (Z.ltb_spec 0 (dataWords sizeIdx - len)) as [Hrem|Hrem];
      rewrite ?orb_true_r, ?orb_false_r.
    2: destruct (negb _).
    1, 2:
      (wp_apply EncodeChangeScheme_steps as ? σ1 [H1 _];
       apply wp_chkerr; intros Hst; [| by apply steps_fills];
       apply wp_bind, wp_gets;
       apply wp_chksize; intros Hsize1;
         [| intros ?; apply (steps_fills σ1);
            [by apply steps_stopped | by apply (proj1 H1)]];
       wp_apply PadRemainingInAscii_fills as ? σ2 [H2 Hlen2];
       pose proof (steps_trans _ _ _ H1 H2) as H12;
       apply wp_chkerr; intros Hst2; [| by apply steps_fills];
       apply StreamMarkComplete_fills; [done |];
       intros _; apply Hlen2; [done |]; by apply FindSymbolSize_holds).
    apply StreamMarkComplete_fills; [apply steps_refl |]. intros _.
    fold len. lia.
  - (* input left: the scratch probe *)
    wp_apply EncodeTmpRemainingInAscii_stream as [outputTmp passFail] σ1 E1.
    assert (H1 : grows 0 τ σ1).
    { apply steps_grows_0; [| by rewrite E1].
      unfold steps. rewrite E1. done. }
    destruct (bool_decide _); simpl;
      [apply wp_ret; by apply steps_fills, (grows_steps _ _ _ H1) |].
    destruct (Z.ltb_spec (dataWords sizeIdx - len) (length outputTmp))
      as [Hbig|Hfits];
      [apply wp_ret; by apply steps_fills, (grows_steps _ _ _ H1) |].
    destruct (_ && _);
      [| apply wp_ret; by apply steps_fills, (grows_steps _ _ _ H1)].
    wp_apply EncodeChangeScheme_steps as ? σ2 [H2 Hout2].
    specialize (Hout2 eq_refl eq_refl).
    assert (H02 : grows 0 τ σ2).
    { replace 0 with (0 + 0) by lia. eapply grows_trans; [exact H1 |].
      by apply steps_grows_0. }
    apply wp_chkerr; intros Hst2;
      [| by apply steps_fills, (grows_steps _ _ _ H02)].
    apply (CompleteIfDoneEdifact_copy_fills _ _ τ 0); [done |].
    intros σ3 H3. apply wp_bind, wp_modify.
    set (σ4 := mkState _ _).
    assert (H4 : grows (0 + Z.of_nat (Z.to_nat (length outputTmp))) τ σ4)
      by (unfold σ4; steps_solve).
    clearbody σ4.
    wp_apply PadRemainingInAscii_fills as ? σ5 [H5 Hlen5].
    pose proof (steps_trans _ _ _ (grows_steps _ _ _ H4) H5) as H45.
    apply wp_chkerr; intros Hst5; [| by apply steps_fills].
    apply StreamMarkComplete_fills; [done |].
    intros _. apply Hlen5; [done |].
    destruct H4 as [_ H4]. rewrite H4 by (by apply (proj2 H5)).
    fold len. lia.
Qed.

Lemma EncodeValueBase256_steps v σ :
  wp (EncodeValueBase256 dmtxGetSymbolAttribute v) (λ _ σ', steps σ σ') σ.
Proof.
  unfold EncodeValueBase256.
  apply wp_chkscheme; intros Hsch; [| by apply steps_stopped].
  apply wp_bind, wp_gets.
  wp_apply StreamOutputChainAppend_grows as ? σ1 H1.
  apply wp_chkerr; intros Hst; [| steps_solve].
  apply wp_bind, wp_modify.
  wp_apply UpdateBase256ChainHeader_fits as ? σ2 [H2 _].
  apply wp_chkerr; intros Hst2; [apply wp_ret |]; steps_solve.
Qed.

Lemma EncodeNextChunkBase256_steps σ :
  wp (EncodeNextChunkBase256 dmtxGetSymbolAttribute) (λ _ σ', steps σ σ') σ.
Proof.
  unfold EncodeNextChunkBase256. apply wp_bind, wp_gets.
  destruct (StreamInputHasNext _); [| apply wp_ret, steps_refl].
  wp_apply StreamInputAdvanceNext_steps as v σ1 [H1 _].
  apply wp_chkerr; intros Hst; [| done].
  wp_apply EncodeValueBase256_steps as ? σ2 H2.
  apply wp_chkerr; intros Hst2; [apply wp_ret |]; by eapply steps_trans.
Qed.

Lemma CompleteIfDoneBase256_normal_fills requestedSizeIdx σ :
  wp (CompleteIfDoneBase256_normal FindSymbolSize dmtxGetSymbolAttribute
        requestedSizeIdx)
    (λ _ σ', status (stream σ) ≠ DmtxStatusComplete → fills σ') σ.
Proof.
  unfold CompleteIfDoneBase256_normal. apply wp_bind, wp_gets.
  apply wp_chksize; intros Hsize; [| stopped_fills].
  wp_apply EncodeChangeScheme_steps as ? σ1 [H1 Hout1].
  specialize (Hout1 eq_refl eq_refl).
  wp_apply PadRemainingInAscii_fills as ? σ2 [H2 Hlen2].
  apply StreamMarkComplete_fills; [by eapply steps_trans |].
  intros Hst. apply Hlen2; [done |]. rewrite Hout1.
  by apply FindSymbolSize_holds.
Qed.

Lemma CompleteIfDoneBase256_fills requestedSizeIdx σ :
  wp (CompleteIfDoneBase256 FindSymbolSize dmtxGetSymbolAttribute
        requestedSizeIdx)
    (λ _ σ', status (stream σ) ≠ DmtxStatusComplete → fills σ') σ.
Proof.
  unfold CompleteIfDoneBase256. apply wp_bind, wp_gets.
  destruct (negb _); [| apply wp_ret; by apply steps_fills, steps_refl].
  apply wp_bind, wp_gets. unfold id.
  destruct (negb _); [apply wp_abort |].
  destruct (_ =? 2); [| apply CompleteIfDoneBase256_normal_fills].
  case_decide as Hsize; [| apply CompleteIfDoneBase256_normal_fills].
  destruct (_ =? 0); [| apply CompleteIfDoneBase256_normal_fills].
  wp_apply UpdateBase256ChainHeader_fits as ? σ1 [H1 Hlen1].
  apply wp_chkerr; intros Hst; [| by apply steps_fills].
  apply StreamMarkComplete_fills; [done |]. intros _. by apply Hlen1.
Qed.

Lemma EncodeNextChunk_dispatch_fills requestedSizeIdx σ :
  wp (EncodeNextChunk_dispatch FindSymbolSize dmtxGetSymbolAttribute
        requestedSizeIdx)
    (λ _ σ', status (stream σ) ≠ DmtxStatusComplete → fills σ') σ.
Proof.
  unfold EncodeNextChunk_dispatch. apply wp_bind, wp_gets.
  assert (Hdone : ∀ (complete : M unit) τ,
            steps σ τ →
            (∀ τ', wp complete
                     (λ _ σ', status (stream τ') ≠ DmtxStatusComplete →
                              fills σ') τ') →
            wp (CHKERR; complete;; CHKERR; mret tt)
              (λ _ σ', status (stream σ) ≠ DmtxStatusComplete → fills σ') τ).
  { intros complete τ Hτ Hc.
    apply wp_chkerr; intros Hst; [| by apply steps_fills].
    wp_apply Hc as ? σ2 H2.
    assert (Hf : status (stream σ) ≠ DmtxStatusComplete → fills σ2).
    { intros Hσ. apply H2. by apply (proj1 Hτ). }
    apply wp_chkerr; intros Hst2; [by apply wp_ret | done]. }
  destruct (currentScheme (stream σ)).
  - wp_apply EncodeNextChunkAscii_steps as ? σ1 H1.
    apply Hdone; [done |]. intros. apply CompleteIfDoneAscii_fills.
  - wp_apply EncodeNextChunkCTX_fills as ? σ1 H1.
    apply wp_chkerr; intros Hst; [| done].
    wp_apply CompleteIfDoneCTX_fills as ? σ2 H2.
    assert (Hf : status (stream σ) ≠ DmtxStatusComplete → fills σ2).
    { intros Hσ. apply H2. by rewrite Hst. }
    apply wp_chkerr; intros Hst2; [by apply wp_ret | done].
  - wp_apply EncodeNextChunkCTX_fills as ? σ1 H1.
    apply wp_chkerr; intros Hst; [| done].
    wp_apply CompleteIfDoneCTX_fills as ? σ2 H2.
    assert (Hf : status (stream σ) ≠ DmtxStatusComplete → fills σ2).
    { intros Hσ. apply H2. by rewrite Hst. }
    apply wp_chkerr; intros Hst2; [by apply wp_ret | done].
  - wp_apply EncodeNextChunkCTX_fills as ? σ1 H1.
    apply wp_chkerr; intros Hst; [| done].
    wp_apply CompleteIfDoneCTX_fills as ? σ2 H2.
    assert (Hf : status (stream σ) ≠ DmtxStatusComplete → fills σ2).
    { intros Hσ. apply H2. by rewrite Hst. }
    apply wp_chkerr; intros Hst2; [by apply wp_ret | done].
  - wp_apply EncodeNextChunkEdifact_steps as ? σ1 H1.
    apply Hdone; [done |]. intros. apply CompleteIfDoneEdifact_fills.
  - wp_apply EncodeNextChunkBase256_steps as ? σ1 H1.
    apply Hdone; [done |]. intros. apply CompleteIfDoneBase256_fills.
Qed.

Lemma EncodeNextChunk_fills targetScheme requestedSizeIdx σ :
  wp (EncodeNextChunk FindSymbolSize dmtxGetSymbolAttribute targetScheme
        requestedSizeIdx)
    (λ _ σ', status (stream σ) ≠ DmtxStatusComplete → fills σ') σ.
Proof.
  unfold EncodeNextChunk. apply wp_bind, wp_gets.
  case_decide; [| apply EncodeNextChunk_dispatch_fills].
  wp_apply EncodeChangeScheme_steps as ? σ1 [H1 _].
  apply wp_chkerr; intros Hst; [| by apply steps_fills].
  apply wp_chkscheme; intros Hsch.
  - eapply wp_mono; [apply EncodeNextChunk_dispatch_fills |].
    cbv beta. intros _ σ2 H2 Hσ. apply H2. by apply (proj1 H1).
  - intros Hσ. stopped_fills.
Qed.

Lemma EncodeSingleScheme2_loop_fills fuel targetScheme requestedSizeIdx σ :
  wp (EncodeSingleScheme2_loop FindSymbolSize dmtxGetSymbolAttribute fuel
        targetScheme requestedSizeIdx)
    (λ _ σ', fills σ → fills σ') σ.
Proof.
  revert σ. induction fuel as [|fuel IH]; intros σ; simpl;
    apply wp_bind, wp_gets.
  - case_decide; [apply wp_abort | by apply wp_ret].
  - case_decide as Hst; [| by apply wp_ret].
    wp_apply EncodeNextChunk_fills as ? σ1 H1.
    eapply wp_mono; [apply IH |]. cbv beta. intros _ σ2 H2 _.
    apply H2, H1. by rewrite Hst.
Qed.

(** C2.  Every encode that starts from a stream that is encoding and ends
    with status Complete, on whichever path it completed, has an output
    of exactly as many codewords as the symbol whose index it recorded
    has data words. *)
Theorem EncodeSingleScheme2_complete_fills_symbol (fuel : nat)
    (targetScheme : DmtxScheme) (requestedSizeIdx : Z) (σ σ' : State)
    (passFail : DmtxPassFail) :
  status (stream σ) = DmtxStatusEncoding →
  EncodeSingleScheme2 FindSymbolSize dmtxGetSymbolAttribute fuel targetScheme
    requestedSizeIdx σ = Some (passFail, σ') →
  status (stream σ') = DmtxStatusComplete →
  length (output (stream σ')) = dataWords (sizeIdx (stream σ')).
Proof.
  intros Hst Hrun.
  assert (Hwp : wp (EncodeSingleScheme2 FindSymbolSize dmtxGetSymbolAttribute
                      fuel targetScheme requestedSizeIdx)
                  (λ _ σ', fills σ') σ).
  { unfold EncodeSingleScheme2. apply wp_bind, wp_gets.
    case_decide.
    - apply wp_bind, wp_StreamMarkFatal, wp_ret. stopped_fills.
    - wp_apply EncodeSingleScheme2_loop_fills as ? σ1 H1.
      assert (Hf : fills σ1).
      { apply H1. intros Hc. by rewrite Hst in Hc. }
      apply wp_bind, wp_gets. by destruct (_ || _); apply wp_ret. }
  exact (wp_elim _ _ _ _ _ Hwp Hrun).
Qed.

End Completion.

Lemma FindSymbolSize_from_holds words table :
  ∀ sizeIdx, 0 <= sizeIdx →
    FindSymbolSize_from words sizeIdx table ≠ DmtxUndefined →
    ∃ j c, FindSymbolSize_from words sizeIdx table = sizeIdx + Z.of_nat j ∧
           table !! j = Some c ∧ words <= c.
Proof.
  induction table as [|c table IH]; intros sizeIdx Hpos Hdef; simpl in *.
  - done.
  - destruct (Z.leb_spec words c) as [Hle|Hgt].
    + exists 0%nat, c. split; [lia | done].
    + destruct (IH (sizeIdx + 1) ltac:(lia) Hdef) as (j & c' & E & Hj & Hc).
      exists (S j), c'. split; [lia | done].
Qed.

Lemma FindSymbolSizeAuto_holds words request :
  FindSymbolSizeAuto words request ≠ DmtxUndefined →
  words <= SymbolDataWords DmtxSymAttribSymbolDataWords
             (FindSymbolSizeAuto words request).
Proof.
  unfold FindSymbolSizeAuto. destruct (request <? 0).
  - intros Hdef.
    destruct (FindSymbolSize_from_holds words symbolDataWords 0 ltac:(lia)
                Hdef) as (j & c & E & Hj & Hc).
    rewrite E. unfold SymbolDataWords.
    replace (0 + Z.of_nat j <? 0) with false by (symmetry; apply Z.ltb_ge; lia).
    replace (Z.to_nat (0 + Z.of_nat j)) with j by lia.
    by rewrite Hj.
  - destruct (Z.leb_spec words
                (SymbolDataWords DmtxSymAttribSymbolDataWords request));
      [done |]. intros Hdef. by destruct Hdef.
Qed.

Lemma EncodeSingleScheme2_complete_fills_symbol_witness :
  ∃ σ',
    EncodeSingleScheme2 FindSymbolSizeAuto SymbolDataWords 10
      DmtxSchemeEdifact DmtxSymbolSquareAuto
      (state_of_input [x41; x42; x43; x44; x45] 16)
    = Some (DmtxPass, σ') ∧
    status (stream σ') = DmtxStatusComplete ∧
    length (output (stream σ')) =
      SymbolDataWords DmtxSymAttribSymbolDataWords (sizeIdx (stream σ')).
Proof.
  assert (∃ σ',
            EncodeSingleScheme2 FindSymbolSizeAuto SymbolDataWords 10
              DmtxSchemeEdifact DmtxSymbolSquareAuto
              (state_of_input [x41; x42; x43; x44; x45] 16)
            = Some (DmtxPass, σ') ∧
            status (stream σ') = DmtxStatusComplete) as (σ' & Hrun & Hc)
    by (vm_compute; eexists; split; reflexivity).
  exists σ'. split; [exact Hrun |]. split; [exact Hc |].
  exact (EncodeSingleScheme2_complete_fills_symbol FindSymbolSizeAuto
           SymbolDataWords FindSymbolSizeAuto_holds 10 DmtxSchemeEdifact
           DmtxSymbolSquareAuto
           (state_of_input [x41; x42; x43; x44; x45] 16) σ' DmtxPass
           eq_refl Hrun Hc).
Defined.

(** ** The Base256 header *)





Section Base256Header.

Variable dmtxGetSymbolAttribute : DmtxSymAttribute → Z → Z.



End Base256Header.


(** ** Bytes outside the X12 set *)

(** For a byte outside the X12 value table, [PushCTXValues] pushes no
    value; it reports a failure only for extended ASCII. *)
Lemma PushCTXValues_X12_pushes_nothing valueList (v : byte) σ :
  Z_of_byte v ≠ 13 → Z_of_byte v ≠ 42 → Z_of_byte v ≠ 62 →
  Z_of_byte v ≠ 32 →
  ¬ 48 <= Z_of_byte v <= 57 → ¬ 65 <= Z_of_byte v <= 90 →
  ∃ passFail,
    PushCTXValues valueList (Z_of_byte v) DmtxSchemeX12 σ
      = Some ((passFail, valueList), σ) ∧
    (127 < Z_of_byte v → passFail = DmtxFail) ∧
    (Z_of_byte v <= 127 → passFail = DmtxPass).
Proof.
  intros H13 H42 H62 H32 Hdigit Hupper. unfold PushCTXValues.
  rewrite bool_decide_eq_true_2 by done. rewrite andb_true_r.
  destruct (Z.ltb_spec 127 (Z_of_byte v)) as [Hext|Hlow].
  - exists DmtxFail. split; [done |]. split; [done | lia].
  - exists DmtxPass. split; [| split; [lia | done]].
    unfold PushCTXValues_X12, mbind, M_bind, mret, M_ret. cbv beta iota.
    repeat match goal with
           | |- context [?x =? ?y] =>
               replace (x =? y) with false by (symmetry; apply Z.eqb_neq; lia)
           end.
    replace ((48 <=? Z_of_byte v) && (Z_of_byte v <=? 57)) with false
      by (symmetry; apply andb_false_iff; rewrite Z.leb_gt, Z.leb_gt; lia).
    replace ((65 <=? Z_of_byte v) && (Z_of_byte v <=? 90)) with false
      by (symmetry; apply andb_false_iff; rewrite Z.leb_gt, Z.leb_gt; lia).
    done.
Qed.

(** The chunk that meets such a byte in scheme X12 consumes it and leaves
    the stream encoding, with nothing written to the output. *)
Lemma EncodeNextChunkCTX_X12_consumes_silently
    (FindSymbolSize : Z → Z → Z)
    (dmtxGetSymbolAttribute : DmtxSymAttribute → Z → Z)
    (requestedSizeIdx : Z) (σ : State) (v : byte) (rest : list byte) :
  currentScheme (stream σ) = DmtxSchemeX12 →
  status (stream σ) = DmtxStatusEncoding →
  0 <= inputNext (stream σ) →
  unconsumed σ = v :: rest →
  Z_of_byte v ≠ 13 → Z_of_byte v ≠ 42 → Z_of_byte v ≠ 62 →
  Z_of_byte v ≠ 32 →
  ¬ 48 <= Z_of_byte v <= 57 → ¬ 65 <= Z_of_byte v <= 90 →
  EncodeNextChunkCTX FindSymbolSize dmtxGetSymbolAttribute requestedSizeIdx σ
    = Some (tt, advance_st σ).
Proof.
  intros Hsch Hst Hn Hu H13 H42 H62 H32 Hdigit Hupper.
  unfold EncodeNextChunkCTX, with_array.
  set (p := fresh (dom (mem σ))).
  set (τ := mkState (<[p := replicate 4 x00]> (mem σ)) (stream σ)).
  assert (Hfresh : mem σ !! p = None).
  { apply not_elem_of_dom. apply is_fresh. }
  assert (Hin : is_Some (mem σ !! b (input (stream σ)))).
  { unfold unconsumed, bytes_of in Hu.
    destruct (mem σ !! b (input (stream σ))); [done |].
    simpl in Hu. by rewrite take_nil, drop_nil in Hu. }
  assert (Hne : p ≠ b (input (stream σ))).
  { intros E. rewrite <- E, Hfresh in Hin. by destruct Hin. }
  assert (Huτ : unconsumed τ = v :: rest).
  { unfold unconsumed, bytes_of, τ. simpl. by rewrite lookup_insert_ne. }
  destruct (unconsumed_cons τ _ _ Hn Huτ) as [Hnext _].
  rewrite (bind_Some _ _ _ _ _ (gets_eq _ _)). unfold id.
  assert (Hfuel : ∃ fuel,
            Z.to_nat (length (input (stream τ)) - inputNext (stream τ))
            = S fuel).
  { unfold StreamInputHasNext in Hnext. apply Z.ltb_lt in Hnext.
    exists (Z.to_nat (length (input (stream τ)) - inputNext (stream τ) - 1)).
    lia. }
  destruct Hfuel as [fuel ->].
  destruct (PushCTXValues_X12_pushes_nothing (dmtxByteListBuild p 4) v
              (advance_st τ) H13 H42 H62 H32 Hdigit Hupper)
    as (passFail & Hpush & _).
  assert (Hloop : EncodeNextChunkCTX_loop (S fuel) (dmtxByteListBuild p 4) τ
                  = Some (Fallthrough (dmtxByteListBuild p 4), advance_st τ)).
  { simpl EncodeNextChunkCTX_loop.
    rewrite (bind_Some _ _ _ _ _ (gets_eq _ _)), Hnext.
    rewrite (bind_Some _ _ _ _ _
               (StreamInputAdvanceNext_ok τ _ _ Hst Hn Huτ)).
    rewrite chkerr_encoding by done.
    rewrite (bind_Some _ _ _ _ _ (gets_eq _ _)).
    change (currentScheme (stream (advance_st τ))) with
      (currentScheme (stream σ)).
    rewrite Hsch, (bind_Some _ _ _ _ _ Hpush).
    rewrite (bind_Some _ _ _ _ _ (gets_eq _ _)).
    rewrite Nat.add_1_r. simpl EncodeNextChunkCTX_flush.
    rewrite (bind_Some _ _ (advance_st τ)
               (Fallthrough (dmtxByteListBuild p 4)) (advance_st τ) eq_refl).
    done. }
  rewrite (bind_Some _ _ _ _ _ Hloop).
  rewrite (bind_Some _ _ _ _ _ (gets_eq _ _)).
  rewrite andb_false_r. simpl.
  unfold advance_st. simpl. by rewrite delete_insert_eq, delete_id.
Qed.

(** C6, on the code.  Encoding the single byte 200, which X12 cannot
    represent, with target scheme X12: the byte is consumed, no CTX value
    is produced for it, and the encode completes (latch, unlatch, latch)
    instead of being marked Invalid. *)
Theorem EncodeSingleScheme2_X12_extended_ascii_completes :
  ∃ σ',
    EncodeSingleScheme2 FindSymbolSizeAuto SymbolDataWords 10 DmtxSchemeX12
      DmtxSymbolSquareAuto (state_of_input [xc8] 16)
    = Some (DmtxPass, σ') ∧
    status (stream σ') = DmtxStatusComplete ∧
    inputNext (stream σ') = 1 ∧
    codewords σ' = [238; 254; 238].
Proof. vm_compute. eexists. repeat split; reflexivity. Qed.

(** ** The scratch ASCII re-encode *)

Lemma wpt_elim {A} (m : M A) (Q : A → State → Prop) σ :
  wpt m Q σ → ∃ a σ', m σ = Some (a, σ') ∧ Q a σ'.
Proof. unfold wpt. destruct (m σ) as [[a σ']|]; [eauto | done]. Qed.

Lemma wpt_mono {A} (m : M A) (Q Q' : A → State → Prop) σ :
  wpt m Q σ → (∀ a σ', Q a σ' → Q' a σ') → wpt m Q' σ.
Proof. unfold wpt. destruct (m σ) as [[a σ']|]; auto. Qed.

Lemma wpt_ret {A} (a : A) (Q : A → State → Prop) σ : Q a σ → wpt (mret a) Q σ.
Proof. done. Qed.

Lemma wpt_bind {A B} (m : M A) (k : A → M B) (Q : B → State → Prop) σ :
  wpt m (λ a σ', wpt (k a) Q σ') σ → wpt (m ≫= k) Q σ.
Proof.
  unfold wpt at 1 3. unfold mbind, M_bind. by destruct (m σ) as [[a σ']|].
Qed.

Lemma wpt_gets {A} (f : DmtxEncodeStream → A) (Q : A → State → Prop) σ :
  Q (f (stream σ)) σ → wpt (gets f) Q σ.
Proof. done. Qed.

Lemma wpt_modify f (Q : unit → State → Prop) σ :
  Q tt (mkState (mem σ) (f (stream σ))) → wpt (modify f) Q σ.
Proof. done. Qed.

Lemma wpt_chkerr {A} (r : A) (k : M A) (Q : A → State → Prop) σ :
  (status (stream σ) = DmtxStatusEncoding → wpt k Q σ) →
  (status (stream σ) ≠ DmtxStatusEncoding → Q r σ) →
  wpt (chkerr r k) Q σ.
Proof.
  intros Hk Hr. unfold wpt, chkerr. case_decide; [by apply Hk | by apply Hr].
Qed.

Lemma writes_output_refl σ : writes_output σ σ.
Proof. by repeat split. Qed.

Lemma writes_output_trans σ1 σ2 σ3 :
  writes_output σ1 σ2 → writes_output σ2 σ3 → writes_output σ1 σ3.
Proof.
  intros (Hb & Hc & Hi & Hs & Hm & Hl) (Hb2 & Hc2 & Hi2 & Hs2 & Hm2 & Hl2).
  repeat split; try congruence.
  all: try (intros p Hp; rewrite Hm2 by congruence; by apply Hm).
  all: intros p; by rewrite Hl2, Hl.
Qed.

Lemma writes_output_stream σ s :
  b (output s) = b (output (stream σ)) →
  capacity (output s) = capacity (output (stream σ)) →
  input s = input (stream σ) →
  currentScheme s = currentScheme (stream σ) →
  writes_output σ (mkState (mem σ) s).
Proof. intros. by repeat split. Qed.

Lemma writes_output_append v σ :
  writes_output σ (append_st v σ).
Proof.
  unfold append_st. repeat split; simpl; try done.
  - intros p Hp. by rewrite lookup_insert_ne.
  - intros p. destruct (decide (p = b (output (stream σ)))) as [->|Hp].
    + rewrite lookup_insert_eq. simpl. by rewrite length_insert.
    + by rewrite lookup_insert_ne.
Qed.

Lemma ready_writes σ σ' :
  ready σ → writes_output σ σ' →
  valid_list (mem σ') (output (stream σ')) →
  0 <= inputNext (stream σ') →
  ready σ'.
Proof.
  intros ([Hil Hic] & _ & _) (_ & _ & Hi & _ & _ & Hl) Hvo Hn.
  split; [| done]. unfold valid_list. rewrite Hi.
  split; [done |]. by rewrite Hl.
Qed.

Lemma StreamInputPeekNext_total σ :
  ready σ → StreamInputHasNext (stream σ) = true →
  ∃ v, StreamInputPeekNext σ = Some (v, σ).
Proof.
  intros ([Hil Hic] & _ & Hn) Hnext. unfold StreamInputPeekNext.
  rewrite Hnext. unfold load. apply Z.ltb_lt in Hnext.
  replace (_ <? 0) with false by (symmetry; apply Z.ltb_ge; lia).
  destruct (mem σ !! b (input (stream σ))) as [cells|]; simpl in *; [| lia].
  destruct (lookup_lt_is_Some_2 cells (Z.to_nat (inputNext (stream σ))))
    as [v Hv]; [lia |].
  exists v. by rewrite Hv.
Qed.

Lemma StreamInputAdvanceNext_total σ :
  ready σ → StreamInputHasNext (stream σ) = true →
  status (stream σ) = DmtxStatusEncoding →
  ∃ v, StreamInputAdvanceNext σ = Some (v, advance_st σ).
Proof.
  intros Hr Hnext Hst.
  destruct (StreamInputPeekNext_total σ Hr Hnext) as [v Hv].
  exists v. unfold StreamInputAdvanceNext.
  rewrite (bind_Some _ _ _ _ _ Hv), (bind_Some _ _ _ _ _ (gets_eq _ _)).
  by rewrite decide_True.
Qed.

(** What a value appended by the ASCII encoder leaves: one more codeword,
    or a full output and a stream error. *)
Lemma EncodeValueAscii_scratch v σ :
  ready σ →
  currentScheme (stream σ) = DmtxSchemeAscii →
  status (stream σ) = DmtxStatusEncoding →
  wpt (EncodeValueAscii v)
    (λ _ σ', writes_output σ σ' ∧ ready σ' ∧
             inputNext (stream σ') = inputNext (stream σ) ∧
             ((status (stream σ') = DmtxStatusEncoding ∧
               length (output (stream σ'))
                 = length (output (stream σ)) + 1) ∨
              (capacity (output (stream σ)) <= length (output (stream σ)) ∧
               length (output (stream σ')) = length (output (stream σ)) ∧
               status (stream σ') ≠ DmtxStatusEncoding))) σ.
Proof.
  intros Hr Hsch Hst. pose proof Hr as (Hvi & Hvo & Hn).
  destruct (Z_lt_le_dec (length (output (stream σ)))
              (capacity (output (stream σ)))) as [Hroom|Hfull].
  - unfold wpt. rewrite EncodeValueAscii_ok by done.
    assert (Hw : writes_output σ (count_st 1 (append_st v σ))).
    { eapply writes_output_trans; [apply writes_output_append |].
      by apply writes_output_stream. }
    split; [done |]. split; [| split; [done | by left]].
    apply (ready_writes σ); [done | done | | done].
    by apply (valid_append v σ).
  - unfold wpt, EncodeValueAscii. rewrite chkscheme_ok by done.
    rewrite (bind_Some _ _ _ _ _ (StreamOutputChainAppend_full _ _ Hfull)).
    rewrite chkerr_stopped by done.
    split; [by apply writes_output_stream |].
    split; [done |]. split; [done |]. right. by repeat split.
Qed.

Lemma wpt_bind_Some {A B} (m : M A) (k : A → M B) (Q : B → State → Prop)
    σ a σ' :
  m σ = Some (a, σ') → wpt (k a) Q σ' → wpt (m ≫= k) Q σ.
Proof. intros E H. apply wpt_bind. unfold wpt at 1. by rewrite E. Qed.

Lemma ready_advance σ : ready σ → ready (advance_st σ).
Proof. intros (Hvi & Hvo & Hn). repeat split; simpl; try apply Hvi; try apply Hvo. lia. Qed.

Lemma EncodeNextChunkAscii_values_scratch v0 v1 v1set σ :
  ready σ →
  currentScheme (stream σ) = DmtxSchemeAscii →
  status (stream σ) = DmtxStatusEncoding →
  length (output (stream σ)) < capacity (output (stream σ)) →
  (v1set = true → StreamInputHasNext (stream σ) = true) →
  wpt (EncodeNextChunkAscii_values v0 v1 v1set)
    (λ _ σ', scratch_progress σ σ') σ.
Proof.
  intros Hr Hsch Hst Hroom Hset. unfold EncodeNextChunkAscii_values.
  assert (Hone : ∀ v τ,
            ready τ → writes_output σ τ →
            currentScheme (stream τ) = DmtxSchemeAscii →
            status (stream τ) = DmtxStatusEncoding →
            length (output (stream τ)) = length (output (stream σ)) →
            wpt (EncodeValueAscii v;; CHKERR; mret tt)
              (λ _ σ', scratch_progress σ σ') τ).
  { intros v τ Hrτ Hwτ Hschτ Hstτ Hlen. apply wpt_bind.
    eapply wpt_mono; [by apply EncodeValueAscii_scratch |].
    cbv beta. intros _ τ1 (Hw1 & Hr1 & _ & Hcase).
    pose proof (writes_output_trans _ _ _ Hwτ Hw1) as Hw.
    destruct Hwτ as (_ & Hcap & _).
    destruct Hcase as [[Hst1 Hlen1]|(Hfull & _ & _)]; [| lia].
    apply wpt_chkerr; [intros _ | done]. apply wpt_ret.
    split; [done |]. split; [done |]. split; [lia | by left]. }
  destruct (_ && _) eqn:Hpair.
  - assert (Hnext : StreamInputHasNext (stream σ) = true).
    { apply Hset. by destruct (ISDIGIT v0), v1set. }
    destruct (StreamInputAdvanceNext_total σ Hr Hnext Hst) as [v Hadv].
    eapply wpt_bind_Some; [exact Hadv |].
    apply wpt_chkerr; [intros _ | done].
    apply Hone; [by apply ready_advance | by apply writes_output_stream
                | done | done | done].
  - destruct (v0 <? 128).
    + apply Hone; [done | apply writes_output_refl | done | done | done].
    + apply wpt_bind.
      eapply wpt_mono; [by apply EncodeValueAscii_scratch |].
      cbv beta. intros _ τ1 (Hw1 & Hr1 & _ & Hcase).
      destruct Hcase as [[Hst1 Hlen1]|(Hfull & _ & _)]; [| lia].
      apply wpt_chkerr; [intros _ | done].
      assert (Hsch1 : currentScheme (stream τ1) = DmtxSchemeAscii).
      { destruct Hw1 as (_ & _ & _ & -> & _). done. }
      apply wpt_bind.
      eapply wpt_mono; [by apply EncodeValueAscii_scratch |].
      cbv beta. intros _ τ2 (Hw2 & Hr2 & _ & Hcase2).
      pose proof (writes_output_trans _ _ _ Hw1 Hw2) as Hw.
      assert (Hcap : capacity (output (stream τ1))
                     = capacity (output (stream σ))).
      { destruct Hw1 as (_ & -> & _). done. }
      destruct Hcase2 as [[Hst2 Hlen2]|(Hfull2 & Hlen2 & Hst2)].
      * apply wpt_chkerr; [intros _ | done]. apply wpt_ret.
        split; [done |]. split; [done |]. split; [lia | by left].
      * apply wpt_chkerr; [done | intros _].
        split; [done |]. split; [done |]. split; [lia | right; lia].
Qed.

Lemma EncodeNextChunkAscii_scratch σ :
  ready σ →
  currentScheme (stream σ) = DmtxSchemeAscii →
  status (stream σ) = DmtxStatusEncoding →
  StreamInputHasNext (stream σ) = true →
  length (output (stream σ)) < capacity (output (stream σ)) →
  wpt EncodeNextChunkAscii (λ _ σ', scratch_progress σ σ') σ.
Proof.
  intros Hr Hsch Hst Hnext Hroom. unfold EncodeNextChunkAscii.
  apply wpt_bind, wpt_gets. rewrite Hnext.
  destruct (StreamInputAdvanceNext_total σ Hr Hnext Hst) as [v0 Hadv].
  eapply wpt_bind_Some; [exact Hadv |].
  apply wpt_chkerr; [intros _ | done].
  apply wpt_bind, wpt_gets.
  pose proof (ready_advance σ Hr) as Hr1.
  assert (Hpost : ∀ σ', scratch_progress (advance_st σ) σ' →
                        scratch_progress σ σ').
  { intros σ' (Hw & Hr' & Hlen & Hfull).
    split; [| done].
    eapply writes_output_trans; [| exact Hw]. by apply writes_output_stream. }
  destruct (StreamInputHasNext (stream (advance_st σ))) eqn:Hnext1.
  - destruct (StreamInputPeekNext_total _ Hr1 Hnext1) as [v1 Hpeek].
    eapply wpt_bind_Some; [exact Hpeek |].
    apply wpt_chkerr; [intros _ | done].
    eapply wpt_mono; [by apply EncodeNextChunkAscii_values_scratch |].
    cbv beta. intros _ σ'. apply Hpost.
  - eapply wpt_mono; [by apply EncodeNextChunkAscii_values_scratch |].
    cbv beta. intros _ σ'. apply Hpost.
Qed.

Lemma EncodeTmpRemainingInAscii_loop_total fuel :
  ∀ σ, ready σ →
       currentScheme (stream σ) = DmtxSchemeAscii →
       (status (stream σ) = DmtxStatusEncoding
        ∨ capacity (output (stream σ)) <= length (output (stream σ))) →
       capacity (output (stream σ)) - length (output (stream σ))
         <= Z.of_nat fuel →
       wpt (EncodeTmpRemainingInAscii_loop fuel)
         (λ _ σ', writes_output σ σ') σ.
Proof.
  induction fuel as [|fuel IH]; intros σ Hr Hsch Hst Hfuel.
  - simpl. apply wpt_bind, wpt_gets.
    unfold dmtxByteListHasCapacity.
    replace (_ <? _) with false by (symmetry; apply Z.ltb_ge; lia).
    apply wpt_ret, writes_output_refl.
  - simpl. apply wpt_bind, wpt_gets.
    unfold dmtxByteListHasCapacity.
    destruct (Z.ltb_spec (length (output (stream σ)))
                (capacity (output (stream σ)))) as [Hroom|Hfull];
      [| apply wpt_ret, writes_output_refl].
    destruct Hst as [Hst|Hst]; [| lia].
    apply wpt_bind, wpt_gets.
    destruct (StreamInputHasNext (stream σ)) eqn:Hnext;
      [| apply wpt_ret, writes_output_refl].
    apply wpt_bind.
    eapply wpt_mono; [by apply EncodeNextChunkAscii_scratch |].
    cbv beta. intros _ σ1 (Hw1 & Hr1 & Hlen1 & Hst1).
    assert (Hcap : capacity (output (stream σ1))
                   = capacity (output (stream σ))).
    { destruct Hw1 as (_ & -> & _). done. }
    eapply wpt_mono.
    + apply IH; [done | | by rewrite Hcap | lia].
      destruct Hw1 as (_ & _ & _ & -> & _). done.
    + cbv beta. intros _ σ2 Hw2. by eapply writes_output_trans.
Qed.

(** C9.  The scratch ASCII re-encode of the EDIFACT completer, run on a
    stream with a valid input list, into a scratch array [storage] of at
    least [capacity] cells that is not the output array of the stream:
    it returns, with or without success, and leaves the stream as it
    was: the stream struct (input cursor, current scheme, status, chain
    counters, size index, output list) is unchanged, every array other
    than [storage] is unchanged, and so are the codewords of the
    output. *)
Theorem EncodeTmpRemainingInAscii_leaves_stream (σ : State) (storage : loc)
    (capacity : Z) :
  valid_list (mem σ) (input (stream σ)) →
  0 <= inputNext (stream σ) →
  valid_list (mem σ) (dmtxByteListBuild storage capacity) →
  storage ≠ b (output (stream σ)) →
  ∃ outputTmp passFail σ',
    EncodeTmpRemainingInAscii storage capacity σ
      = Some ((outputTmp, passFail), σ') ∧
    stream σ' = stream σ ∧
    (∀ p, p ≠ storage → mem σ' !! p = mem σ !! p) ∧
    output_bytes σ' = output_bytes σ.
Proof.
  intros Hvi Hn Hvs Hne. unfold EncodeTmpRemainingInAscii.
  set (τ := mkState (mem σ) (streamAscii_of (stream σ) storage capacity)).
  assert (Hloop : wpt (EncodeTmpRemainingInAscii_loop (Z.to_nat capacity))
                    (λ _ σ', writes_output τ σ') τ).
  { apply EncodeTmpRemainingInAscii_loop_total.
    - split; [exact Hvi | split; [exact Hvs | exact Hn]].
    - done.
    - by left.
    - destruct Hvs as [Hl _]. simpl in *. lia. }
  apply wpt_elim in Hloop as (? & τ' & Hrun & Hw).
  rewrite Hrun. eexists _, _, _. split; [done |]. split; [done |].
  destruct Hw as (_ & _ & _ & _ & Hframe & _). simpl in Hframe.
  split; [exact Hframe |].
  unfold output_bytes, bytes_of. simpl. by rewrite Hframe.
Qed.

(** Where [CompleteIfDoneEdifact] runs the probe, the scratch array is a
    local of the function, allocated apart from every array in use: it is
    not the output array of the stream. *)
Lemma with_array_storage_distinct (σ : State) :
  is_Some (mem σ !! b (output (stream σ))) →
  fresh (dom (mem σ)) ≠ b (output (stream σ)).
Proof.
  intros Hsome Heq. apply elem_of_dom in Hsome. rewrite <- Heq in Hsome.
  by apply is_fresh in Hsome.
Qed.

Lemma EncodeTmpRemainingInAscii_leaves_stream_witness :
  let σ :=
    mkState (<[2%nat := [x00; x00; x00]]>
               (mem (state_of_input [x41; x42; x80] 8)))
      (stream (state_of_input [x41; x42; x80] 8)) in
  ∃ outputTmp passFail σ',
    EncodeTmpRemainingInAscii 2%nat 3 σ = Some ((outputTmp, passFail), σ') ∧
    stream σ' = stream σ ∧
    (∀ p, p ≠ 2%nat → mem σ' !! p = mem σ !! p) ∧
    output_bytes σ' = output_bytes σ.
Proof.
  intros σ. apply (EncodeTmpRemainingInAscii_leaves_stream σ 2%nat 3).
  - compute_done.
  - simpl. lia.
  - compute_done.
  - simpl. lia.
Defined.

(** On that stream the probe does run out of room: the scratch holds 66,
    67 and the upper shift 235, the copy of the stream ends in error, and
    the memory differs at the scratch array only. *)
Lemma EncodeTmpRemainingInAscii_scratch_example :
  let σ :=
    mkState (<[2%nat := [x00; x00; x00]]>
               (mem (state_of_input [x41; x42; x80] 8)))
      (stream (state_of_input [x41; x42; x80] 8)) in
  ∃ outputTmp σ',
    EncodeTmpRemainingInAscii 2%nat 3 σ = Some ((outputTmp, DmtxFail), σ') ∧
    Z_of_byte <$> bytes_of (mem σ') outputTmp = [66; 67; 235] ∧
    inputNext (stream σ') = 0.
Proof. vm_compute. eexists _, _. repeat split; reflexivity. Qed.

(** ** Padding, from the start of the pad to the end of the symbol *)

Lemma appended_refl σ :
  valid_list (mem σ) (output (stream σ)) → appended [] σ σ.
Proof.
  intros Hv. unfold appended. rewrite app_nil_r. simpl.
  repeat split; (done || lia || apply Hv).
Qed.

Lemma appended_trans p1 p2 σ1 σ2 σ3 :
  appended p1 σ1 σ2 → appended p2 σ2 σ3 → appended (p1 ++ p2) σ1 σ3.
Proof.
  intros (Hb & Hl & Hv & Hc & Hi & Hn & Hs & Hsch)
         (Hb2 & Hl2 & Hv2 & Hc2 & Hi2 & Hn2 & Hs2 & Hsch2).
  unfold appended. rewrite Hb2, Hb, app_assoc, length_app.
  repeat split; try congruence; try apply Hv2. lia.
Qed.

Lemma appended_append v σ :
  valid_list (mem σ) (output (stream σ)) →
  length (output (stream σ)) < capacity (output (stream σ)) →
  appended [v] σ (append_st v σ).
Proof.
  intros Hv Hroom. unfold appended.
  rewrite output_bytes_append by done.
  pose proof (valid_append v σ Hv Hroom) as Hv'.
  repeat split; try done; apply Hv'.
Qed.

Lemma wpt_chkscheme sch (k : M unit) (Q : unit → State → Prop) σ :
  currentScheme (stream σ) = sch → wpt k Q σ → wpt (chkscheme sch k) Q σ.
Proof. intros Hsch Hk. unfold wpt. by rewrite chkscheme_ok. Qed.

Section Padding.

Variable FindSymbolSize : Z → Z → Z.
Variable dmtxGetSymbolAttribute : DmtxSymAttribute → Z → Z.

Local Abbreviation dataWords :=
  (dmtxGetSymbolAttribute DmtxSymAttribSymbolDataWords).

Lemma PadRemainingInAscii_loop_total n :
  ∀ σ, valid_list (mem σ) (output (stream σ)) →
       status (stream σ) = DmtxStatusEncoding →
       length (output (stream σ)) + Z.of_nat n
         <= capacity (output (stream σ)) →
       wpt (PadRemainingInAscii_loop n)
         (λ _ σ', ∃ pads, appended pads σ σ' ∧ List.length pads = n) σ.
Proof.
  induction n as [|n IH]; intros σ Hv Hst Hroom; simpl.
  - apply wpt_ret. exists []. split; [by apply appended_refl | done].
  - apply wpt_bind, wpt_gets.
    rewrite Randomize253State2_defined by (destruct Hv; lia).
    set (pad := byte_of_Z _).
    eapply wpt_bind_Some;
      [apply StreamOutputChainAppend_ok; [done | lia] |].
    apply wpt_chkerr; [intros _ | done].
    pose proof (appended_append pad σ Hv ltac:(lia)) as H1.
    eapply wpt_mono.
    + apply IH; [apply H1 | done | simpl; lia].
    + cbv beta. intros _ σ2 (pads & H2 & Hlen).
      exists ([pad] ++ pads). split; [by eapply appended_trans |].
      simpl. by rewrite Hlen.
Qed.

Lemma PadRemainingInAscii_total sizeIdx σ :
  currentScheme (stream σ) = DmtxSchemeAscii →
  status (stream σ) = DmtxStatusEncoding →
  valid_list (mem σ) (output (stream σ)) →
  sizeIdx ≠ DmtxUndefined →
  dataWords sizeIdx <= capacity (output (stream σ)) →
  wpt (PadRemainingInAscii dmtxGetSymbolAttribute sizeIdx)
    (λ _ σ', ∃ pads,
       appended pads σ σ' ∧
       (dataWords sizeIdx <= length (output (stream σ)) → pads = []) ∧
       (length (output (stream σ)) < dataWords sizeIdx →
        ∃ rest, pads = byte_of_Z DmtxValueAsciiPad :: rest)) σ.
Proof.
  intros Hsch Hst Hv Hsize Hroom. unfold PadRemainingInAscii.
  apply wpt_chkscheme; [done |].
  unfold chksize. rewrite decide_False by done.
  apply wpt_bind, wpt_gets.
  rewrite GetRemainingSymbolCapacity_defined by done.
  destruct (Z.ltb_spec 0 (dataWords sizeIdx - length (output (stream σ))))
    as [Hrem|Hrem].
  - eapply wpt_bind_Some;
      [apply StreamOutputChainAppend_ok; [done | lia] |].
    apply wpt_chkerr; [intros _ | done].
    pose proof (appended_append (byte_of_Z DmtxValueAsciiPad) σ Hv
                  ltac:(lia)) as H1.
    eapply wpt_mono.
    + apply PadRemainingInAscii_loop_total; [apply H1 | done | simpl; lia].
    + cbv beta. intros _ σ2 (pads & H2 & Hlen).
      exists ([byte_of_Z DmtxValueAsciiPad] ++ pads).
      split; [by eapply appended_trans |].
      split; [intros; lia | intros _; by exists pads].
  - replace (Z.to_nat _) with 0%nat by lia. simpl.
    apply wpt_ret. exists []. split; [by apply appended_refl |].
    split; [done | intros; lia].
Qed.

End Padding.

(** ** The scenario "123456" *)

Lemma EncodeNextChunkAscii_pair_eq σ v0 v1 rest :
  currentScheme (stream σ) = DmtxSchemeAscii →
  status (stream σ) = DmtxStatusEncoding →
  0 <= inputNext (stream σ) →
  valid_list (mem σ) (output (stream σ)) →
  length (output (stream σ)) < capacity (output (stream σ)) →
  unconsumed σ = v0 :: v1 :: rest →
  ISDIGIT (Z_of_byte v0) && ISDIGIT (Z_of_byte v1) = true →
  EncodeNextChunkAscii σ =
    Some (tt, pair_st (byte_of_Z (10 * (Z_of_byte v0 - 48)
                                  + (Z_of_byte v1 - 48) + 130)) σ).
Proof.
  intros Hsch Hst Hn Hvo Hroom Hu Hd. unfold EncodeNextChunkAscii.
  destruct (unconsumed_cons _ _ _ Hn Hu) as [Hnext _].
  rewrite (bind_Some _ _ _ _ _ (gets_eq _ _)), Hnext.
  rewrite (bind_Some _ _ _ _ _ (StreamInputAdvanceNext_ok _ _ _ Hst Hn Hu)).
  rewrite chkerr_encoding by done.
  rewrite (bind_Some _ _ _ _ _ (gets_eq _ _)).
  pose proof (unconsumed_advance _ _ _ Hn Hu) as Hu1.
  assert (Hn1 : 0 <= inputNext (stream (advance_st σ))) by (simpl; lia).
  destruct (unconsumed_cons _ _ _ Hn1 Hu1) as [Hnext1 _].
  rewrite Hnext1.
  rewrite (bind_Some _ _ _ _ _ (StreamInputPeekNext_ok _ _ _ Hn1 Hu1)).
  rewrite chkerr_encoding by done.
  by rewrite (EncodeNextChunkAscii_values_pair _ _ _ rest).
Qed.

Lemma unconsumed_append v σ :
  b (input (stream σ)) ≠ b (output (stream σ)) →
  unconsumed (append_st v σ) = unconsumed σ.
Proof.
  intros Hne. unfold unconsumed, bytes_of, append_st. simpl.
  by rewrite lookup_insert_ne.
Qed.

Lemma pair_st_ready cw σ v0 v1 rest :
  ascii_ready σ →
  length (output (stream σ)) < capacity (output (stream σ)) →
  unconsumed σ = v0 :: v1 :: rest →
  ascii_ready (pair_st cw σ) ∧
  unconsumed (pair_st cw σ) = rest ∧
  output_bytes (pair_st cw σ) = output_bytes σ ++ [cw] ∧
  length (output (stream (pair_st cw σ))) = length (output (stream σ)) + 1 ∧
  capacity (output (stream (pair_st cw σ))) = capacity (output (stream σ)).
Proof.
  intros (Hr & Hsch & Hst & Hne) Hroom Hu.
  pose proof Hr as (Hvi & Hvo & Hn).
  pose proof (ready_advance _ (ready_advance _ Hr)) as Hr2.
  assert (Hw : writes_output (advance_st (advance_st σ)) (pair_st cw σ)).
  { eapply writes_output_trans; [apply writes_output_append |].
    by apply writes_output_stream. }
  split; [| split; [| split; [| done]]].
  - split; [| done].
    apply (ready_writes _ _ Hr2 Hw); [| simpl; lia].
    by apply (valid_append cw (advance_st (advance_st σ))).
  - change (unconsumed (append_st cw (advance_st (advance_st σ))) = rest).
    rewrite unconsumed_append by done.
    pose proof (unconsumed_advance _ _ _ Hn Hu) as Hu1.
    apply (unconsumed_advance _ v1); [simpl; lia | done].
  - by apply (output_bytes_append cw (advance_st (advance_st σ))).
Qed.

Section Scenario.

Variable FindSymbolSize : Z → Z → Z.
Variable dmtxGetSymbolAttribute : DmtxSymAttribute → Z → Z.

Local Abbreviation dataWords :=
  (dmtxGetSymbolAttribute DmtxSymAttribSymbolDataWords).
Local Abbreviation EncodeNextChunk' :=
  (EncodeNextChunk FindSymbolSize dmtxGetSymbolAttribute).

Lemma EncodeNextChunk_ascii_eq requestedSizeIdx σ σ1 :
  currentScheme (stream σ) = DmtxSchemeAscii →
  EncodeNextChunkAscii σ = Some (tt, σ1) →
  status (stream σ1) = DmtxStatusEncoding →
  EncodeNextChunk' DmtxSchemeAscii requestedSizeIdx σ =
    (CompleteIfDoneAscii FindSymbolSize dmtxGetSymbolAttribute
       requestedSizeIdx;; CHKERR; mret tt) σ1.
Proof.
  intros Hsch Hrun Hst. unfold EncodeNextChunk.
  rewrite (bind_Some _ _ _ _ _ (gets_eq _ _)).
  rewrite decide_False by (intros H; by apply H).
  unfold EncodeNextChunk_dispatch.
  rewrite (bind_Some _ _ _ _ _ (gets_eq _ _)), Hsch.
  rewrite (bind_Some _ _ _ _ _ Hrun).
  by rewrite chkerr_encoding.
Qed.

Lemma CompleteIfDoneAscii_more requestedSizeIdx σ :
  StreamInputHasNext (stream σ) = true →
  CompleteIfDoneAscii FindSymbolSize dmtxGetSymbolAttribute requestedSizeIdx σ
    = Some (tt, σ).
Proof.
  intros Hnext. unfold CompleteIfDoneAscii.
  rewrite (bind_Some _ _ _ _ _ (gets_eq _ _)). by rewrite Hnext.
Qed.

Lemma CompleteIfDoneAscii_last requestedSizeIdx σ σ2 :
  StreamInputHasNext (stream σ) = false →
  let sizeIdx :=
    FindSymbolSize (length (output (stream σ))) requestedSizeIdx in
  sizeIdx ≠ DmtxUndefined →
  PadRemainingInAscii dmtxGetSymbolAttribute sizeIdx σ = Some (tt, σ2) →
  status (stream σ2) = DmtxStatusEncoding →
  CompleteIfDoneAscii FindSymbolSize dmtxGetSymbolAttribute requestedSizeIdx σ
    = Some (tt, mkState (mem σ2)
                  (set_status DmtxStatusComplete
                     (set_sizeIdx sizeIdx (stream σ2)))).
Proof.
  intros Hnext sizeIdx Hsize Hpad Hst. unfold CompleteIfDoneAscii.
  rewrite (bind_Some _ _ _ _ _ (gets_eq _ _)). rewrite Hnext.
  change (negb false) with true. cbv iota.
  rewrite (bind_Some _ _ _ _ _ (gets_eq _ _)). fold sizeIdx.
  unfold chksize. rewrite decide_False by done.
  rewrite (bind_Some _ _ _ _ _ Hpad).
  rewrite chkerr_encoding by done.
  unfold StreamMarkComplete, modify. by rewrite decide_True.
Qed.

(** A digit pair that is not the end of the input. *)
Lemma EncodeNextChunk_ascii_pair requestedSizeIdx σ v0 v1 v2 rest :
  ascii_ready σ →
  length (output (stream σ)) < capacity (output (stream σ)) →
  unconsumed σ = v0 :: v1 :: v2 :: rest →
  ISDIGIT (Z_of_byte v0) && ISDIGIT (Z_of_byte v1) = true →
  EncodeNextChunk' DmtxSchemeAscii requestedSizeIdx σ =
    Some (tt, pair_st (byte_of_Z (10 * (Z_of_byte v0 - 48)
                                  + (Z_of_byte v1 - 48) + 130)) σ).
Proof.
  intros Hr Hroom Hu Hd. pose proof Hr as ((Hvi & Hvo & Hn) & Hsch & Hst & _).
  set (cw := byte_of_Z _).
  destruct (pair_st_ready cw σ v0 v1 _ Hr Hroom Hu)
    as (Hr1 & Hu1 & _).
  rewrite (EncodeNextChunk_ascii_eq _ σ (pair_st cw σ));
    [| done | by apply (EncodeNextChunkAscii_pair_eq _ _ _ (v2 :: rest))
     | apply Hr1].
  destruct Hr1 as ((_ & _ & Hn1) & _ & Hst1 & _).
  destruct (unconsumed_cons _ _ _ Hn1 Hu1) as [Hnext1 _].
  rewrite (bind_Some _ _ _ _ _ (CompleteIfDoneAscii_more _ _ Hnext1)).
  by rewrite chkerr_encoding.
Qed.

(** The digit pair that ends the input: the symbol is resolved and padded,
    and the stream completed. *)
Lemma EncodeNextChunk_ascii_last_pair requestedSizeIdx σ v0 v1 :
  ascii_ready σ →
  length (output (stream σ)) < capacity (output (stream σ)) →
  unconsumed σ = [v0; v1] →
  ISDIGIT (Z_of_byte v0) && ISDIGIT (Z_of_byte v1) = true →
  let cw := byte_of_Z (10 * (Z_of_byte v0 - 48) + (Z_of_byte v1 - 48) + 130) in
  let sizeIdx :=
    FindSymbolSize (length (output (stream σ)) + 1) requestedSizeIdx in
  sizeIdx ≠ DmtxUndefined →
  dataWords sizeIdx <= capacity (output (stream σ)) →
  ∃ σ' pads,
    EncodeNextChunk' DmtxSchemeAscii requestedSizeIdx σ = Some (tt, σ') ∧
    status (stream σ') = DmtxStatusComplete ∧
    StreamInputHasNext (stream σ') = false ∧
    output_bytes σ' = output_bytes σ ++ [cw] ++ pads ∧
    (dataWords sizeIdx <= length (output (stream σ)) + 1 → pads = []) ∧
    (length (output (stream σ)) + 1 < dataWords sizeIdx →
     ∃ rest, pads = byte_of_Z DmtxValueAsciiPad :: rest).
Proof.
  intros Hr Hroom Hu Hd cw sizeIdx Hsize Hcap.
  pose proof Hr as ((Hvi & Hvo & Hn) & Hsch & Hst & _).
  destruct (pair_st_ready cw σ v0 v1 _ Hr Hroom Hu)
    as (Hr1 & Hu1 & Hbytes1 & Hlen1 & Hcap1).
  rewrite (EncodeNextChunk_ascii_eq _ σ (pair_st cw σ));
    [| done | by apply (EncodeNextChunkAscii_pair_eq _ _ _ []) | apply Hr1].
  destruct Hr1 as ((Hvi1 & Hvo1 & Hn1) & Hsch1 & Hst1 & _).
  assert (Hnext1 : StreamInputHasNext (stream (pair_st cw σ)) = false).
  { apply unconsumed_nil; [done | apply Hvi1 | | done].
    destruct Hvi1 as [? ?]. lia. }
  assert (Hpad := PadRemainingInAscii_total dmtxGetSymbolAttribute sizeIdx
                    (pair_st cw σ) Hsch1 Hst1 Hvo1 Hsize
                    ltac:(rewrite Hcap1; exact Hcap)).
  apply wpt_elim in Hpad as ([] & σ2 & Hrun2 & pads & Happ & Hnone & Hsome).
  destruct Happ as (Hb2 & Hl2 & Hv2 & Hc2 & Hi2 & Hn2 & Hs2 & Hsch2).
  assert (Hst2 : status (stream σ2) = DmtxStatusEncoding) by congruence.
  pose proof (CompleteIfDoneAscii_last requestedSizeIdx (pair_st cw σ) σ2
                Hnext1) as Hdone.
  rewrite Hlen1 in Hdone. specialize (Hdone Hsize Hrun2 Hst2).
  rewrite (bind_Some _ _ _ _ _ Hdone).
  rewrite chkerr_stopped by done.
  eexists _, pads. split; [reflexivity |].
  split; [done |].
  split; [unfold StreamInputHasNext in *; simpl; by rewrite Hi2, Hn2 |].
  split.
  { change (output_bytes σ2 = output_bytes σ ++ [cw] ++ pads).
    by rewrite Hb2, Hbytes1, <- app_assoc. }
  split; [rewrite <- Hlen1; exact Hnone | rewrite <- Hlen1; exact Hsome].
Qed.

End Scenario.

Section ScenarioRun.

Variable FindSymbolSize : Z → Z → Z.
Variable dmtxGetSymbolAttribute : DmtxSymAttribute → Z → Z.

Local Abbreviation dataWords :=
  (dmtxGetSymbolAttribute DmtxSymAttribSymbolDataWords).
Local Abbreviation loop :=
  (EncodeSingleScheme2_loop FindSymbolSize dmtxGetSymbolAttribute).

Lemma EncodeSingleScheme2_loop_step fuel targetScheme requestedSizeIdx σ σ1 :
  status (stream σ) = DmtxStatusEncoding →
  EncodeNextChunk FindSymbolSize dmtxGetSymbolAttribute targetScheme
    requestedSizeIdx σ = Some (tt, σ1) →
  loop (S fuel) targetScheme requestedSizeIdx σ
    = loop fuel targetScheme requestedSizeIdx σ1.
Proof.
  intros Hst Hrun. simpl.
  rewrite (bind_Some _ _ _ _ _ (gets_eq _ _)).
  rewrite decide_True by done.
  by rewrite (bind_Some _ _ _ _ _ Hrun).
Qed.

Lemma EncodeSingleScheme2_loop_done fuel targetScheme requestedSizeIdx σ :
  status (stream σ) ≠ DmtxStatusEncoding →
  loop fuel targetScheme requestedSizeIdx σ = Some (tt, σ).
Proof.
  intros Hst. destruct fuel; simpl;
    rewrite (bind_Some _ _ _ _ _ (gets_eq _ _));
    by rewrite decide_False.
Qed.

Lemma state_of_input_ready bytes cap :
  ascii_ready (state_of_input bytes cap) ∧
  unconsumed (state_of_input bytes cap) = bytes ∧
  output_bytes (state_of_input bytes cap) = [] ∧
  length (output (stream (state_of_input bytes cap))) = 0 ∧
  capacity (output (stream (state_of_input bytes cap))) = Z.of_nat cap.
Proof.
  unfold ascii_ready, ready, valid_list, unconsumed, output_bytes, bytes_of,
    state_of_input. simpl.
  rewrite lookup_insert_eq, lookup_insert_ne, lookup_insert_eq by done.
  simpl. rewrite length_replicate, Nat2Z.id, firstn_all.
  repeat split; (done || lia).
Qed.

(** C8, amended.  Encoding the 6-byte input "123456" with target scheme
    Ascii, for a size request that resolves three data words to a symbol
    of [words] data words and an output array that can hold them: the
    encode passes and completes; its first three codewords are 142, 164
    and 186, the three digit pairs; the first pad 129 follows as fourth
    codeword when the symbol holds more than three data words, and the
    output is exactly 142, 164, 186 when it holds three. *)
Theorem EncodeSingleScheme2_123456 (requestedSizeIdx : Z) (cap fuel : nat) :
  let sizeIdx := FindSymbolSize 3 requestedSizeIdx in
  let words := dataWords sizeIdx in
  sizeIdx ≠ DmtxUndefined →
  3 <= Z.of_nat cap →
  words <= Z.of_nat cap →
  (3 <= fuel)%nat →
  ∃ σ',
    EncodeSingleScheme2 FindSymbolSize dmtxGetSymbolAttribute fuel
      DmtxSchemeAscii requestedSizeIdx
      (state_of_input [x31; x32; x33; x34; x35; x36] cap)
    = Some (DmtxPass, σ') ∧
    status (stream σ') = DmtxStatusComplete ∧
    take 3 (codewords σ') = [142; 164; 186] ∧
    (3 < words → codewords σ' !! 3%nat = Some 129) ∧
    (words <= 3 → codewords σ' = [142; 164; 186]).
Proof.
  intros sizeIdx words Hsize Hcap3 Hcap Hfuel.
  set (σ0 := state_of_input [x31; x32; x33; x34; x35; x36] cap).
  destruct (state_of_input_ready [x31; x32; x33; x34; x35; x36] cap)
    as (Hr0 & Hu0 & Hb0 & Hl0 & Hc0).
  fold σ0 in Hr0, Hu0, Hb0, Hl0, Hc0.
  (* "12" *)
  set (cw1 := byte_of_Z (10 * (Z_of_byte x31 - 48) + (Z_of_byte x32 - 48) + 130)).
  pose proof (EncodeNextChunk_ascii_pair FindSymbolSize
                dmtxGetSymbolAttribute requestedSizeIdx σ0 x31 x32 x33
                [x34; x35; x36] Hr0 ltac:(lia) Hu0 eq_refl) as Hrun1.
  fold cw1 in Hrun1.
  destruct (pair_st_ready cw1 σ0 x31 x32 _ Hr0 ltac:(lia) Hu0)
    as (Hr1 & Hu1 & Hb1 & Hl1 & Hc1).
  set (σ1 := pair_st cw1 σ0) in *.
  (* "34" *)
  set (cw2 := byte_of_Z (10 * (Z_of_byte x33 - 48) + (Z_of_byte x34 - 48) + 130)).
  pose proof (EncodeNextChunk_ascii_pair FindSymbolSize
                dmtxGetSymbolAttribute requestedSizeIdx σ1 x33 x34 x35
                [x36] Hr1 ltac:(lia) Hu1 eq_refl) as Hrun2.
  fold cw2 in Hrun2.
  destruct (pair_st_ready cw2 σ1 x33 x34 _ Hr1 ltac:(lia) Hu1)
    as (Hr2 & Hu2 & Hb2 & Hl2 & Hc2).
  set (σ2 := pair_st cw2 σ1) in *.
  (* "56", the end of the input *)
  set (cw3 := byte_of_Z (10 * (Z_of_byte x35 - 48) + (Z_of_byte x36 - 48) + 130)).
  destruct (EncodeNextChunk_ascii_last_pair FindSymbolSize
              dmtxGetSymbolAttribute requestedSizeIdx σ2 x35 x36 Hr2
              ltac:(lia) Hu2 eq_refl)
    as (σ3 & pads & Hrun3 & Hst3 & Hnext3 & Hb3 & Hnone & Hsome).
  { rewrite Hl2, Hl1, Hl0. exact Hsize. }
  { rewrite Hl2, Hl1, Hl0, Hc2, Hc1, Hc0. exact Hcap. }
  rewrite Hl2, Hl1, Hl0 in Hnone, Hsome.
  change (FindSymbolSize (0 + 1 + 1 + 1) requestedSizeIdx) with sizeIdx
    in Hnone, Hsome.
  fold words in Hnone, Hsome. fold cw3 in Hb3.
  exists σ3.
  assert (Hcw : codewords σ3 = [142; 164; 186] ++ (Z_of_byte <$> pads)).
  { unfold codewords. rewrite Hb3, Hb2, Hb1, Hb0. by rewrite !fmap_app. }
  split; [| split; [done | split; [by rewrite Hcw |]]].
  - destruct fuel as [|[|[|fuel]]]; [lia.. |].
    unfold EncodeSingleScheme2.
    rewrite (bind_Some _ _ _ _ _ (gets_eq _ _)).
    rewrite decide_False by (intros H; by apply H).
    erewrite bind_Some.
    2:{ rewrite (EncodeSingleScheme2_loop_step _ _ _ _ _ (proj1 (proj2 (proj2 Hr0))) Hrun1).
        rewrite (EncodeSingleScheme2_loop_step _ _ _ _ _ (proj1 (proj2 (proj2 Hr1))) Hrun2).
        rewrite (EncodeSingleScheme2_loop_step _ _ _ _ _ (proj1 (proj2 (proj2 Hr2))) Hrun3).
        apply EncodeSingleScheme2_loop_done. by rewrite Hst3. }
    rewrite (bind_Some _ _ _ _ _ (gets_eq _ _)). unfold id.
    rewrite Hnext3, bool_decide_eq_false_2 by (intros H; by apply H).
    done.
  - split.
    + intros Hbig. destruct (Hsome ltac:(lia)) as [rest ->].
      by rewrite Hcw.
    + intros Hsmall. rewrite Hcw, (Hnone ltac:(lia)). done.
Qed.

End ScenarioRun.

Lemma EncodeSingleScheme2_123456_witness :
  ∃ σ',
    EncodeSingleScheme2 FindSymbolSizeAuto SymbolDataWords 3
      DmtxSchemeAscii 1 (state_of_input [x31; x32; x33; x34; x35; x36] 16)
    = Some (DmtxPass, σ') ∧
    status (stream σ') = DmtxStatusComplete ∧
    take 3 (codewords σ') = [142; 164; 186] ∧
    codewords σ' !! 3%nat = Some 129.
Proof.
  destruct (EncodeSingleScheme2_123456 FindSymbolSizeAuto SymbolDataWords
              1 16 3) as (σ' & Hrun & Hst & Hfirst & Hpad & _).
  - vm_compute. discriminate.
  - simpl. lia.
  - vm_compute. discriminate.
  - lia.
  - exists σ'. split; [exact Hrun |]. split; [exact Hst |].
    split; [exact Hfirst |]. apply Hpad. vm_compute. reflexivity.
Defined.

(** C8, as stated, fails.  Under automatic size the three codewords of
    "123456" fill the smallest symbol: the output is exactly 142, 164,
    186, with 164 (not 154) for the pair "34" and no pad.  When the 12x12
    symbol of five data words is requested, the pad 129 does follow, and
    the second codeword is 164 all the same. *)
Lemma EncodeSingleScheme2_123456_counterexample :
  (∃ σ',
     EncodeSingleScheme2 FindSymbolSizeAuto SymbolDataWords 10
       DmtxSchemeAscii DmtxSymbolSquareAuto
       (state_of_input [x31; x32; x33; x34; x35; x36] 16)
     = Some (DmtxPass, σ') ∧
     codewords σ' = [142; 164; 186] ∧
     take 4 (codewords σ') ≠ [142; 154; 186; 129]) ∧
  (∃ σ',
     EncodeSingleScheme2 FindSymbolSizeAuto SymbolDataWords 10
       DmtxSchemeAscii 1
       (state_of_input [x31; x32; x33; x34; x35; x36] 16)
     = Some (DmtxPass, σ') ∧
     take 4 (codewords σ') = [142; 164; 186; 129] ∧
     take 4 (codewords σ') ≠ [142; 154; 186; 129]).
Proof.
  split; vm_compute; eexists;
    (split; [reflexivity |]); (split; [reflexivity | discriminate]).
Qed.

(** ** Undoing the randomization *)

(** Beyond position 14412641 the product [149 * position] no longer fits
    an [int]: at position 14412855 it wraps around to a number whose
    remainder by 255 is -1, the pseudo-random number is 0 and the value
    200 is left as it is, where the sum with [(149 * pos) mod 255 + 1]
    is 201. *)
Lemma Randomize255State2_int_overflow :
  Z_of_byte (Randomize255State2_int xc8 14412855) = 200 ∧
  (Z_of_byte xc8 + ((149 * 14412855) mod 255 + 1)) mod 256 = 201.
Proof. by vm_compute. Qed.

(** X1.  At every position [0 <= pos <= 14412641], the positions at which
    [149 * pos] fits an [int], [Randomize255State2] adds the
    pseudo-random number [(149 * pos) mod 255 + 1] to the value modulo
    256; subtracting that number modulo 256 gives the value back. *)
Theorem Randomize255State2_round_trip (value : byte) (position : Z) :
  0 <= position <= 14412641 →
  let pseudoRandom := (149 * position) mod 255 + 1 in
  Z_of_byte (Randomize255State2_int value position)
    = (Z_of_byte value + pseudoRandom) mod 256 ∧
  byte_of_Z (Z_of_byte (Randomize255State2_int value position) - pseudoRandom)
    = value.
Proof.
  intros Hpos pseudoRandom.
  rewrite Randomize255State2_int_small by done.
  pose proof (Z_of_byte_range value) as Hv.
  pose proof (Z.mod_pos_bound (149 * position) 255 ltac:(lia)) as Hm.
  assert (Hval : Z_of_byte (Randomize255State2 value position)
                 = (Z_of_byte value + pseudoRandom) mod 256).
  { unfold Randomize255State2. rewrite Z.rem_mod_nonneg by lia.
    fold pseudoRandom. rewrite Z_of_byte_of_Z.
    destruct (Z.leb_spec (Z_of_byte value + pseudoRandom) 255); [done |].
    replace (Z_of_byte value + pseudoRandom - 256)
      with (Z_of_byte value + pseudoRandom + (-1) * 256) by lia.
    by rewrite Z.mod_add. }
  split; [exact Hval |].
  apply Z_of_byte_inj. rewrite Z_of_byte_of_Z, Hval.
  rewrite Zminus_mod_idemp_l.
  replace (Z_of_byte value + pseudoRandom - pseudoRandom)
    with (Z_of_byte value) by lia.
  apply Z.mod_small. lia.
Qed.

Lemma Randomize255State2_round_trip_witness :
  Z_of_byte (Randomize255State2_int xc8 3) = (Z_of_byte xc8 + 193) mod 256 ∧
  byte_of_Z (Z_of_byte (Randomize255State2_int xc8 3) - 193) = xc8.
Proof. apply (Randomize255State2_round_trip xc8 3). lia. Defined.

(** X2.  On the codeword values [1..254] and at every position
    [1 <= pos <= 14412641], the positions at which [149 * pos] fits an
    [int], [Randomize253State2] returns, and is undone by subtracting the
    pseudo-random number [(149 * pos) mod 253 + 1] and adding 254 back
    when the difference falls below 1. *)
Theorem Randomize253State2_round_trip (cwValue : byte) (cwPosition : Z) :
  1 <= cwPosition <= 14412641 →
  1 <= Z_of_byte cwValue <= 254 →
  let pseudoRandom := (149 * cwPosition) mod 253 + 1 in
  ∃ r, Randomize253State2_int cwValue cwPosition = Some r ∧
       (if Z_of_byte r - pseudoRandom <? 1
        then Z_of_byte r - pseudoRandom + 254
        else Z_of_byte r - pseudoRandom) = Z_of_byte cwValue.
Proof.
  intros Hpos Hv pseudoRandom.
  rewrite Randomize253State2_int_small by lia.
  pose proof (Randomize253State2_tmp_bounds cwValue cwPosition ltac:(lia))
    as Hb.
  exists (byte_of_Z (Randomize253State2_tmp cwValue cwPosition)).
  split; [apply Randomize253State2_defined; lia |].
  rewrite Z_of_byte_of_Z_small by lia. clear Hb.
  unfold Randomize253State2_tmp. rewrite Z.rem_mod_nonneg by lia.
  fold pseudoRandom.
  pose proof (Z.mod_pos_bound (149 * cwPosition) 253 ltac:(lia)) as Hm.
  fold pseudoRandom.
  assert (1 <= pseudoRandom <= 253) by (unfold pseudoRandom; lia).
  destruct (Z.ltb_spec 254 (Z_of_byte cwValue + pseudoRandom));
    match goal with |- context [?x <? 1] => destruct (Z.ltb_spec x 1) end;
    lia.
Qed.

Lemma Randomize253State2_round_trip_witness :
  ∃ r, Randomize253State2_int x81 2 = Some r ∧
       (if Z_of_byte r - 46 <? 1
        then Z_of_byte r - 46 + 254
        else Z_of_byte r - 46) = Z_of_byte x81.
Proof.
  apply (Randomize253State2_round_trip x81 2).
  - lia.
  - vm_compute. split; discriminate.
Defined.

(** ** EDIFACT: four values in three codewords *)

Lemma Z_lor_disjoint x k n :
  0 <= n → 0 <= x → 0 <= k < 2 ^ n → Z.lor (x * 2 ^ n) k = x * 2 ^ n + k.
Proof.
  intros Hn Hx Hk.
  assert (Hland : Z.land (x * 2 ^ n) k = 0).
  { apply Z.bits_inj'. intros m Hm. rewrite Z.land_spec, Z.bits_0.
    rewrite <- Z.shiftl_mul_pow2 by done.
    destruct (Z_lt_le_dec m n) as [Hlt|Hge].
    - by rewrite Z.shiftl_spec_low.
    - apply andb_false_iff. right. apply Z.testbit_false; [done |].
      rewrite Z.div_small; [done |].
      split; [lia |]. apply Z.lt_le_trans with (2 ^ n); [lia |].
      apply Z.pow_le_mono_r; lia. }
  rewrite <- Z.lxor_lor by done. symmetry. by apply Z.add_nocarry_lxor.
Qed.

(** One EDIFACT value, by the phase [outputChainValueCount mod 4] it is
    appended in; the bytes written are given as bytes. *)
Lemma EncodeValueEdifact_run (σ : State) (value : byte) :
  currentScheme (stream σ) = DmtxSchemeEdifact →
  status (stream σ) = DmtxStatusEncoding →
  valid_list (mem σ) (output (stream σ)) →
  31 <= Z_of_byte value <= 94 →
  0 <= outputChainValueCount (stream σ) →
  let k := outputChainValueCount (stream σ) mod 4 in
  let ev := Z.shiftl (Z.land (Z_of_byte value) 63) 2 in
  (k ≠ 3 → length (output (stream σ)) < capacity (output (stream σ))) →
  (k ≠ 0 → 0 < outputChainWordCount (stream σ)
           ∧ 0 < length (output (stream σ))) →
  ∃ σ', EncodeValueEdifact value σ = Some (tt, σ') ∧
        status (stream σ') = DmtxStatusEncoding ∧
        currentScheme (stream σ') = DmtxSchemeEdifact ∧
        valid_list (mem σ') (output (stream σ')) ∧
        capacity (output (stream σ')) = capacity (output (stream σ)) ∧
        outputChainValueCount (stream σ') =
          outputChainValueCount (stream σ) + 1 ∧
        outputChainWordCount (stream σ') =
          outputChainWordCount (stream σ) + (if k =? 3 then 0 else 1) ∧
        length (output (stream σ')) =
          length (output (stream σ)) + (if k =? 3 then 0 else 1) ∧
        (k = 0 → output_bytes σ' = output_bytes σ ++ [byte_of_Z ev]) ∧
        (∀ init last, output_bytes σ = init ++ [last] →
           (k = 1 → output_bytes σ' =
                      init ++ [byte_of_Z (Z.lor (Z_of_byte last)
                                            (Z.shiftr ev 6));
                               byte_of_Z (Z.shiftl ev 2)]) ∧
           (k = 2 → output_bytes σ' =
                      init ++ [byte_of_Z (Z.lor (Z_of_byte last)
                                            (Z.shiftr ev 4));
                               byte_of_Z (Z.shiftl ev 4)]) ∧
           (k = 3 → output_bytes σ' =
                      init ++ [byte_of_Z (Z.lor (Z_of_byte last)
                                            (Z.shiftr ev 2))])).
Proof.
  intros Hsch Hst Hvo Hv Hcount k ev Hroom Hlast.
  pose proof (edifact_value_bounds (Z_of_byte value) ltac:(lia)) as Hev.
  fold ev in Hev.
  assert (Hk : 0 <= k < 4) by (apply Z.mod_pos_bound; lia).
  unfold EncodeValueEdifact. rewrite chkscheme_ok by done.
  replace (Z_of_byte value <? 31) with false by (symmetry; apply Z.ltb_ge; lia).
  replace (94 <? Z_of_byte value) with false by (symmetry; apply Z.ltb_ge; lia).
  change (false || false) with false. cbv iota. fold ev.
  rewrite (Z_of_byte_of_Z_small ev) by lia.
  rewrite (bind_Some _ _ _ _ _ (gets_eq _ _)).
  rewrite Z.rem_mod_nonneg by lia. fold k.
  (* removing the last codeword and writing it back OR-ed *)
  assert (Hphase : ∀ x, k ≠ 0 →
            ∃ last τ,
              StreamOutputChainRemoveLast σ = Some (last, remove_st σ) ∧
              τ = append_st (x last) (remove_st σ) ∧
              StreamOutputChainAppend (x last) (remove_st σ) = Some (tt, τ) ∧
              output_bytes σ = output_bytes (remove_st σ) ++ [last] ∧
              output_bytes τ = output_bytes (remove_st σ) ++ [x last] ∧
              valid_list (mem τ) (output (stream τ))).
  { intros x Hk0. destruct (Hlast Hk0) as [Hwc Hlen].
    destruct (output_bytes_last σ Hvo Hlen) as (last & Hload & Hbytes).
    pose proof (valid_remove σ Hvo Hlen) as Hvr.
    assert (Hrr : length (output (stream (remove_st σ)))
                  < capacity (output (stream (remove_st σ))))
      by (destruct Hvo; simpl; lia).
    exists last, (append_st (x last) (remove_st σ)).
    split; [by apply StreamOutputChainRemoveLast_ok |].
    split; [done |].
    split; [by apply StreamOutputChainAppend_ok |].
    split; [done |].
    split; [by apply output_bytes_append | by apply valid_append]. }
  assert (Hinj : ∀ (i1 i2 : list byte) l1 l2,
            i1 ++ [l1] = i2 ++ [l2] → i1 = i2 ∧ l1 = l2).
  { intros i1 i2 l1 l2 H. apply app_inj_tail in H. done. }
  destruct (decide (k = 0)) as [Hk0|Hk0].
  { (* phase 0 *)
    replace (k =? 0) with true by (symmetry; apply Z.eqb_eq; lia).
    erewrite bind_Some
      by (apply StreamOutputChainAppend_ok; [done | apply Hroom; lia]).
    rewrite chkerr_encoding by done.
    eexists. split; [done |]. split; [done |]. split; [done |].
    split; [apply (valid_append _ σ); [done | apply Hroom; lia] |].
    split; [done |]. split; [done |].
    replace (k =? 3) with false by (symmetry; apply Z.eqb_neq; lia).
    split; [done |]. split; [done |]. split.
    - intros _. apply (output_bytes_append _ σ); [done | apply Hroom; lia].
    - intros init last _. repeat split; intros; lia. }
  replace (k =? 0) with false by (symmetry; apply Z.eqb_neq; lia).
  assert (Htwo : ∀ n y, (k = 1 ∨ k = 2) →
            ∃ σ',
              (previousOutput ← StreamOutputChainRemoveLast; CHKERR;
               StreamOutputChainAppend
                 (byte_of_Z (Z.lor (Z_of_byte previousOutput)
                               (Z.shiftr ev n)));; CHKERR;
               StreamOutputChainAppend y;; CHKERR;
               modify (λ s, set_outputChainValueCount
                              (outputChainValueCount s + 1) s)) σ
              = Some (tt, σ') ∧
              status (stream σ') = DmtxStatusEncoding ∧
              currentScheme (stream σ') = DmtxSchemeEdifact ∧
              valid_list (mem σ') (output (stream σ')) ∧
              capacity (output (stream σ')) = capacity (output (stream σ)) ∧
              outputChainValueCount (stream σ') =
                outputChainValueCount (stream σ) + 1 ∧
              outputChainWordCount (stream σ') =
                outputChainWordCount (stream σ) + 1 ∧
              length (output (stream σ')) = length (output (stream σ)) + 1 ∧
              ∀ init last, output_bytes σ = init ++ [last] →
                output_bytes σ' =
                  init ++ [byte_of_Z (Z.lor (Z_of_byte last) (Z.shiftr ev n));
                           y]).
  { intros n y Hk12.
    destruct (Hphase (λ last, byte_of_Z (Z.lor (Z_of_byte last)
                                           (Z.shiftr ev n))) Hk0)
      as (last & τ & Hrm & Hτ & Hap & Hcw & Hcwτ & Hvτ).
    assert (Hroomτ : length (output (stream τ)) < capacity (output (stream τ))).
    { specialize (Hroom ltac:(lia)). subst τ. simpl. lia. }
    rewrite (bind_Some _ _ _ _ _ Hrm). rewrite chkerr_encoding by done.
    rewrite (bind_Some _ _ _ _ _ Hap).
    rewrite chkerr_encoding by (by subst τ).
    rewrite (bind_Some _ _ _ _ _ (StreamOutputChainAppend_ok y τ Hvτ Hroomτ)).
    rewrite chkerr_encoding by (by subst τ).
    eexists. split; [done |].
    split; [by subst τ |]. split; [by subst τ |].
    split; [by apply (valid_append y τ) |].
    split; [by subst τ |]. split; [by subst τ |].
    split; [subst τ; simpl; lia |]. split; [subst τ; simpl; lia |].
    intros init last' Hdec. rewrite Hcw in Hdec.
    apply Hinj in Hdec as [<- <-].
    change (output_bytes (append_st y τ) = output_bytes (remove_st σ)
              ++ [byte_of_Z (Z.lor (Z_of_byte last) (Z.shiftr ev n)); y]).
    rewrite output_bytes_append, Hcwτ by done. by rewrite <- app_assoc. }
  destruct (decide (k = 1)) as [Hk1|Hk1].
  { replace (k =? 1) with true by (symmetry; apply Z.eqb_eq; lia).
    destruct (Htwo 6 (byte_of_Z (Z.shiftl ev 2)) ltac:(lia))
      as (σ' & Hrun & Hs & Hc & Hval & Hcap & Hvc & Hwc & Hlen & Hb).
    exists σ'. split; [exact Hrun |].
    replace (k =? 3) with false by (symmetry; apply Z.eqb_neq; lia).
    split; [exact Hs |]. split; [exact Hc |]. split; [exact Hval |].
    split; [exact Hcap |]. split; [exact Hvc |]. split; [exact Hwc |].
    split; [exact Hlen |]. split; [intros; lia |].
    intros init last Hdec. split; [intros _; by apply Hb |].
    split; intros; lia. }
  replace (k =? 1) with false by (symmetry; apply Z.eqb_neq; lia).
  destruct (decide (k = 2)) as [Hk2|Hk2].
  { replace (k =? 2) with true by (symmetry; apply Z.eqb_eq; lia).
    destruct (Htwo 4 (byte_of_Z (Z.shiftl ev 4)) ltac:(lia))
      as (σ' & Hrun & Hs & Hc & Hval & Hcap & Hvc & Hwc & Hlen & Hb).
    exists σ'. split; [exact Hrun |].
    replace (k =? 3) with false by (symmetry; apply Z.eqb_neq; lia).
    split; [exact Hs |]. split; [exact Hc |]. split; [exact Hval |].
    split; [exact Hcap |]. split; [exact Hvc |]. split; [exact Hwc |].
    split; [exact Hlen |]. split; [intros; lia |].
    intros init last Hdec. split; [intros; lia |].
    split; [intros _; by apply Hb | intros; lia]. }
  (* phase 3 *)
  assert (Hk3 : k = 3) by lia.
  replace (k =? 2) with false by (symmetry; apply Z.eqb_neq; lia).
  replace (k =? 3) with true by (symmetry; apply Z.eqb_eq; lia).
  destruct (Hphase (λ last, byte_of_Z (Z.lor (Z_of_byte last)
                                         (Z.shiftr ev 2))) Hk0)
    as (last & τ & Hrm & Hτ & Hap & Hcw & Hcwτ & Hvτ).
  rewrite (bind_Some _ _ _ _ _ Hrm). rewrite chkerr_encoding by done.
  rewrite (bind_Some _ _ _ _ _ Hap).
  rewrite chkerr_encoding by (by subst τ).
  eexists. split; [done |].
  split; [by subst τ |]. split; [by subst τ |]. split; [done |].
  split; [by subst τ |]. split; [by subst τ |].
  split; [subst τ; simpl; lia |]. split; [subst τ; simpl; lia |].
  split; [intros; lia |].
  intros init last' Hdec. rewrite Hcw in Hdec.
  apply Hinj in Hdec as [<- <-].
  split; [intros; lia |]. split; [intros; lia |]. intros _. exact Hcwτ.
Qed.

Lemma edifact_quad_bytes (A B C D : Z) :
  0 <= A < 64 → 0 <= B < 64 → 0 <= C < 64 → 0 <= D < 64 →
  Z_of_byte (byte_of_Z (Z.lor (Z_of_byte (byte_of_Z (Z.shiftl A 2)))
                          (Z.shiftr (Z.shiftl B 2) 6)))
    = 4 * A + B / 16 ∧
  Z_of_byte (byte_of_Z (Z.lor (Z_of_byte (byte_of_Z
                                            (Z.shiftl (Z.shiftl B 2) 2)))
                          (Z.shiftr (Z.shiftl C 2) 4)))
    = 16 * (B mod 16) + C / 4 ∧
  Z_of_byte (byte_of_Z (Z.lor (Z_of_byte (byte_of_Z
                                            (Z.shiftl (Z.shiftl C 2) 4)))
                          (Z.shiftr (Z.shiftl D 2) 2)))
    = 64 * (C mod 4) + D.
Proof.
  intros HA HB HC HD.
  rewrite !Z.shiftl_mul_pow2, !Z.shiftr_div_pow2 by lia.
  change (2 ^ 2) with 4. change (2 ^ 4) with 16. change (2 ^ 6) with 64.
  rewrite !Z_of_byte_of_Z.
  replace ((A * 4) mod 256) with (A * 2 ^ 2) by (Z.div_mod_to_equations; lia).
  replace ((B * 4 * 4) mod 256) with (B mod 16 * 2 ^ 4)
    by (Z.div_mod_to_equations; lia).
  replace ((C * 4 * 16) mod 256) with (C mod 4 * 2 ^ 6)
    by (Z.div_mod_to_equations; lia).
  replace (B * 4 / 64) with (B / 16) by (Z.div_mod_to_equations; lia).
  replace (C * 4 / 16) with (C / 4) by (Z.div_mod_to_equations; lia).
  replace (D * 4 / 4) with D by (Z.div_mod_to_equations; lia).
  rewrite !Z_lor_disjoint by (Z.div_mod_to_equations; lia).
  change (2 ^ 2) with 4. change (2 ^ 4) with 16. change (2 ^ 6) with 64.
  repeat split; Z.div_mod_to_equations; lia.
Qed.

(** X3.  Four EDIFACT values appended from a clean boundary
    ([outputChainValueCount mod 4 = 0]) to a stream in scheme Edifact
    that is encoding and has room for three codewords: exactly three
    codewords are appended, which hold the four 6-bit values
    [A B C D = v & 0x3F] in order, [4A + B/16], [16 (B mod 16) + C/4] and
    [64 (C mod 4) + D]; read as one 24-bit number they are
    [2^18 A + 2^12 B + 2^6 C + D].  The chain counts four more values and
    three more words. *)
Theorem EncodeValueEdifact_packs_quad (σ : State) (v0 v1 v2 v3 : byte) :
  currentScheme (stream σ) = DmtxSchemeEdifact →
  status (stream σ) = DmtxStatusEncoding →
  valid_list (mem σ) (output (stream σ)) →
  0 <= outputChainValueCount (stream σ) →
  outputChainValueCount (stream σ) mod 4 = 0 →
  0 <= outputChainWordCount (stream σ) →
  length (output (stream σ)) + 3 <= capacity (output (stream σ)) →
  31 <= Z_of_byte v0 <= 94 → 31 <= Z_of_byte v1 <= 94 →
  31 <= Z_of_byte v2 <= 94 → 31 <= Z_of_byte v3 <= 94 →
  let A := Z.land (Z_of_byte v0) 63 in
  let B := Z.land (Z_of_byte v1) 63 in
  let C := Z.land (Z_of_byte v2) 63 in
  let D := Z.land (Z_of_byte v3) 63 in
  let c0 := 4 * A + B / 16 in
  let c1 := 16 * (B mod 16) + C / 4 in
  let c2 := 64 * (C mod 4) + D in
  ∃ σ',
    (EncodeValueEdifact v0;; EncodeValueEdifact v1;;
     EncodeValueEdifact v2;; EncodeValueEdifact v3) σ = Some (tt, σ') ∧
    status (stream σ') = DmtxStatusEncoding ∧
    codewords σ' = codewords σ ++ [c0; c1; c2] ∧
    65536 * c0 + 256 * c1 + c2 = 262144 * A + 4096 * B + 64 * C + D ∧
    outputChainValueCount (stream σ') =
      outputChainValueCount (stream σ) + 4 ∧
    outputChainWordCount (stream σ') =
      outputChainWordCount (stream σ) + 3.
Proof.
  intros Hsch Hst Hvo Hcount Hk Hwc Hroom H0 H1 H2 H3 A B C D c0 c1 c2.
  assert (Hsix : ∀ v : byte, 0 <= Z.land (Z_of_byte v) 63 < 64).
  { intros v. change 63 with (Z.ones 6). rewrite Z.land_ones by lia.
    apply Z.mod_pos_bound. lia. }
  pose proof Hvo as [[Hlen0 _] _].
  assert (Hsnoc : ∀ (l : list byte) x y, l ++ [x; y] = (l ++ [x]) ++ [y])
    by (intros; by rewrite <- app_assoc).
  (* phase 0 *)
  destruct (EncodeValueEdifact_run σ v0 Hsch Hst Hvo H0 Hcount)
    as (σ1 & Hrun1 & Hst1 & Hsch1 & Hvo1 & Hcap1 & Hvc1 & Hwc1 & Hlen1
        & Hb1 & _).
  { intros _. lia. }
  { intros Hne. by rewrite Hk in Hne. }
  rewrite Hk in Hwc1, Hlen1, Hb1. simpl in Hwc1, Hlen1.
  specialize (Hb1 eq_refl). fold A in Hb1.
  assert (Hk1 : outputChainValueCount (stream σ1) mod 4 = 1)
    by (rewrite Hvc1; Z.div_mod_to_equations; lia).
  (* phase 1 *)
  destruct (EncodeValueEdifact_run σ1 v1 Hsch1 Hst1 Hvo1 H1 ltac:(lia))
    as (σ2 & Hrun2 & Hst2 & Hsch2 & Hvo2 & Hcap2 & Hvc2 & Hwc2 & Hlen2
        & _ & Hb2).
  { intros _. lia. }
  { intros _. lia. }
  rewrite Hk1 in Hwc2, Hlen2, Hb2. simpl in Hwc2, Hlen2.
  destruct (Hb2 _ _ Hb1) as (Hb2' & _ & _). specialize (Hb2' eq_refl).
  fold B in Hb2'. clear Hb2.
  assert (Hk2 : outputChainValueCount (stream σ2) mod 4 = 2)
    by (rewrite Hvc2, Hvc1; Z.div_mod_to_equations; lia).
  (* phase 2 *)
  destruct (EncodeValueEdifact_run σ2 v2 Hsch2 Hst2 Hvo2 H2 ltac:(lia))
    as (σ3 & Hrun3 & Hst3 & Hsch3 & Hvo3 & Hcap3 & Hvc3 & Hwc3 & Hlen3
        & _ & Hb3).
  { intros _. lia. }
  { intros _. lia. }
  rewrite Hk2 in Hwc3, Hlen3, Hb3. simpl in Hwc3, Hlen3.
  rewrite Hsnoc in Hb2'.
  destruct (Hb3 _ _ Hb2') as (_ & Hb3' & _). specialize (Hb3' eq_refl).
  fold C in Hb3'. clear Hb3.
  assert (Hk3 : outputChainValueCount (stream σ3) mod 4 = 3)
    by (rewrite Hvc3, Hvc2, Hvc1; Z.div_mod_to_equations; lia).
  (* phase 3 *)
  destruct (EncodeValueEdifact_run σ3 v3 Hsch3 Hst3 Hvo3 H3 ltac:(lia))
    as (σ4 & Hrun4 & Hst4 & Hsch4 & Hvo4 & Hcap4 & Hvc4 & Hwc4 & Hlen4
        & _ & Hb4).
  { intros Hne. by rewrite Hk3 in Hne. }
  { intros _. lia. }
  rewrite Hk3 in Hwc4, Hlen4, Hb4. simpl in Hwc4, Hlen4.
  rewrite Hsnoc in Hb3'.
  destruct (Hb4 _ _ Hb3') as (_ & _ & Hb4'). specialize (Hb4' eq_refl).
  fold D in Hb4'. clear Hb4.
  exists σ4.
  split.
  { rewrite (bind_Some _ _ _ _ _ Hrun1), (bind_Some _ _ _ _ _ Hrun2).
    by rewrite (bind_Some _ _ _ _ _ Hrun3). }
  split; [exact Hst4 |].
  destruct (edifact_quad_bytes A B C D (Hsix v0) (Hsix v1) (Hsix v2) (Hsix v3))
    as (E0 & E1 & E2).
  split.
  { unfold codewords. rewrite Hb4', !fmap_app, <- !app_assoc. simpl.
    by rewrite E0, E1, E2. }
  split.
  { pose proof (Hsix v0). pose proof (Hsix v1). pose proof (Hsix v2).
    fold A B C in H, H4, H5. unfold c0, c1, c2.
    Z.div_mod_to_equations. lia. }
  split; lia.
Qed.

Lemma EncodeValueEdifact_packs_quad_witness :
  let σ :=
    mkState (mem (state_of_input [x41; x42; x43; x44] 8))
      (set_currentScheme DmtxSchemeEdifact
         (stream (state_of_input [x41; x42; x43; x44] 8))) in
  ∃ σ',
    (EncodeValueEdifact x41;; EncodeValueEdifact x42;;
     EncodeValueEdifact x43;; EncodeValueEdifact x44) σ = Some (tt, σ') ∧
    status (stream σ') = DmtxStatusEncoding ∧
    codewords σ' = [4; 32; 196] ∧
    65536 * 4 + 256 * 32 + 196 = 262144 * 1 + 4096 * 2 + 64 * 3 + 4 ∧
    outputChainValueCount (stream σ') = 4 ∧
    outputChainWordCount (stream σ') = 3.
Proof.
  intros σ.
  apply (EncodeValueEdifact_packs_quad σ x41 x42 x43 x44).
  - reflexivity.
  - reflexivity.
  - compute_done.
  - simpl. lia.
  - reflexivity.
  - simpl. lia.
  - simpl. lia.
  - vm_compute. split; discriminate.
  - vm_compute. split; discriminate.
  - vm_compute. split; discriminate.
  - vm_compute. split; discriminate.
Defined.

(** ** Latching from ASCII *)

Lemma EncodeChangeScheme_latch_eq
    (dmtxGetSymbolAttribute : DmtxSymAttribute → Z → Z)
    (targetScheme : DmtxScheme) (unlatchType : DmtxUnlatch) (σ : State) :
  currentScheme (stream σ) = DmtxSchemeAscii →
  status (stream σ) = DmtxStatusEncoding →
  valid_list (mem σ) (output (stream σ)) →
  length (output (stream σ)) < capacity (output (stream σ)) →
  targetScheme ≠ DmtxSchemeAscii → targetScheme ≠ DmtxSchemeBase256 →
  EncodeChangeScheme dmtxGetSymbolAttribute targetScheme unlatchType σ
    = Some (tt, latch_st targetScheme
                  (byte_of_Z match targetScheme with
                             | DmtxSchemeC40 => DmtxValueC40Latch
                             | DmtxSchemeText => DmtxValueTextLatch
                             | DmtxSchemeX12 => DmtxValueX12Latch
                             | _ => DmtxValueEdifactLatch
                             end) σ).
Proof.
  intros Hsch Hst Hvo Hroom Hna Hnb. unfold EncodeChangeScheme.
  rewrite (bind_Some _ _ _ _ _ (gets_eq _ _)), Hsch.
  rewrite decide_False by done.
  unfold EncodeChangeScheme_unlatch.
  rewrite (bind_Some _ _ _ _ _ (gets_eq _ _)), Hsch.
  set (σa := mkState (mem σ) (set_currentScheme DmtxSchemeAscii (stream σ))).
  cbv iota.
  rewrite (bind_Some (modify (set_currentScheme DmtxSchemeAscii)) _ σ tt σa
             eq_refl).
  assert (Hlatch : ∀ cw,
            EncodeValueAscii cw σa = Some (tt, count_st 1 (append_st cw σa)))
    by (intros cw; by apply EncodeValueAscii_ok).
  unfold EncodeChangeScheme_latch.
  destruct targetScheme; try done;
    rewrite (bind_Some _ _ _ _ _ (Hlatch _));
    rewrite chkerr_encoding by done;
    done.
Qed.

Lemma latch_st_facts targetScheme cw σ :
  valid_list (mem σ) (output (stream σ)) →
  length (output (stream σ)) < capacity (output (stream σ)) →
  output_bytes (latch_st targetScheme cw σ) = output_bytes σ ++ [cw] ∧
  valid_list (mem (latch_st targetScheme cw σ))
    (output (stream (latch_st targetScheme cw σ))) ∧
  (b (input (stream σ)) ≠ b (output (stream σ)) →
   unconsumed (latch_st targetScheme cw σ) = unconsumed σ).
Proof.
  intros Hvo Hroom.
  split; [by apply (output_bytes_append cw σ) |].
  split; [by apply (valid_append cw σ) |].
  intros Hne. by apply (unconsumed_append cw σ).
Qed.

(** X4.  Changing from scheme Ascii to C40, Text, X12 or EDIFACT, on a
    stream that is encoding and has room for one codeword, appends exactly
    the latch codeword of the target (230, 239, 238, 240), enters the
    target scheme and starts a new chain with both chain counters at
    zero; the input and its cursor are untouched. *)
Theorem EncodeChangeScheme_latches
    (dmtxGetSymbolAttribute : DmtxSymAttribute → Z → Z)
    (targetScheme : DmtxScheme) (unlatchType : DmtxUnlatch) (σ : State) :
  currentScheme (stream σ) = DmtxSchemeAscii →
  status (stream σ) = DmtxStatusEncoding →
  valid_list (mem σ) (output (stream σ)) →
  length (output (stream σ)) < capacity (output (stream σ)) →
  targetScheme ≠ DmtxSchemeAscii → targetScheme ≠ DmtxSchemeBase256 →
  ∃ σ',
    EncodeChangeScheme dmtxGetSymbolAttribute targetScheme unlatchType σ
      = Some (tt, σ') ∧
    codewords σ' =
      codewords σ ++ [match targetScheme with
                      | DmtxSchemeC40 => 230
                      | DmtxSchemeText => 239
                      | DmtxSchemeX12 => 238
                      | _ => 240
                      end] ∧
    currentScheme (stream σ') = targetScheme ∧
    status (stream σ') = DmtxStatusEncoding ∧
    outputChainWordCount (stream σ') = 0 ∧
    outputChainValueCount (stream σ') = 0 ∧
    input (stream σ') = input (stream σ) ∧
    inputNext (stream σ') = inputNext (stream σ).
Proof.
  intros Hsch Hst Hvo Hroom Hna Hnb. eexists. split.
  { by apply EncodeChangeScheme_latch_eq. }
  split; [| done].
  destruct (latch_st_facts targetScheme
              (byte_of_Z match targetScheme with
                         | DmtxSchemeC40 => DmtxValueC40Latch
                         | DmtxSchemeText => DmtxValueTextLatch
                         | DmtxSchemeX12 => DmtxValueX12Latch
                         | _ => DmtxValueEdifactLatch
                         end) σ Hvo Hroom) as (Hb & _).
  unfold codewords. rewrite Hb, fmap_app. f_equal.
  by destruct targetScheme.
Qed.

Lemma EncodeChangeScheme_latches_witness :
  ∃ σ',
    EncodeChangeScheme SymbolDataWords DmtxSchemeText DmtxUnlatchExplicit
      (state_of_input [x61] 8) = Some (tt, σ') ∧
    codewords σ' = [] ++ [239] ∧
    currentScheme (stream σ') = DmtxSchemeText ∧
    status (stream σ') = DmtxStatusEncoding ∧
    outputChainWordCount (stream σ') = 0 ∧
    outputChainValueCount (stream σ') = 0 ∧
    input (stream σ') = mkByteList 1 1 0%nat ∧
    inputNext (stream σ') = 0.
Proof.
  apply (EncodeChangeScheme_latches SymbolDataWords DmtxSchemeText
           DmtxUnlatchExplicit (state_of_input [x61] 8)).
  - reflexivity.
  - reflexivity.
  - compute_done.
  - simpl. lia.
  - discriminate.
  - discriminate.
Defined.

(** ** EDIFACT: a byte outside the EDIFACT set *)

Section EdifactUnsupported.

Variable FindSymbolSize : Z → Z → Z.
Variable dmtxGetSymbolAttribute : DmtxSymAttribute → Z → Z.

(** The chunk of a stream in scheme Edifact whose next input byte is not
    an EDIFACT value: the byte is consumed and the stream is invalid. *)
Lemma EncodeNextChunk_dispatch_Edifact_unsupported requestedSizeIdx σ v rest :
  currentScheme (stream σ) = DmtxSchemeEdifact →
  status (stream σ) = DmtxStatusEncoding →
  0 <= inputNext (stream σ) →
  unconsumed σ = v :: rest →
  Z_of_byte v < 31 ∨ 94 < Z_of_byte v →
  EncodeNextChunk_dispatch FindSymbolSize dmtxGetSymbolAttribute
    requestedSizeIdx σ
  = Some (tt, mkState (mem σ)
                (set_reason DmtxChannelUnsupportedChar
                   (set_status DmtxStatusInvalid (stream (advance_st σ))))).
Proof.
  intros Hsch Hst Hn Hu Hv. unfold EncodeNextChunk_dispatch.
  rewrite (bind_Some _ _ _ _ _ (gets_eq _ _)), Hsch. cbv iota.
  assert (Hchunk : EncodeNextChunkEdifact σ
            = Some (tt, mkState (mem σ)
                          (set_reason DmtxChannelUnsupportedChar
                             (set_status DmtxStatusInvalid
                                (stream (advance_st σ)))))).
  { unfold EncodeNextChunkEdifact.
    destruct (unconsumed_cons _ _ _ Hn Hu) as [Hnext _].
    rewrite (bind_Some _ _ _ _ _ (gets_eq _ _)), Hnext.
    rewrite (bind_Some _ _ _ _ _ (StreamInputAdvanceNext_ok _ _ _ Hst Hn Hu)).
    rewrite chkerr_encoding by done.
    assert (Hval : EncodeValueEdifact v (advance_st σ)
              = Some (tt, mkState (mem σ)
                            (set_reason DmtxChannelUnsupportedChar
                               (set_status DmtxStatusInvalid
                                  (stream (advance_st σ)))))).
    { unfold EncodeValueEdifact. rewrite chkscheme_ok by done.
      replace ((Z_of_byte v <? 31) || (94 <? Z_of_byte v)) with true; [done |].
      symmetry. apply orb_true_iff. rewrite !Z.ltb_lt. done. }
    rewrite (bind_Some _ _ _ _ _ Hval).
    by rewrite chkerr_stopped. }
  rewrite (bind_Some _ _ _ _ _ Hchunk).
  by rewrite chkerr_stopped.
Qed.

(** X5.  An EDIFACT encode whose first input byte lies outside [31,94],
    from a stream in scheme Ascii that is encoding and has room for one
    codeword: the encode fails.  Only the EDIFACT latch 240 is written,
    the offending byte is consumed, and the stream is left Invalid with
    the reason [DmtxChannelUnsupportedChar]. *)
Theorem EncodeSingleScheme2_Edifact_unsupported (fuel : nat)
    (requestedSizeIdx : Z) (σ : State) (v : byte) (rest : list byte) :
  ascii_ready σ →
  length (output (stream σ)) < capacity (output (stream σ)) →
  unconsumed σ = v :: rest →
  Z_of_byte v < 31 ∨ 94 < Z_of_byte v →
  (1 <= fuel)%nat →
  ∃ σ',
    EncodeSingleScheme2 FindSymbolSize dmtxGetSymbolAttribute fuel
      DmtxSchemeEdifact requestedSizeIdx σ = Some (DmtxFail, σ') ∧
    status (stream σ') = DmtxStatusInvalid ∧
    reason (stream σ') = DmtxChannelUnsupportedChar ∧
    codewords σ' = codewords σ ++ [240] ∧
    inputNext (stream σ') = inputNext (stream σ) + 1.
Proof.
  intros ((Hvi & Hvo & Hn) & Hsch & Hst & Hne) Hroom Hu Hv Hfuel.
  set (cw := byte_of_Z DmtxValueEdifactLatch).
  set (τ := latch_st DmtxSchemeEdifact cw σ).
  destruct (latch_st_facts DmtxSchemeEdifact cw σ Hvo Hroom)
    as (Hbτ & Hvτ & Huτ).
  specialize (Huτ Hne). fold τ in Hbτ, Hvτ, Huτ. rewrite Hu in Huτ.
  set (ι := mkState (mem τ)
              (set_reason DmtxChannelUnsupportedChar
                 (set_status DmtxStatusInvalid (stream (advance_st τ))))).
  assert (Hchunk : EncodeNextChunk FindSymbolSize dmtxGetSymbolAttribute
                     DmtxSchemeEdifact requestedSizeIdx σ = Some (tt, ι)).
  { unfold EncodeNextChunk.
    rewrite (bind_Some _ _ _ _ _ (gets_eq _ _)), Hsch.
    rewrite decide_True by done.
    rewrite (bind_Some _ _ _ _ _
               (EncodeChangeScheme_latch_eq dmtxGetSymbolAttribute
                  DmtxSchemeEdifact DmtxUnlatchExplicit σ Hsch Hst Hvo Hroom
                  ltac:(done) ltac:(done))).
    fold cw τ. rewrite chkerr_encoding by done.
    rewrite chkscheme_ok by done.
    by apply (EncodeNextChunk_dispatch_Edifact_unsupported _ τ v rest). }
  exists ι. split; [| split; [done | split; [done | split; [| done]]]].
  - destruct fuel as [|fuel]; [lia |].
    unfold EncodeSingleScheme2.
    rewrite (bind_Some _ _ _ _ _ (gets_eq _ _)), Hsch.
    rewrite decide_False by (intros H; by apply H).
    erewrite bind_Some.
    2:{ rewrite (EncodeSingleScheme2_loop_step _ _ _ _ _ _ _ Hst Hchunk).
        by apply EncodeSingleScheme2_loop_done. }
    by rewrite (bind_Some _ _ _ _ _ (gets_eq _ _)).
  - change (codewords τ = codewords σ ++ [240]).
    unfold codewords. by rewrite Hbτ, fmap_app.
Qed.

End EdifactUnsupported.

Lemma EncodeSingleScheme2_Edifact_unsupported_witness :
  ∃ σ',
    EncodeSingleScheme2 FindSymbolSizeAuto SymbolDataWords 4
      DmtxSchemeEdifact DmtxSymbolSquareAuto
      (state_of_input [x61; x41] 8) = Some (DmtxFail, σ') ∧
    status (stream σ') = DmtxStatusInvalid ∧
    reason (stream σ') = DmtxChannelUnsupportedChar ∧
    codewords σ' = [] ++ [240] ∧
    inputNext (stream σ') = 0 + 1.
Proof.
  apply (EncodeSingleScheme2_Edifact_unsupported FindSymbolSizeAuto
           SymbolDataWords 4 DmtxSymbolSquareAuto
           (state_of_input [x61; x41] 8) x61 [x41]).
  - apply state_of_input_ready.
  - simpl. lia.
  - reflexivity.
  - right. vm_compute. reflexivity.
  - lia.
Defined.

(** ** Leaving C40, Text or X12 for ASCII *)

Lemma EncodeUnlatchCTX_ok σ :
  currentScheme (stream σ) = DmtxSchemeC40
  ∨ currentScheme (stream σ) = DmtxSchemeText
  ∨ currentScheme (stream σ) = DmtxSchemeX12 →
  status (stream σ) = DmtxStatusEncoding →
  valid_list (mem σ) (output (stream σ)) →
  length (output (stream σ)) < capacity (output (stream σ)) →
  Z.rem (outputChainValueCount (stream σ)) 3 = 0 →
  EncodeUnlatchCTX σ
    = Some (tt, count_st 1 (append_st (byte_of_Z DmtxValueCTXUnlatch) σ)).
Proof.
  intros Hsch Hst Hvo Hroom Hk. unfold EncodeUnlatchCTX.
  rewrite (bind_Some _ _ _ _ _ (gets_eq _ _)).
  rewrite decide_False by (intros (? & ? & ?); destruct Hsch as [?|[?|?]]; done).
  rewrite (bind_Some _ _ _ _ _ (gets_eq _ _)).
  rewrite decide_False by (intros H; by apply H).
  rewrite (bind_Some _ _ _ _ _ (StreamOutputChainAppend_ok _ _ Hvo Hroom)).
  by rewrite chkerr_encoding.
Qed.

Lemma EncodeUnlatchCTX_off_boundary σ :
  currentScheme (stream σ) = DmtxSchemeC40
  ∨ currentScheme (stream σ) = DmtxSchemeText
  ∨ currentScheme (stream σ) = DmtxSchemeX12 →
  Z.rem (outputChainValueCount (stream σ)) 3 ≠ 0 →
  EncodeUnlatchCTX σ
    = Some (tt, mkState (mem σ)
                  (set_reason 1 (set_status DmtxStatusInvalid (stream σ)))).
Proof.
  intros Hsch Hk. unfold EncodeUnlatchCTX.
  rewrite (bind_Some _ _ _ _ _ (gets_eq _ _)).
  rewrite decide_False by (intros (? & ? & ?); destruct Hsch as [?|[?|?]]; done).
  rewrite (bind_Some _ _ _ _ _ (gets_eq _ _)).
  by rewrite decide_True.
Qed.

(** X6.  Leaving C40, Text or X12 for ASCII, on a stream that is
    encoding.  An implicit unlatch writes nothing: the stream enters
    scheme Ascii on a new, empty chain.  An explicit unlatch on a triplet
    boundary ([outputChainValueCount % 3 = 0]), with room for one
    codeword, appends the unlatch codeword 254 and does the same.  An
    explicit unlatch off a triplet boundary writes nothing, leaves the
    stream in its scheme and marks it Invalid. *)
Theorem EncodeChangeScheme_unlatch_CTX
    (dmtxGetSymbolAttribute : DmtxSymAttribute → Z → Z) (σ : State) :
  currentScheme (stream σ) = DmtxSchemeC40
  ∨ currentScheme (stream σ) = DmtxSchemeText
  ∨ currentScheme (stream σ) = DmtxSchemeX12 →
  status (stream σ) = DmtxStatusEncoding →
  valid_list (mem σ) (output (stream σ)) →
  let change := EncodeChangeScheme dmtxGetSymbolAttribute DmtxSchemeAscii in
  change DmtxUnlatchImplicit σ
    = Some (tt, mkState (mem σ)
                  (set_outputChainValueCount 0
                     (set_outputChainWordCount 0
                        (set_currentScheme DmtxSchemeAscii (stream σ))))) ∧
  (Z.rem (outputChainValueCount (stream σ)) 3 = 0 →
   length (output (stream σ)) < capacity (output (stream σ)) →
   ∃ σ', change DmtxUnlatchExplicit σ = Some (tt, σ') ∧
         codewords σ' = codewords σ ++ [254] ∧
         currentScheme (stream σ') = DmtxSchemeAscii ∧
         status (stream σ') = DmtxStatusEncoding ∧
         outputChainWordCount (stream σ') = 0 ∧
         outputChainValueCount (stream σ') = 0) ∧
  (Z.rem (outputChainValueCount (stream σ)) 3 ≠ 0 →
   change DmtxUnlatchExplicit σ
     = Some (tt, mkState (mem σ)
                   (set_reason 1
                      (set_status DmtxStatusInvalid (stream σ))))).
Proof.
  intros Hsch Hst Hvo change.
  assert (Hne : currentScheme (stream σ) ≠ DmtxSchemeAscii)
    by (destruct Hsch as [E|[E|E]]; rewrite E; done).
  assert (Hhead : ∀ unlatchType,
            change unlatchType σ
            = EncodeChangeScheme_unlatch unlatchType
                (modify (set_currentScheme DmtxSchemeAscii);;
                 EncodeChangeScheme_latch DmtxSchemeAscii
                   (modify (set_currentScheme DmtxSchemeAscii);;
                    modify (set_outputChainWordCount 0);;
                    modify (set_outputChainValueCount 0);;
                    mret tt)) σ).
  { intros unlatchType. unfold change, EncodeChangeScheme.
    rewrite (bind_Some _ _ _ _ _ (gets_eq _ _)).
    by rewrite decide_False. }
  split; [| split].
  - rewrite Hhead. unfold EncodeChangeScheme_unlatch.
    rewrite (bind_Some _ _ _ _ _ (gets_eq _ _)).
    by destruct Hsch as [E|[E|E]]; rewrite E.
  - intros Hk Hroom.
    pose proof (EncodeUnlatchCTX_ok σ Hsch Hst Hvo Hroom Hk) as Hun.
    exists (latch_st DmtxSchemeAscii (byte_of_Z DmtxValueCTXUnlatch) σ).
    split.
    + rewrite Hhead. unfold EncodeChangeScheme_unlatch.
      rewrite (bind_Some _ _ _ _ _ (gets_eq _ _)).
      destruct Hsch as [E|[E|E]]; rewrite E; cbv iota;
        rewrite decide_True by done;
        rewrite (bind_Some _ _ _ _ _ Hun);
        by rewrite chkerr_encoding.
    + split; [| done].
      destruct (latch_st_facts DmtxSchemeAscii
                  (byte_of_Z DmtxValueCTXUnlatch) σ Hvo Hroom) as (Hb & _).
      unfold codewords. by rewrite Hb, fmap_app.
  - intros Hk.
    pose proof (EncodeUnlatchCTX_off_boundary σ Hsch Hk) as Hun.
    rewrite Hhead. unfold EncodeChangeScheme_unlatch.
    rewrite (bind_Some _ _ _ _ _ (gets_eq _ _)).
    destruct Hsch as [E|[E|E]]; rewrite E; cbv iota;
      rewrite decide_True by done;
      rewrite (bind_Some _ _ _ _ _ Hun);
      by rewrite chkerr_stopped.
Qed.

Lemma EncodeChangeScheme_unlatch_CTX_witness :
  let σ :=
    mkState (mem (state_of_input [x41] 8))
      (set_outputChainValueCount 3
         (set_currentScheme DmtxSchemeC40
            (stream (state_of_input [x41] 8)))) in
  ∃ σ',
    EncodeChangeScheme SymbolDataWords DmtxSchemeAscii DmtxUnlatchExplicit σ
      = Some (tt, σ') ∧
    codewords σ' = [] ++ [254] ∧
    currentScheme (stream σ') = DmtxSchemeAscii ∧
    status (stream σ') = DmtxStatusEncoding ∧
    outputChainWordCount (stream σ') = 0 ∧
    outputChainValueCount (stream σ') = 0.
Proof.
  intros σ.
  destruct (EncodeChangeScheme_unlatch_CTX SymbolDataWords σ)
    as (_ & Hexplicit & _).
  - left. reflexivity.
  - reflexivity.
  - compute_done.
  - apply Hexplicit; [reflexivity | simpl; lia].
Defined.

(** ** C40, Text, X12: a gathered triplet is never taken off the list *)

Lemma push_ok (l : DmtxByteList) (v : Z) (σ : State) (cells : list byte) :
  mem σ !! b l = Some cells →
  0 <= length l < capacity l →
  (Z.to_nat (length l) < List.length cells)%nat →
  push l v σ
    = Some (mkByteList (length l + 1) (capacity l) (b l),
            mkState (<[b l := <[Z.to_nat (length l) := byte_of_Z v]> cells]>
                       (mem σ)) (stream σ)).
Proof.
  intros Hcells Hlen Hin.
  unfold push, dmtxByteListPush, dmtxByteListHasCapacity, store.
  replace (length l <? capacity l) with true by (symmetry; apply Z.ltb_lt; lia).
  replace (length l <? 0) with false by (symmetry; apply Z.ltb_ge; lia).
  rewrite Hcells. by rewrite decide_True.
Qed.

Lemma read_ok (l : DmtxByteList) (i : nat) (σ : State) (cells : list byte) v :
  mem σ !! b l = Some cells → cells !! i = Some v →
  read l (Z.of_nat i) σ = Some (v, σ).
Proof.
  intros Hcells Hv. unfold read, load. rewrite Hcells.
  replace (_ <? 0) with false by (symmetry; apply Z.ltb_ge; lia).
  by rewrite Nat2Z.id, Hv.
Qed.

(** The inner loop of [EncodeNextChunkCTX] over a list of three values or
    more: every round encodes the same values again, so the loop ends by
    a stream error, at the latest when the output is full. *)
Lemma EncodeNextChunkCTX_flush_fatal (valueList : DmtxByteList)
    (cells : list byte) (fuel : nat) :
  3 <= length valueList →
  (3 <= List.length cells)%nat →
  ∀ σ, status (stream σ) = DmtxStatusEncoding →
       valid_list (mem σ) (output (stream σ)) →
       mem σ !! b valueList = Some cells →
       b valueList ≠ b (output (stream σ)) →
       capacity (output (stream σ)) - length (output (stream σ))
         < Z.of_nat fuel →
       wpt (EncodeNextChunkCTX_flush fuel valueList)
         (λ r σ', r = Returned ∧ status (stream σ') = DmtxStatusFatal ∧
                  input (stream σ') = input (stream σ) ∧
                  inputNext (stream σ') = inputNext (stream σ)) σ.
Proof.
  intros Hlen Hcells.
  destruct (lookup_lt_is_Some_2 cells 0) as [b0 Hb0]; [lia |].
  destruct (lookup_lt_is_Some_2 cells 1) as [b1 Hb1]; [lia |].
  destruct (lookup_lt_is_Some_2 cells 2) as [b2 Hb2]; [lia |].
  induction fuel as [|fuel IH]; intros σ Hst Hvo Hmem Hne Hfuel.
  { destruct Hvo as [? ?]. lia. }
  simpl EncodeNextChunkCTX_flush.
  replace (3 <=? length valueList) with true by (symmetry; apply Z.leb_le; lia).
  apply wpt_bind. unfold EncodeValuesCTX.
  apply wpt_bind, wpt_gets.
  assert (Hstop : ∀ τ, status (stream τ) = DmtxStatusFatal →
            input (stream τ) = input (stream σ) →
            inputNext (stream τ) = inputNext (stream σ) →
            wpt (chkerr Returned (EncodeNextChunkCTX_flush fuel valueList))
              (λ r σ', r = Returned ∧ status (stream σ') = DmtxStatusFatal ∧
                       input (stream σ') = input (stream σ) ∧
                       inputNext (stream σ') = inputNext (stream σ)) τ).
  { intros τ Hτ Hi Hn. apply wpt_chkerr; [intros E; by rewrite Hτ in E |].
    done. }
  case_decide; [by apply Hstop |].
  case_decide; [by apply Hstop |].
  eapply wpt_bind_Some; [exact (read_ok _ 0 _ _ _ Hmem Hb0) |].
  eapply wpt_bind_Some; [exact (read_ok _ 1 _ _ _ Hmem Hb1) |].
  eapply wpt_bind_Some; [exact (read_ok _ 2 _ _ _ Hmem Hb2) |].
  cbv zeta. set (cw0 := byte_of_Z (Z.quot _ 256)).
  set (cw1 := byte_of_Z (Z.rem _ 256)).
  destruct (Z_lt_le_dec (length (output (stream σ)))
              (capacity (output (stream σ)))) as [Hroom|Hfull].
  2:{ eapply wpt_bind_Some; [by apply StreamOutputChainAppend_full |].
      apply wpt_chkerr; [done | intros _]. by apply Hstop. }
  eapply wpt_bind_Some; [by apply StreamOutputChainAppend_ok |].
  apply wpt_chkerr; [intros _ | done].
  pose proof (valid_append cw0 σ Hvo Hroom) as Hvo1.
  destruct (Z_lt_le_dec (length (output (stream (append_st cw0 σ))))
              (capacity (output (stream (append_st cw0 σ)))))
    as [Hroom1|Hfull1].
  2:{ eapply wpt_bind_Some; [by apply StreamOutputChainAppend_full |].
      apply wpt_chkerr; [done | intros _]. by apply Hstop. }
  eapply wpt_bind_Some; [by apply StreamOutputChainAppend_ok |].
  apply wpt_chkerr; [intros _ | done].
  apply wpt_modify.
  apply wpt_chkerr; [intros _ | done].
  eapply wpt_mono.
  - apply IH.
    + done.
    + by apply (valid_append cw1 (append_st cw0 σ)).
    + simpl. by rewrite !lookup_insert_ne.
    + done.
    + simpl in *. lia.
  - cbv beta. intros r σ' (Hr & Hf & Hi & Hn). done.
Qed.

(** A digit or a space is one value in each of the three schemes. *)
Lemma PushCTXValues_digit_or_space (l : DmtxByteList) (v : byte)
    (sch : DmtxScheme) (σ : State) :
  sch = DmtxSchemeC40 ∨ sch = DmtxSchemeText ∨ sch = DmtxSchemeX12 →
  ISDIGIT (Z_of_byte v) = true ∨ Z_of_byte v = 32 →
  PushCTXValues l (Z_of_byte v) sch σ
    = (l' ← push l (if Z_of_byte v =? 32 then 3 else Z_of_byte v - 44);
       mret (DmtxPass, l')) σ.
Proof.
  intros Hsch Hv.
  assert (Hr : Z_of_byte v = 32 ∨ 48 <= Z_of_byte v <= 57).
  { destruct Hv as [Hd|Hs]; [right; by apply ISDIGIT_true | by left]. }
  unfold PushCTXValues.
  replace (127 <? Z_of_byte v) with false by (symmetry; apply Z.ltb_ge; lia).
  unfold PushCTXValues_X12, PushCTXValues_C40Text, mbind, M_bind, mret, M_ret.
  cbv beta iota. simpl andb. cbv beta iota.
  replace (Z_of_byte v =? 13) with false by (symmetry; apply Z.eqb_neq; lia).
  replace (Z_of_byte v =? 42) with false by (symmetry; apply Z.eqb_neq; lia).
  replace (Z_of_byte v =? 62) with false by (symmetry; apply Z.eqb_neq; lia).
  replace (Z_of_byte v <=? 31) with false by (symmetry; apply Z.leb_gt; lia).
  destruct (Z.eqb_spec (Z_of_byte v) 32) as [Hs|Hs].
  - destruct (bool_decide (sch = DmtxSchemeX12)); done.
  - replace (Z_of_byte v <=? 47) with false by (symmetry; apply Z.leb_gt; lia).
    replace (48 <=? Z_of_byte v) with true by (symmetry; apply Z.leb_le; lia).
    replace (Z_of_byte v <=? 57) with true by (symmetry; apply Z.leb_le; lia).
    destruct (bool_decide (sch = DmtxSchemeX12)); done.
Qed.

Section TripletFatal.

Variable FindSymbolSize : Z → Z → Z.
Variable dmtxGetSymbolAttribute : DmtxSymAttribute → Z → Z.

(** One round of the outer loop of [EncodeNextChunkCTX] on a digit or a
    space: the byte is consumed, its value is pushed, and the inner loop
    is entered with the longer list. *)
Lemma EncodeNextChunkCTX_loop_round (fuel : nat) (l : DmtxByteList)
    (cells : list byte) (σ : State) (v : byte) (rest : list byte) :
  currentScheme (stream σ) = DmtxSchemeC40
  ∨ currentScheme (stream σ) = DmtxSchemeText
  ∨ currentScheme (stream σ) = DmtxSchemeX12 →
  status (stream σ) = DmtxStatusEncoding →
  0 <= inputNext (stream σ) →
  unconsumed σ = v :: rest →
  ISDIGIT (Z_of_byte v) = true ∨ Z_of_byte v = 32 →
  mem σ !! b l = Some cells →
  0 <= length l < capacity l →
  (Z.to_nat (length l) < List.length cells)%nat →
  let value := if Z_of_byte v =? 32 then 3 else Z_of_byte v - 44 in
  let l' := mkByteList (length l + 1) (capacity l) (b l) in
  let σ' :=
    mkState (<[b l := <[Z.to_nat (length l) := byte_of_Z value]> cells]>
               (mem σ)) (stream (advance_st σ)) in
  EncodeNextChunkCTX_loop (S fuel) l σ
  = (r ← EncodeNextChunkCTX_flush
           (Z.to_nat (capacity (output (stream σ))) + 1) l';
     match r with
     | Returned => mret Returned
     | Fallthrough valueList =>
         if length valueList =? 0 then mret (Fallthrough valueList)
         else EncodeNextChunkCTX_loop fuel valueList
     end) σ'.
Proof.
  intros Hsch Hst Hn Hu Hv Hcells Hlen Hin value l' σ'.
  simpl EncodeNextChunkCTX_loop.
  destruct (unconsumed_cons _ _ _ Hn Hu) as [Hnext _].
  rewrite (bind_Some _ _ _ _ _ (gets_eq _ _)), Hnext.
  rewrite (bind_Some _ _ _ _ _ (StreamInputAdvanceNext_ok _ _ _ Hst Hn Hu)).
  rewrite chkerr_encoding by done.
  rewrite (bind_Some _ _ _ _ _ (gets_eq _ _)).
  assert (Hpush : PushCTXValues l (Z_of_byte v)
                    (currentScheme (stream (advance_st σ))) (advance_st σ)
                  = Some ((DmtxPass, l'), σ')).
  { rewrite PushCTXValues_digit_or_space by done.
    by rewrite (bind_Some _ _ _ _ _
                  (push_ok l value (advance_st σ) cells Hcells Hlen Hin)). }
  rewrite (bind_Some _ _ _ _ _ Hpush).
  by rewrite (bind_Some _ _ _ _ _ (gets_eq _ _)).
Qed.

Lemma EncodeNextChunkCTX_flush_short fuel l σ :
  length l < 3 →
  EncodeNextChunkCTX_flush (S fuel) l σ = Some (Fallthrough l, σ).
Proof.
  intros Hshort. simpl.
  by replace (3 <=? length l) with false by (symmetry; apply Z.leb_gt; lia).
Qed.

Lemma unconsumed_frame σ τ :
  input (stream τ) = input (stream σ) →
  inputNext (stream τ) = inputNext (stream σ) →
  mem τ !! b (input (stream σ)) = mem σ !! b (input (stream σ)) →
  unconsumed τ = unconsumed σ.
Proof.
  intros Hi Hn Hm. unfold unconsumed, bytes_of. by rewrite Hi, Hn, Hm.
Qed.

(** Gathering the values of digits and spaces up to a triplet: the round
    that completes the triplet ends in a stream error. *)
Lemma EncodeNextChunkCTX_loop_triplet_fatal (bytes : list byte) :
  ∀ (fuel : nat) (l : DmtxByteList) (cells : list byte) (σ : State)
    (rest : list byte),
    gathering l cells σ →
    unconsumed σ = bytes ++ rest →
    Forall (λ v, ISDIGIT (Z_of_byte v) = true ∨ Z_of_byte v = 32) bytes →
    length l + Z.of_nat (List.length bytes) = 3 →
    bytes ≠ [] →
    (List.length bytes <= fuel)%nat →
    ∃ σ', EncodeNextChunkCTX_loop fuel l σ = Some (Returned, σ') ∧
          status (stream σ') = DmtxStatusFatal.
Proof.
  induction bytes as [|v bytes IH];
    intros fuel l cells σ rest Hg Hu Hd Hlen Hne Hfuel; [done |].
  destruct Hg as (Hsch & Hst & Hn & Hvo & Hcells & Hfour & Hcap & Hl0 & Hni
                  & Hno).
  apply Forall_cons in Hd as [Hv Hd]. simpl in Hlen, Hfuel.
  destruct fuel as [|fuel]; [lia |].
  rewrite (EncodeNextChunkCTX_loop_round fuel l cells σ v (bytes ++ rest))
    by (done || lia).
  set (value := if Z_of_byte v =? 32 then 3 else Z_of_byte v - 44).
  set (l' := mkByteList (length l + 1) (capacity l) (b l)).
  set (cells' := <[Z.to_nat (length l) := byte_of_Z value]> cells).
  set (σ' := mkState (<[b l := cells']> (mem σ)) (stream (advance_st σ))).
  assert (Hvo' : valid_list (mem σ') (output (stream σ'))).
  { unfold valid_list, σ'. simpl. by rewrite lookup_insert_ne. }
  assert (Hmem' : mem σ' !! b l' = Some cells')
    by (unfold σ'; simpl; by rewrite lookup_insert_eq).
  destruct bytes as [|v' bytes].
  - (* the triplet is complete *)
    assert (Hflush := EncodeNextChunkCTX_flush_fatal l' cells'
              (Z.to_nat (capacity (output (stream σ))) + 1)
              ltac:(simpl in *; lia)
              ltac:(unfold cells'; rewrite length_insert; lia)
              σ' Hst Hvo' Hmem' Hno
              ltac:(destruct Hvo as [? ?]; simpl; lia)).
    apply wpt_elim in Hflush as (r & σ2 & Hrun & -> & Hfatal & _).
    rewrite (bind_Some _ _ _ _ _ Hrun). by exists σ2.
  - (* more values to gather *)
    assert (Hflush : EncodeNextChunkCTX_flush
                       (Z.to_nat (capacity (output (stream σ))) + 1) l' σ'
                     = Some (Fallthrough l', σ')).
    { rewrite Nat.add_1_r. apply EncodeNextChunkCTX_flush_short.
      simpl in *. lia. }
    rewrite (bind_Some _ _ _ _ _ Hflush).
    replace (length l' =? 0) with false
      by (symmetry; apply Z.eqb_neq; simpl; lia).
    apply (IH fuel l' cells' σ' rest).
    + unfold gathering.
      split; [exact Hsch |]. split; [exact Hst |].
      split; [simpl; lia |]. split; [exact Hvo' |].
      split; [exact Hmem' |].
      split; [unfold cells'; by rewrite length_insert |].
      split; [exact Hcap |]. split; [simpl; lia |]. split; done.
    + rewrite (unconsumed_frame (advance_st σ) σ');
        [by apply (unconsumed_advance σ v) | done | done |].
      unfold σ'. simpl. by rewrite lookup_insert_ne.
    + exact Hd.
    + simpl in *. lia.
    + done.
    + simpl in *. lia.
Qed.

(** The chunk of a stream in C40, Text or X12 whose next three input
    bytes are digits or spaces ends in a stream error. *)
Lemma EncodeNextChunkCTX_triplet_fatal requestedSizeIdx σ v0 v1 v2 rest :
  currentScheme (stream σ) = DmtxSchemeC40
  ∨ currentScheme (stream σ) = DmtxSchemeText
  ∨ currentScheme (stream σ) = DmtxSchemeX12 →
  status (stream σ) = DmtxStatusEncoding →
  0 <= inputNext (stream σ) →
  valid_list (mem σ) (output (stream σ)) →
  0 < capacity (output (stream σ)) →
  unconsumed σ = v0 :: v1 :: v2 :: rest →
  Forall (λ v, ISDIGIT (Z_of_byte v) = true ∨ Z_of_byte v = 32) [v0; v1; v2] →
  ∃ σ', EncodeNextChunkCTX FindSymbolSize dmtxGetSymbolAttribute
          requestedSizeIdx σ = Some (tt, σ') ∧
        status (stream σ') = DmtxStatusFatal.
Proof.
  intros Hsch Hst Hn Hvo Hcap Hu Hd.
  unfold EncodeNextChunkCTX, with_array.
  set (p := fresh (dom (mem σ))).
  set (τ := mkState (<[p := replicate 4 x00]> (mem σ)) (stream σ)).
  assert (Hfresh : mem σ !! p = None).
  { apply not_elem_of_dom. apply is_fresh. }
  assert (Hin : is_Some (mem σ !! b (input (stream σ)))).
  { unfold unconsumed, bytes_of in Hu.
    destruct (mem σ !! b (input (stream σ))); [done |].
    simpl in Hu. by rewrite take_nil, drop_nil in Hu. }
  assert (Hout : is_Some (mem σ !! b (output (stream σ)))).
  { destruct Hvo as [_ Hc].
    destruct (mem σ !! b (output (stream σ))); [done | simpl in Hc; lia]. }
  assert (Hni : p ≠ b (input (stream σ))).
  { intros E. rewrite <- E, Hfresh in Hin. by destruct Hin. }
  assert (Hno : p ≠ b (output (stream σ))).
  { intros E. rewrite <- E, Hfresh in Hout. by destruct Hout. }
  assert (Huτ : unconsumed τ = [v0; v1; v2] ++ rest).
  { rewrite (unconsumed_frame σ τ); [done | done | done |].
    unfold τ. simpl. by rewrite lookup_insert_ne. }
  assert (Hg : gathering (dmtxByteListBuild p 4) (replicate 4 x00) τ).
  { unfold gathering, τ. simpl.
    split; [exact Hsch |]. split; [exact Hst |]. split; [exact Hn |].
    split; [unfold valid_list; simpl; by rewrite lookup_insert_ne |].
    split; [by rewrite lookup_insert_eq |]. repeat split; done || lia. }
  assert (Hfuel : (3 <= Z.to_nat (length (input (stream τ))
                                  - inputNext (stream τ)))%nat).
  { apply (f_equal List.length) in Hu. unfold unconsumed, bytes_of in Hu.
    rewrite length_drop, length_take in Hu. simpl in Hu. simpl. lia. }
  destruct (EncodeNextChunkCTX_loop_triplet_fatal [v0; v1; v2] _ _ _ _ rest
              Hg Huτ Hd ltac:(simpl; lia) ltac:(done) Hfuel)
    as (σ' & Hrun & Hfatal).
  rewrite (bind_Some _ _ _ _ _ (gets_eq _ _)). unfold id.
  rewrite (bind_Some _ _ _ _ _ Hrun).
  eexists. split; [reflexivity | exact Hfatal].
Qed.

(** X7.  An encode to C40, Text or X12 whose first three input bytes are
    digits or spaces, from a stream in scheme Ascii that is encoding and
    has room for the latch, never succeeds: it returns [DmtxFail] and the
    stream has stopped in an error status, neither encoding nor
    complete.  The three values are gathered, but the loop that encodes
    a full triplet never takes it off the value list: it encodes it
    again and again and can only end by a stream error, at the latest
    when the output has no room left. *)
Theorem EncodeSingleScheme2_CTX_triplet_fails (fuel : nat)
    (targetScheme : DmtxScheme) (requestedSizeIdx : Z) (σ : State)
    (v0 v1 v2 : byte) (rest : list byte) :
  targetScheme = DmtxSchemeC40 ∨ targetScheme = DmtxSchemeText
  ∨ targetScheme = DmtxSchemeX12 →
  ascii_ready σ →
  length (output (stream σ)) < capacity (output (stream σ)) →
  unconsumed σ = v0 :: v1 :: v2 :: rest →
  Forall (λ v, ISDIGIT (Z_of_byte v) = true ∨ Z_of_byte v = 32) [v0; v1; v2] →
  (1 <= fuel)%nat →
  ∃ σ',
    EncodeSingleScheme2 FindSymbolSize dmtxGetSymbolAttribute fuel
      targetScheme requestedSizeIdx σ = Some (DmtxFail, σ') ∧
    status (stream σ') ≠ DmtxStatusEncoding ∧
    status (stream σ') ≠ DmtxStatusComplete.
Proof.
  intros Htarget ((Hvi & Hvo & Hn) & Hsch & Hst & Hne) Hroom Hu Hd Hfuel.
  assert (Hna : targetScheme ≠ DmtxSchemeAscii)
    by (destruct Htarget as [-> | [-> | ->]]; done).
  assert (Hnb : targetScheme ≠ DmtxSchemeBase256)
    by (destruct Htarget as [-> | [-> | ->]]; done).
  set (cw := byte_of_Z match targetScheme with
                       | DmtxSchemeC40 => DmtxValueC40Latch
                       | DmtxSchemeText => DmtxValueTextLatch
                       | DmtxSchemeX12 => DmtxValueX12Latch
                       | _ => DmtxValueEdifactLatch
                       end).
  set (τ := latch_st targetScheme cw σ).
  destruct (latch_st_facts targetScheme cw σ Hvo Hroom) as (_ & Hvτ & Huτ).
  specialize (Huτ Hne). fold τ in Hvτ, Huτ. rewrite Hu in Huτ.
  destruct (EncodeNextChunkCTX_triplet_fatal requestedSizeIdx τ v0 v1 v2 rest)
    as (ι & Hctx & Hfatal); try done.
  { destruct Hvo as [? ?]. simpl. lia. }
  assert (Hchunk : EncodeNextChunk FindSymbolSize dmtxGetSymbolAttribute
                     targetScheme requestedSizeIdx σ = Some (tt, ι)).
  { unfold EncodeNextChunk.
    rewrite (bind_Some _ _ _ _ _ (gets_eq _ _)), Hsch.
    rewrite decide_True by done.
    rewrite (bind_Some _ _ _ _ _
               (EncodeChangeScheme_latch_eq dmtxGetSymbolAttribute
                  targetScheme DmtxUnlatchExplicit σ Hsch Hst Hvo Hroom
                  Hna Hnb)).
    fold cw τ. rewrite chkerr_encoding by done.
    rewrite chkscheme_ok by done.
    unfold EncodeNextChunk_dispatch.
    rewrite (bind_Some _ _ _ _ _ (gets_eq _ _)).
    change (currentScheme (stream τ)) with targetScheme.
    destruct Htarget as [-> | [-> | ->]]; cbv iota;
      rewrite (bind_Some _ _ _ _ _ Hctx);
      rewrite chkerr_stopped; (done || by rewrite Hfatal). }
  exists ι. split; [| by rewrite Hfatal].
  destruct fuel as [|fuel]; [lia |].
  unfold EncodeSingleScheme2.
  rewrite (bind_Some _ _ _ _ _ (gets_eq _ _)), Hsch.
  rewrite decide_False by (intros H; by apply H).
  erewrite bind_Some.
  2:{ rewrite (EncodeSingleScheme2_loop_step _ _ _ _ _ _ _ Hst Hchunk).
      apply EncodeSingleScheme2_loop_done. by rewrite Hfatal. }
  rewrite (bind_Some _ _ _ _ _ (gets_eq _ _)). unfold id.
  rewrite Hfatal. done.
Qed.

End TripletFatal.

Lemma EncodeSingleScheme2_CTX_triplet_fails_witness :
  ∃ σ',
    EncodeSingleScheme2 FindSymbolSizeAuto SymbolDataWords 4
      DmtxSchemeC40 DmtxSymbolSquareAuto
      (state_of_input [x31; x32; x33] 16) = Some (DmtxFail, σ') ∧
    status (stream σ') ≠ DmtxStatusEncoding ∧
    status (stream σ') ≠ DmtxStatusComplete.
Proof.
  apply (EncodeSingleScheme2_CTX_triplet_fails FindSymbolSizeAuto
           SymbolDataWords 4 DmtxSchemeC40 DmtxSymbolSquareAuto
           (state_of_input [x31; x32; x33] 16) x31 x32 x33 []).
  - left. reflexivity.
  - apply state_of_input_ready.
  - simpl. lia.
  - reflexivity.
  - repeat constructor.
  - lia.
Defined.

(** ** The values of an input byte in C40, Text and X12 *)

Lemma pushed_refl l σ : valid_list (mem σ) l → pushed [] l σ l σ.
Proof.
  intros Hv. unfold pushed. rewrite app_nil_r. simpl.
  repeat split; (done || lia || apply Hv).
Qed.

Lemma pushed_trans v1 v2 l σ l1 σ1 l2 σ2 :
  pushed v1 l σ l1 σ1 → pushed v2 l1 σ1 l2 σ2 → pushed (v1 ++ v2) l σ l2 σ2.
Proof.
  intros (Hs & Hb & Hc & Hl & Hbytes & Hv & Hm)
         (Hs2 & Hb2 & Hc2 & Hl2 & Hbytes2 & Hv2 & Hm2).
  unfold pushed. rewrite Hbytes2, Hbytes, app_assoc, length_app.
  split; [congruence |]. split; [congruence |]. split; [congruence |].
  split; [lia |]. split; [done |]. split; [done |].
  intros p Hp. rewrite Hm2 by congruence. by apply Hm.
Qed.

Lemma push_pushed l v σ :
  valid_list (mem σ) l → length l < capacity l →
  wpt (push l v) (λ l' σ', pushed [byte_of_Z v] l σ l' σ') σ.
Proof.
  intros [Hl Hc] Hroom.
  destruct (mem σ !! b l) as [cells|] eqn:Hcells; simpl in Hc; [| lia].
  unfold wpt. rewrite (push_ok l v σ cells) by (done || lia).
  unfold pushed, valid_list, bytes_of. simpl.
  rewrite lookup_insert_eq, Hcells. simpl. rewrite length_insert.
  split; [done |]. split; [done |]. split; [done |]. split; [done |].
  split.
  - replace (Z.to_nat (length l + 1)) with (S (Z.to_nat (length l))) by lia.
    rewrite (take_S_r _ _ (byte_of_Z v))
      by (apply list_lookup_insert_eq; lia).
    by rewrite take_insert_ge by lia.
  - split; [lia |]. intros p Hp. by rewrite lookup_insert_ne.
Qed.

Lemma push2_pushed l v w σ :
  valid_list (mem σ) l → length l + 2 <= capacity l →
  wpt (push2 l v w)
    (λ l' σ', pushed [byte_of_Z v; byte_of_Z w] l σ l' σ') σ.
Proof.
  intros Hv Hroom. unfold push2. apply wpt_bind.
  eapply wpt_mono; [apply push_pushed; [done | lia] |].
  cbv beta. intros l1 σ1 H1.
  eapply wpt_mono.
  - apply push_pushed; [apply H1 |].
    destruct H1 as (_ & _ & -> & -> & _). simpl. lia.
  - cbv beta. intros l2 σ2 H2.
    exact (pushed_trans [_] [_] _ _ _ _ _ _ H1 H2).
Qed.

Lemma PushCTXValues_X12_pushed l v σ :
  valid_list (mem σ) l → length l < capacity l →
  0 <= v <= 127 →
  wpt (PushCTXValues_X12 l v)
    (λ l' σ', ∃ values, pushed values l σ l' σ' ∧
                        (List.length values <= 1)%nat ∧
                        Forall (λ x, Z_of_byte x <= 39) values) σ.
Proof.
  intros Hv Hroom Hr. unfold PushCTXValues_X12.
  assert (Hone : ∀ x, 0 <= x <= 39 →
            wpt (push l x)
              (λ l' σ', ∃ values, pushed values l σ l' σ' ∧
                          (List.length values <= 1)%nat ∧
                          Forall (λ x, Z_of_byte x <= 39) values) σ).
  { intros x Hx. eapply wpt_mono; [by apply push_pushed |].
    cbv beta. intros l' σ' H. eexists. split; [exact H |].
    split; [simpl; lia |].
    apply Forall_singleton. rewrite Z_of_byte_of_Z_small; lia. }
  repeat match goal with
         | |- context [if ?x =? ?y then _ else _] => destruct (Z.eqb_spec x y)
         | |- context [if (?x <=? ?y) && (?z <=? ?t) then _ else _] =>
             destruct (Z.leb_spec x y), (Z.leb_spec z t); simpl andb; cbv iota
         end;
    try (apply Hone; lia).
  all: apply wpt_ret; exists []; split; [by apply pushed_refl |];
    split; [simpl; lia | constructor].
Qed.

Lemma PushCTXValues_C40Text_pushed l v sch σ :
  sch = DmtxSchemeC40 ∨ sch = DmtxSchemeText →
  valid_list (mem σ) l → length l + 2 <= capacity l →
  0 <= v <= 127 →
  wpt (PushCTXValues_C40Text l v sch)
    (λ l' σ', ∃ values, pushed values l σ l' σ' ∧
                        (1 <= List.length values <= 2)%nat ∧
                        Forall (λ x, Z_of_byte x <= 39) values) σ.
Proof.
  intros Hsch Hv Hroom Hr. unfold PushCTXValues_C40Text.
  assert (Hone : ∀ x, 0 <= x <= 39 →
            wpt (push l x)
              (λ l' σ', ∃ values, pushed values l σ l' σ' ∧
                          (1 <= List.length values <= 2)%nat ∧
                          Forall (λ x, Z_of_byte x <= 39) values) σ).
  { intros x Hx. eapply wpt_mono; [apply push_pushed; [done | lia] |].
    cbv beta. intros l' σ' H. eexists. split; [exact H |].
    split; [simpl; lia |].
    apply Forall_singleton. rewrite Z_of_byte_of_Z_small; lia. }
  assert (Htwo : ∀ x y, 0 <= x <= 39 → 0 <= y <= 39 →
            wpt (push2 l x y)
              (λ l' σ', ∃ values, pushed values l σ l' σ' ∧
                          (1 <= List.length values <= 2)%nat ∧
                          Forall (λ x, Z_of_byte x <= 39) values) σ).
  { intros x y Hx Hy. eapply wpt_mono; [by apply push2_pushed |].
    cbv beta. intros l' σ' H. eexists. split; [exact H |].
    split; [simpl; lia |].
    repeat constructor; rewrite Z_of_byte_of_Z_small; lia. }
  unfold DmtxValueCTXShift1, DmtxValueCTXShift2, DmtxValueCTXShift3.
  destruct Hsch as [-> | ->];
    rewrite ?bool_decide_eq_true_2 by done;
    rewrite ?bool_decide_eq_false_2 by done;
    rewrite ?andb_true_r, ?andb_false_r;
    repeat match goal with
           | |- context [if ?x =? ?y then _ else _] =>
               destruct (Z.eqb_spec x y)
           | |- context [if ?x <=? ?y then _ else _] =>
               destruct (Z.leb_spec x y)
           end;
    try (apply Hone; lia); try (apply Htwo; lia); lia.
Qed.

(** X8.  [PushCTXValues] on a value list with room for four values, for
    any input byte and any of the schemes C40, Text and X12: it returns,
    leaves the stream alone, and pushes at most four values, each of
    them at most 39 (the largest value a triplet can pack).  In C40 and
    Text at least one value is pushed.  It reports failure exactly for a
    byte above 127 in X12, for which it pushes nothing. *)
Theorem PushCTXValues_values (valueList : DmtxByteList) (v : byte)
    (targetScheme : DmtxScheme) (σ : State) :
  targetScheme = DmtxSchemeC40 ∨ targetScheme = DmtxSchemeText
  ∨ targetScheme = DmtxSchemeX12 →
  valid_list (mem σ) valueList →
  length valueList + 4 <= capacity valueList →
  ∃ passFail valueList' σ' values,
    PushCTXValues valueList (Z_of_byte v) targetScheme σ
      = Some ((passFail, valueList'), σ') ∧
    stream σ' = stream σ ∧
    bytes_of (mem σ') valueList' = bytes_of (mem σ) valueList ++ values ∧
    length valueList' = length valueList + Z.of_nat (List.length values) ∧
    (List.length values <= 4)%nat ∧
    Forall (λ x, Z_of_byte x <= 39) values ∧
    (targetScheme ≠ DmtxSchemeX12 → values ≠ []) ∧
    (passFail = DmtxFail ↔
     targetScheme = DmtxSchemeX12 ∧ 127 < Z_of_byte v) ∧
    (passFail = DmtxFail → values = []).
Proof.
  intros Hsch Hvl Hroom.
  pose proof (Z_of_byte_range v) as Hr.
  assert (Hgoal : wpt (PushCTXValues valueList (Z_of_byte v) targetScheme)
            (λ r σ', ∃ values,
               pushed values valueList σ (snd r) σ' ∧
               (List.length values <= 4)%nat ∧
               Forall (λ x, Z_of_byte x <= 39) values ∧
               (targetScheme ≠ DmtxSchemeX12 → values ≠ []) ∧
               (fst r = DmtxFail ↔
                targetScheme = DmtxSchemeX12 ∧ 127 < Z_of_byte v) ∧
               (fst r = DmtxFail → values = [])) σ).
  { unfold PushCTXValues.
    destruct (decide (targetScheme = DmtxSchemeX12)) as [->|Hx].
    - rewrite !bool_decide_eq_true_2 by done. rewrite andb_true_r.
      destruct (Z.ltb_spec 127 (Z_of_byte v)) as [Hext|Hlow].
      + apply wpt_ret. exists []. simpl.
        split; [by apply pushed_refl |]. split; [lia |].
        split; [constructor |]. split; [done |]. split; [done | done].
      + apply wpt_bind, wpt_ret. apply wpt_bind.
        eapply wpt_mono; [apply PushCTXValues_X12_pushed; (done || lia) |].
        cbv beta. intros l' σ' (values & Hp & Hlen & Hall).
        apply wpt_ret. exists values. simpl.
        split; [done |]. split; [lia |]. split; [done |]. split; [done |].
        split; [| done]. split; [done | intros [_ ?]; lia].
    - assert (Hct : targetScheme = DmtxSchemeC40
                    ∨ targetScheme = DmtxSchemeText)
        by (destruct Hsch as [?|[?|?]]; tauto).
      rewrite !bool_decide_eq_false_2 by done. rewrite andb_false_r.
      destruct (Z.ltb_spec 127 (Z_of_byte v)) as [Hext|Hlow].
      + apply wpt_bind, wpt_bind.
        eapply wpt_mono; [apply push2_pushed; (done || lia) |].
        cbv beta. intros l1 σ1 H1. apply wpt_ret. apply wpt_bind.
        eapply wpt_mono.
        { apply PushCTXValues_C40Text_pushed; [done | apply H1 | | lia].
          destruct H1 as (_ & _ & -> & -> & _). simpl. lia. }
        cbv beta. intros l' σ' (values & Hp & Hlen & Hall).
        apply wpt_ret. eexists. simpl.
        split; [exact (pushed_trans _ _ _ _ _ _ _ _ H1 Hp) |].
        split; [simpl; lia |].
        split.
        { apply Forall_app. split; [| done].
          unfold DmtxValueCTXShift2.
          repeat constructor; rewrite Z_of_byte_of_Z_small; lia. }
        split; [done |]. split; [| done]. split; [done | by intros [? _]].
      + apply wpt_bind, wpt_ret. apply wpt_bind.
        eapply wpt_mono;
          [apply PushCTXValues_C40Text_pushed; (done || lia) |].
        cbv beta. intros l' σ' (values & Hp & Hlen & Hall).
        apply wpt_ret. exists values. simpl.
        split; [done |]. split; [lia |]. split; [done |].
        split; [intros _ ->; simpl in Hlen; lia |].
        split; [| done]. split; [done | by intros [? _]]. }
  apply wpt_elim in Hgoal
    as ([passFail valueList'] & σ' & Hrun & values & Hp & Hlen & Hall & Hne
        & Hfail & Hnone).
  destruct Hp as (Hs & _ & _ & Hl & Hbytes & _).
  exists passFail, valueList', σ', values. simpl in *. done.
Qed.

Lemma PushCTXValues_values_witness :
  let σ := mkState (<[2%nat := [x00; x00; x00; x00]]> ∅)
             (stream (state_of_input [] 0)) in
  ∃ passFail valueList' σ' values,
    PushCTXValues (dmtxByteListBuild 2%nat 4) (Z_of_byte xe1)
      DmtxSchemeC40 σ = Some ((passFail, valueList'), σ') ∧
    stream σ' = stream σ ∧
    bytes_of (mem σ') valueList'
      = bytes_of (mem σ) (dmtxByteListBuild 2%nat 4) ++ values ∧
    length valueList' = 0 + Z.of_nat (List.length values) ∧
    (List.length values <= 4)%nat ∧
    Forall (λ x, Z_of_byte x <= 39) values ∧
    (DmtxSchemeC40 ≠ DmtxSchemeX12 → values ≠ []) ∧
    (passFail = DmtxFail ↔
     DmtxSchemeC40 = DmtxSchemeX12 ∧ 127 < Z_of_byte xe1) ∧
    (passFail = DmtxFail → values = []).
Proof.
  intros σ.
  apply (PushCTXValues_values (dmtxByteListBuild 2%nat 4) xe1
           DmtxSchemeC40 σ).
  - left. reflexivity.
  - compute_done.
  - simpl. lia.
Defined.

(** ** The pad codewords *)

Section PadContent.

Variable dmtxGetSymbolAttribute : DmtxSymAttribute → Z → Z.

Local Abbreviation dataWords :=
  (dmtxGetSymbolAttribute DmtxSymAttribSymbolDataWords).

Lemma PadRemainingInAscii_loop_content n :
  ∀ σ, valid_list (mem σ) (output (stream σ)) →
       status (stream σ) = DmtxStatusEncoding →
       length (output (stream σ)) + Z.of_nat n
         <= capacity (output (stream σ)) →
       wpt (PadRemainingInAscii_loop n)
         (λ _ σ', ∃ pads,
            appended pads σ σ' ∧ List.length pads = n ∧
            ∀ (i : nat) pad, pads !! i = Some pad →
              Randomize253State2 (byte_of_Z DmtxValueAsciiPad)
                (length (output (stream σ)) + Z.of_nat i + 1) = Some pad) σ.
Proof.
  induction n as [|n IH]; intros σ Hv Hst Hroom; simpl.
  - apply wpt_ret. exists []. split; [by apply appended_refl |].
    split; [done |]. intros i pad Hi. by rewrite lookup_nil in Hi.
  - apply wpt_bind, wpt_gets.
    pose proof (Randomize253State2_defined (byte_of_Z DmtxValueAsciiPad)
                  (length (output (stream σ)) + 1)
                  ltac:(destruct Hv; lia)) as Hpad.
    rewrite Hpad.
    set (pad := byte_of_Z (Randomize253State2_tmp _ _)) in *.
    eapply wpt_bind_Some;
      [apply StreamOutputChainAppend_ok; [done | lia] |].
    apply wpt_chkerr; [intros _ | done].
    pose proof (appended_append pad σ Hv ltac:(lia)) as H1.
    eapply wpt_mono.
    + apply IH; [apply H1 | done | simpl; lia].
    + cbv beta. intros _ σ2 (pads & H2 & Hlen & Hcontent).
      exists ([pad] ++ pads). split; [by eapply appended_trans |].
      split; [simpl; by rewrite Hlen |].
      intros [|i] pad' Hi; simpl in Hi.
      * injection Hi as <-. by rewrite Z.add_0_r.
      * specialize (Hcontent i pad' Hi). simpl in Hcontent.
        rewrite <- Hcontent. f_equal. lia.
Qed.

Lemma PadRemainingInAscii_content sizeIdx σ :
  currentScheme (stream σ) = DmtxSchemeAscii →
  status (stream σ) = DmtxStatusEncoding →
  valid_list (mem σ) (output (stream σ)) →
  sizeIdx ≠ DmtxUndefined →
  dataWords sizeIdx <= capacity (output (stream σ)) →
  wpt (PadRemainingInAscii dmtxGetSymbolAttribute sizeIdx)
    (λ _ σ', ∃ pads,
       appended pads σ σ' ∧
       List.length pads
         = Z.to_nat (dataWords sizeIdx - length (output (stream σ))) ∧
       ∀ (i : nat) pad, pads !! i = Some pad →
         (i = 0%nat → pad = byte_of_Z DmtxValueAsciiPad) ∧
         (i ≠ 0%nat →
          Randomize253State2 (byte_of_Z DmtxValueAsciiPad)
            (length (output (stream σ)) + Z.of_nat i + 1) = Some pad)) σ.
Proof.
  intros Hsch Hst Hv Hsize Hroom. unfold PadRemainingInAscii.
  apply wpt_chkscheme; [done |].
  unfold chksize. rewrite decide_False by done.
  apply wpt_bind, wpt_gets.
  rewrite GetRemainingSymbolCapacity_defined by done.
  destruct (Z.ltb_spec 0 (dataWords sizeIdx - length (output (stream σ))))
    as [Hrem|Hrem].
  - eapply wpt_bind_Some;
      [apply StreamOutputChainAppend_ok; [done | lia] |].
    apply wpt_chkerr; [intros _ | done].
    pose proof (appended_append (byte_of_Z DmtxValueAsciiPad) σ Hv
                  ltac:(lia)) as H1.
    eapply wpt_mono.
    + apply PadRemainingInAscii_loop_content; [apply H1 | done | simpl; lia].
    + cbv beta. intros _ σ2 (pads & H2 & Hlen & Hcontent).
      exists ([byte_of_Z DmtxValueAsciiPad] ++ pads).
      split; [by eapply appended_trans |].
      split; [rewrite length_app, Hlen; simpl List.length; lia |].
      intros [|i] pad Hi; simpl in Hi.
      * injection Hi as <-. done.
      * split; [done |]. intros _.
        specialize (Hcontent i pad Hi). simpl in Hcontent.
        rewrite <- Hcontent. f_equal. lia.
  - replace (Z.to_nat _) with 0%nat by lia. simpl.
    apply wpt_ret. exists []. split; [by apply appended_refl |].
    split; [done |]. intros i pad Hi. by rewrite lookup_nil in Hi.
Qed.

(** X9.  [PadRemainingInAscii] for a resolved symbol of [words] data
    words, on a stream in scheme Ascii that is encoding, whose output
    array can hold the symbol: it returns with the stream still encoding
    and has appended exactly [words - length] pad codewords (none when
    the output is that long already).  The first pad is the plain pad
    129; each later one is the pad randomized by [Randomize253State2] at
    its own position in the output, counted from 1. *)
Theorem PadRemainingInAscii_pads (sizeIdx : Z) (σ : State) :
  currentScheme (stream σ) = DmtxSchemeAscii →
  status (stream σ) = DmtxStatusEncoding →
  valid_list (mem σ) (output (stream σ)) →
  sizeIdx ≠ DmtxUndefined →
  dataWords sizeIdx <= capacity (output (stream σ)) →
  ∃ σ' pads,
    PadRemainingInAscii dmtxGetSymbolAttribute sizeIdx σ = Some (tt, σ') ∧
    status (stream σ') = DmtxStatusEncoding ∧
    output_bytes σ' = output_bytes σ ++ pads ∧
    List.length pads
      = Z.to_nat (dataWords sizeIdx - length (output (stream σ))) ∧
    (∀ pad, pads !! 0%nat = Some pad → Z_of_byte pad = 129) ∧
    (∀ (i : nat) pad, i ≠ 0%nat → pads !! i = Some pad →
       Randomize253State2 (byte_of_Z DmtxValueAsciiPad)
         (length (output (stream σ)) + Z.of_nat i + 1) = Some pad).
Proof.
  intros Hsch Hst Hv Hsize Hroom.
  pose proof (PadRemainingInAscii_content sizeIdx σ Hsch Hst Hv Hsize Hroom)
    as Hpad.
  apply wpt_elim in Hpad as ([] & σ' & Hrun & pads & Happ & Hlen & Hcontent).
  destruct Happ as (Hb & _ & _ & _ & _ & _ & Hs & _).
  exists σ', pads. split; [exact Hrun |].
  split; [congruence |]. split; [exact Hb |]. split; [exact Hlen |].
  split.
  - intros pad Hi. destruct (Hcontent 0%nat pad Hi) as [-> _]; done.
  - intros i pad Hne Hi. destruct (Hcontent i pad Hi) as [_ H]. by apply H.
Qed.

End PadContent.

Lemma PadRemainingInAscii_pads_witness :
  ∃ σ' pads,
    PadRemainingInAscii SymbolDataWords 1 (state_of_input [] 8)
      = Some (tt, σ') ∧
    status (stream σ') = DmtxStatusEncoding ∧
    output_bytes σ' = [] ++ pads ∧
    List.length pads = Z.to_nat (SymbolDataWords DmtxSymAttribSymbolDataWords 1 - 0) ∧
    (∀ pad, pads !! 0%nat = Some pad → Z_of_byte pad = 129) ∧
    (∀ (i : nat) pad, i ≠ 0%nat → pads !! i = Some pad →
       Randomize253State2 (byte_of_Z DmtxValueAsciiPad)
         (0 + Z.of_nat i + 1) = Some pad).
Proof.
  apply (PadRemainingInAscii_pads SymbolDataWords 1 (state_of_input [] 8)).
  - reflexivity.
  - reflexivity.
  - compute_done.
  - discriminate.
  - vm_compute. discriminate.
Defined.

(** ** ASCII, from the first input byte to the last pad *)

Lemma ascii_codewords_pair v0 v1 rest :
  ISDIGIT (Z_of_byte v0) && ISDIGIT (Z_of_byte v1) = true →
  ascii_codewords (v0 :: v1 :: rest)
    = byte_of_Z (10 * (Z_of_byte v0 - 48) + (Z_of_byte v1 - 48) + 130)
      :: ascii_codewords rest.
Proof. intros Hd. simpl. by rewrite Hd. Qed.

Lemma ascii_codewords_single v0 rest :
  digit_pair (v0 :: rest) = false →
  ascii_codewords (v0 :: rest)
    = (if Z_of_byte v0 <? 128 then [byte_of_Z (Z_of_byte v0 + 1)]
       else [byte_of_Z DmtxValueAsciiUpperShift;
             byte_of_Z (Z_of_byte v0 - 127)])
      ++ ascii_codewords rest.
Proof.
  intros Hd. destruct rest as [|v1 rest].
  - simpl. by rewrite app_nil_r.
  - simpl in Hd. change (ascii_codewords (v0 :: v1 :: rest)) with
      (let single :=
         if Z_of_byte v0 <? 128 then [byte_of_Z (Z_of_byte v0 + 1)]
         else [byte_of_Z DmtxValueAsciiUpperShift;
               byte_of_Z (Z_of_byte v0 - 127)] in
       if ISDIGIT (Z_of_byte v0) && ISDIGIT (Z_of_byte v1)
       then byte_of_Z (10 * (Z_of_byte v0 - 48) + (Z_of_byte v1 - 48) + 130)
            :: ascii_codewords rest
       else single ++ ascii_codewords (v1 :: rest)).
    cbv zeta. by rewrite Hd.
Qed.

Lemma advance_st_ready σ v rest :
  ascii_ready σ → unconsumed σ = v :: rest →
  ascii_ready (advance_st σ) ∧ unconsumed (advance_st σ) = rest.
Proof.
  intros (Hr & Hsch & Hst & Hne) Hu.
  split; [split; [by apply ready_advance | done] |].
  apply (unconsumed_advance σ v); [apply Hr | done].
Qed.

Lemma value_st_ready cw σ :
  ascii_ready σ →
  length (output (stream σ)) < capacity (output (stream σ)) →
  ascii_ready (count_st 1 (append_st cw σ)) ∧
  unconsumed (count_st 1 (append_st cw σ)) = unconsumed σ ∧
  output_bytes (count_st 1 (append_st cw σ)) = output_bytes σ ++ [cw] ∧
  length (output (stream (count_st 1 (append_st cw σ))))
    = length (output (stream σ)) + 1 ∧
  capacity (output (stream (count_st 1 (append_st cw σ))))
    = capacity (output (stream σ)).
Proof.
  intros (Hr & Hsch & Hst & Hne) Hroom.
  pose proof Hr as (Hvi & Hvo & Hn).
  assert (Hw : writes_output σ (count_st 1 (append_st cw σ))).
  { eapply writes_output_trans; [apply writes_output_append |].
    by apply writes_output_stream. }
  split; [| split; [| split; [| done]]].
  - split; [| done].
    apply (ready_writes _ _ Hr Hw); [| done].
    by apply (valid_append cw σ).
  - change (unconsumed (append_st cw σ) = unconsumed σ).
    by apply unconsumed_append.
  - by apply (output_bytes_append cw σ).
Qed.

(** One step of the ASCII encoder, as a step of [ascii_codewords]. *)
Lemma EncodeNextChunkAscii_chunk σ v0 rest :
  ascii_ready σ →
  unconsumed σ = v0 :: rest →
  length (output (stream σ))
    + Z.of_nat (List.length (ascii_codewords (v0 :: rest)))
    <= capacity (output (stream σ)) →
  ∃ σ1 chunk rest1,
    EncodeNextChunkAscii σ = Some (tt, σ1) ∧
    ascii_ready σ1 ∧
    unconsumed σ1 = rest1 ∧
    (List.length rest1 < List.length (v0 :: rest))%nat ∧
    ascii_codewords (v0 :: rest) = chunk ++ ascii_codewords rest1 ∧
    output_bytes σ1 = output_bytes σ ++ chunk ∧
    length (output (stream σ1))
      = length (output (stream σ)) + Z.of_nat (List.length chunk) ∧
    capacity (output (stream σ1)) = capacity (output (stream σ)) ∧
    (1 <= List.length chunk)%nat.
Proof.
  intros Hr Hu Hroom.
  pose proof Hr as ((Hvi & Hvo & Hn) & Hsch & Hst & Hne).
  destruct (digit_pair (v0 :: rest)) eqn:Hd.
  - (* two digits *)
    destruct rest as [|v1 rest]; [done |]. simpl in Hd.
    rewrite (ascii_codewords_pair _ _ _ Hd) in Hroom |- *.
    simpl in Hroom.
    set (cw := byte_of_Z _) in *.
    destruct (pair_st_ready cw σ v0 v1 rest Hr ltac:(lia) Hu)
      as (Hr1 & Hu1 & Hb1 & Hl1 & Hc1).
    exists (pair_st cw σ), [cw], rest.
    split; [apply (EncodeNextChunkAscii_pair_eq _ _ _ rest); (done || lia) |].
    split; [done |]. split; [done |]. split; [simpl; lia |].
    split; [done |]. split; [done |]. split; [simpl; lia |].
    split; [done | simpl; lia].
  - (* a single byte *)
    rewrite (ascii_codewords_single _ _ Hd) in Hroom |- *.
    rewrite length_app in Hroom.
    destruct (advance_st_ready σ v0 rest Hr Hu) as (Hra & Hua).
    pose proof Hra as ((_ & Hvoa & Hna) & Hscha & Hsta & _).
    assert (Hrun : ∃ v1 v1set,
              EncodeNextChunkAscii σ
              = EncodeNextChunkAscii_values (Z_of_byte v0) v1 v1set
                  (advance_st σ) ∧
              ISDIGIT (Z_of_byte v0) && v1set && ISDIGIT v1 = false).
    { unfold EncodeNextChunkAscii.
      destruct (unconsumed_cons _ _ _ Hn Hu) as [Hnext _].
      rewrite (bind_Some _ _ _ _ _ (gets_eq _ _)), Hnext.
      rewrite (bind_Some _ _ _ _ _
                 (StreamInputAdvanceNext_ok _ _ _ Hst Hn Hu)).
      rewrite chkerr_encoding by done.
      rewrite (bind_Some _ _ _ _ _ (gets_eq _ _)).
      destruct rest as [|v1 rest].
      - assert (Hlast : StreamInputHasNext (stream (advance_st σ)) = false).
        { apply unconsumed_nil; [done | | | done]; destruct Hvi; simpl; lia. }
        rewrite Hlast. exists 0, false. split; [done |].
        by rewrite andb_false_r.
      - destruct (unconsumed_cons _ _ _ Hna Hua) as [Hnext1 _].
        rewrite Hnext1.
        rewrite (bind_Some _ _ _ _ _ (StreamInputPeekNext_ok _ _ _ Hna Hua)).
        rewrite chkerr_encoding by done.
        exists (Z_of_byte v1), true. split; [done |].
        by rewrite andb_true_r. }
    destruct Hrun as (v1 & v1set & -> & Hnd).
    destruct (Z.ltb_spec (Z_of_byte v0) 128) as [Hlow|Hhigh].
    + simpl in Hroom.
      set (cw := byte_of_Z (Z_of_byte v0 + 1)).
      destruct (value_st_ready cw (advance_st σ) Hra ltac:(simpl; lia))
        as (Hr1 & Hu1 & Hb1 & Hl1 & Hc1).
      exists (count_st 1 (append_st cw (advance_st σ))), [cw], rest.
      split; [apply EncodeNextChunkAscii_values_low; (done || simpl; lia) |].
      split; [done |]. split; [congruence |]. split; [simpl; lia |].
      split; [done |]. split; [done |]. split; [simpl in *; lia |].
      split; [done | simpl; lia].
    + simpl in Hroom.
      set (c1 := byte_of_Z DmtxValueAsciiUpperShift).
      set (c2 := byte_of_Z (Z_of_byte v0 - 127)).
      destruct (value_st_ready c1 (advance_st σ) Hra ltac:(simpl; lia))
        as (Hr1 & Hu1 & Hb1 & Hl1 & Hc1).
      set (σ1 := count_st 1 (append_st c1 (advance_st σ))) in *.
      destruct (value_st_ready c2 σ1 Hr1 ltac:(simpl in *; lia))
        as (Hr2 & Hu2 & Hb2 & Hl2 & Hc2).
      exists (count_st 1 (append_st c2 σ1)), [c1; c2], rest.
      split; [apply EncodeNextChunkAscii_values_high; (done || simpl; lia) |].
      split; [done |]. split; [congruence |]. split; [simpl; lia |].
      split; [done |].
      split; [rewrite Hb2, Hb1, <- app_assoc; done |].
      split; [simpl in *; lia |].
      split; [simpl in *; congruence | simpl; lia].
Qed.

Lemma bind_eq {A B} (m m' : M A) (k : A → M B) σ σ' :
  m σ = m' σ' → (m ≫= k) σ = (m' ≫= k) σ'.
Proof. intros H. unfold mbind, M_bind. by rewrite H. Qed.

Section AsciiRun.

Variable FindSymbolSize : Z → Z → Z.
Variable dmtxGetSymbolAttribute : DmtxSymAttribute → Z → Z.

Local Abbreviation dataWords :=
  (dmtxGetSymbolAttribute DmtxSymAttribSymbolDataWords).
Local Abbreviation loop :=
  (EncodeSingleScheme2_loop FindSymbolSize dmtxGetSymbolAttribute).
Local Abbreviation complete :=
  (CompleteIfDoneAscii FindSymbolSize dmtxGetSymbolAttribute).

(** The loop of [EncodeSingleScheme2] with target Ascii, up to the call
    of [CompleteIfDoneAscii] that finds the input exhausted. *)
Lemma EncodeSingleScheme2_loop_ascii requestedSizeIdx (n : nat) :
  ∀ (bytes : list byte) (fuel : nat) (σ : State),
    (List.length bytes <= n)%nat →
    (List.length bytes <= S fuel)%nat →
    ascii_ready σ →
    unconsumed σ = bytes →
    length (output (stream σ))
      + Z.of_nat (List.length (ascii_codewords bytes))
      <= capacity (output (stream σ)) →
    ∃ σE fuel',
      ascii_ready σE ∧
      StreamInputHasNext (stream σE) = false ∧
      output_bytes σE = output_bytes σ ++ ascii_codewords bytes ∧
      length (output (stream σE))
        = length (output (stream σ))
          + Z.of_nat (List.length (ascii_codewords bytes)) ∧
      capacity (output (stream σE)) = capacity (output (stream σ)) ∧
      loop (S fuel) DmtxSchemeAscii requestedSizeIdx σ
      = ((complete requestedSizeIdx;; CHKERR; mret tt)
         ≫= λ _, loop fuel' DmtxSchemeAscii requestedSizeIdx) σE.
Proof.
  induction n as [|n IH]; intros bytes fuel σ Hn Hfuel Hr Hu Hroom.
  - (* no input at all *)
    destruct bytes; [| simpl in Hn; lia].
    pose proof Hr as ((Hvi & Hvo & Hnx) & Hsch & Hst & Hne).
    assert (Hnext : StreamInputHasNext (stream σ) = false).
    { apply unconsumed_nil; [done | apply Hvi | | done].
      destruct Hvi as [? ?]. lia. }
    exists σ, fuel. split; [done |]. split; [done |].
    split; [by rewrite app_nil_r |]. split; [simpl; lia |]. split; [done |].
    simpl EncodeSingleScheme2_loop.
    rewrite (bind_Some _ _ _ _ _ (gets_eq _ _)).
    rewrite decide_True by done.
    apply bind_eq.
    apply (EncodeNextChunk_ascii_eq _ _ _ σ σ); [done | | done].
    unfold EncodeNextChunkAscii.
    by rewrite (bind_Some _ _ _ _ _ (gets_eq _ _)), Hnext.
  - destruct bytes as [|v0 rest].
    { apply (IH [] fuel σ); (done || simpl; lia). }
    pose proof Hr as ((Hvi & Hvo & Hnx) & Hsch & Hst & Hne).
    destruct (EncodeNextChunkAscii_chunk σ v0 rest Hr Hu Hroom)
      as (σ1 & chunk & rest1 & Hrun & Hr1 & Hu1 & Hshort & Hcw & Hb1 & Hl1
          & Hc1 & _).
    pose proof Hr1 as ((Hvi1 & Hvo1 & Hnx1) & Hsch1 & Hst1 & Hne1).
    pose proof (EncodeNextChunk_ascii_eq FindSymbolSize
                  dmtxGetSymbolAttribute requestedSizeIdx σ σ1 Hsch Hrun
                  Hst1) as Hchunk.
    rewrite Hcw, length_app in Hroom |- *.
    destruct rest1 as [|w rest1].
    + (* the last chunk *)
      assert (Hnext : StreamInputHasNext (stream σ1) = false).
      { apply unconsumed_nil; [done | apply Hvi1 | | done].
        destruct Hvi1 as [? ?]. lia. }
      exists σ1, fuel. split; [done |]. split; [done |].
      simpl ascii_codewords. rewrite app_nil_r.
      split; [done |]. split; [simpl; lia |]. split; [done |].
      simpl EncodeSingleScheme2_loop.
      rewrite (bind_Some _ _ _ _ _ (gets_eq _ _)).
      rewrite decide_True by done.
      by apply bind_eq.
    + (* more input follows *)
      destruct (unconsumed_cons _ _ _ Hnx1 Hu1) as [Hnext1 _].
      assert (Hstep : EncodeNextChunk FindSymbolSize dmtxGetSymbolAttribute
                        DmtxSchemeAscii requestedSizeIdx σ = Some (tt, σ1)).
      { rewrite Hchunk.
        rewrite (bind_Some _ _ _ _ _
                   (CompleteIfDoneAscii_more _ _ _ _ Hnext1)).
        by rewrite chkerr_encoding. }
      rewrite (EncodeSingleScheme2_loop_step _ _ _ _ _ _ _ Hst Hstep).
      simpl in Hshort, Hn, Hfuel.
      destruct fuel as [|fuel]; [lia |].
      destruct (IH (w :: rest1) fuel σ1) as (σE & fuel' & HrE & HnE & HbE & HlE
                                             & HcE & HrunE);
        [simpl; lia | simpl; lia | done | done | lia |].
      exists σE, fuel'. split; [done |]. split; [done |].
      split; [by rewrite HbE, Hb1, <- app_assoc |].
      split; [lia |]. split; [congruence | done].
Qed.

(** X10.  An ASCII encode from a stream in scheme Ascii that is encoding,
    over the unconsumed input [bytes], when the data codewords fit the
    output array and [FindSymbolSize] resolves them to a symbol of
    [words] data words that the array can hold: the encode passes and
    completes, recording that symbol, with all input consumed.  The
    codewords appended are those of the ASCII rules, [ascii_codewords
    bytes], followed by the [words - n] pads of the symbol. *)
Theorem EncodeSingleScheme2_ascii_encodes (fuel : nat)
    (requestedSizeIdx : Z) (σ : State) (bytes : list byte) :
  ascii_ready σ →
  unconsumed σ = bytes →
  let n := length (output (stream σ))
           + Z.of_nat (List.length (ascii_codewords bytes)) in
  let symbol := FindSymbolSize n requestedSizeIdx in
  let words := dataWords symbol in
  symbol ≠ DmtxUndefined →
  n <= capacity (output (stream σ)) →
  words <= capacity (output (stream σ)) →
  (1 <= fuel)%nat → (List.length bytes <= fuel)%nat →
  ∃ σ' pads,
    EncodeSingleScheme2 FindSymbolSize dmtxGetSymbolAttribute fuel
      DmtxSchemeAscii requestedSizeIdx σ = Some (DmtxPass, σ') ∧
    status (stream σ') = DmtxStatusComplete ∧
    sizeIdx (stream σ') = symbol ∧
    StreamInputHasNext (stream σ') = false ∧
    output_bytes σ' = output_bytes σ ++ ascii_codewords bytes ++ pads ∧
    List.length pads = Z.to_nat (words - n) ∧
    (∀ pad, pads !! 0%nat = Some pad → Z_of_byte pad = 129).
Proof.
  intros Hr Hu n symbol words Hsize Hfit Hcap Hfuel1 Hfuel.
  destruct fuel as [|fuel]; [lia |].
  destruct (EncodeSingleScheme2_loop_ascii requestedSizeIdx
              (List.length bytes) bytes fuel σ ltac:(lia) Hfuel Hr Hu Hfit)
    as (σE & fuel' & HrE & HnE & HbE & HlE & HcE & HrunE).
  pose proof HrE as ((HviE & HvoE & HnxE) & HschE & HstE & HneE).
  fold n in HlE.
  assert (Hpad := PadRemainingInAscii_content dmtxGetSymbolAttribute symbol
                    σE HschE HstE HvoE Hsize
                    ltac:(rewrite HcE; exact Hcap)).
  apply wpt_elim in Hpad as ([] & σ2 & Hrun2 & pads & Happ & Hlen & Hcontent).
  destruct Happ as (Hb2 & Hl2 & Hv2 & Hc2 & Hi2 & Hn2 & Hs2 & Hsch2).
  assert (Hst2 : status (stream σ2) = DmtxStatusEncoding) by congruence.
  pose proof (CompleteIfDoneAscii_last FindSymbolSize dmtxGetSymbolAttribute
                requestedSizeIdx σE σ2 HnE) as Hdone.
  rewrite HlE in Hdone. fold symbol in Hdone.
  specialize (Hdone Hsize Hrun2 Hst2).
  set (σ' := mkState (mem σ2)
               (set_status DmtxStatusComplete
                  (set_sizeIdx symbol (stream σ2)))) in *.
  assert (Hnext' : StreamInputHasNext (stream σ') = false).
  { unfold StreamInputHasNext in *. simpl. by rewrite Hi2, Hn2. }
  exists σ', pads.
  split.
  { unfold EncodeSingleScheme2. destruct Hr as (_ & Hsch & _).
    rewrite (bind_Some _ _ _ _ _ (gets_eq _ _)), Hsch.
    rewrite decide_False by (intros H; by apply H).
    erewrite bind_Some.
    2:{ rewrite HrunE.
        erewrite bind_Some.
        2:{ rewrite (bind_Some _ _ _ _ _ Hdone).
            by rewrite chkerr_stopped. }
        by apply EncodeSingleScheme2_loop_done. }
    rewrite (bind_Some _ _ _ _ _ (gets_eq _ _)). unfold id.
    rewrite Hnext', bool_decide_eq_false_2 by (intros H; by apply H).
    done. }
  split; [done |]. split; [done |]. split; [done |].
  split.
  { change (output_bytes σ2 = output_bytes σ ++ ascii_codewords bytes ++ pads).
    by rewrite Hb2, HbE, <- app_assoc. }
  split; [by rewrite Hlen, HlE |].
  intros pad Hi. destruct (Hcontent 0%nat pad Hi) as [-> _]; done.
Qed.

(** X11.  The same encode when [FindSymbolSize] finds no symbol for the
    data codewords: the encode fails.  All input is consumed and its
    codewords are written, but nothing is padded, and the stream is left
    Invalid. *)
Theorem EncodeSingleScheme2_ascii_no_symbol (fuel : nat)
    (requestedSizeIdx : Z) (σ : State) (bytes : list byte) :
  ascii_ready σ →
  unconsumed σ = bytes →
  let n := length (output (stream σ))
           + Z.of_nat (List.length (ascii_codewords bytes)) in
  FindSymbolSize n requestedSizeIdx = DmtxUndefined →
  n <= capacity (output (stream σ)) →
  (1 <= fuel)%nat → (List.length bytes <= fuel)%nat →
  ∃ σ',
    EncodeSingleScheme2 FindSymbolSize dmtxGetSymbolAttribute fuel
      DmtxSchemeAscii requestedSizeIdx σ = Some (DmtxFail, σ') ∧
    status (stream σ') = DmtxStatusInvalid ∧
    StreamInputHasNext (stream σ') = false ∧
    output_bytes σ' = output_bytes σ ++ ascii_codewords bytes.
Proof.
  intros Hr Hu n Hsize Hfit Hfuel1 Hfuel.
  destruct fuel as [|fuel]; [lia |].
  destruct (EncodeSingleScheme2_loop_ascii requestedSizeIdx
              (List.length bytes) bytes fuel σ ltac:(lia) Hfuel Hr Hu Hfit)
    as (σE & fuel' & HrE & HnE & HbE & HlE & HcE & HrunE).
  fold n in HlE.
  set (σ' := mkState (mem σE)
               (set_reason 1 (set_status DmtxStatusInvalid (stream σE)))).
  assert (Hdone : complete requestedSizeIdx σE = Some (tt, σ')).
  { unfold CompleteIfDoneAscii.
    rewrite (bind_Some _ _ _ _ _ (gets_eq _ _)), HnE.
    change (negb false) with true. cbv iota.
    rewrite (bind_Some _ _ _ _ _ (gets_eq _ _)).
    rewrite HlE, Hsize. unfold chksize. by rewrite decide_True. }
  exists σ'. split; [| done].
  unfold EncodeSingleScheme2.
  destruct HrE as (_ & HschE & _).
  destruct Hr as (_ & Hsch & _).
  rewrite (bind_Some _ _ _ _ _ (gets_eq _ _)), Hsch.
  rewrite decide_False by (intros H; by apply H).
  erewrite bind_Some.
  2:{ rewrite HrunE.
      erewrite bind_Some.
      2:{ rewrite (bind_Some _ _ _ _ _ Hdone). by rewrite chkerr_stopped. }
      by apply EncodeSingleScheme2_loop_done. }
  by rewrite (bind_Some _ _ _ _ _ (gets_eq _ _)).
Qed.

End AsciiRun.

Lemma EncodeSingleScheme2_ascii_encodes_witness :
  ∃ σ' pads,
    EncodeSingleScheme2 FindSymbolSizeAuto SymbolDataWords 4
      DmtxSchemeAscii DmtxSymbolSquareAuto
      (state_of_input [x41; x31; x32; xe9] 8) = Some (DmtxPass, σ') ∧
    status (stream σ') = DmtxStatusComplete ∧
    sizeIdx (stream σ') = 1 ∧
    StreamInputHasNext (stream σ') = false ∧
    output_bytes σ'
      = [] ++ ascii_codewords [x41; x31; x32; xe9] ++ pads ∧
    List.length pads = Z.to_nat (5 - 4) ∧
    (∀ pad, pads !! 0%nat = Some pad → Z_of_byte pad = 129).
Proof.
  apply (EncodeSingleScheme2_ascii_encodes FindSymbolSizeAuto
           SymbolDataWords 4 DmtxSymbolSquareAuto
           (state_of_input [x41; x31; x32; xe9] 8) [x41; x31; x32; xe9]).
  - apply state_of_input_ready.
  - reflexivity.
  - vm_compute. discriminate.
  - vm_compute. discriminate.
  - vm_compute. discriminate.
  - lia.
  - simpl. lia.
Defined.

Lemma EncodeSingleScheme2_ascii_no_symbol_witness :
  ∃ σ',
    EncodeSingleScheme2 FindSymbolSizeAuto SymbolDataWords 4
      DmtxSchemeAscii 0 (state_of_input [x41; x42; x43; x44] 8)
    = Some (DmtxFail, σ') ∧
    status (stream σ') = DmtxStatusInvalid ∧
    StreamInputHasNext (stream σ') = false ∧
    output_bytes σ' = [] ++ ascii_codewords [x41; x42; x43; x44].
Proof.
  apply (EncodeSingleScheme2_ascii_no_symbol FindSymbolSizeAuto
           SymbolDataWords 4 0 (state_of_input [x41; x42; x43; x44] 8)
           [x41; x42; x43; x44]).
  - apply state_of_input_ready.
  - reflexivity.
  - reflexivity.
  - vm_compute. discriminate.
  - lia.
  - simpl. lia.
Defined.

(** ** The scratch ASCII re-encode, when the rest of the input fits *)

Lemma ascii_codewords_cons_length v0 rest :
  (1 <= List.length (ascii_codewords (v0 :: rest)))%nat.
Proof.
  destruct (digit_pair (v0 :: rest)) eqn:Hd.
  - destruct rest as [|v1 rest]; [done |]. simpl in Hd.
    rewrite ascii_codewords_pair by done. simpl. lia.
  - rewrite ascii_codewords_single by done. rewrite length_app.
    destruct (_ <? _); simpl; lia.
Qed.

Lemma EncodeTmpRemainingInAscii_loop_fits (n : nat) :
  ∀ (bytes : list byte) (fuel : nat) (σ : State),
    (List.length bytes <= n)%nat →
    (List.length (ascii_codewords bytes) <= fuel)%nat →
    ascii_ready σ →
    unconsumed σ = bytes →
    length (output (stream σ))
      + Z.of_nat (List.length (ascii_codewords bytes))
      <= capacity (output (stream σ)) →
    ∃ σ', EncodeTmpRemainingInAscii_loop fuel σ = Some (tt, σ') ∧
          status (stream σ') = DmtxStatusEncoding ∧
          output_bytes σ' = output_bytes σ ++ ascii_codewords bytes ∧
          length (output (stream σ'))
            = length (output (stream σ))
              + Z.of_nat (List.length (ascii_codewords bytes)).
Proof.
  induction n as [|n IH]; intros bytes fuel σ Hn Hfuel Hr Hu Hroom.
  - destruct bytes; [| simpl in Hn; lia].
    pose proof Hr as ((Hvi & Hvo & Hnx) & Hsch & Hst & Hne).
    assert (Hnext : StreamInputHasNext (stream σ) = false).
    { apply unconsumed_nil; [done | apply Hvi | | done].
      destruct Hvi as [? ?]. lia. }
    exists σ. rewrite app_nil_r. simpl ascii_codewords.
    split; [| split; [done | split; [done | simpl; lia]]].
    destruct fuel; simpl; rewrite (bind_Some _ _ _ _ _ (gets_eq _ _));
      destruct (dmtxByteListHasCapacity _); try done;
      by rewrite (bind_Some _ _ _ _ _ (gets_eq _ _)), Hnext.
  - destruct bytes as [|v0 rest].
    { apply (IH [] fuel σ); (done || simpl; lia). }
    pose proof Hr as ((Hvi & Hvo & Hnx) & Hsch & Hst & Hne).
    pose proof (ascii_codewords_cons_length v0 rest) as Hpos.
    destruct (EncodeNextChunkAscii_chunk σ v0 rest Hr Hu Hroom)
      as (σ1 & chunk & rest1 & Hrun & Hr1 & Hu1 & Hshort & Hcw & Hb1 & Hl1
          & Hc1 & Hchunk).
    destruct (unconsumed_cons _ _ _ Hnx Hu) as [Hnext _].
    destruct fuel as [|fuel]; [lia |].
    simpl EncodeTmpRemainingInAscii_loop.
    rewrite (bind_Some _ _ _ _ _ (gets_eq _ _)).
    unfold dmtxByteListHasCapacity.
    replace (length (output (stream σ)) <? capacity (output (stream σ)))
      with true by (symmetry; apply Z.ltb_lt; lia).
    rewrite (bind_Some _ _ _ _ _ (gets_eq _ _)), Hnext.
    rewrite (bind_Some _ _ _ _ _ Hrun).
    rewrite Hcw, length_app in Hroom, Hfuel |- *.
    destruct (IH rest1 fuel σ1) as (σ' & Hrun' & Hst' & Hb' & Hl');
      [simpl in *; lia | lia | done | done | lia |].
    exists σ'. split; [done |]. split; [done |].
    split; [by rewrite Hb', Hb1, <- app_assoc | lia].
Qed.

(** X12.  The scratch ASCII re-encode on a stream with a valid input
    list, into a scratch array of at least [capacity] cells that is not
    the input array, when the ASCII codewords of the unconsumed input
    number at most [capacity]: it passes, and the list it returns holds
    exactly those codewords, [ascii_codewords] of the unconsumed input;
    the stream itself is unchanged. *)
Theorem EncodeTmpRemainingInAscii_encodes (σ : State) (storage : loc)
    (capacity : Z) :
  valid_list (mem σ) (input (stream σ)) →
  0 <= inputNext (stream σ) →
  valid_list (mem σ) (dmtxByteListBuild storage capacity) →
  storage ≠ b (input (stream σ)) →
  Z.of_nat (List.length (ascii_codewords (unconsumed σ))) <= capacity →
  ∃ outputTmp σ',
    EncodeTmpRemainingInAscii storage capacity σ
      = Some ((outputTmp, DmtxPass), σ') ∧
    bytes_of (mem σ') outputTmp = ascii_codewords (unconsumed σ) ∧
    length outputTmp
      = Z.of_nat (List.length (ascii_codewords (unconsumed σ))) ∧
    stream σ' = stream σ.
Proof.
  intros Hvi Hn Hvs Hne Hfits. unfold EncodeTmpRemainingInAscii.
  set (τ := mkState (mem σ) (streamAscii_of (stream σ) storage capacity)).
  assert (Hr : ascii_ready τ).
  { split; [| split; [done | split; [done | by apply not_eq_sym]]].
    split; [exact Hvi | split; [exact Hvs | exact Hn]]. }
  destruct (EncodeTmpRemainingInAscii_loop_fits
              (List.length (unconsumed σ)) (unconsumed σ)
              (Z.to_nat capacity) τ ltac:(lia) ltac:(lia) Hr eq_refl
              ltac:(simpl; lia))
    as (τ' & Hrun & Hst & Hb & Hl).
  rewrite Hrun, decide_True by done.
  eexists _, _. split; [reflexivity |].
  split; [| split; [exact Hl | done]].
  change (output_bytes τ' = ascii_codewords (unconsumed σ)).
  rewrite Hb. done.
Qed.

Lemma EncodeTmpRemainingInAscii_encodes_witness :
  let σ :=
    mkState (<[2%nat := [x00; x00; x00]]>
               (mem (state_of_input [x41; x35; x36] 8)))
      (stream (state_of_input [x41; x35; x36] 8)) in
  ∃ outputTmp σ',
    EncodeTmpRemainingInAscii 2%nat 3 σ = Some ((outputTmp, DmtxPass), σ') ∧
    bytes_of (mem σ') outputTmp = ascii_codewords (unconsumed σ) ∧
    length outputTmp
      = Z.of_nat (List.length (ascii_codewords (unconsumed σ))) ∧
    stream σ' = stream σ.
Proof.
  intros σ. apply (EncodeTmpRemainingInAscii_encodes σ 2%nat 3).
  - compute_done.
  - simpl. lia.
  - compute_done.
  - simpl. lia.
  - vm_compute. discriminate.
Defined.

(** ** What an encode leaves alone *)

Lemma safe_refl W σ : safe W σ σ.
Proof. unfold safe, keeps, frame. repeat split; (done || lia). Qed.

Lemma safe_trans W σ1 σ2 σ3 : safe W σ1 σ2 → safe W σ2 σ3 → safe W σ1 σ3.
Proof.
  intros [(Hi & Hn & Hb & Ho & Hc & Hl) Hf] [(Hi2 & Hn2 & Hb2 & Ho2 & Hc2 & Hl2) Hf2].
  rewrite Hi in Hb2. rewrite Hc in Hl2.
  split.
  - unfold keeps.
    split; [congruence |]. split; [lia |]. split; [auto |].
    split; [congruence |]. split; [congruence | auto].
  - intros p Hp. rewrite Hf2 by done. by apply Hf.
Qed.

Lemma safe_mono (W W' : loc → Prop) σ σ' :
  (∀ p, W p → W' p) → safe W σ σ' → safe W' σ σ'.
Proof. intros HW [Hk Hf]. split; [done |]. intros p Hp. apply Hf. auto. Qed.

(** A change of the stream struct alone. *)
Lemma safe_stream W σ s :
  keeps σ (mkState (mem σ) s) → safe W σ (mkState (mem σ) s).
Proof. intros Hk. by split. Qed.

(** A write to an array of [W]. *)
Lemma safe_write W σ m s :
  keeps σ (mkState m s) →
  (∀ p, ¬ W p → m !! p = mem σ !! p) →
  safe W σ (mkState m s).
Proof. intros Hk Hf. by split. Qed.

Lemma safe_output W σ0 σ :
  safe W σ0 σ → W (b (output (stream σ0))) → W (b (output (stream σ))).
Proof. intros [(_ & _ & _ & -> & _) _] H. done. Qed.

(** Calling a function from a state reached from [σ0]. *)
Lemma wp_safe_call {A} W (m : M A) (Q : A → State → Prop) σ0 σ :
  safe W σ0 σ →
  wp m (λ a σ1, safe W σ σ1 ∧ Q a σ1) σ →
  wp m (λ a σ1, safe W σ0 σ1 ∧ Q a σ1) σ.
Proof.
  intros H Hm. eapply wp_mono; [exact Hm |]. cbv beta.
  intros a σ1 [H1 HQ]. split; [by eapply safe_trans | done].
Qed.

Lemma wp_safe_call' {A} W (m : M A) σ0 σ :
  safe W σ0 σ →
  wp m (λ _ σ1, safe W σ σ1) σ →
  wp m (λ _ σ1, safe W σ0 σ1) σ.
Proof.
  intros H Hm. eapply wp_mono; [exact Hm |]. cbv beta.
  intros a σ1 H1. by eapply safe_trans.
Qed.

Ltac keeps_solve :=
  unfold keeps in *; simpl in *; intuition (try congruence; try lia).

(** [safe_call lem as a s H]: the goal is [wp (m ≫= k) (safe W σ0) σ], a
    hypothesis gives [safe W σ0 σ], and [lem] is the summary of [m]. *)
Tactic Notation "safe_call" constr(lem) "as" simple_intropattern(a)
    simple_intropattern(s) simple_intropattern(H) :=
  apply wp_bind; eapply wp_mono;
  [eapply wp_safe_call'; [eassumption | apply lem] | cbv beta; intros a s H].

Ltac safe_chkerr :=
  apply wp_chkerr; intros ?; [| try eassumption].

Ltac safe_modify :=
  first [apply wp_bind, wp_modify | apply wp_modify];
  match goal with
  | H : safe ?W ?σ0 ?σ |- context [mkState (mem ?σ) ?s] =>
      let H' := fresh "Hs" in
      assert (H' : safe W σ0 (mkState (mem σ) s))
        by (eapply safe_trans; [exact H |];
            apply safe_stream; keeps_solve)
  end.

Lemma StreamMarkFatal_safe W r σ :
  wp (StreamMarkFatal r) (λ _ σ', safe W σ σ') σ.
Proof. apply wp_modify, safe_stream. keeps_solve. Qed.

Lemma StreamMarkInvalid_safe W r σ :
  wp (StreamMarkInvalid r) (λ _ σ', safe W σ σ') σ.
Proof. apply wp_modify, safe_stream. keeps_solve. Qed.

Lemma StreamMarkComplete_safe W sizeIdx σ :
  wp (StreamMarkComplete sizeIdx) (λ _ σ', safe W σ σ') σ.
Proof.
  apply wp_modify, safe_stream. case_decide; keeps_solve.
Qed.

Lemma safe_fatal W σ0 σ r :
  safe W σ0 σ →
  safe W σ0 (mkState (mem σ)
               (set_reason r (set_status DmtxStatusFatal (stream σ)))).
Proof.
  intros H. eapply safe_trans; [exact H |]. apply safe_stream. keeps_solve.
Qed.

Lemma safe_invalid W σ0 σ r :
  safe W σ0 σ →
  safe W σ0 (mkState (mem σ)
               (set_reason r (set_status DmtxStatusInvalid (stream σ)))).
Proof.
  intros H. eapply safe_trans; [exact H |]. apply safe_stream. keeps_solve.
Qed.

Lemma StreamInputPeekNext_safe W σ :
  wp StreamInputPeekNext
    (λ _ σ', safe W σ σ' ∧
             (status (stream σ') = DmtxStatusEncoding →
              StreamInputHasNext (stream σ) = true ∧ σ' = σ)) σ.
Proof.
  unfold wp, StreamInputPeekNext.
  destruct (StreamInputHasNext _) eqn:Hnext.
  - destruct (load _ _ _); [| done]. split; [apply safe_refl | done].
  - simpl. split; [apply safe_stream; keeps_solve | done].
Qed.

Lemma StreamInputAdvanceNext_safe W σ :
  wp StreamInputAdvanceNext (λ _ σ', safe W σ σ') σ.
Proof.
  unfold StreamInputAdvanceNext. apply wp_bind.
  eapply wp_mono; [apply (StreamInputPeekNext_safe W) |].
  cbv beta. intros v σ1 [H1 Hnext]. apply wp_bind, wp_gets. apply wp_bind.
  case_decide as Hst.
  - destruct (Hnext Hst) as [Hn ->]. apply wp_modify, wp_ret.
    apply safe_stream. unfold StreamInputHasNext in Hn.
    apply Z.ltb_lt in Hn. keeps_solve.
  - by apply wp_ret, wp_ret.
Qed.

Lemma StreamOutputChainAppend_safe (W : loc → Prop) v σ :
  W (b (output (stream σ))) →
  wp (StreamOutputChainAppend v) (λ _ σ', safe W σ σ') σ.
Proof.
  intros HW. unfold wp, StreamOutputChainAppend, dmtxByteListHasCapacity.
  destruct (Z.ltb_spec (length (output (stream σ)))
              (capacity (output (stream σ)))) as [Hroom|Hfull].
  - unfold dmtxByteListPush, dmtxByteListHasCapacity, store.
    replace (_ <? capacity _) with true by (symmetry; by apply Z.ltb_lt).
    destruct (_ <? 0); [done |].
    destruct (mem σ !! _); [| done]. case_decide; [| done].
    apply safe_write; [keeps_solve |].
    intros p Hp. apply lookup_insert_ne. by intros <-.
  - apply safe_stream. keeps_solve.
Qed.

Lemma StreamOutputChainRemoveLast_safe W σ :
  wp StreamOutputChainRemoveLast (λ _ σ', safe W σ σ') σ.
Proof.
  unfold wp, StreamOutputChainRemoveLast.
  destruct (0 <? _).
  - unfold load.
    destruct (Z.ltb_spec (length (output (stream σ)) - 1) 0); [done |].
    destruct (mem σ !! _) as [cells|]; [| done].
    destruct (cells !! _); [| done].
    apply safe_stream. keeps_solve.
  - apply safe_stream. keeps_solve.
Qed.

Lemma StreamOutputSet_safe (W : loc → Prop) i v σ :
  W (b (output (stream σ))) →
  wp (StreamOutputSet i v) (λ _ σ', safe W σ σ') σ.
Proof.
  intros HW. unfold wp, StreamOutputSet.
  destruct (_ || _).
  - apply safe_stream. keeps_solve.
  - unfold store. destruct (_ <? 0); [done |].
    destruct (mem σ !! _); [| done]. case_decide; [| done].
    apply safe_write; [keeps_solve |].
    intros p Hp. apply lookup_insert_ne. by intros <-.
Qed.

Lemma StreamOutputChainInsertFirst_safe (W : loc → Prop) σ :
  W (b (output (stream σ))) →
  wp StreamOutputChainInsertFirst (λ _ σ', safe W σ σ') σ.
Proof.
  intros HW. unfold wp, StreamOutputChainInsertFirst, dmtxByteListHasCapacity.
  destruct (Z.ltb_spec (length (output (stream σ)))
              (capacity (output (stream σ)))) as [Hroom|Hfull].
  - destruct (mem σ !! _); [| done]. case_decide; [| done].
    apply safe_write; [keeps_solve |].
    intros p Hp. apply lookup_insert_ne. by intros <-.
  - apply safe_stream. keeps_solve.
Qed.

Lemma StreamOutputChainRemoveFirst_safe (W : loc → Prop) σ :
  W (b (output (stream σ))) →
  wp StreamOutputChainRemoveFirst (λ _ σ', safe W σ σ') σ.
Proof.
  intros HW. unfold wp, StreamOutputChainRemoveFirst.
  destruct (Z.ltb_spec 0 (outputChainWordCount (stream σ))) as [Hwc|Hwc].
  - destruct (mem σ !! _); [| done]. case_decide; [| done].
    apply safe_write; [keeps_solve |].
    intros p Hp. apply lookup_insert_ne. by intros <-.
  - apply safe_stream. keeps_solve.
Qed.

Lemma read_safe W l i σ : wp (read l i) (λ _ σ', safe W σ σ') σ.
Proof.
  eapply wp_mono; [apply read_stream |]. cbv beta. intros _ σ' ->.
  apply safe_refl.
Qed.

Lemma push_safe (W : loc → Prop) l v σ :
  W (b l) →
  wp (push l v) (λ l' σ', safe W σ σ' ∧ b l' = b l) σ.
Proof.
  intros HW. unfold wp, push, dmtxByteListPush, store.
  destruct (dmtxByteListHasCapacity l); [| done].
  destruct (_ <? 0); [done |].
  destruct (mem σ !! _); [| done]. case_decide; [| done]. simpl.
  split; [| done].
  destruct σ as [m s]. apply (safe_write W (mkState m s)); [keeps_solve |].
  intros p Hp. apply lookup_insert_ne. by intros <-.
Qed.

Lemma push2_safe (W : loc → Prop) l v w σ :
  W (b l) →
  wp (push2 l v w) (λ l' σ', safe W σ σ' ∧ b l' = b l) σ.
Proof.
  intros HW. unfold push2. apply wp_bind.
  eapply wp_mono; [by apply push_safe |]. cbv beta.
  intros l1 σ1 [H1 E1].
  eapply wp_mono; [apply (push_safe W); by rewrite E1 |]. cbv beta.
  intros l2 σ2 [H2 E2]. split; [by eapply safe_trans | congruence].
Qed.

Ltac safe_W := eapply safe_output; [eassumption | assumption].

(** [safe_do lem as a s H]: as [safe_call], for a [lem] that needs the
    output array to be in [W]. *)
Tactic Notation "safe_do" constr(lem) "as" simple_intropattern(a)
    simple_intropattern(s) simple_intropattern(H) :=
  apply wp_bind; eapply wp_mono;
  [eapply wp_safe_call'; [eassumption | apply lem; safe_W]
  | cbv beta; intros a s H].

Ltac safe_last lem :=
  eapply wp_safe_call'; [eassumption | apply lem; try safe_W].

Section Safe.

Variable W : loc → Prop.

Lemma EncodeValueAscii_safe v σ :
  W (b (output (stream σ))) →
  wp (EncodeValueAscii v) (λ _ σ', safe W σ σ') σ.
Proof.
  intros HW. pose proof (safe_refl W σ) as H0. unfold EncodeValueAscii.
  apply wp_chkscheme; intros Hsch; [| by apply safe_fatal].
  safe_do StreamOutputChainAppend_safe as ? σ1 S1.
  safe_chkerr. safe_modify. done.
Qed.

Lemma EncodeNextChunkAscii_values_safe v0 v1 v1set σ :
  W (b (output (stream σ))) →
  wp (EncodeNextChunkAscii_values v0 v1 v1set) (λ _ σ', safe W σ σ') σ.
Proof.
  intros HW. pose proof (safe_refl W σ) as H0.
  unfold EncodeNextChunkAscii_values.
  destruct (_ && _).
  - safe_call StreamInputAdvanceNext_safe as ? σ1 S1. safe_chkerr.
    safe_do EncodeValueAscii_safe as ? σ2 S2. safe_chkerr. by apply wp_ret.
  - destruct (_ <? _).
    + safe_do EncodeValueAscii_safe as ? σ1 S1. safe_chkerr. by apply wp_ret.
    + safe_do EncodeValueAscii_safe as ? σ1 S1. safe_chkerr.
      safe_do EncodeValueAscii_safe as ? σ2 S2. safe_chkerr. by apply wp_ret.
Qed.

Lemma EncodeNextChunkAscii_safe σ :
  W (b (output (stream σ))) →
  wp EncodeNextChunkAscii (λ _ σ', safe W σ σ') σ.
Proof.
  intros HW. pose proof (safe_refl W σ) as H0. unfold EncodeNextChunkAscii.
  apply wp_bind, wp_gets.
  destruct (StreamInputHasNext _); [| by apply wp_ret].
  safe_call StreamInputAdvanceNext_safe as v0 σ1 S1. safe_chkerr.
  apply wp_bind, wp_gets.
  destruct (StreamInputHasNext _).
  - apply wp_bind. eapply wp_mono;
      [eapply wp_safe_call; [eassumption | apply StreamInputPeekNext_safe] |].
    cbv beta. intros v1 σ2 [S2 _]. safe_chkerr.
    safe_last EncodeNextChunkAscii_values_safe.
  - safe_last EncodeNextChunkAscii_values_safe.
Qed.

Lemma EncodeValuesCTX_safe valueList σ :
  W (b (output (stream σ))) →
  wp (EncodeValuesCTX valueList) (λ _ σ', safe W σ σ') σ.
Proof.
  intros HW. pose proof (safe_refl W σ) as H0. unfold EncodeValuesCTX.
  apply wp_bind, wp_gets.
  case_decide; [by apply safe_fatal |].
  case_decide; [by apply safe_fatal |].
  wp_apply read_stream as ? ? ->. wp_apply read_stream as ? ? ->.
  wp_apply read_stream as ? ? ->.
  safe_do StreamOutputChainAppend_safe as ? σ1 S1. safe_chkerr.
  safe_do StreamOutputChainAppend_safe as ? σ2 S2. safe_chkerr.
  safe_modify. done.
Qed.

Lemma EncodeUnlatchCTX_safe σ :
  W (b (output (stream σ))) →
  wp EncodeUnlatchCTX (λ _ σ', safe W σ σ') σ.
Proof.
  intros HW. pose proof (safe_refl W σ) as H0. unfold EncodeUnlatchCTX.
  apply wp_bind, wp_gets.
  case_decide; [by apply safe_fatal |].
  apply wp_bind, wp_gets.
  case_decide; [by apply safe_invalid |].
  safe_do StreamOutputChainAppend_safe as ? σ1 S1. safe_chkerr.
  safe_modify. done.
Qed.

Lemma EncodeValueEdifact_safe v σ :
  W (b (output (stream σ))) →
  wp (EncodeValueEdifact v) (λ _ σ', safe W σ σ') σ.
Proof.
  intros HW. pose proof (safe_refl W σ) as H0. unfold EncodeValueEdifact.
  apply wp_chkscheme; intros Hsch; [| by apply safe_fatal].
  destruct (_ || _); [by apply safe_invalid |].
  apply wp_bind, wp_gets.
  assert (Hbump : ∀ τ, safe W σ τ →
            wp (modify (λ s, set_outputChainValueCount
                               (outputChainValueCount s + 1) s))
              (λ _ σ', safe W σ σ') τ).
  { intros τ Hτ. safe_modify. done. }
  assert (Hap : ∀ x τ, safe W σ τ →
            wp (StreamOutputChainAppend x;; CHKERR;
                modify (λ s, set_outputChainValueCount
                               (outputChainValueCount s + 1) s))
              (λ _ σ', safe W σ σ') τ).
  { intros x τ Hτ. safe_do StreamOutputChainAppend_safe as ? σ1 S1.
    safe_chkerr. by apply Hbump. }
  assert (Hor : ∀ x (k : M unit),
            (∀ τ, safe W σ τ → wp k (λ _ σ', safe W σ σ') τ) →
            wp (previousOutput ← StreamOutputChainRemoveLast; CHKERR;
                StreamOutputChainAppend (x previousOutput);; CHKERR; k)
              (λ _ σ', safe W σ σ') σ).
  { intros x k Hk.
    safe_call StreamOutputChainRemoveLast_safe as ? σ1 S1. safe_chkerr.
    safe_do StreamOutputChainAppend_safe as ? σ2 S2. safe_chkerr.
    by apply Hk. }
  destruct (_ =? 0); [by apply Hap |].
  destruct (_ =? 1); [apply Hor; intros; by apply Hap |].
  destruct (_ =? 2); [apply Hor; intros; by apply Hap |].
  destruct (_ =? 3); [apply Hor; intros; by apply Hbump |].
  by apply Hbump.
Qed.

Lemma EncodeNextChunkEdifact_safe σ :
  W (b (output (stream σ))) →
  wp EncodeNextChunkEdifact (λ _ σ', safe W σ σ') σ.
Proof.
  intros HW. pose proof (safe_refl W σ) as H0. unfold EncodeNextChunkEdifact.
  apply wp_bind, wp_gets.
  destruct (StreamInputHasNext _); [| by apply wp_ret].
  safe_call StreamInputAdvanceNext_safe as v σ1 S1. safe_chkerr.
  safe_do EncodeValueEdifact_safe as ? σ2 S2. safe_chkerr. by apply wp_ret.
Qed.

Lemma PushCTXValues_safe valueList inputValue targetScheme σ :
  W (b valueList) →
  wp (PushCTXValues valueList inputValue targetScheme)
    (λ r σ', safe W σ σ' ∧ b (snd r) = b valueList) σ.
Proof.
  intros HW. unfold PushCTXValues.
  destruct (_ && _); [apply wp_ret; split; [apply safe_refl | done] |].
  assert (Hx12 : ∀ l v τ, b l = b valueList → safe W σ τ →
            wp (PushCTXValues_X12 l v)
              (λ l' σ', safe W σ σ' ∧ b l' = b valueList) τ).
  { intros l v τ E Hτ. unfold PushCTXValues_X12.
    repeat match goal with
           | |- context [if ?c then _ else _] => destruct c
           end;
      try (apply wp_ret; by split);
      (eapply wp_mono; [apply (push_safe W); by rewrite E |]; cbv beta;
       intros l' σ' [H' E']; split; [by eapply safe_trans | congruence]). }
  assert (Hc40 : ∀ l v τ, b l = b valueList → safe W σ τ →
            wp (PushCTXValues_C40Text l v targetScheme)
              (λ l' σ', safe W σ σ' ∧ b l' = b valueList) τ).
  { intros l v τ E Hτ. unfold PushCTXValues_C40Text.
    repeat match goal with
           | |- context [if ?c then _ else _] => destruct c
           end;
      try (apply wp_ret; by split);
      try (eapply wp_mono; [apply (push_safe W); by rewrite E |]; cbv beta;
           intros l' σ' [H' E']; split; [by eapply safe_trans | congruence]);
      (eapply wp_mono; [apply (push2_safe W); by rewrite E |]; cbv beta;
       intros l' σ' [H' E']; split; [by eapply safe_trans | congruence]). }
  assert (Hrest : ∀ l v τ, b l = b valueList → safe W σ τ →
            wp ((if bool_decide (targetScheme = DmtxSchemeX12)
                 then PushCTXValues_X12 l v
                 else PushCTXValues_C40Text l v targetScheme)
                ≫= λ valueList, mret (DmtxPass, valueList))
              (λ r σ', safe W σ σ' ∧ b (snd r) = b valueList) τ).
  { intros l v τ E Hτ. apply wp_bind.
    destruct (bool_decide _);
      (eapply wp_mono; [by (apply Hx12 || apply Hc40) |]);
      cbv beta; intros; by apply wp_ret. }
  apply wp_bind.
  destruct (_ <? _).
  - apply wp_bind. eapply wp_mono; [by apply (push2_safe W) |]. cbv beta.
    intros l1 σ1 [H1 E1]. apply wp_ret. by apply Hrest.
  - apply wp_ret. apply Hrest; [done | apply safe_refl].
Qed.

End Safe.

Lemma wp_with_array_safe {A} (W : loc → Prop) n (body : loc → M A) σ :
  (∀ p, mem σ !! p = None →
        wp (body p)
          (λ _ σ',
             safe (λ q, W q ∨ q = p)
               (mkState (<[p := replicate n x00]> (mem σ)) (stream σ)) σ')
          (mkState (<[p := replicate n x00]> (mem σ)) (stream σ))) →
  wp (with_array n body) (λ _ σ', safe W σ σ') σ.
Proof.
  intros H. unfold wp, with_array.
  set (p := fresh (dom (mem σ))).
  assert (Hfresh : mem σ !! p = None).
  { apply not_elem_of_dom. apply is_fresh. }
  specialize (H p Hfresh). unfold wp in H.
  destruct (body _ _) as [[a σ']|]; [| done].
  destruct H as [Hk Hf]. split; [exact Hk |].
  intros q Hq. simpl. destruct (decide (q = p)) as [->|Hne].
  - by rewrite lookup_delete_eq.
  - rewrite lookup_delete_ne by done. rewrite Hf by tauto.
    simpl. by rewrite lookup_insert_ne.
Qed.

Lemma EncodeTmpRemainingInAscii_loop_safe (W : loc → Prop) fuel :
  ∀ σ, W (b (output (stream σ))) →
       wp (EncodeTmpRemainingInAscii_loop fuel) (λ _ σ', safe W σ σ') σ.
Proof.
  induction fuel as [|fuel IH]; intros σ HW;
    pose proof (safe_refl W σ) as H0; simpl;
    apply wp_bind, wp_gets;
    (destruct (dmtxByteListHasCapacity _); [| by apply wp_ret]);
    apply wp_bind, wp_gets;
    (destruct (StreamInputHasNext _); [| by apply wp_ret]).
  - apply wp_abort.
  - safe_do EncodeNextChunkAscii_safe as ? σ1 S1.
    eapply wp_safe_call'; [eassumption | apply IH; safe_W].
Qed.

Lemma EncodeTmpRemainingInAscii_safe (W : loc → Prop) storage capacity σ :
  W storage →
  wp (EncodeTmpRemainingInAscii storage capacity) (λ _ σ', safe W σ σ') σ.
Proof.
  intros HW. unfold wp, EncodeTmpRemainingInAscii.
  set (τ := mkState (mem σ) (streamAscii_of (stream σ) storage capacity)).
  pose proof (EncodeTmpRemainingInAscii_loop_safe W (Z.to_nat capacity) τ HW)
    as Hloop.
  unfold wp in Hloop.
  destruct (EncodeTmpRemainingInAscii_loop _ _) as [[? τ']|]; [| done].
  destruct Hloop as [_ Hf]. split; [| exact Hf].
  unfold keeps. simpl. repeat split; (done || lia).
Qed.

Section SafeCollaborators.

Variable W : loc → Prop.
Variable FindSymbolSize : Z → Z → Z.
Variable dmtxGetSymbolAttribute : DmtxSymAttribute → Z → Z.

Lemma PadRemainingInAscii_loop_safe n :
  ∀ σ, W (b (output (stream σ))) →
       wp (PadRemainingInAscii_loop n) (λ _ σ', safe W σ σ') σ.
Proof.
  induction n as [|n IH]; intros σ HW; pose proof (safe_refl W σ) as H0;
    simpl.
  - by apply wp_ret.
  - apply wp_bind, wp_gets.
    destruct (Randomize253State2 _ _); [| apply wp_abort].
    safe_do StreamOutputChainAppend_safe as ? σ1 S1. safe_chkerr.
    eapply wp_safe_call'; [eassumption | apply IH; safe_W].
Qed.

Lemma PadRemainingInAscii_safe sizeIdx σ :
  W (b (output (stream σ))) →
  wp (PadRemainingInAscii dmtxGetSymbolAttribute sizeIdx)
    (λ _ σ', safe W σ σ') σ.
Proof.
  intros HW. pose proof (safe_refl W σ) as H0. unfold PadRemainingInAscii.
  apply wp_chkscheme; intros Hsch; [| by apply safe_fatal].
  apply wp_chksize; intros Hsize; [| by apply safe_invalid].
  apply wp_bind, wp_gets.
  destruct (0 <? _).
  - safe_do StreamOutputChainAppend_safe as ? σ1 S1. safe_chkerr.
    safe_last PadRemainingInAscii_loop_safe.
  - safe_last PadRemainingInAscii_loop_safe.
Qed.

Lemma CompleteIfDoneAscii_safe requestedSizeIdx σ :
  W (b (output (stream σ))) →
  wp (CompleteIfDoneAscii FindSymbolSize dmtxGetSymbolAttribute
        requestedSizeIdx) (λ _ σ', safe W σ σ') σ.
Proof.
  intros HW. pose proof (safe_refl W σ) as H0. unfold CompleteIfDoneAscii.
  apply wp_bind, wp_gets.
  destruct (negb _); [| by apply wp_ret].
  apply wp_bind, wp_gets.
  apply wp_chksize; intros Hsize; [| by apply safe_invalid].
  safe_do PadRemainingInAscii_safe as ? σ1 S1. safe_chkerr.
  safe_last StreamMarkComplete_safe.
Qed.

Lemma UpdateBase256ChainHeader_encode_safe hi len hbc p σ :
  W (b (output (stream σ))) →
  wp (UpdateBase256ChainHeader_encode dmtxGetSymbolAttribute hi len hbc p)
    (λ _ σ', safe W σ σ') σ.
Proof.
  intros HW. pose proof (safe_refl W σ) as H0.
  unfold UpdateBase256ChainHeader_encode.
  destruct (_ && _).
  { apply wp_bind, wp_gets. case_decide; [by apply safe_fatal |].
    safe_do StreamOutputSet_safe as ? σ1 S1. safe_chkerr. by apply wp_ret. }
  destruct (_ && _).
  { safe_do StreamOutputSet_safe as ? σ1 S1. safe_chkerr. by apply wp_ret. }
  destruct (_ && _); [| by apply safe_fatal].
  safe_do StreamOutputSet_safe as ? σ1 S1. safe_chkerr.
  safe_do StreamOutputSet_safe as ? σ2 S2. safe_chkerr. by apply wp_ret.
Qed.

Lemma UpdateBase256ChainHeader_safe p σ :
  W (b (output (stream σ))) →
  wp (UpdateBase256ChainHeader dmtxGetSymbolAttribute p)
    (λ _ σ', safe W σ σ') σ.
Proof.
  intros HW. pose proof (safe_refl W σ) as H0.
  unfold UpdateBase256ChainHeader. apply wp_bind, wp_gets. unfold id.
  destruct (_ && _).
  { safe_do StreamOutputChainAppend_safe as ? σ1 S1. safe_chkerr.
    safe_last UpdateBase256ChainHeader_encode_safe. }
  destruct (_ && _).
  { safe_do StreamOutputChainInsertFirst_safe as ? σ1 S1. safe_chkerr.
    safe_last UpdateBase256ChainHeader_encode_safe. }
  destruct (_ && _).
  { safe_do StreamOutputChainRemoveFirst_safe as ? σ1 S1. safe_chkerr.
    safe_last UpdateBase256ChainHeader_encode_safe. }
  safe_last UpdateBase256ChainHeader_encode_safe.
Qed.

Lemma EncodeChangeScheme_safe targetScheme unlatchType σ :
  W (b (output (stream σ))) →
  wp (EncodeChangeScheme dmtxGetSymbolAttribute targetScheme unlatchType)
    (λ _ σ', safe W σ σ') σ.
Proof.
  intros HW. pose proof (safe_refl W σ) as H0. unfold EncodeChangeScheme.
  apply wp_bind, wp_gets.
  case_decide; [by apply wp_ret |].
  assert (Htail : ∀ τ, safe W σ τ →
            wp (modify (set_currentScheme targetScheme);;
                modify (set_outputChainWordCount 0);;
                modify (set_outputChainValueCount 0);;
                if decide (targetScheme = DmtxSchemeBase256)
                then UpdateBase256ChainHeader dmtxGetSymbolAttribute
                       DmtxUndefined;; CHKERR; mret tt
                else mret tt)
              (λ _ σ', safe W σ σ') τ).
  { intros τ Hτ. safe_modify. safe_modify. safe_modify.
    case_decide.
    - safe_do UpdateBase256ChainHeader_safe as ? σ1 S1. safe_chkerr.
      by apply wp_ret.
    - by apply wp_ret. }
  assert (Hlatch : ∀ τ, safe W σ τ →
            wp (modify (set_currentScheme DmtxSchemeAscii);;
                EncodeChangeScheme_latch targetScheme
                  (modify (set_currentScheme targetScheme);;
                   modify (set_outputChainWordCount 0);;
                   modify (set_outputChainValueCount 0);;
                   if decide (targetScheme = DmtxSchemeBase256)
                   then UpdateBase256ChainHeader dmtxGetSymbolAttribute
                          DmtxUndefined;; CHKERR; mret tt
                   else mret tt))
              (λ _ σ', safe W σ σ') τ).
  { intros τ Hτ. safe_modify. unfold EncodeChangeScheme_latch.
    destruct targetScheme;
      try (safe_do EncodeValueAscii_safe as ? σ1 S1; safe_chkerr;
           by apply Htail).
    apply wp_chkscheme; intros ?; [by apply Htail | by apply safe_fatal]. }
  unfold EncodeChangeScheme_unlatch. apply wp_bind, wp_gets.
  destruct (decide (unlatchType = DmtxUnlatchExplicit)) as [Hu|Hu].
  - destruct (currentScheme (stream σ)); try (by apply Hlatch);
      [ safe_do EncodeUnlatchCTX_safe as ? σ1 S1
      | safe_do EncodeUnlatchCTX_safe as ? σ1 S1
      | safe_do EncodeUnlatchCTX_safe as ? σ1 S1
      | safe_do EncodeValueEdifact_safe as ? σ1 S1 ];
      safe_chkerr; by apply Hlatch.
  - destruct (currentScheme (stream σ)); by apply Hlatch.
Qed.

Lemma CompleteIfDonePartialCTX_safe valueList requestedSizeIdx σ :
  W (b (output (stream σ))) → W (b valueList) →
  wp (CompleteIfDonePartialCTX FindSymbolSize dmtxGetSymbolAttribute
        valueList requestedSizeIdx) (λ _ σ', safe W σ σ') σ.
Proof.
  intros HW Hl. pose proof (safe_refl W σ) as H0.
  unfold CompleteIfDonePartialCTX. apply wp_bind, wp_gets.
  case_decide; [by apply safe_fatal |].
  destruct (negb _); [apply wp_abort |].
  apply wp_bind, wp_gets.
  apply wp_chksize; intros Hsize; [| by apply safe_invalid].
  destruct (_ && _); [| by apply wp_ret].
  apply wp_bind. eapply wp_mono; [by apply (push_safe W) |]. cbv beta.
  intros l1 σ1 [S1 _].
  safe_do EncodeValuesCTX_safe as ? σ2 S2. safe_chkerr.
  safe_last StreamMarkComplete_safe.
Qed.

Lemma EncodeNextChunkCTX_flush_safe fuel valueList :
  ∀ σ, W (b (output (stream σ))) →
       wp (EncodeNextChunkCTX_flush fuel valueList)
         (λ r σ', safe W σ σ' ∧
                  match r with
                  | Fallthrough l => l = valueList
                  | Returned => True
                  end) σ.
Proof.
  induction fuel as [|fuel IH]; intros σ HW; simpl.
  - destruct (3 <=? _); [apply wp_abort |].
    apply wp_ret. split; [apply safe_refl | done].
  - destruct (3 <=? _); [| apply wp_ret; split; [apply safe_refl | done]].
    apply wp_bind. eapply wp_mono; [by apply (EncodeValuesCTX_safe W) |].
    cbv beta. intros _ σ1 S1.
    apply wp_chkerr; intros Hst; [| done].
    eapply wp_safe_call; [exact S1 | apply IH].
    eapply safe_output; [exact S1 | done].
Qed.

Lemma EncodeNextChunkCTX_loop_safe fuel :
  ∀ valueList σ,
    W (b (output (stream σ))) → W (b valueList) →
    wp (EncodeNextChunkCTX_loop fuel valueList)
      (λ r σ', safe W σ σ' ∧
               match r with
               | Fallthrough l => b l = b valueList
               | Returned => True
               end) σ.
Proof.
  induction fuel as [|fuel IH]; intros valueList σ HW Hl; simpl;
    apply wp_bind, wp_gets;
    (destruct (StreamInputHasNext _);
     [| apply wp_ret; split; [apply safe_refl | done]]).
  - apply wp_abort.
  - apply wp_bind.
    eapply wp_mono; [apply (StreamInputAdvanceNext_safe W) |]. cbv beta.
    intros v σ1 S1. apply wp_chkerr; intros Hst; [| done].
    apply wp_bind, wp_gets. apply wp_bind.
    eapply wp_mono; [by apply (PushCTXValues_safe W) |]. cbv beta.
    intros [passFail l1] σ2 [S2 E2]. simpl in E2.
    pose proof (safe_trans _ _ _ _ S1 S2) as S12.
    apply wp_bind, wp_gets. apply wp_bind.
    eapply wp_mono.
    { apply EncodeNextChunkCTX_flush_safe.
      eapply safe_output; [exact S12 | done]. }
    cbv beta. intros r σ3 [S3 Hr].
    pose proof (safe_trans _ _ _ _ S12 S3) as S13.
    destruct r as [l2|]; [| by apply wp_ret].
    subst l2.
    destruct (_ =? 0); [apply wp_ret; by split |].
    eapply wp_mono.
    { apply IH; [eapply safe_output; [exact S13 | done] | by rewrite E2]. }
    cbv beta. intros r σ4 [S4 Hr].
    split; [by eapply safe_trans |].
    destruct r; [congruence | done].
Qed.

Lemma CompleteIfDoneCTX_safe requestedSizeIdx σ :
  W (b (output (stream σ))) →
  wp (CompleteIfDoneCTX FindSymbolSize dmtxGetSymbolAttribute
        requestedSizeIdx) (λ _ σ', safe W σ σ') σ.
Proof.
  intros HW. pose proof (safe_refl W σ) as H0. unfold CompleteIfDoneCTX.
  apply wp_bind, wp_gets.
  apply wp_chksize; intros Hsize; [| by apply safe_invalid].
  apply wp_bind, wp_gets.
  destruct (negb _); [| by apply wp_ret].
  destruct (_ =? 0); [apply StreamMarkComplete_safe |].
  safe_do EncodeChangeScheme_safe as ? σ1 S1. safe_chkerr. by apply wp_ret.
Qed.

Lemma CompleteIfDoneEdifact_copy_safe n (k : M unit) σ0 :
  W (b (output (stream σ0))) →
  (∀ τ, safe W σ0 τ → wp k (λ _ σ', safe W σ0 σ') τ) →
  ∀ i outputTmp σ,
    safe W σ0 σ →
    wp (CompleteIfDoneEdifact_copy n i outputTmp k)
      (λ _ σ', safe W σ0 σ') σ.
Proof.
  intros HW Hk. induction n as [|n IH]; intros i outputTmp σ Hσ; simpl.
  - by apply Hk.
  - wp_apply read_stream as v ? ->.
    safe_do EncodeValueAscii_safe as ? σ1 S1. safe_chkerr. by apply IH.
Qed.

Lemma EncodeValueBase256_safe v σ :
  W (b (output (stream σ))) →
  wp (EncodeValueBase256 dmtxGetSymbolAttribute v) (λ _ σ', safe W σ σ') σ.
Proof.
  intros HW. pose proof (safe_refl W σ) as H0. unfold EncodeValueBase256.
  apply wp_chkscheme; intros Hsch; [| by apply safe_fatal].
  apply wp_bind, wp_gets.
  safe_do StreamOutputChainAppend_safe as ? σ1 S1. safe_chkerr.
  safe_modify.
  safe_do UpdateBase256ChainHeader_safe as ? σ2 S2. safe_chkerr.
  by apply wp_ret.
Qed.

Lemma EncodeNextChunkBase256_safe σ :
  W (b (output (stream σ))) →
  wp (EncodeNextChunkBase256 dmtxGetSymbolAttribute)
    (λ _ σ', safe W σ σ') σ.
Proof.
  intros HW. pose proof (safe_refl W σ) as H0.
  unfold EncodeNextChunkBase256. apply wp_bind, wp_gets.
  destruct (StreamInputHasNext _); [| by apply wp_ret].
  safe_call StreamInputAdvanceNext_safe as v σ1 S1. safe_chkerr.
  safe_do EncodeValueBase256_safe as ? σ2 S2. safe_chkerr. by apply wp_ret.
Qed.

Lemma CompleteIfDoneBase256_normal_safe requestedSizeIdx σ :
  W (b (output (stream σ))) →
  wp (CompleteIfDoneBase256_normal FindSymbolSize dmtxGetSymbolAttribute
        requestedSizeIdx) (λ _ σ', safe W σ σ') σ.
Proof.
  intros HW. pose proof (safe_refl W σ) as H0.
  unfold CompleteIfDoneBase256_normal. apply wp_bind, wp_gets.
  apply wp_chksize; intros Hsize; [| by apply safe_invalid].
  safe_do EncodeChangeScheme_safe as ? σ1 S1.
  safe_do PadRemainingInAscii_safe as ? σ2 S2.
  safe_last StreamMarkComplete_safe.
Qed.

Lemma CompleteIfDoneBase256_safe requestedSizeIdx σ :
  W (b (output (stream σ))) →
  wp (CompleteIfDoneBase256 FindSymbolSize dmtxGetSymbolAttribute
        requestedSizeIdx) (λ _ σ', safe W σ σ') σ.
Proof.
  intros HW. pose proof (safe_refl W σ) as H0.
  unfold CompleteIfDoneBase256. apply wp_bind, wp_gets.
  destruct (negb _); [| by apply wp_ret].
  apply wp_bind, wp_gets. unfold id.
  destruct (negb _); [apply wp_abort |].
  destruct (_ =? 2); [| by apply CompleteIfDoneBase256_normal_safe].
  case_decide; [| by apply CompleteIfDoneBase256_normal_safe].
  destruct (_ =? 0); [| by apply CompleteIfDoneBase256_normal_safe].
  safe_do UpdateBase256ChainHeader_safe as ? σ1 S1. safe_chkerr.
  safe_last StreamMarkComplete_safe.
Qed.

End SafeCollaborators.

Section SafeChunks.

Variable W : loc → Prop.
Variable FindSymbolSize : Z → Z → Z.
Variable dmtxGetSymbolAttribute : DmtxSymAttribute → Z → Z.

Lemma EncodeNextChunkCTX_safe requestedSizeIdx σ :
  W (b (output (stream σ))) →
  wp (EncodeNextChunkCTX FindSymbolSize dmtxGetSymbolAttribute
        requestedSizeIdx) (λ _ σ', safe W σ σ') σ.
Proof.
  intros HW. unfold EncodeNextChunkCTX.
  apply wp_with_array_safe. intros p Hfresh.
  set (τ := mkState _ (stream σ)).
  apply wp_bind, wp_gets. apply wp_bind.
  eapply wp_mono.
  { apply (EncodeNextChunkCTX_loop_safe (λ q, W q ∨ q = p)
             (Z.to_nat (length (input (id (stream τ)))
                        - inputNext (id (stream τ))))
             (dmtxByteListBuild p 4) τ); [by left | by right]. }
  cbv beta. intros r σ1 [S1 Hr].
  destruct r as [l|]; [| by apply wp_ret].
  apply wp_bind, wp_gets.
  destruct (_ && _); [| by apply wp_ret].
  apply wp_bind. eapply wp_mono.
  { eapply wp_safe_call'; [exact S1 |].
    apply CompleteIfDonePartialCTX_safe.
    - eapply safe_output; [exact S1 | by left].
    - rewrite Hr. by right. }
  cbv beta. intros _ σ2 S2.
  apply wp_chkerr; intros Hst; [by apply wp_ret | done].
Qed.

Lemma CompleteIfDoneEdifact_safe requestedSizeIdx σ :
  W (b (output (stream σ))) →
  wp (CompleteIfDoneEdifact FindSymbolSize dmtxGetSymbolAttribute
        requestedSizeIdx) (λ _ σ', safe W σ σ') σ.
Proof.
  intros HW. unfold CompleteIfDoneEdifact.
  apply wp_with_array_safe. intros p Hfresh.
  set (τ := mkState _ (stream σ)).
  assert (HW' : W (b (output (stream τ))) ∨ b (output (stream τ)) = p)
    by (by left).
  pose proof (safe_refl (λ q, W q ∨ q = p) τ) as H0.
  apply wp_bind, wp_gets. apply wp_bind, wp_gets.
  apply wp_chksize; intros Hsize; [| by apply safe_invalid].
  safe_chkerr.
  apply wp_bind, wp_gets.
  destruct (StreamInputHasNext (stream τ)) eqn:Hnext; simpl negb; cbv iota.
  - (* input left: the scratch probe *)
    apply wp_bind. eapply wp_mono.
    { apply (EncodeTmpRemainingInAscii_safe (λ q, W q ∨ q = p)). by right. }
    cbv beta. intros [outputTmp passFail] σ1 S1.
    destruct (_ || _); [by apply wp_ret |].
    destruct (_ && _); [| by apply wp_ret].
    safe_do EncodeChangeScheme_safe as ? σ2 S2. safe_chkerr.
    apply (CompleteIfDoneEdifact_copy_safe (λ q, W q ∨ q = p)); [done | | done].
    intros σ3 S3. apply wp_bind, wp_modify.
    assert (S4 : safe (λ q, W q ∨ q = p) τ
                   (mkState (mem σ3)
                      (set_inputNext (length (input (stream σ3)))
                         (stream σ3)))).
    { eapply safe_trans; [exact S3 |]. apply safe_stream.
      destruct S3 as [(Hi & Hn & Hb & _) _].
      unfold StreamInputHasNext in Hnext. apply Z.ltb_lt in Hnext.
      unfold keeps. simpl. rewrite Hi.
      repeat split; (done || lia). }
    safe_do PadRemainingInAscii_safe as ? σ5 S5. safe_chkerr.
    safe_last StreamMarkComplete_safe.
  - (* input exhausted *)
    destruct (_ || _); [| apply StreamMarkComplete_safe].
    safe_do EncodeChangeScheme_safe as ? σ1 S1. safe_chkerr.
    apply wp_bind, wp_gets.
    apply wp_chksize; intros Hsize1; [| by apply safe_invalid].
    safe_do PadRemainingInAscii_safe as ? σ2 S2. safe_chkerr.
    safe_last StreamMarkComplete_safe.
Qed.

Lemma EncodeNextChunk_dispatch_safe requestedSizeIdx σ :
  W (b (output (stream σ))) →
  wp (EncodeNextChunk_dispatch FindSymbolSize dmtxGetSymbolAttribute
        requestedSizeIdx) (λ _ σ', safe W σ σ') σ.
Proof.
  intros HW. pose proof (safe_refl W σ) as H0.
  unfold EncodeNextChunk_dispatch. apply wp_bind, wp_gets.
  destruct (currentScheme (stream σ)).
  - safe_do EncodeNextChunkAscii_safe as ? σ1 S1. safe_chkerr.
    safe_do CompleteIfDoneAscii_safe as ? σ2 S2. safe_chkerr.
    by apply wp_ret.
  - safe_do EncodeNextChunkCTX_safe as ? σ1 S1. safe_chkerr.
    safe_do CompleteIfDoneCTX_safe as ? σ2 S2. safe_chkerr.
    by apply wp_ret.
  - safe_do EncodeNextChunkCTX_safe as ? σ1 S1. safe_chkerr.
    safe_do CompleteIfDoneCTX_safe as ? σ2 S2. safe_chkerr.
    by apply wp_ret.
  - safe_do EncodeNextChunkCTX_safe as ? σ1 S1. safe_chkerr.
    safe_do CompleteIfDoneCTX_safe as ? σ2 S2. safe_chkerr.
    by apply wp_ret.
  - safe_do EncodeNextChunkEdifact_safe as ? σ1 S1. safe_chkerr.
    safe_do CompleteIfDoneEdifact_safe as ? σ2 S2. safe_chkerr.
    by apply wp_ret.
  - safe_do EncodeNextChunkBase256_safe as ? σ1 S1. safe_chkerr.
    safe_do CompleteIfDoneBase256_safe as ? σ2 S2. safe_chkerr.
    by apply wp_ret.
Qed.

Lemma EncodeNextChunk_safe targetScheme requestedSizeIdx σ :
  W (b (output (stream σ))) →
  wp (EncodeNextChunk FindSymbolSize dmtxGetSymbolAttribute targetScheme
        requestedSizeIdx) (λ _ σ', safe W σ σ') σ.
Proof.
  intros HW. pose proof (safe_refl W σ) as H0. unfold EncodeNextChunk.
  apply wp_bind, wp_gets.
  case_decide; [| by apply EncodeNextChunk_dispatch_safe].
  safe_do EncodeChangeScheme_safe as ? σ1 S1. safe_chkerr.
  apply wp_chkscheme; intros Hsch; [| by apply safe_fatal].
  safe_last EncodeNextChunk_dispatch_safe.
Qed.

Lemma EncodeSingleScheme2_loop_safe fuel targetScheme requestedSizeIdx :
  ∀ σ, W (b (output (stream σ))) →
       wp (EncodeSingleScheme2_loop FindSymbolSize dmtxGetSymbolAttribute
             fuel targetScheme requestedSizeIdx) (λ _ σ', safe W σ σ') σ.
Proof.
  induction fuel as [|fuel IH]; intros σ HW;
    pose proof (safe_refl W σ) as H0; simpl; apply wp_bind, wp_gets.
  - case_decide; [apply wp_abort | by apply wp_ret].
  - case_decide; [| by apply wp_ret].
    safe_do EncodeNextChunk_safe as ? σ1 S1.
    eapply wp_safe_call'; [eassumption | apply IH; safe_W].
Qed.

Lemma EncodeSingleScheme2_safe fuel targetScheme requestedSizeIdx σ :
  W (b (output (stream σ))) →
  wp (EncodeSingleScheme2 FindSymbolSize dmtxGetSymbolAttribute fuel
        targetScheme requestedSizeIdx) (λ _ σ', safe W σ σ') σ.
Proof.
  intros HW. pose proof (safe_refl W σ) as H0. unfold EncodeSingleScheme2.
  apply wp_bind, wp_gets.
  case_decide.
  - apply wp_bind, wp_modify, wp_ret. by apply safe_fatal.
  - safe_do EncodeSingleScheme2_loop_safe as ? σ1 S1.
    apply wp_bind, wp_gets. by destruct (_ || _); apply wp_ret.
Qed.

End SafeChunks.

Section SafeEncode.

Variable FindSymbolSize : Z → Z → Z.
Variable dmtxGetSymbolAttribute : DmtxSymAttribute → Z → Z.

(** X13.  Whatever the target scheme, the size request and the stream it
    starts from, an encode that returns has left the input alone: the
    input list of the stream is the one it was given, the input cursor
    has not moved back and, if it was within the input, has not been
    moved past its end; and every array other than the output array is
    in memory as it was, the local arrays of the encoder being gone. *)
Theorem EncodeSingleScheme2_leaves_input (fuel : nat)
    (targetScheme : DmtxScheme) (requestedSizeIdx : Z) (σ σ' : State)
    (passFail : DmtxPassFail) :
  EncodeSingleScheme2 FindSymbolSize dmtxGetSymbolAttribute fuel targetScheme
    requestedSizeIdx σ = Some (passFail, σ') →
  input (stream σ') = input (stream σ) ∧
  inputNext (stream σ) <= inputNext (stream σ') ∧
  (inputNext (stream σ) <= length (input (stream σ)) →
   inputNext (stream σ') <= length (input (stream σ))) ∧
  (∀ p, p ≠ b (output (stream σ)) → mem σ' !! p = mem σ !! p).
Proof.
  intros Hrun.
  pose proof (EncodeSingleScheme2_safe (λ p, p = b (output (stream σ)))
                FindSymbolSize dmtxGetSymbolAttribute fuel targetScheme
                requestedSizeIdx σ eq_refl) as Hwp.
  destruct (wp_elim _ _ _ _ _ Hwp Hrun) as [(Hi & Hn & Hb & _) Hf].
  split; [exact Hi |]. split; [exact Hn |]. split; [exact Hb |].
  intros p Hp. by apply Hf.
Qed.

End SafeEncode.

Lemma EncodeSingleScheme2_leaves_input_witness :
  let σ := state_of_input [x41; x42; x43; x44; x45] 16 in
  ∃ σ',
    EncodeSingleScheme2 FindSymbolSizeAuto SymbolDataWords 10
      DmtxSchemeEdifact DmtxSymbolSquareAuto σ = Some (DmtxPass, σ') ∧
    input (stream σ') = input (stream σ) ∧
    inputNext (stream σ) <= inputNext (stream σ') ∧
    (inputNext (stream σ) <= length (input (stream σ)) →
     inputNext (stream σ') <= length (input (stream σ))) ∧
    (∀ p, p ≠ b (output (stream σ)) → mem σ' !! p = mem σ !! p).
Proof.
  intros σ.
  assert (∃ σ',
            EncodeSingleScheme2 FindSymbolSizeAuto SymbolDataWords 10
              DmtxSchemeEdifact DmtxSymbolSquareAuto σ
            = Some (DmtxPass, σ')) as (σ' & Hrun)
    by (vm_compute; eexists; reflexivity).
  exists σ'. split; [exact Hrun |].
  exact (EncodeSingleScheme2_leaves_input FindSymbolSizeAuto SymbolDataWords
           10 DmtxSchemeEdifact DmtxSymbolSquareAuto σ σ' DmtxPass Hrun).
Defined.

(** ** Base256, from the latch to the last pad *)

Lemma StreamOutputSet_ok i v σ :
  valid_list (mem σ) (output (stream σ)) →
  0 <= i < length (output (stream σ)) →
  StreamOutputSet i v σ = Some (tt, set_st i v σ).
Proof.
  intros [Hl Hc] Hi. unfold StreamOutputSet, store.
  replace (i <? 0) with false by (symmetry; apply Z.ltb_ge; lia).
  replace (length (output (stream σ)) <=? i) with false
    by (symmetry; apply Z.leb_gt; lia).
  simpl orb. cbv iota.
  destruct (mem σ !! b (output (stream σ))) as [cells|] eqn:E; simpl in *;
    [| lia].
  rewrite decide_True by lia. unfold set_st. by rewrite E.
Qed.

Lemma set_st_facts i v σ :
  valid_list (mem σ) (output (stream σ)) →
  0 <= i < length (output (stream σ)) →
  output_bytes (set_st i v σ) = <[Z.to_nat i := v]> (output_bytes σ) ∧
  valid_list (mem (set_st i v σ)) (output (stream (set_st i v σ))) ∧
  (b (input (stream σ)) ≠ b (output (stream σ)) →
   unconsumed (set_st i v σ) = unconsumed σ ∧
   valid_list (mem (set_st i v σ)) (input (stream (set_st i v σ))) =
   valid_list (mem σ) (input (stream σ))).
Proof.
  intros [Hl Hc] Hi. unfold output_bytes, bytes_of, valid_list, set_st. simpl.
  rewrite lookup_insert_eq. simpl. rewrite length_insert.
  split; [by rewrite take_insert_lt by lia |]. split; [done |].
  intros Hne. unfold unconsumed, bytes_of. simpl.
  by rewrite lookup_insert_ne by done.
Qed.

Lemma set_st_ready i v σ :
  ready σ → b (input (stream σ)) ≠ b (output (stream σ)) →
  0 <= i < length (output (stream σ)) →
  ready (set_st i v σ) ∧ unconsumed (set_st i v σ) = unconsumed σ.
Proof.
  intros (Hvi & Hvo & Hn) Hne Hi.
  destruct (set_st_facts i v σ Hvo Hi) as (_ & Hvo' & Hin).
  destruct (Hin Hne) as [Hu Hv].
  split; [| done]. split; [by rewrite Hv | done].
Qed.

Section Base256Run.

Variable FindSymbolSize : Z → Z → Z.
Variable dmtxGetSymbolAttribute : DmtxSymAttribute → Z → Z.

Local Abbreviation dataWords :=
  (dmtxGetSymbolAttribute DmtxSymAttribSymbolDataWords).
Local Abbreviation loop :=
  (EncodeSingleScheme2_loop FindSymbolSize dmtxGetSymbolAttribute).

(** The header of a chain that has no word yet: one byte is appended and
    set to the header of an empty payload. *)
Lemma UpdateBase256ChainHeader_fresh σ :
  status (stream σ) = DmtxStatusEncoding →
  valid_list (mem σ) (output (stream σ)) →
  length (output (stream σ)) < capacity (output (stream σ)) →
  outputChainWordCount (stream σ) = 0 →
  outputChainValueCount (stream σ) = 0 →
  UpdateBase256ChainHeader dmtxGetSymbolAttribute DmtxUndefined σ
  = Some (tt, set_st (length (output (stream σ)))
                (Randomize255State2 (byte_of_Z 0)
                   (length (output (stream σ)) + 1))
                (append_st (byte_of_Z 0) σ)).
Proof.
  intros Hst Hvo Hroom Hwc Hvc. unfold UpdateBase256ChainHeader.
  rewrite (bind_Some _ _ _ _ _ (gets_eq _ _)). unfold id.
  cbv zeta. rewrite Hwc, Hvc.
  change (0 - 0 =? 0) with true. change (0 =? 0) with true.
  cbn [andb negb]. cbv iota.
  rewrite (bind_Some _ _ _ _ _ (StreamOutputChainAppend_ok _ _ Hvo Hroom)).
  rewrite chkerr_encoding by done.
  unfold UpdateBase256ChainHeader_encode.
  change (0 - 0 + 1 =? 1) with true.
  change (DmtxUndefined =? DmtxUndefined) with true.
  cbn [andb negb]. cbv iota.
  rewrite Z.sub_0_r.
  erewrite bind_Some.
  2:{ apply StreamOutputSet_ok; [by apply valid_append |].
      destruct Hvo as [? ?]. simpl. lia. }
  by rewrite chkerr_encoding.
Qed.

(** The header of a chain with a one-byte header and at most 249 values:
    the header byte is set to the number of values. *)
Lemma UpdateBase256ChainHeader_refresh σ :
  status (stream σ) = DmtxStatusEncoding →
  valid_list (mem σ) (output (stream σ)) →
  outputChainWordCount (stream σ) - outputChainValueCount (stream σ) = 1 →
  outputChainValueCount (stream σ) <= 249 →
  0 <= length (output (stream σ)) - outputChainWordCount (stream σ)
    < length (output (stream σ)) →
  let headerIndex :=
    length (output (stream σ)) - outputChainWordCount (stream σ) in
  UpdateBase256ChainHeader dmtxGetSymbolAttribute DmtxUndefined σ
  = Some (tt, set_st headerIndex
                (Randomize255State2
                   (byte_of_Z (outputChainValueCount (stream σ)))
                   (headerIndex + 1)) σ).
Proof.
  intros Hst Hvo Hhbc Hl Hhi headerIndex. unfold UpdateBase256ChainHeader.
  rewrite (bind_Some _ _ _ _ _ (gets_eq _ _)). unfold id. cbv zeta.
  fold headerIndex. rewrite Hhbc.
  change (1 =? 0) with false. change (1 =? 1) with true.
  change (1 =? 2) with false.
  replace (249 <? outputChainValueCount (stream σ)) with false
    by (symmetry; apply Z.ltb_ge; lia).
  cbn [andb negb]. cbv iota.
  unfold UpdateBase256ChainHeader_encode.
  change (1 =? 1) with true.
  change (DmtxUndefined =? DmtxUndefined) with true.
  cbn [andb negb]. cbv iota.
  rewrite (bind_Some _ _ _ _ _ (StreamOutputSet_ok _ _ _ Hvo Hhi)).
  by rewrite chkerr_encoding.
Qed.

End Base256Run.

Lemma append_st_ready cw σ :
  ready σ → b (input (stream σ)) ≠ b (output (stream σ)) →
  length (output (stream σ)) < capacity (output (stream σ)) →
  ready (append_st cw σ) ∧
  unconsumed (append_st cw σ) = unconsumed σ ∧
  output_bytes (append_st cw σ) = output_bytes σ ++ [cw].
Proof.
  intros Hr Hne Hroom. pose proof Hr as (Hvi & Hvo & Hn).
  split; [| split].
  - apply (ready_writes _ _ Hr (writes_output_append cw σ)); [| done].
    by apply (valid_append cw σ).
  - by apply unconsumed_append.
  - by apply (output_bytes_append cw σ).
Qed.

Lemma base256_payload_app position bytes v :
  base256_payload position (bytes ++ [v])
  = base256_payload position bytes
    ++ [Randomize255State2 v (position + Z.of_nat (List.length bytes))].
Proof.
  revert position. induction bytes as [|w bytes IH]; intros position.
  - simpl. by rewrite Z.add_0_r.
  - cbn [app base256_payload List.length]. rewrite IH, Nat2Z.inj_succ.
    f_equal. f_equal. f_equal. f_equal. lia.
Qed.

Lemma base256_payload_length position bytes :
  List.length (base256_payload position bytes) = List.length bytes.
Proof.
  revert position. induction bytes as [|w bytes IH]; intros position; simpl;
    [done | by rewrite IH].
Qed.

Lemma insert_header (out0 payload : list byte) (c h h' : byte) :
  <[S (List.length out0) := h']> (out0 ++ [c; h] ++ payload)
  = out0 ++ [c; h'] ++ payload.
Proof.
  rewrite insert_app_r_alt by lia.
  by replace (S (List.length out0) - List.length out0)%nat with 1%nat by lia.
Qed.

Section Base256Encode.

Variable FindSymbolSize : Z → Z → Z.
Variable dmtxGetSymbolAttribute : DmtxSymAttribute → Z → Z.

Local Abbreviation dataWords :=
  (dmtxGetSymbolAttribute DmtxSymAttribSymbolDataWords).
Local Abbreviation loop :=
  (EncodeSingleScheme2_loop FindSymbolSize dmtxGetSymbolAttribute).
Local Abbreviation dispatch :=
  (EncodeNextChunk_dispatch FindSymbolSize dmtxGetSymbolAttribute).
Local Abbreviation complete :=
  (CompleteIfDoneBase256 FindSymbolSize dmtxGetSymbolAttribute).

(** The latch to Base256 writes the latch codeword and the header of an
    empty chain. *)
Lemma EncodeChangeScheme_latch_Base256 unlatchType σ :
  ascii_ready σ →
  length (output (stream σ)) + 2 <= capacity (output (stream σ)) →
  ∃ σL,
    EncodeChangeScheme dmtxGetSymbolAttribute DmtxSchemeBase256 unlatchType σ
      = Some (tt, σL) ∧
    base256_chain (length (output (stream σ))) (output_bytes σ) [] σL ∧
    unconsumed σL = unconsumed σ ∧
    capacity (output (stream σL)) = capacity (output (stream σ)).
Proof.
  intros (Hr & Hsch & Hst & Hne) Hroom.
  pose proof Hr as (Hvi & Hvo & Hn).
  set (cw := byte_of_Z DmtxValueBase256Latch).
  set (τ := latch_st DmtxSchemeBase256 cw σ).
  destruct (append_st_ready cw σ Hr Hne ltac:(lia)) as (Hr1 & Hu1 & Hb1).
  assert (Hrτ : ready τ) by exact Hr1.
  assert (Huτ : unconsumed τ = unconsumed σ) by exact Hu1.
  assert (Hbτ : output_bytes τ = output_bytes σ ++ [cw]) by exact Hb1.
  assert (Hlτ : length (output (stream τ)) = length (output (stream σ)) + 1)
    by done.
  assert (Hcτ : capacity (output (stream τ)) = capacity (output (stream σ)))
    by done.
  assert (Hneτ : b (input (stream τ)) ≠ b (output (stream τ))) by done.
  destruct (append_st_ready (byte_of_Z 0) τ Hrτ Hneτ ltac:(lia))
    as (Hr2 & Hu2 & Hb2).
  set (hdr := Randomize255State2 (byte_of_Z 0)
                (length (output (stream τ)) + 1)).
  set (σL := set_st (length (output (stream τ))) hdr
               (append_st (byte_of_Z 0) τ)).
  assert (Hi : 0 <= length (output (stream τ))
               < length (output (stream (append_st (byte_of_Z 0) τ)))).
  { destruct Hvo as [[? ?] ?]. simpl. lia. }
  destruct (set_st_ready _ hdr _ Hr2 Hneτ Hi) as [HrL HuL].
  destruct (set_st_facts _ hdr _ (proj1 (proj2 Hr2)) Hi) as (HbL & _ & _).
  exists σL. split; [| split; [| split]].
  - unfold EncodeChangeScheme.
    rewrite (bind_Some _ _ _ _ _ (gets_eq _ _)), Hsch.
    rewrite decide_False by done.
    unfold EncodeChangeScheme_unlatch.
    rewrite (bind_Some _ _ _ _ _ (gets_eq _ _)), Hsch.
    set (σa := mkState (mem σ)
                 (set_currentScheme DmtxSchemeAscii (stream σ))).
    cbv iota.
    rewrite (bind_Some (modify (set_currentScheme DmtxSchemeAscii)) _ σ tt σa
               eq_refl).
    unfold EncodeChangeScheme_latch.
    rewrite (bind_Some _ _ _ _ _
               (EncodeValueAscii_ok cw σa eq_refl Hst Hvo ltac:(simpl; lia))).
    rewrite chkerr_encoding by done.
    set (σb := count_st 1 (append_st cw σa)).
    rewrite (bind_Some (modify (set_currentScheme DmtxSchemeBase256)) _ σb tt
               _ eq_refl).
    erewrite (bind_Some (modify (set_outputChainWordCount 0)) _ _ tt
               _ eq_refl).
    erewrite (bind_Some (modify (set_outputChainValueCount 0)) _ _ tt
               _ eq_refl).
    rewrite decide_True by done.
    change (mkState _ _) with τ.
    erewrite bind_Some.
    2:{ apply UpdateBase256ChainHeader_fresh;
          [done | apply Hrτ | lia | done | done]. }
    by rewrite chkerr_encoding.
  - unfold base256_chain. simpl List.length. change (Z.of_nat 0) with 0.
    split; [exact HrL |]. split; [done |]. split; [done |].
    split; [done |].
    split.
    { destruct Hvo as [[? ?] ?].
      unfold output_bytes, bytes_of. rewrite length_take. lia. }
    split; [done |]. split; [done |].
    split; [simpl; lia |].
    unfold σL. rewrite HbL, Hb2, Hbτ.
    replace (Z.to_nat (length (output (stream τ))))
      with (List.length (output_bytes σ ++ [cw])).
    2:{ destruct Hvo as [[? ?] ?].
        rewrite length_app. unfold output_bytes, bytes_of.
        rewrite length_take, Hlτ. simpl. lia. }
    rewrite insert_app_r_alt by lia. rewrite Nat.sub_diag. simpl.
    rewrite <- app_assoc. simpl. unfold hdr. rewrite Hlτ.
    by replace (length (output (stream σ)) + 1 + 1)
         with (length (output (stream σ)) + 2) by lia.
  - unfold σL. by rewrite HuL, Hu2.
  - done.
Qed.

(** One input byte taken into a chain with a one-byte header. *)
Lemma EncodeNextChunkBase256_chunk s out0 payload σ v rest :
  base256_chain s out0 payload σ →
  unconsumed σ = v :: rest →
  Z.of_nat (List.length payload) + 1 <= 249 →
  length (output (stream σ)) < capacity (output (stream σ)) →
  ∃ σ1,
    EncodeNextChunkBase256 dmtxGetSymbolAttribute σ = Some (tt, σ1) ∧
    base256_chain s out0
      (payload
       ++ [Randomize255State2 v (s + 3 + Z.of_nat (List.length payload))])
      σ1 ∧
    unconsumed σ1 = rest ∧
    capacity (output (stream σ1)) = capacity (output (stream σ)).
Proof.
  intros (Hr & Hne & Hsch & Hst & Hs & Hvc & Hwc & Hlen & Hb) Hu Hk Hroom.
  pose proof Hr as (Hvi & Hvo & Hnx).
  destruct (unconsumed_cons _ _ _ Hnx Hu) as [Hnext _].
  set (k := Z.of_nat (List.length payload)) in *.
  set (σa := advance_st σ).
  pose proof (ready_advance _ Hr) as Hra. fold σa in Hra.
  assert (Hua : unconsumed σa = rest)
    by (by apply (unconsumed_advance σ v)).
  set (pv := Randomize255State2 v (length (output (stream σ)) + 1)).
  destruct (append_st_ready pv σa Hra Hne Hroom) as (Hr1 & Hu1 & Hb1).
  set (σb := count_st 1 (append_st pv σa)).
  assert (Hrb : ready σb) by exact Hr1.
  assert (Hub : unconsumed σb = rest) by (rewrite <- Hua; exact Hu1).
  assert (Hbb : output_bytes σb = output_bytes σ ++ [pv]) by exact Hb1.
  assert (Hlb : length (output (stream σb)) = s + 3 + k)
    by (simpl; lia).
  assert (Hwb : outputChainWordCount (stream σb) = k + 2) by (simpl; lia).
  assert (Hvb : outputChainValueCount (stream σb) = k + 1) by (simpl; lia).
  assert (Hneb : b (input (stream σb)) ≠ b (output (stream σb))) by done.
  set (hi := length (output (stream σb)) - outputChainWordCount (stream σb)).
  assert (Hhi : hi = s + 1) by (unfold hi; lia).
  set (hdr := Randomize255State2
                (byte_of_Z (outputChainValueCount (stream σb))) (hi + 1)).
  set (σ1 := set_st hi hdr σb).
  assert (Hi : 0 <= hi < length (output (stream σb))) by lia.
  destruct (set_st_ready hi hdr σb Hrb Hneb Hi) as [Hr' Hu'].
  destruct (set_st_facts hi hdr σb (proj1 (proj2 Hrb)) Hi) as (Hb' & _ & _).
  exists σ1. split; [| split; [| split]].
  - unfold EncodeNextChunkBase256.
    rewrite (bind_Some _ _ _ _ _ (gets_eq _ _)), Hnext.
    rewrite (bind_Some _ _ _ _ _ (StreamInputAdvanceNext_ok _ _ _ Hst Hnx Hu)).
    rewrite chkerr_encoding by done.
    assert (Hvalue : EncodeValueBase256 dmtxGetSymbolAttribute v σa
                     = Some (tt, σ1)).
    { unfold EncodeValueBase256. rewrite chkscheme_ok by done.
      rewrite (bind_Some _ _ _ _ _ (gets_eq _ _)).
      rewrite (bind_Some _ _ _ _ _
                 (StreamOutputChainAppend_ok pv σa (proj1 (proj2 Hra)) Hroom)).
      rewrite chkerr_encoding by done.
      rewrite (bind_Some
                 (modify (λ s, set_outputChainValueCount
                                 (outputChainValueCount s + 1) s))
                 _ (append_st pv σa) tt σb eq_refl).
      erewrite bind_Some.
      2:{ apply UpdateBase256ChainHeader_refresh;
            [done | apply Hrb | lia | lia | lia]. }
      by rewrite chkerr_encoding. }
    rewrite (bind_Some _ _ _ _ _ Hvalue).
    by rewrite chkerr_encoding.
  - unfold base256_chain. rewrite length_app. simpl List.length.
    replace (Z.of_nat (List.length payload + 1)) with (k + 1) by lia.
    split; [exact Hr' |]. split; [done |]. split; [done |].
    split; [done |]. split; [done |].
    split; [exact Hvb |].
    split; [change (outputChainWordCount (stream σb) = k + 1 + 1); lia |].
    split; [change (length (output (stream σb)) = s + 2 + (k + 1)); lia |].
    unfold σ1. rewrite Hb', Hbb, Hb.
    replace (Z.to_nat hi) with (S (List.length out0)) by lia.
    rewrite <- !app_assoc.
    rewrite (insert_header out0 (payload ++ [pv])).
    unfold hdr, pv. rewrite Hvb, Hhi, Hlen.
    replace (s + 1 + 1) with (s + 2) by lia.
    by replace (s + 2 + k + 1) with (s + 3 + k) by lia.
  - unfold σ1. by rewrite Hu'.
  - done.
Qed.

(** The end of a chain with a one-byte header: the implicit unlatch
    writes nothing, the symbol is padded and the stream completes. *)
Lemma CompleteIfDoneBase256_last requestedSizeIdx s out0 payload σ :
  base256_chain s out0 payload σ →
  StreamInputHasNext (stream σ) = false →
  let n := length (output (stream σ)) in
  let symbol := FindSymbolSize n requestedSizeIdx in
  symbol ≠ DmtxUndefined →
  dataWords symbol <= capacity (output (stream σ)) →
  ∃ σ' pads,
    complete requestedSizeIdx σ = Some (tt, σ') ∧
    status (stream σ') = DmtxStatusComplete ∧
    sizeIdx (stream σ') = symbol ∧
    StreamInputHasNext (stream σ') = false ∧
    output_bytes σ' = output_bytes σ ++ pads ∧
    List.length pads = Z.to_nat (dataWords symbol - n) ∧
    (∀ pad, pads !! 0%nat = Some pad → Z_of_byte pad = 129).
Proof.
  intros (Hr & Hne & Hsch & Hst & Hs & Hvc & Hwc & Hlen & Hb) Hnext n symbol
    Hsize Hcap.
  pose proof Hr as (Hvi & Hvo & Hnx).
  set (σA := mkState (mem σ)
               (set_outputChainValueCount 0
                  (set_outputChainWordCount 0
                     (set_currentScheme DmtxSchemeAscii (stream σ))))).
  assert (Hunlatch : EncodeChangeScheme dmtxGetSymbolAttribute
                       DmtxSchemeAscii DmtxUnlatchImplicit σ
                     = Some (tt, σA)).
  { unfold EncodeChangeScheme.
    rewrite (bind_Some _ _ _ _ _ (gets_eq _ _)), Hsch.
    rewrite decide_False by done.
    unfold EncodeChangeScheme_unlatch.
    rewrite (bind_Some _ _ _ _ _ (gets_eq _ _)), Hsch. cbv iota.
    erewrite (bind_Some (modify (set_currentScheme DmtxSchemeAscii)) _ σ tt
                _ eq_refl).
    unfold EncodeChangeScheme_latch. rewrite chkscheme_ok by done.
    erewrite (bind_Some (modify (set_currentScheme DmtxSchemeAscii)) _ _ tt
                _ eq_refl).
    erewrite (bind_Some (modify (set_outputChainWordCount 0)) _ _ tt
                _ eq_refl).
    erewrite (bind_Some (modify (set_outputChainValueCount 0)) _ _ tt
                _ eq_refl).
    by rewrite decide_False. }
  assert (Hpad := PadRemainingInAscii_content dmtxGetSymbolAttribute symbol
                    σA eq_refl Hst Hvo Hsize Hcap).
  apply wpt_elim in Hpad as ([] & σ2 & Hrun2 & pads & Happ & Hl & Hcontent).
  destruct Happ as (Hb2 & Hl2 & Hv2 & Hc2 & Hi2 & Hn2 & Hs2 & Hsch2).
  assert (Hst2 : status (stream σ2) = DmtxStatusEncoding)
    by (rewrite Hs2; exact Hst).
  exists (mkState (mem σ2)
            (set_status DmtxStatusComplete (set_sizeIdx symbol (stream σ2)))),
    pads.
  split.
  { unfold CompleteIfDoneBase256.
    rewrite (bind_Some _ _ _ _ _ (gets_eq _ _)), Hnext.
    change (negb false) with true. cbv iota.
    rewrite (bind_Some _ _ _ _ _ (gets_eq _ _)). unfold id. cbv zeta.
    replace (outputChainWordCount (stream σ)
             - outputChainValueCount (stream σ)) with 1 by lia.
    change (1 =? 1) with true. change (1 =? 2) with false.
    cbn [orb negb]. cbv iota.
    unfold CompleteIfDoneBase256_normal.
    rewrite (bind_Some _ _ _ _ _ (gets_eq _ _)). fold n. fold symbol.
    unfold chksize. rewrite decide_False by done.
    rewrite (bind_Some _ _ _ _ _ Hunlatch).
    rewrite (bind_Some _ _ _ _ _ Hrun2).
    unfold StreamMarkComplete, modify. by rewrite decide_True. }
  split; [done |]. split; [done |].
  split.
  { unfold StreamInputHasNext in *. simpl. by rewrite Hi2, Hn2. }
  split; [exact Hb2 |]. split; [exact Hl |].
  intros pad Hi. destruct (Hcontent 0%nat pad Hi) as [-> _]; done.
Qed.

End Base256Encode.

Section Base256Loop.

Variable FindSymbolSize : Z → Z → Z.
Variable dmtxGetSymbolAttribute : DmtxSymAttribute → Z → Z.

Local Abbreviation dataWords :=
  (dmtxGetSymbolAttribute DmtxSymAttribSymbolDataWords).
Local Abbreviation loop :=
  (EncodeSingleScheme2_loop FindSymbolSize dmtxGetSymbolAttribute).
Local Abbreviation chunk :=
  (EncodeNextChunk FindSymbolSize dmtxGetSymbolAttribute DmtxSchemeBase256).
Local Abbreviation complete :=
  (CompleteIfDoneBase256 FindSymbolSize dmtxGetSymbolAttribute).

Lemma EncodeNextChunk_base256_eq requestedSizeIdx σ σ1 :
  currentScheme (stream σ) = DmtxSchemeBase256 →
  EncodeNextChunkBase256 dmtxGetSymbolAttribute σ = Some (tt, σ1) →
  status (stream σ1) = DmtxStatusEncoding →
  chunk requestedSizeIdx σ
  = (complete requestedSizeIdx;; CHKERR; mret tt) σ1.
Proof.
  intros Hsch Hrun Hst. unfold EncodeNextChunk.
  rewrite (bind_Some _ _ _ _ _ (gets_eq _ _)).
  rewrite decide_False by (intros H; by apply H).
  unfold EncodeNextChunk_dispatch.
  rewrite (bind_Some _ _ _ _ _ (gets_eq _ _)), Hsch.
  rewrite (bind_Some _ _ _ _ _ Hrun).
  by rewrite chkerr_encoding.
Qed.

(** The first chunk is the chunk of the latched stream. *)
Lemma EncodeNextChunk_base256_latch requestedSizeIdx σ σL :
  currentScheme (stream σ) = DmtxSchemeAscii →
  EncodeChangeScheme dmtxGetSymbolAttribute DmtxSchemeBase256
    DmtxUnlatchExplicit σ = Some (tt, σL) →
  currentScheme (stream σL) = DmtxSchemeBase256 →
  status (stream σL) = DmtxStatusEncoding →
  chunk requestedSizeIdx σ = chunk requestedSizeIdx σL.
Proof.
  intros Hsch Hrun HschL HstL. unfold EncodeNextChunk.
  rewrite !(bind_Some _ _ _ _ _ (gets_eq _ _)), Hsch, HschL.
  rewrite decide_True by done.
  rewrite decide_False by (intros H; by apply H).
  rewrite (bind_Some _ _ _ _ _ Hrun).
  rewrite chkerr_encoding by done.
  by rewrite chkscheme_ok.
Qed.

Lemma CompleteIfDoneBase256_more requestedSizeIdx σ :
  StreamInputHasNext (stream σ) = true →
  complete requestedSizeIdx σ = Some (tt, σ).
Proof.
  intros Hnext. unfold CompleteIfDoneBase256.
  by rewrite (bind_Some _ _ _ _ _ (gets_eq _ _)), Hnext.
Qed.

(** The loop of [EncodeSingleScheme2] with target Base256 on a latched
    stream, up to the call of [CompleteIfDoneBase256] that finds the input
    exhausted. *)
Lemma EncodeSingleScheme2_loop_base256 requestedSizeIdx s out0 :
  ∀ (rest taken : list byte) (fuel : nat) (σ : State),
    (List.length rest <= S fuel)%nat →
    base256_chain s out0 (base256_payload (s + 3) taken) σ →
    unconsumed σ = rest →
    Z.of_nat (List.length taken) + Z.of_nat (List.length rest) <= 249 →
    length (output (stream σ)) + Z.of_nat (List.length rest)
      <= capacity (output (stream σ)) →
    ∃ σE fuel',
      base256_chain s out0 (base256_payload (s + 3) (taken ++ rest)) σE ∧
      StreamInputHasNext (stream σE) = false ∧
      capacity (output (stream σE)) = capacity (output (stream σ)) ∧
      loop (S fuel) DmtxSchemeBase256 requestedSizeIdx σ
      = ((complete requestedSizeIdx;; CHKERR; mret tt)
         ≫= λ _, loop fuel' DmtxSchemeBase256 requestedSizeIdx) σE.
Proof.
  induction rest as [|v rest IH]; intros taken fuel σ Hfuel Hchain Hu Hk
    Hroom.
  - (* no input at all *)
    pose proof Hchain as (Hr & Hne & Hsch & Hst & _).
    pose proof Hr as (Hvi & Hvo & Hnx).
    assert (Hnext : StreamInputHasNext (stream σ) = false).
    { apply unconsumed_nil; [done | apply Hvi | | done].
      destruct Hvi as [? ?]. lia. }
    exists σ, fuel. rewrite app_nil_r.
    split; [done |]. split; [done |]. split; [done |].
    simpl EncodeSingleScheme2_loop.
    rewrite (bind_Some _ _ _ _ _ (gets_eq _ _)).
    rewrite decide_True by done.
    apply bind_eq.
    apply (EncodeNextChunk_base256_eq _ σ σ); [done | | done].
    unfold EncodeNextChunkBase256.
    by rewrite (bind_Some _ _ _ _ _ (gets_eq _ _)), Hnext.
  - pose proof Hchain as (Hr & Hne & Hsch & Hst & _).
    simpl List.length in Hfuel, Hk, Hroom.
    destruct (EncodeNextChunkBase256_chunk dmtxGetSymbolAttribute s out0
                _ σ v rest Hchain Hu
                ltac:(rewrite base256_payload_length; lia) ltac:(lia))
      as (σ1 & Hrun & Hchain1 & Hu1 & Hc1).
    rewrite base256_payload_length, <- base256_payload_app in Hchain1.
    pose proof Hchain1 as (Hr1 & Hne1 & Hsch1 & Hst1 & _ & _ & _ & Hl1 & _).
    pose proof Hr1 as (Hvi1 & Hvo1 & Hnx1).
    pose proof (EncodeNextChunk_base256_eq requestedSizeIdx σ σ1 Hsch Hrun
                  Hst1) as Hchunk.
    replace (taken ++ v :: rest) with ((taken ++ [v]) ++ rest)
      by (by rewrite <- app_assoc).
    destruct rest as [|w rest].
    + (* the last byte *)
      assert (Hnext : StreamInputHasNext (stream σ1) = false).
      { apply unconsumed_nil; [done | apply Hvi1 | | done].
        destruct Hvi1 as [? ?]. lia. }
      exists σ1, fuel. rewrite app_nil_r.
      split; [done |]. split; [done |]. split; [done |].
      simpl EncodeSingleScheme2_loop.
      rewrite (bind_Some _ _ _ _ _ (gets_eq _ _)).
      rewrite decide_True by done.
      by apply bind_eq.
    + (* more input follows *)
      destruct (unconsumed_cons _ _ _ Hnx1 Hu1) as [Hnext1 _].
      assert (Hstep : chunk requestedSizeIdx σ = Some (tt, σ1)).
      { rewrite Hchunk.
        rewrite (bind_Some _ _ _ _ _
                   (CompleteIfDoneBase256_more _ _ Hnext1)).
        by rewrite chkerr_encoding. }
      rewrite (EncodeSingleScheme2_loop_step _ _ _ _ _ _ _ Hst Hstep).
      simpl List.length in Hfuel.
      destruct fuel as [|fuel]; [lia |].
      pose proof Hchain as (_ & _ & _ & _ & _ & _ & _ & Hl & _).
      rewrite base256_payload_length in Hl, Hl1.
      rewrite length_app in Hl1. simpl List.length in Hl1.
      destruct (IH (taken ++ [v]) fuel σ1) as (σE & fuel' & HchainE & HnE
                                              & HcE & HrunE);
        [simpl; lia | done | done
        | rewrite length_app; simpl List.length in *; lia
        | simpl List.length in *; lia |].
      exists σE, fuel'. split; [done |]. split; [done |].
      split; [congruence | done].
Qed.

(** X15.  A Base256 encode of at most 249 input bytes, from a stream in
    scheme Ascii that is encoding and holds [s] codewords, when the latch,
    the header and the bytes fit the output array and [FindSymbolSize]
    resolves them to a symbol of [words] data words that the array can
    hold: the encode passes and completes, recording that symbol, with
    all input consumed.  The codewords appended are the latch 231, one
    header byte holding the number of input bytes randomized at position
    [s + 2], every input byte randomized at its own position, and the
    pads of the symbol; the return to ASCII writes no codeword. *)
Theorem EncodeSingleScheme2_base256_encodes (fuel : nat)
    (requestedSizeIdx : Z) (σ : State) (bytes : list byte) :
  ascii_ready σ →
  unconsumed σ = bytes →
  Z.of_nat (List.length bytes) <= 249 →
  let s := length (output (stream σ)) in
  let n := s + 2 + Z.of_nat (List.length bytes) in
  let symbol := FindSymbolSize n requestedSizeIdx in
  let words := dataWords symbol in
  symbol ≠ DmtxUndefined →
  n <= capacity (output (stream σ)) →
  words <= capacity (output (stream σ)) →
  (1 <= fuel)%nat → (List.length bytes <= fuel)%nat →
  ∃ σ' pads,
    EncodeSingleScheme2 FindSymbolSize dmtxGetSymbolAttribute fuel
      DmtxSchemeBase256 requestedSizeIdx σ = Some (DmtxPass, σ') ∧
    status (stream σ') = DmtxStatusComplete ∧
    sizeIdx (stream σ') = symbol ∧
    StreamInputHasNext (stream σ') = false ∧
    output_bytes σ'
      = output_bytes σ
        ++ [byte_of_Z 231;
            Randomize255State2 (byte_of_Z (Z.of_nat (List.length bytes)))
              (s + 2)]
        ++ base256_payload (s + 3) bytes ++ pads ∧
    List.length pads = Z.to_nat (words - n) ∧
    (∀ pad, pads !! 0%nat = Some pad → Z_of_byte pad = 129).
Proof.
  intros Hr Hu Hk s n symbol words Hsize Hfit Hcap Hfuel1 Hfuel.
  destruct fuel as [|fuel]; [lia |].
  destruct (EncodeChangeScheme_latch_Base256 dmtxGetSymbolAttribute
              DmtxUnlatchExplicit σ Hr ltac:(fold s; lia))
    as (σL & HrunL & HchainL & HuL & HcL).
  fold s in HchainL.
  pose proof HchainL as (HrL & HneL & HschL & HstL & _ & _ & _ & HlL & _).
  simpl List.length in HlL.
  destruct (EncodeSingleScheme2_loop_base256 requestedSizeIdx s
              (output_bytes σ) bytes [] fuel σL ltac:(lia) HchainL
              ltac:(by rewrite HuL) ltac:(simpl; lia) ltac:(lia))
    as (σE & fuel' & HchainE & HnE & HcE & HrunE).
  simpl app in HchainE.
  pose proof HchainE as (_ & _ & _ & _ & _ & _ & _ & HlE & HbE).
  rewrite base256_payload_length in HlE, HbE.
  destruct (CompleteIfDoneBase256_last FindSymbolSize dmtxGetSymbolAttribute
              requestedSizeIdx s (output_bytes σ) _ σE HchainE HnE)
    as (σ' & pads & Hdone & Hst' & Hsize' & Hnext' & Hb' & Hlen' & Hpad').
  { by rewrite HlE. }
  { rewrite HlE. fold n symbol words. rewrite HcE, HcL. exact Hcap. }
  rewrite HlE in Hsize', Hlen'. fold n symbol words in Hsize', Hlen'.
  exists σ', pads.
  split.
  { unfold EncodeSingleScheme2. destruct Hr as (_ & Hsch & Hst & _).
    rewrite (bind_Some _ _ _ _ _ (gets_eq _ _)), Hsch.
    rewrite decide_False by (intros H; by apply H).
    erewrite bind_Some.
    2:{ transitivity (loop (S fuel) DmtxSchemeBase256 requestedSizeIdx σL).
        { simpl EncodeSingleScheme2_loop.
          rewrite !(bind_Some _ _ _ _ _ (gets_eq _ _)), Hst, HstL.
          rewrite decide_True by done.
          unfold mbind, M_bind.
          by rewrite (EncodeNextChunk_base256_latch requestedSizeIdx σ σL). }
        rewrite HrunE.
        erewrite bind_Some.
        2:{ rewrite (bind_Some _ _ _ _ _ Hdone).
            rewrite chkerr_stopped; [done |]. by rewrite Hst'. }
        apply EncodeSingleScheme2_loop_done. by rewrite Hst'. }
    rewrite (bind_Some _ _ _ _ _ (gets_eq _ _)). unfold id.
    rewrite Hnext', bool_decide_eq_false_2 by (intros H; by apply H).
    done. }
  split; [done |]. split; [done |]. split; [done |].
  split; [| done].
  rewrite Hb', HbE. by rewrite <- !app_assoc.
Qed.

End Base256Loop.

Lemma EncodeSingleScheme2_base256_encodes_witness :
  ∃ σ' pads,
    EncodeSingleScheme2 FindSymbolSizeAuto SymbolDataWords 4
      DmtxSchemeBase256 DmtxSymbolSquareAuto
      (state_of_input [x00; xff] 8) = Some (DmtxPass, σ') ∧
    status (stream σ') = DmtxStatusComplete ∧
    sizeIdx (stream σ') = 1 ∧
    StreamInputHasNext (stream σ') = false ∧
    output_bytes σ'
      = [] ++ [byte_of_Z 231; Randomize255State2 (byte_of_Z 2) (0 + 2)]
        ++ base256_payload (0 + 3) [x00; xff] ++ pads ∧
    List.length pads = Z.to_nat (5 - 4) ∧
    (∀ pad, pads !! 0%nat = Some pad → Z_of_byte pad = 129).
Proof.
  apply (EncodeSingleScheme2_base256_encodes FindSymbolSizeAuto
           SymbolDataWords 4 DmtxSymbolSquareAuto
           (state_of_input [x00; xff] 8) [x00; xff]).
  - apply state_of_input_ready.
  - reflexivity.
  - simpl. lia.
  - vm_compute. discriminate.
  - vm_compute. discriminate.
  - vm_compute. discriminate.
  - lia.
  - simpl. lia.
Defined.

(** ** C40, Text, X12: two values that end the symbol *)

Lemma output_frame σ τ :
  output (stream τ) = output (stream σ) →
  mem τ !! b (output (stream σ)) = mem σ !! b (output (stream σ)) →
  output_bytes τ = output_bytes σ ∧
  (valid_list (mem σ) (output (stream σ)) →
   valid_list (mem τ) (output (stream τ))).
Proof.
  intros Ho Hm. unfold output_bytes, bytes_of, valid_list.
  by rewrite Ho, Hm.
Qed.

Lemma EncodeValuesCTX_ok (valueList : DmtxByteList) (cells : list byte)
    (v0 v1 v2 : byte) (σ : State) :
  currentScheme (stream σ) = DmtxSchemeC40
  ∨ currentScheme (stream σ) = DmtxSchemeText
  ∨ currentScheme (stream σ) = DmtxSchemeX12 →
  status (stream σ) = DmtxStatusEncoding →
  valid_list (mem σ) (output (stream σ)) →
  length (output (stream σ)) + 2 <= capacity (output (stream σ)) →
  length valueList = 3 →
  mem σ !! b valueList = Some cells →
  cells !! 0%nat = Some v0 → cells !! 1%nat = Some v1 →
  cells !! 2%nat = Some v2 →
  let P := 1600 * Z_of_byte v0 + 40 * Z_of_byte v1 + Z_of_byte v2 + 1 in
  EncodeValuesCTX valueList σ
  = Some (tt, count_st 3
                (append_st (byte_of_Z (Z.rem P 256))
                   (append_st (byte_of_Z (Z.quot P 256)) σ))).
Proof.
  intros Hsch Hst Hvo Hroom Hlen Hcells H0 H1 H2 P.
  unfold EncodeValuesCTX.
  rewrite (bind_Some _ _ _ _ _ (gets_eq _ _)).
  rewrite decide_False
    by (intros (? & ? & ?); destruct Hsch as [?|[?|?]]; done).
  rewrite decide_False by (intros ?; done).
  rewrite (bind_Some _ _ _ _ _ (read_ok valueList 0 σ cells v0 Hcells H0)).
  rewrite (bind_Some _ _ _ _ _ (read_ok valueList 1 σ cells v1 Hcells H1)).
  rewrite (bind_Some _ _ _ _ _ (read_ok valueList 2 σ cells v2 Hcells H2)).
  fold P.
  erewrite bind_Some by (apply StreamOutputChainAppend_ok; [done | lia]).
  rewrite chkerr_encoding by done.
  erewrite bind_Some.
  2:{ apply StreamOutputChainAppend_ok; [| simpl; lia].
      apply (valid_append _ σ); [done | lia]. }
  by rewrite chkerr_encoding.
Qed.

Lemma codewords_pair_st (P : Z) (σ : State) :
  valid_list (mem σ) (output (stream σ)) →
  length (output (stream σ)) + 2 <= capacity (output (stream σ)) →
  0 <= P < 65536 →
  codewords (count_st 3
               (append_st (byte_of_Z (Z.rem P 256))
                  (append_st (byte_of_Z (Z.quot P 256)) σ)))
  = codewords σ ++ [P / 256; P mod 256].
Proof.
  intros Hvo Hroom HP.
  rewrite codewords_count_st, codewords_append.
  - rewrite codewords_append by (done || lia).
    rewrite Z.quot_div_nonneg, Z.rem_mod_nonneg by lia.
    assert (0 <= P / 256 < 256).
    { split; [apply Z.div_pos; lia |].
      apply Z.div_lt_upper_bound; lia. }
    rewrite Z_of_byte_of_Z_small by done.
    rewrite Z_of_byte_of_Z_small by (apply Z.mod_pos_bound; lia).
    by rewrite <- app_assoc.
  - apply (valid_append _ σ); [done | lia].
  - simpl. lia.
Qed.

Section PairCompletes.

Variable FindSymbolSize : Z → Z → Z.
Variable dmtxGetSymbolAttribute : DmtxSymAttribute → Z → Z.

Local Abbreviation dataWords :=
  (dmtxGetSymbolAttribute DmtxSymAttribSymbolDataWords).

(** End-of-symbol condition (b): two values are left and the symbol has
    room for exactly two codewords. *)
Lemma CompleteIfDonePartialCTX_pair (valueList : DmtxByteList)
    (cells : list byte) (c0 c1 : byte) (requestedSizeIdx : Z) (σ : State) :
  gathering valueList cells σ →
  length valueList = 2 →
  cells !! 0%nat = Some c0 → cells !! 1%nat = Some c1 →
  Z_of_byte c0 <= 39 → Z_of_byte c1 <= 39 →
  let symbol :=
    FindSymbolSize (length (output (stream σ))) requestedSizeIdx in
  symbol ≠ DmtxUndefined →
  dataWords symbol = length (output (stream σ)) + 2 →
  length (output (stream σ)) + 2 <= capacity (output (stream σ)) →
  let P := 1600 * Z_of_byte c0 + 40 * Z_of_byte c1 + 1 in
  ∃ σ',
    CompleteIfDonePartialCTX FindSymbolSize dmtxGetSymbolAttribute
      valueList requestedSizeIdx σ = Some (tt, σ') ∧
    status (stream σ') = DmtxStatusComplete ∧
    sizeIdx (stream σ') = symbol ∧
    input (stream σ') = input (stream σ) ∧
    inputNext (stream σ') = inputNext (stream σ) ∧
    b (output (stream σ')) = b (output (stream σ)) ∧
    codewords σ' = codewords σ ++ [P / 256; P mod 256].
Proof.
  intros (Hsch & Hst & Hn & Hvo & Hcells & Hfour & Hcap & Hl0 & Hni & Hno)
    Hlen H0 H1 Hc0 Hc1 symbol Hsize Hwords Hroom P.
  pose proof (Z_of_byte_range c0). pose proof (Z_of_byte_range c1).
  set (cells' := <[2%nat := byte_of_Z DmtxValueCTXShift1]> cells).
  set (l' := mkByteList (length valueList + 1) (capacity valueList)
               (b valueList)).
  set (σ3 := mkState (<[b valueList := cells']> (mem σ)) (stream σ)).
  assert (Hpush : push valueList DmtxValueCTXShift1 σ = Some (l', σ3)).
  { unfold σ3, cells', l'.
    rewrite (push_ok valueList _ σ cells Hcells) by lia.
    by rewrite Hlen. }
  destruct (output_frame σ σ3 eq_refl) as [Hb3 Hv3].
  { unfold σ3. simpl. by rewrite lookup_insert_ne. }
  specialize (Hv3 Hvo).
  assert (Hvalues : EncodeValuesCTX l' σ3
                    = Some (tt, count_st 3
                                  (append_st (byte_of_Z (Z.rem P 256))
                                     (append_st (byte_of_Z (Z.quot P 256))
                                        σ3)))).
  { replace P with (1600 * Z_of_byte c0 + 40 * Z_of_byte c1
                    + Z_of_byte (byte_of_Z DmtxValueCTXShift1) + 1)
      by (change (Z_of_byte (byte_of_Z DmtxValueCTXShift1)) with 0;
          unfold P; lia).
    apply (EncodeValuesCTX_ok l' cells'); try done.
    - unfold l'. simpl. lia.
    - unfold σ3. simpl. by rewrite lookup_insert_eq.
    - unfold cells'. by rewrite list_lookup_insert_ne.
    - unfold cells'. by rewrite list_lookup_insert_ne.
    - unfold cells'. apply list_lookup_insert_eq. lia. }
  eexists. split.
  { unfold CompleteIfDonePartialCTX.
    rewrite (bind_Some _ _ _ _ _ (gets_eq _ _)).
    rewrite decide_False
      by (intros (? & ? & ?); destruct Hsch as [?|[?|?]]; done).
    rewrite Hlen. change (negb ((2 =? 1) || (2 =? 2))) with false. cbv iota.
    rewrite (bind_Some _ _ _ _ _ (gets_eq _ _)). fold symbol.
    unfold chksize. rewrite decide_False by done.
    rewrite GetRemainingSymbolCapacity_defined by done.
    replace (dataWords symbol - length (output (stream σ))) with 2 by lia.
    change ((2 =? 2) && (2 =? 2)) with true. cbv iota.
    rewrite (bind_Some _ _ _ _ _ Hpush).
    rewrite (bind_Some _ _ _ _ _ Hvalues).
    rewrite chkerr_encoding by done.
    unfold StreamMarkComplete, modify. rewrite decide_True by done.
    reflexivity. }
  split; [done |]. split; [done |]. split; [done |]. split; [done |].
  split; [done |].
  change (codewords (count_st 3
                       (append_st (byte_of_Z (Z.rem P 256))
                          (append_st (byte_of_Z (Z.quot P 256)) σ3)))
          = codewords σ ++ [P / 256; P mod 256]).
  rewrite codewords_pair_st by (done || unfold P; lia).
  unfold codewords. by rewrite Hb3.
Qed.

End PairCompletes.

Section PairEncode.

Variable FindSymbolSize : Z → Z → Z.
Variable dmtxGetSymbolAttribute : DmtxSymAttribute → Z → Z.

Local Abbreviation dataWords :=
  (dmtxGetSymbolAttribute DmtxSymAttribSymbolDataWords).

(** The chunk of a stream in C40, Text or X12 whose whole remaining input
    is two digits or spaces, when the symbol has room for exactly two
    more codewords. *)
Lemma EncodeNextChunkCTX_pair requestedSizeIdx σ v0 v1 :
  currentScheme (stream σ) = DmtxSchemeC40
  ∨ currentScheme (stream σ) = DmtxSchemeText
  ∨ currentScheme (stream σ) = DmtxSchemeX12 →
  status (stream σ) = DmtxStatusEncoding →
  ready σ →
  unconsumed σ = [v0; v1] →
  Forall (λ v, ISDIGIT (Z_of_byte v) = true ∨ Z_of_byte v = 32) [v0; v1] →
  let symbol :=
    FindSymbolSize (length (output (stream σ))) requestedSizeIdx in
  symbol ≠ DmtxUndefined →
  dataWords symbol = length (output (stream σ)) + 2 →
  length (output (stream σ)) + 2 <= capacity (output (stream σ)) →
  let value (v : byte) :=
    if Z_of_byte v =? 32 then 3 else Z_of_byte v - 44 in
  let P := 1600 * value v0 + 40 * value v1 + 1 in
  ∃ σ',
    EncodeNextChunkCTX FindSymbolSize dmtxGetSymbolAttribute
      requestedSizeIdx σ = Some (tt, σ') ∧
    status (stream σ') = DmtxStatusComplete ∧
    sizeIdx (stream σ') = symbol ∧
    StreamInputHasNext (stream σ') = false ∧
    codewords σ' = codewords σ ++ [P / 256; P mod 256].
Proof.
  intros Hsch Hst (Hvi & Hvo & Hn) Hu Hd symbol Hsize Hwords Hroom value P.
  apply Forall_cons in Hd as [Hd0 Hd]. apply Forall_cons in Hd as [Hd1 _].
  assert (Hval : ∀ v, ISDIGIT (Z_of_byte v) = true ∨ Z_of_byte v = 32 →
            3 <= value v <= 13).
  { intros v [H|H]; unfold value.
    - apply ISDIGIT_true in H.
      destruct (Z.eqb_spec (Z_of_byte v) 32); lia.
    - rewrite H. simpl. lia. }
  pose proof (Hval v0 Hd0) as Hr0. pose proof (Hval v1 Hd1) as Hr1.
  unfold EncodeNextChunkCTX, with_array.
  set (p := fresh (dom (mem σ))).
  set (τ := mkState (<[p := replicate 4 x00]> (mem σ)) (stream σ)).
  assert (Hfresh : mem σ !! p = None).
  { apply not_elem_of_dom. apply is_fresh. }
  assert (Hin : is_Some (mem σ !! b (input (stream σ)))).
  { unfold unconsumed, bytes_of in Hu.
    destruct (mem σ !! b (input (stream σ))); [done |].
    simpl in Hu. by rewrite take_nil, drop_nil in Hu. }
  assert (Hout : is_Some (mem σ !! b (output (stream σ)))).
  { destruct Hvo as [[? ?] Hc].
    destruct (mem σ !! b (output (stream σ))); [done | simpl in Hc; lia]. }
  assert (Hni : p ≠ b (input (stream σ))).
  { intros E. rewrite <- E, Hfresh in Hin. by destruct Hin. }
  assert (Hno : p ≠ b (output (stream σ))).
  { intros E. rewrite <- E, Hfresh in Hout. by destruct Hout. }
  assert (Hleft : length (input (stream σ)) - inputNext (stream σ) = 2).
  { apply (f_equal List.length) in Hu. unfold unconsumed, bytes_of in Hu.
    rewrite length_drop, length_take in Hu. simpl in Hu.
    destruct Hvi as [[? ?] ?]. lia. }
  assert (Huτ : unconsumed τ = [v0; v1]).
  { rewrite (unconsumed_frame σ τ); [done | done | done |].
    unfold τ. simpl. by rewrite lookup_insert_ne. }
  set (l0 := dmtxByteListBuild p 4).
  set (cells1 := <[0%nat := byte_of_Z (value v0)]> (replicate 4 x00)).
  set (l1 := mkByteList 1 4 p).
  set (σ1 := mkState (<[p := cells1]> (mem τ)) (stream (advance_st τ))).
  set (cells2 := <[1%nat := byte_of_Z (value v1)]> cells1).
  set (l2 := mkByteList 2 4 p).
  set (σ2 := mkState (<[p := cells2]> (mem σ1)) (stream (advance_st σ1))).
  assert (Hu1 : unconsumed σ1 = [v1]).
  { rewrite (unconsumed_frame (advance_st τ) σ1);
      [by apply (unconsumed_advance τ v0) | done | done |].
    unfold σ1. simpl. by rewrite lookup_insert_ne. }
  assert (Hnext2 : StreamInputHasNext (stream σ2) = false).
  { unfold StreamInputHasNext. simpl. apply Z.ltb_ge. lia. }
  assert (Hloop : EncodeNextChunkCTX_loop 2 l0 τ
                  = Some (Fallthrough l2, σ2)).
  { rewrite (EncodeNextChunkCTX_loop_round 1 l0 (replicate 4 x00) τ v0 [v1]);
      try done.
    2:{ unfold τ. simpl. by rewrite lookup_insert_eq. }
    2:{ simpl. lia. }
    rewrite Nat.add_1_r.
    erewrite bind_Some
      by (apply EncodeNextChunkCTX_flush_short; simpl; lia).
    cbv beta iota.
    change (EncodeNextChunkCTX_loop 1 l1 σ1 = Some (Fallthrough l2, σ2)).
    rewrite (EncodeNextChunkCTX_loop_round 0 l1 cells1 σ1 v1 []);
      try done.
    2:{ simpl. lia. }
    2:{ unfold σ1. simpl. by rewrite lookup_insert_eq. }
    2:{ simpl. lia. }
    rewrite Nat.add_1_r.
    erewrite bind_Some
      by (apply EncodeNextChunkCTX_flush_short; simpl; lia).
    cbv beta iota.
    change (EncodeNextChunkCTX_loop 0 l2 σ2 = Some (Fallthrough l2, σ2)).
    simpl EncodeNextChunkCTX_loop.
    by rewrite (bind_Some _ _ _ _ _ (gets_eq _ _)), Hnext2. }
  assert (Hg : gathering l2 cells2 σ2).
  { unfold gathering, σ2, σ1, τ. simpl.
    split; [exact Hsch |]. split; [exact Hst |]. split; [lia |].
    split; [unfold valid_list; simpl; by rewrite !lookup_insert_ne |].
    split; [by rewrite lookup_insert_eq |]. repeat split; done || lia. }
  destruct (CompleteIfDonePartialCTX_pair FindSymbolSize
              dmtxGetSymbolAttribute l2 cells2 (byte_of_Z (value v0))
              (byte_of_Z (value v1)) requestedSizeIdx σ2 Hg eq_refl
              eq_refl eq_refl)
    as (σ' & Hrun & Hst' & Hsz' & Hi' & Hn' & Hb' & Hcw');
    try (rewrite Z_of_byte_of_Z_small by lia; lia); try done.
  rewrite !Z_of_byte_of_Z_small in Hcw' by lia.
  exists (mkState (delete p (mem σ')) (stream σ')).
  split.
  { rewrite (bind_Some _ _ _ _ _ (gets_eq _ _)). unfold id.
    change (length (input (stream τ)) - inputNext (stream τ))
      with (length (input (stream σ)) - inputNext (stream σ)).
    rewrite Hleft. change (Z.to_nat 2) with 2%nat. fold l0.
    rewrite (bind_Some _ _ _ _ _ Hloop).
    rewrite (bind_Some _ _ _ _ _ (gets_eq _ _)), Hnext2.
    change (negb false && (0 <? length l2)) with true. cbv iota.
    rewrite (bind_Some _ _ _ _ _ Hrun).
    rewrite chkerr_stopped by (by rewrite Hst').
    reflexivity. }
  split; [done |]. split; [done |].
  split.
  { unfold StreamInputHasNext in *. simpl. by rewrite Hi', Hn'. }
  assert (Hσ2 : codewords σ2 = codewords σ).
  { unfold codewords, output_bytes, bytes_of, σ2, σ1, τ. simpl.
    by rewrite !lookup_insert_ne. }
  transitivity (codewords σ'); [| by rewrite Hcw', Hσ2].
  unfold codewords, output_bytes, bytes_of. simpl.
  rewrite lookup_delete_ne; [done |]. by rewrite Hb'.
Qed.

End PairEncode.

Section PairRun.

Variable FindSymbolSize : Z → Z → Z.
Variable dmtxGetSymbolAttribute : DmtxSymAttribute → Z → Z.

Local Abbreviation dataWords :=
  (dmtxGetSymbolAttribute DmtxSymAttribSymbolDataWords).

(** X16.  An encode to C40, Text or X12 of exactly two input bytes that
    are digits or spaces, from a stream in scheme Ascii that is encoding
    and holds [s] codewords, when [FindSymbolSize] resolves [s + 1]
    codewords to a symbol of [s + 3] data words: the encode passes and
    completes with that symbol.  It appends the latch and the two
    codewords of the triplet made of the two values and a Shift1 value
    (0) as padding; no unlatch is written. *)
Theorem EncodeSingleScheme2_CTX_pair_completes (fuel : nat)
    (targetScheme : DmtxScheme) (requestedSizeIdx : Z) (σ : State)
    (v0 v1 : byte) :
  targetScheme = DmtxSchemeC40 ∨ targetScheme = DmtxSchemeText
  ∨ targetScheme = DmtxSchemeX12 →
  ascii_ready σ →
  unconsumed σ = [v0; v1] →
  Forall (λ v, ISDIGIT (Z_of_byte v) = true ∨ Z_of_byte v = 32) [v0; v1] →
  let s := length (output (stream σ)) in
  let symbol := FindSymbolSize (s + 1) requestedSizeIdx in
  symbol ≠ DmtxUndefined →
  dataWords symbol = s + 3 →
  s + 3 <= capacity (output (stream σ)) →
  (1 <= fuel)%nat →
  let value (v : byte) :=
    if Z_of_byte v =? 32 then 3 else Z_of_byte v - 44 in
  let P := 1600 * value v0 + 40 * value v1 + 1 in
  ∃ σ',
    EncodeSingleScheme2 FindSymbolSize dmtxGetSymbolAttribute fuel
      targetScheme requestedSizeIdx σ = Some (DmtxPass, σ') ∧
    status (stream σ') = DmtxStatusComplete ∧
    sizeIdx (stream σ') = symbol ∧
    StreamInputHasNext (stream σ') = false ∧
    codewords σ' =
      codewords σ ++ [match targetScheme with
                      | DmtxSchemeC40 => 230
                      | DmtxSchemeText => 239
                      | _ => 238
                      end; P / 256; P mod 256].
Proof.
  intros Htarget Hr Hu Hd s symbol Hsize Hwords Hcap Hfuel value P.
  pose proof Hr as ((Hvi & Hvo & Hn) & Hsch & Hst & Hne).
  assert (Hna : targetScheme ≠ DmtxSchemeAscii)
    by (destruct Htarget as [-> | [-> | ->]]; done).
  assert (Hnb : targetScheme ≠ DmtxSchemeBase256)
    by (destruct Htarget as [-> | [-> | ->]]; done).
  assert (Hroom : length (output (stream σ)) < capacity (output (stream σ)))
    by (fold s; lia).
  set (cw := byte_of_Z match targetScheme with
                       | DmtxSchemeC40 => DmtxValueC40Latch
                       | DmtxSchemeText => DmtxValueTextLatch
                       | DmtxSchemeX12 => DmtxValueX12Latch
                       | _ => DmtxValueEdifactLatch
                       end).
  set (τ := latch_st targetScheme cw σ).
  destruct (append_st_ready cw σ (conj Hvi (conj Hvo Hn)) Hne Hroom)
    as (Hr1 & Hu1 & Hb1).
  assert (Hrτ : ready τ) by exact Hr1.
  assert (Huτ : unconsumed τ = [v0; v1]) by (rewrite <- Hu; exact Hu1).
  assert (Hcwτ : codewords τ = codewords σ ++ [Z_of_byte cw]).
  { change (codewords (append_st cw σ) = codewords σ ++ [Z_of_byte cw]).
    by apply codewords_append. }
  destruct (EncodeNextChunkCTX_pair FindSymbolSize dmtxGetSymbolAttribute
              requestedSizeIdx τ v0 v1)
    as (ι & Hctx & Hdone & Hsz & Hnext & Hcw);
    [exact Htarget | exact Hst | exact Hrτ | exact Huτ | exact Hd
    | exact Hsize
    | change (dataWords symbol = s + 1 + 2); lia
    | change (s + 1 + 2 <= capacity (output (stream σ))); lia |].
  assert (Hchunk : EncodeNextChunk FindSymbolSize dmtxGetSymbolAttribute
                     targetScheme requestedSizeIdx σ = Some (tt, ι)).
  { unfold EncodeNextChunk.
    rewrite (bind_Some _ _ _ _ _ (gets_eq _ _)), Hsch.
    rewrite decide_True by done.
    rewrite (bind_Some _ _ _ _ _
               (EncodeChangeScheme_latch_eq dmtxGetSymbolAttribute
                  targetScheme DmtxUnlatchExplicit σ Hsch Hst Hvo Hroom
                  Hna Hnb)).
    fold cw τ. rewrite chkerr_encoding by done.
    rewrite chkscheme_ok by done.
    unfold EncodeNextChunk_dispatch.
    rewrite (bind_Some _ _ _ _ _ (gets_eq _ _)).
    change (currentScheme (stream τ)) with targetScheme.
    destruct Htarget as [-> | [-> | ->]]; cbv iota;
      rewrite (bind_Some _ _ _ _ _ Hctx);
      rewrite chkerr_stopped; (done || by rewrite Hdone). }
  exists ι. split; [| split; [done | split; [exact Hsz | split; [done |]]]].
  - destruct fuel as [|fuel]; [lia |].
    unfold EncodeSingleScheme2.
    rewrite (bind_Some _ _ _ _ _ (gets_eq _ _)), Hsch.
    rewrite decide_False by (intros H; by apply H).
    erewrite bind_Some.
    2:{ rewrite (EncodeSingleScheme2_loop_step _ _ _ _ _ _ _ Hst Hchunk).
        apply EncodeSingleScheme2_loop_done. by rewrite Hdone. }
    rewrite (bind_Some _ _ _ _ _ (gets_eq _ _)). unfold id.
    rewrite Hnext, bool_decide_eq_false_2 by (intros H; by apply H).
    done.
  - rewrite Hcw, Hcwτ, <- app_assoc.
    by destruct Htarget as [-> | [-> | ->]].
Qed.

End PairRun.

Lemma EncodeSingleScheme2_CTX_pair_completes_witness :
  ∃ σ',
    EncodeSingleScheme2 FindSymbolSizeAuto SymbolDataWords 1
      DmtxSchemeC40 DmtxSymbolSquareAuto (state_of_input [x31; x32] 8)
    = Some (DmtxPass, σ') ∧
    status (stream σ') = DmtxStatusComplete ∧
    sizeIdx (stream σ') = 0 ∧
    StreamInputHasNext (stream σ') = false ∧
    codewords σ' = [] ++ [230; 8241 / 256; 8241 mod 256].
Proof.
  apply (EncodeSingleScheme2_CTX_pair_completes FindSymbolSizeAuto
           SymbolDataWords 1 DmtxSchemeC40 DmtxSymbolSquareAuto
           (state_of_input [x31; x32] 8) x31 x32).
  - by left.
  - apply state_of_input_ready.
  - reflexivity.
  - repeat constructor.
  - vm_compute. discriminate.
  - reflexivity.
  - vm_compute. discriminate.
  - lia.
Defined.
